(** * vnmark-view: transition and scene-reconciliation engine

    A shallow embedding of the TypeScript sources of vnmark-view
    (Transition.ts, Converters.ts, ElementResolvedProperties.ts,
    PropertyValue.ts, ElementPropertyMatcher.ts, Engine.ts, Layout.ts,
    Element.ts, View.ts) together with the properties proved about them.

    Conventions of the embedding:
    - a JavaScript [number] is a rational [Q], and arithmetic on it is
      exact where the code rounds to the nearest double; strict equality
      [===] on numbers is [Qeq_bool]; the only NaN the modelled code
      relies on is the initial [lastUpdateTime], which is an [option Q];
      the index of an element is a double that holds a natural number,
      kept as that number in [Z] and rounded where it is read;
    - a [throw] is the [Err] branch of [result]; [OutOfFuel] is not a
      JavaScript error but the bound of a recursion of the model, shown
      never to be reached;
    - an object identity (a Transition, a rendered Object, a DOM node) is
      a [nat]; mutable objects live in explicit stores;
    - [notifyCallbacks(set)] is recorded as a [Notification]: the owner of
      a transition runs the callbacks it registered in that set, in the
      order of the notifications. *)

From Stdlib Require Import Ascii String QArith Qminmax Lqa Sorted.
From Stdlib Require DecimalString DecimalPos DecimalN DecimalFacts.
From stdpp Require Import base option list strings gmap.

Set Default Proof Using "Type".

(** ** Errors *)

Inductive Error :=
| TransitionError (message : string)
| ViewError (message : string)
| EngineError (message : string)
| OutOfFuel.

Inductive result (A : Type) :=
| Ok (a : A)
| Err (e : Error).
Arguments Ok {A} a.
Arguments Err {A} e.

#[global] Instance result_ret : MRet result := λ A a, Ok a.

#[global] Instance result_bind : MBind result := λ A B k r,
  match r with
  | Ok a => k a
  | Err e => Err e
  end.

(** [array.forEach(it => f(it))] over a snapshot of the array, for an
    [f] that updates the state and may throw. *)
Fixpoint forEach {A S : Type} (f : A → S → result S) (array : list A)
    (state : S) : result S :=
  match array with
  | [] => Ok state
  | it :: array => state ← f it state; forEach f array state
  end.

(** [Arrays2.remove(array, value)]: [indexOf] and [splice] drop the first
    occurrence. *)
Fixpoint remove_first {A : Type} `{EqDecision A} (value : A) (array : list A)
    : list A :=
  match array with
  | [] => []
  | it :: array =>
      if decide (it = value) then array
      else it :: remove_first value array
  end.

(** ** Transition.ts *)

Module Transition.

#[local] Open Scope Q_scope.

(** The five callback sets of a transition. *)
Inductive CallbackSet := OnStart | OnPause | OnResume | OnEnd | OnUpdate.

Record Converter (V : Type) := {
  convertToNumber : V → Q;
  convertFromNumber : Q → V
}.
Arguments convertToNumber {V} _ _.
Arguments convertFromNumber {V} _ _.

(** Converters.ts *)
Definition IdentityConverter : Converter Q :=
  {| convertToNumber := fun it => it; convertFromNumber := fun it => it |}.

(** Easings.ts *)
Definition LinearEasing : Q → Q := fun it => it.

Record t (V : Type) := {
  startValue : V;
  endValue : V;
  duration : Q;
  converter : Converter V;
  currentValue : V;
  easing : Q → Q;
  delay : Q;
  isStarted : bool;
  isPaused : bool;
  isEnded : bool;
  lastUpdateTime : option Q;
  runningTime : Q
}.
Arguments startValue {V} _.
Arguments endValue {V} _.
Arguments duration {V} _.
Arguments converter {V} _.
Arguments currentValue {V} _.
Arguments easing {V} _.
Arguments delay {V} _.
Arguments isStarted {V} _.
Arguments isPaused {V} _.
Arguments isEnded {V} _.
Arguments lastUpdateTime {V} _.
Arguments runningTime {V} _.

(** One call of [notifyCallbacks]: the set that was notified and the
    [currentValue] handed to its callbacks. *)
Definition Notification (V : Type) : Type := (CallbackSet * V)%type.

Section Methods.
Context {V : Type}.

(** [new Transition(startValue, endValue, duration, converter)] *)
Definition new (startValue endValue : V) (duration : Q)
    (converter : Converter V) : t V :=
  {| startValue := startValue; endValue := endValue; duration := duration;
     converter := converter; currentValue := startValue;
     easing := LinearEasing; delay := 0;
     isStarted := false; isPaused := false; isEnded := false;
     lastUpdateTime := None; runningTime := 0 |}.

Definition setEasing (easing : Q → Q) (this : t V) : t V :=
  {| startValue := startValue this; endValue := endValue this;
     duration := duration this; converter := converter this;
     currentValue := currentValue this; easing := easing;
     delay := delay this; isStarted := isStarted this;
     isPaused := isPaused this; isEnded := isEnded this;
     lastUpdateTime := lastUpdateTime this;
     runningTime := runningTime this |}.

Definition setDelay (delay : Q) (this : t V) : t V :=
  {| startValue := startValue this; endValue := endValue this;
     duration := duration this; converter := converter this;
     currentValue := currentValue this; easing := easing this;
     delay := delay; isStarted := isStarted this;
     isPaused := isPaused this; isEnded := isEnded this;
     lastUpdateTime := lastUpdateTime this;
     runningTime := runningTime this |}.

Definition set_currentValue (v : V) (this : t V) : t V :=
  {| startValue := startValue this; endValue := endValue this;
     duration := duration this; converter := converter this;
     currentValue := v; easing := easing this;
     delay := delay this; isStarted := isStarted this;
     isPaused := isPaused this; isEnded := isEnded this;
     lastUpdateTime := lastUpdateTime this;
     runningTime := runningTime this |}.

Definition set_isStarted (b : bool) (this : t V) : t V :=
  {| startValue := startValue this; endValue := endValue this;
     duration := duration this; converter := converter this;
     currentValue := currentValue this; easing := easing this;
     delay := delay this; isStarted := b;
     isPaused := isPaused this; isEnded := isEnded this;
     lastUpdateTime := lastUpdateTime this;
     runningTime := runningTime this |}.

Definition set_isPaused (b : bool) (this : t V) : t V :=
  {| startValue := startValue this; endValue := endValue this;
     duration := duration this; converter := converter this;
     currentValue := currentValue this; easing := easing this;
     delay := delay this; isStarted := isStarted this;
     isPaused := b; isEnded := isEnded this;
     lastUpdateTime := lastUpdateTime this;
     runningTime := runningTime this |}.

Definition set_isEnded (b : bool) (this : t V) : t V :=
  {| startValue := startValue this; endValue := endValue this;
     duration := duration this; converter := converter this;
     currentValue := currentValue this; easing := easing this;
     delay := delay this; isStarted := isStarted this;
     isPaused := isPaused this; isEnded := b;
     lastUpdateTime := lastUpdateTime this;
     runningTime := runningTime this |}.

Definition set_lastUpdateTime (time : option Q) (this : t V) : t V :=
  {| startValue := startValue this; endValue := endValue this;
     duration := duration this; converter := converter this;
     currentValue := currentValue this; easing := easing this;
     delay := delay this; isStarted := isStarted this;
     isPaused := isPaused this; isEnded := isEnded this;
     lastUpdateTime := time;
     runningTime := runningTime this |}.

Definition set_runningTime (time : Q) (this : t V) : t V :=
  {| startValue := startValue this; endValue := endValue this;
     duration := duration this; converter := converter this;
     currentValue := currentValue this; easing := easing this;
     delay := delay this; isStarted := isStarted this;
     isPaused := isPaused this; isEnded := isEnded this;
     lastUpdateTime := lastUpdateTime this;
     runningTime := time |}.

Definition notifyCallbacks (this : t V) (callbacks : CallbackSet)
    : list (Notification V) :=
  [(callbacks, currentValue this)].

(** [get isRunning] *)
Definition isRunning (this : t V) : bool :=
  isStarted this && negb (isPaused this) && negb (isEnded this).

(** [get fraction]: [!this.duration] holds exactly for a zero duration. *)
Definition fraction (this : t V) : Q :=
  if Qeq_bool (duration this) 0 then 1
  else Qmin (Qmax 0 ((runningTime this - delay this) / duration this)) 1.

(** [private updateCurrentValue()] *)
Definition updateCurrentValue (this : t V) : t V * list (Notification V) :=
  let fraction := fraction this in
  let numberFraction := easing this fraction in
  let initialNumber := convertToNumber (converter this) (startValue this) in
  let targetNumber := convertToNumber (converter this) (endValue this) in
  let currentNumber :=
    initialNumber + numberFraction * (targetNumber - initialNumber) in
  let this := set_currentValue
                (convertFromNumber (converter this) currentNumber) this in
  let isEnding := Qeq_bool fraction 1 in
  let this := if isEnding then set_isEnded true this else this in
  (this,
   notifyCallbacks this OnUpdate
     ++ (if isEnding then notifyCallbacks this OnEnd else [])).

(** [start()] *)
Definition start (this : t V) : result (t V * list (Notification V)) :=
  if isEnded this then
    Err (TransitionError "Cannot start a transition that has already ended")
  else if isStarted this then Ok (this, [])
  else
    let this := set_isStarted true this in
    let started := notifyCallbacks this OnStart in
    let '(this, updated) := updateCurrentValue this in
    Ok (this, started ++ updated).

(** [pause()] *)
Definition pause (this : t V) : result (t V * list (Notification V)) :=
  if isEnded this then
    Err (TransitionError "Cannot pause a transition that has already ended")
  else if isPaused this then Ok (this, [])
  else
    let this := set_isPaused true this in
    Ok (this, notifyCallbacks this OnPause).

(** [resume()] *)
Definition resume (this : t V) : result (t V * list (Notification V)) :=
  if isEnded this then
    Err (TransitionError "Cannot resume a transition that has already ended")
  else if negb (isPaused this) then Ok (this, [])
  else
    let this := set_isPaused false this in
    Ok (this, notifyCallbacks this OnResume).

(** [cancel(snapToEnd = true)] *)
Definition cancel (snapToEnd : bool) (this : t V)
    : t V * list (Notification V) :=
  if negb (isRunning this) then (this, [])
  else
    let this := set_isEnded true this in
    let '(this, updated) :=
      if snapToEnd then
        let this := set_currentValue (endValue this) this in
        (this, notifyCallbacks this OnUpdate)
      else (this, []) in
    (this, updated ++ notifyCallbacks this OnEnd).

(** [set fraction(fraction)] *)
Definition set_fraction (fraction : Q) (this : t V)
    : result (t V * list (Notification V)) :=
  if isEnded this then
    Err (TransitionError
           "Cannot change fraction for a transition that has already ended")
  else
    let this :=
      set_runningTime
        (delay this + Qmin (Qmax 0 fraction) 1 * duration this) this in
    Ok (updateCurrentValue this).

(** [update(time)] *)
Definition update (time : Q) (this : t V) : t V * list (Notification V) :=
  if negb (isRunning this) then (set_lastUpdateTime (Some time) this, [])
  else
    let this :=
      match lastUpdateTime this with
      | Some last => set_runningTime (runningTime this + (time - last)) this
      | None => this
      end in
    let this := set_lastUpdateTime (Some time) this in
    updateCurrentValue this.

End Methods.

(** The spec's wording of the fractional progress. *)
Definition clamp (x lo hi : Q) : Q :=
  if Qlt_le_dec x lo then lo else if Qlt_le_dec hi x then hi else x.

Definition spec_fraction {V : Type} (this : t V) : Q :=
  if Qeq_bool (duration this) 0 then 1
  else clamp ((runningTime this - delay this) / duration this) 0 1.

End Transition.

(** ** PropertyValue.ts *)

Inductive AngleUnit := UnitDeg | UnitRad | UnitGrad | UnitTurn.
Inductive TimeUnit := UnitS | UnitMs | UnitSpe | UnitMspe.

(** The tagged union of parsed property values ([type] is the tag). *)
Inductive PropertyValue :=
| InitialValue
| NoneValue
| ZeroValue
| AngleValue (value : Q) (unit : AngleUnit)
| BooleanValue (value : bool)
| NumberValue (value : Q)
| LengthValue (value : Q)
| PercentageValue (value : Q)
| StringValue (value : string)
| TimeValue (value : Q) (unit : TimeUnit).

(** [a ?? b] on possibly-undefined values. *)
Definition nullish {A : Type} (a b : option A) : option A :=
  match a with
  | Some x => Some x
  | None => b
  end.
Infix "??" := nullish (at level 51, right associativity).

Module Resolve.

#[local] Open Scope Q_scope.

(** [NoneValue.VALUE], the symbol that stands for an explicit [none]. *)
Inductive NoneSymbol := VALUE.

Definition NoneValue_resolve (value : PropertyValue) : option NoneSymbol :=
  match value with
  | NoneValue => Some VALUE
  | _ => None
  end.

Definition ZeroValue_resolve (value : PropertyValue) : option Q :=
  match value with
  | ZeroValue => Some 0
  | _ => None
  end.

(** [Math.PI] is not a rational: the angle conversions take the number
    used for it as an argument. *)
Definition AngleValue_resolve (PI : Q) (value : PropertyValue) : option Q :=
  match value with
  | AngleValue v UnitDeg => Some ((v * PI) / 180)
  | AngleValue v UnitRad => Some v
  | AngleValue v UnitGrad => Some ((v * PI) / 200)
  | AngleValue v UnitTurn => Some (v * 2 * PI)
  | _ => None
  end.

Definition BooleanValue_resolve (value : PropertyValue) : option bool :=
  match value with
  | BooleanValue b => Some b
  | _ => None
  end.

Definition NumberValue_resolve (value : PropertyValue) : option Q :=
  match value with
  | NumberValue v => Some v
  | _ => None
  end.

Definition LengthValue_resolve (value : PropertyValue) : option Q :=
  match value with
  | LengthValue v => Some v
  | _ => None
  end.

Definition PercentageValue_resolve (value : PropertyValue) (parentValue : Q)
    : option Q :=
  match value with
  | PercentageValue v => Some ((v / 100) * parentValue)
  | _ => None
  end.

Definition StringValue_resolve (value : PropertyValue) : option string :=
  match value with
  | StringValue v => Some v
  | _ => None
  end.

Definition TimeValue_resolve (value : PropertyValue) (elementCount : Q)
    : option Q :=
  match value with
  | TimeValue v UnitS => Some (v * 1000)
  | TimeValue v UnitMs => Some v
  | TimeValue v UnitSpe => Some (v * 1000 * elementCount)
  | TimeValue v UnitMspe => Some (v * elementCount)
  | _ => None
  end.

End Resolve.

(** ** ElementProperties.ts *)

Inductive ElementType :=
| background | figure | foreground | avatar | name | text | choice
| music | sound | voice | video | effect.

#[global] Instance ElementType_eq_dec : EqDecision ElementType.
Proof. solve_decision. Defined.

Definition ElementType_name (type : ElementType) : string :=
  match type with
  | background => "background"
  | figure => "figure"
  | foreground => "foreground"
  | avatar => "avatar"
  | name => "name"
  | text => "text"
  | choice => "choice"
  | music => "music"
  | sound => "sound"
  | voice => "voice"
  | video => "video"
  | effect => "effect"
  end.

(** The union of the per-kind property interfaces: a JavaScript object
    with a [type], an [index] and optional property values. *)
Record ElementProperties := {
  type : ElementType;
  index : Z;
  value : option PropertyValue;
  transitionDuration : option PropertyValue;
  transitionEasing : option PropertyValue;
  anchorX : option PropertyValue;
  anchorY : option PropertyValue;
  positionX : option PropertyValue;
  positionY : option PropertyValue;
  offsetX : option PropertyValue;
  offsetY : option PropertyValue;
  pivotX : option PropertyValue;
  pivotY : option PropertyValue;
  scaleX : option PropertyValue;
  scaleY : option PropertyValue;
  skewX : option PropertyValue;
  skewY : option PropertyValue;
  rotation : option PropertyValue;
  alpha : option PropertyValue;
  enabled : option PropertyValue;
  script : option PropertyValue;
  volume : option PropertyValue;
  loop : option PropertyValue
}.

(** [{ type, index, value }]: an element with only its value set. *)
Definition element_with_value (type : ElementType) (index : Z)
    (value : option PropertyValue) : ElementProperties :=
  {| type := type; index := index; value := value;
     transitionDuration := None; transitionEasing := None;
     anchorX := None; anchorY := None; positionX := None; positionY := None;
     offsetX := None; offsetY := None; pivotX := None; pivotY := None;
     scaleX := None; scaleY := None; skewX := None; skewY := None;
     rotation := None; alpha := None; enabled := None; script := None;
     volume := None; loop := None |}.

(** ** ElementResolvedProperties.ts *)

Module ElementResolvedProperties.
Import Resolve.

#[local] Open Scope Q_scope.

(** [resolvePropertyValue(value, resolve)] *)
Definition resolvePropertyValue {R : Type} (value : option PropertyValue)
    (resolve : PropertyValue → option R) : result (option R) :=
  match value with
  | None => Ok None
  | Some value =>
      match resolve value with
      | None => Err (ViewError "Unable to resolve value")
      | Some resolvedValue => Ok (Some resolvedValue)
      end
  end.

(** [resolveElementValue(properties)] *)
Definition resolveElementValue (properties : ElementProperties)
    : result (option string) :=
  value ← resolvePropertyValue (value properties)
             (λ it, (inl <$> NoneValue_resolve it)
                    ?? (inr <$> StringValue_resolve it));
  match value with
  | Some (inl VALUE) => Ok None
  | Some (inr string) => Ok (Some string)
  | None => Ok None
  end.

(** Truthiness of [string | undefined]: the empty string is falsy. *)
Definition truthy (value : option string) : bool :=
  match value with
  | None => false
  | Some string => negb (String.eqb string "")
  end.

(** [resolveElementTransitionDuration(properties, elementCount)] *)
Definition resolveElementTransitionDuration (properties : ElementProperties)
    (elementCount : Q) : result Q :=
  let defaultTransitionDuration :=
    match type properties with
    | background => 1000
    | figure | foreground | avatar => 500
    | name => 0
    | text => 50 * elementCount
    | choice => 500
    | music => 1000
    | sound | voice | video | effect => 0
    end in
  resolved ← resolvePropertyValue (transitionDuration properties)
                (λ it, ZeroValue_resolve it ?? TimeValue_resolve it elementCount);
  Ok (default defaultTransitionDuration resolved).

(** [resolveElementPropertyTransitionEasing(properties, propertyName)] *)
Definition resolveElementPropertyTransitionEasing
    (properties : ElementProperties) (propertyName : string) : result string :=
  let linear_for (names : list string) :=
    if bool_decide (propertyName ∈ names) then "linear" else "ease" in
  let defaultTransitionEasing :=
    match type properties with
    | background | figure | foreground | avatar =>
        linear_for ["value"; "alpha"]
    | name | text | choice => linear_for ["value"]
    | music | sound | voice => linear_for ["value"; "volume"]
    | video => linear_for ["value"; "alpha"; "volume"]
    | effect => linear_for ["value"]
    end in
  resolved ← resolvePropertyValue (transitionEasing properties)
                (λ it, StringValue_resolve it);
  Ok (default defaultTransitionEasing resolved).

(** A resolved property value: a number, a boolean or a string. *)
Inductive ResolvedValue :=
| RNumber (number : Q)
| RBoolean (boolean : bool)
| RString (string : string).

(** Strict equality [===] of two resolved values. *)
Definition ResolvedValue_eqb (left right : ResolvedValue) : bool :=
  match left, right with
  | RNumber l, RNumber r => Qeq_bool l r
  | RBoolean l, RBoolean r => Bool.eqb l r
  | RString l, RString r => String.eqb l r
  | _, _ => false
  end.

(** Resolved properties as the generic code sees them: the entries of
    the object, in the order of its literal. *)
Definition ResolvedProperties : Type := list (string * ResolvedValue).

Module Image.

Record ResolveOptions := {
  valueChanged : bool;
  screenWidth : Q;
  screenHeight : Q;
  imageWidth : Q;
  imageHeight : Q;
  figureIndex : option Q;
  figureCount : option Q;
  avatarPositionX : option Q;
  avatarPositionY : option Q
}.

Record t := {
  r_value : Q;
  r_anchorX : Q;
  r_anchorY : Q;
  r_positionX : Q;
  r_positionY : Q;
  r_offsetX : Q;
  r_offsetY : Q;
  r_pivotX : Q;
  r_pivotY : Q;
  r_scaleX : Q;
  r_scaleY : Q;
  r_skewX : Q;
  r_skewY : Q;
  r_rotation : Q;
  r_alpha : Q
}.

(** A non-null assertion [x!] on an option the caller left undefined
    would make the source compute with NaN; the model has no NaN and
    reports it as an error. *)
Definition assert_defined (value : option Q) : result Q :=
  match value with
  | Some number => Ok number
  | None => Err (ViewError "undefined option")
  end.

Definition is_figure (properties : ElementProperties) : bool :=
  bool_decide (type properties = figure).

(** [ImageElementResolvedProperties.resolve(properties, options)] *)
Definition resolve (PI : Q) (properties : ElementProperties)
    (options : ResolveOptions) : result t :=
  let length_of parentValue := λ it,
    ZeroValue_resolve it ?? LengthValue_resolve it
      ?? PercentageValue_resolve it parentValue in
  let number_of := λ it,
    NumberValue_resolve it ?? PercentageValue_resolve it 1 in
  let angle_of := λ it, ZeroValue_resolve it ?? AngleValue_resolve PI it in
  let value := if valueChanged options then 0 else 1 in
  anchorX ← resolvePropertyValue (anchorX properties)
               (length_of (imageWidth options));
  let anchorX :=
    default (if is_figure properties then imageWidth options / 2 else 0)
            anchorX in
  anchorY ← resolvePropertyValue (anchorY properties)
               (length_of (imageHeight options));
  let anchorY :=
    default (if is_figure properties then imageHeight options else 0)
            anchorY in
  '(defaultPositionX, defaultPositionY) ←
    match type properties with
    | figure =>
        figureIndex ← assert_defined (figureIndex options);
        figureCount ← assert_defined (figureCount options);
        Ok ((figureIndex / (figureCount + 1)) * screenWidth options,
            screenHeight options)
    | avatar =>
        avatarPositionX ← assert_defined (avatarPositionX options);
        avatarPositionY ← assert_defined (avatarPositionY options);
        Ok (avatarPositionX, avatarPositionY)
    | _ => Ok (0, 0)
    end;
  positionX ← resolvePropertyValue (positionX properties)
                 (length_of (screenWidth options));
  let positionX := default defaultPositionX positionX in
  positionY ← resolvePropertyValue (positionY properties)
                 (length_of (screenHeight options));
  let positionY := default defaultPositionY positionY in
  offsetX ← resolvePropertyValue (offsetX properties)
               (length_of (screenWidth options));
  let offsetX :=
    default (if is_figure properties then screenWidth options else 0)
            offsetX in
  offsetY ← resolvePropertyValue (offsetY properties)
               (length_of (screenHeight options));
  let offsetY :=
    default (if is_figure properties then screenHeight options else 0)
            offsetY in
  pivotX ← resolvePropertyValue (pivotX properties)
              (length_of (imageWidth options));
  let pivotX := default (imageWidth options / 2) pivotX in
  pivotY ← resolvePropertyValue (pivotY properties)
              (length_of (imageHeight options));
  let pivotY := default (imageHeight options / 2) pivotY in
  scaleX ← resolvePropertyValue (scaleX properties) number_of;
  let scaleX := default 1 scaleX in
  scaleY ← resolvePropertyValue (scaleY properties) number_of;
  let scaleY := default 1 scaleY in
  skewX ← resolvePropertyValue (skewX properties) angle_of;
  let skewX := default 0 skewX in
  skewY ← resolvePropertyValue (skewY properties) angle_of;
  let skewY := default 0 skewY in
  rotation ← resolvePropertyValue (rotation properties) angle_of;
  let rotation := default 0 rotation in
  alpha ← resolvePropertyValue (alpha properties) number_of;
  let alpha := default 1 alpha in
  Ok {| r_value := value; r_anchorX := anchorX; r_anchorY := anchorY;
        r_positionX := positionX; r_positionY := positionY;
        r_offsetX := offsetX; r_offsetY := offsetY;
        r_pivotX := pivotX; r_pivotY := pivotY;
        r_scaleX := scaleX; r_scaleY := scaleY;
        r_skewX := skewX; r_skewY := skewY;
        r_rotation := rotation; r_alpha := alpha |}.

(** [Object.entries] of the resolved object. *)
Definition entries (resolved : t) : ResolvedProperties :=
  [("value", RNumber (r_value resolved));
   ("anchorX", RNumber (r_anchorX resolved));
   ("anchorY", RNumber (r_anchorY resolved));
   ("positionX", RNumber (r_positionX resolved));
   ("positionY", RNumber (r_positionY resolved));
   ("offsetX", RNumber (r_offsetX resolved));
   ("offsetY", RNumber (r_offsetY resolved));
   ("pivotX", RNumber (r_pivotX resolved));
   ("pivotY", RNumber (r_pivotY resolved));
   ("scaleX", RNumber (r_scaleX resolved));
   ("scaleY", RNumber (r_scaleY resolved));
   ("skewX", RNumber (r_skewX resolved));
   ("skewY", RNumber (r_skewY resolved));
   ("rotation", RNumber (r_rotation resolved));
   ("alpha", RNumber (r_alpha resolved))].

End Image.

(** [TextElementResolvedProperties.resolve(_properties, options)] *)
Definition Text_resolve (valueChanged : bool) : ResolvedProperties :=
  [("value"%string, RNumber (if valueChanged then 0 else 1))].

(** [ChoiceElementResolvedProperties.resolve(properties, options)] *)
Definition Choice_resolve (properties : ElementProperties)
    (valueChanged : bool) : result ResolvedProperties :=
  let value := if valueChanged then 0 else 1 in
  enabled ← resolvePropertyValue (enabled properties) BooleanValue_resolve;
  let enabled := default true enabled in
  script ← resolvePropertyValue (script properties) StringValue_resolve;
  let script := default ""%string script in
  Ok [("value"%string, RNumber value);
      ("enabled"%string, RBoolean enabled);
      ("script"%string, RString script)].

End ElementResolvedProperties.

(** ** View.ts: ordinals of the visible elements of a kind *)

Module View.
Import ElementResolvedProperties.

(** [state.elements]: a JavaScript object, as its entries in insertion
    order. *)
Definition ElementPropertiesMap : Type := list (string * ElementProperties).

Definition get (elementPropertiesMap : ElementPropertiesMap)
    (elementName : string) : option ElementProperties :=
  snd <$> List.find (λ entry, String.eqb (fst entry) elementName)
                    elementPropertiesMap.

(** The comparator handed to [sort]: by type, then by index. *)
Definition compareElements (left right : ElementProperties) : Z :=
  if String.ltb (ElementType_name (type left)) (ElementType_name (type right))
  then (-1)%Z
  else if String.ltb (ElementType_name (type right))
                     (ElementType_name (type left))
  then 1%Z
  else (index left - index right)%Z.

Definition compareElementNames (elementPropertiesMap : ElementPropertiesMap)
    (left right : string) : Z :=
  match get elementPropertiesMap left, get elementPropertiesMap right with
  | Some leftElementProperties, Some rightElementProperties =>
      compareElements leftElementProperties rightElementProperties
  | _, _ => 0%Z
  end.

(** [Array.prototype.sort] is stable: insertion from the right keeps the
    order of elements the comparator does not separate. *)
Fixpoint insert_sorted {A : Type} (compare : A → A → Z) (x : A) (l : list A)
    : list A :=
  match l with
  | [] => [x]
  | y :: l' =>
      if (compare x y <=? 0)%Z then x :: l
      else y :: insert_sorted compare x l'
  end.

Definition sort {A : Type} (compare : A → A → Z) (l : list A) : list A :=
  foldr (insert_sorted compare) [] l.

Definition elementNames (elementPropertiesMap : ElementPropertiesMap)
    : list string :=
  sort (compareElementNames elementPropertiesMap)
       (fst <$> elementPropertiesMap).

(** The loop that fills [elementIndices] and [elementTypeCounts]. *)
Fixpoint countElements (elementPropertiesMap : ElementPropertiesMap)
    (elementNames : list string)
    (elementIndices elementTypeCounts : gmap string nat)
    : result (gmap string nat * gmap string nat) :=
  match elementNames with
  | [] => Ok (elementIndices, elementTypeCounts)
  | elementName :: elementNames =>
      match get elementPropertiesMap elementName with
      | None => Err (ViewError "undefined element properties")
      | Some elementProperties =>
          elementValue ← resolveElementValue elementProperties;
          if negb (truthy elementValue) then
            countElements elementPropertiesMap elementNames
                          elementIndices elementTypeCounts
          else
            let elementType := ElementType_name (type elementProperties) in
            let elementTypeCount :=
              default 0%nat (elementTypeCounts !! elementType) in
            let elementIndices :=
              <[elementName := elementTypeCount]> elementIndices in
            let elementTypeCount := S elementTypeCount in
            let elementTypeCounts :=
              <[elementType := elementTypeCount]> elementTypeCounts in
            countElements elementPropertiesMap elementNames
                          elementIndices elementTypeCounts
      end
  end.

(** The transition options the reconciler derives for an element. *)
Inductive TransitionOptions :=
| FigureOptions (figureIndex figureCount : option Q)
| AvatarOptions (avatarPositionX avatarPositionY : Q)
| NoOptions.

Definition number_of_nat (n : nat) : Q := inject_Z (Z.of_nat n).

(** [transitionOptions] for every kind but avatar, whose options are
    read from its container node. *)
Definition transitionOptions (elementPropertiesMap : ElementPropertiesMap)
    (elementName : string) : result TransitionOptions :=
  let elementNames := elementNames elementPropertiesMap in
  '(elementIndices, elementTypeCounts) ←
    countElements elementPropertiesMap elementNames ∅ ∅;
  match get elementPropertiesMap elementName with
  | None => Err (ViewError "undefined element properties")
  | Some elementProperties =>
      match type elementProperties with
      | figure =>
          Ok (FigureOptions
                (number_of_nat <$> elementIndices !! elementName)
                (number_of_nat <$> elementTypeCounts !! ElementType_name figure))
      | _ => Ok NoOptions
      end
  end.

(** [package.manifest]: the fields the image resolution reads. *)
Record Manifest := {
  width : Q;
  height : Q;
  density : Q
}.

(** [ImageElement.resolveProperties(properties, object, valueChanged,
    options)]; the object contributes its natural size. *)
Definition ImageElement_resolveProperties (PI : Q) (manifest : Manifest)
    (properties : ElementProperties) (naturalWidth naturalHeight : Q)
    (valueChanged : bool) (options : TransitionOptions)
    : result Image.t :=
  Image.resolve PI properties
    {| Image.valueChanged := valueChanged;
       Image.screenWidth := width manifest;
       Image.screenHeight := height manifest;
       Image.imageWidth := (naturalWidth / density manifest)%Q;
       Image.imageHeight := (naturalHeight / density manifest)%Q;
       Image.figureIndex :=
         match options with
         | FigureOptions figureIndex _ => figureIndex
         | _ => None
         end;
       Image.figureCount :=
         match options with
         | FigureOptions _ figureCount => figureCount
         | _ => None
         end;
       Image.avatarPositionX :=
         match options with
         | AvatarOptions avatarPositionX _ => Some avatarPositionX
         | _ => None
         end;
       Image.avatarPositionY :=
         match options with
         | AvatarOptions _ avatarPositionY => Some avatarPositionY
         | _ => None
         end |}.

End View.

(** ** ElementPropertyMatcher.ts *)

Module ElementPropertyMatcher.

(** [interface Matcher { match(input: string): boolean }]; the glob
    matchers are Minimatch objects, of which only [match] is used. *)
Definition Matcher : Type := string → bool.

Definition Any : Matcher := λ _, true.

Definition is_digit (c : ascii) : bool :=
  (48 <=? nat_of_ascii c)%nat && (nat_of_ascii c <=? 57)%nat.

(** [input.replace(/(?<![0-9])1$/, '')]: the scan tries every position
    from the left; [previous] is the character before the position. A
    match is a [1] that ends the input and does not follow a digit; it
    is replaced by the empty string. *)
Fixpoint replace_from (previous : option ascii) (input : string) : string :=
  match input with
  | EmptyString => EmptyString
  | String c rest =>
      if negb (from_option is_digit false previous)
         && Ascii.eqb c "1" && String.eqb rest ""
      then EmptyString
      else String c (replace_from (Some c) rest)
  end.

Definition replace_trailing_one (input : string) : string :=
  replace_from None input.

Record t := {
  matchers : list (Matcher * Matcher)
}.

(** The [filter(...).map(it => it[1])] of [getPropertyMatcher]. *)
Definition propertyMatchers (this : t) (elementName : string)
    : list Matcher :=
  snd <$> List.filter
            (λ it, fst it elementName
                   || fst it (replace_trailing_one elementName))
            (matchers this).

(** [getPropertyMatcher(elementName)] *)
Definition getPropertyMatcher (this : t) (elementName : string) : Matcher :=
  let propertyMatchers := propertyMatchers this elementName in
  λ propertyName, existsb (λ it, it propertyName) propertyMatchers.

(** The spec's wording: the name with one single trailing [1] removed,
    a [1] that is not preceded by another digit. *)
Definition ends_with_digit (input : string) : bool :=
  match reverse (list_ascii_of_string input) with
  | c :: _ => is_digit c
  | [] => false
  end.

Definition without_single_trailing_one (elementName : string) : string :=
  match reverse (list_ascii_of_string elementName) with
  | c :: before =>
      if Ascii.eqb c "1"
         && negb (ends_with_digit (string_of_list_ascii (reverse before)))
      then string_of_list_ascii (reverse before)
      else elementName
  | [] => elementName
  end.

(** Whether the character before a position is a digit: the last
    character of [before], or [previous] when [before] is empty. *)
Definition last_is_digit (previous : option ascii) (before : list ascii)
    : bool :=
  match reverse before with
  | c :: _ => is_digit c
  | [] => from_option is_digit false previous
  end.

End ElementPropertyMatcher.

(** ** Engine.ts: [updateView] *)

Module Engine.

Inductive EngineStatus :=
| StatusReady
| StatusExecuting
| StatusLoading
| StatusUpdating.

(** [scriptStates] is opaque to the engine: a type parameter. *)
Record EngineState (ScriptStates : Type) := {
  fileName : string;
  nextCommandIndex : Z;
  layoutName : string;
  elements : View.ElementPropertiesMap;
  scriptStates : ScriptStates;
  keepSkippingWait : bool
}.
Arguments fileName {ScriptStates} _.
Arguments nextCommandIndex {ScriptStates} _.
Arguments layoutName {ScriptStates} _.
Arguments elements {ScriptStates} _.
Arguments scriptStates {ScriptStates} _.
Arguments keepSkippingWait {ScriptStates} _.

Inductive UpdateViewOptions :=
| Pause
| SetLayout (layoutName : string)
| Delay (durationMillis : Q)
| Snap (elementPropertyMatcher : ElementPropertyMatcher.t)
| Wait (elementPropertyMatcher : ElementPropertyMatcher.t).

Record t (ScriptStates : Type) := {
  status : EngineStatus;
  state : EngineState ScriptStates
}.
Arguments status {ScriptStates} _.
Arguments state {ScriptStates} _.

Section Engine.
Context {ScriptStates : Type}.

(** [type ViewUpdater]: the awaited updater, as what it has done to the
    engine state by the time its promise settles ([Err]: rejected). *)
Definition ViewUpdater : Type :=
  UpdateViewOptions → EngineState ScriptStates
  → result (EngineState ScriptStates * bool).

(** [delete it.elements[elementName]] *)
Definition delete_element (elementName : string)
    (elements : View.ElementPropertiesMap) : View.ElementPropertiesMap :=
  List.filter (λ entry, negb (String.eqb (fst entry) elementName)) elements.

Definition value_is_reset (element : ElementProperties) : bool :=
  match value element with
  | None => true
  | Some NoneValue => true
  | Some _ => false
  end.

(** The loop over [Object.entries(it.elements)]: the entries are a
    snapshot, the deletions act on the draft. *)
Fixpoint reset_elements (entries : list (string * ElementProperties))
    (elements : View.ElementPropertiesMap) : View.ElementPropertiesMap :=
  match entries with
  | [] => elements
  | (elementName, element) :: entries =>
      let elements :=
        if value_is_reset element then delete_element elementName elements
        else elements in
      reset_elements entries elements
  end.

Definition set_status (status : EngineStatus) (this : t ScriptStates)
    : t ScriptStates :=
  {| status := status; state := state this |}.

Definition set_state (state : EngineState ScriptStates)
    (this : t ScriptStates) : t ScriptStates :=
  {| status := status this; state := state |}.

(** [updateWithStatus(promise)]: the saved status is restored in the
    [finally] block, also when the promise rejects. *)
Definition updateWithStatus (updater : EngineState ScriptStates
                               → result (EngineState ScriptStates * bool))
    (this : t ScriptStates) : result (t ScriptStates * bool) :=
  let savedStatus := status this in
  let this := set_status StatusUpdating this in
  '(state, moveToNextLine) ← updater (state this);
  Ok (set_status savedStatus (set_state state this), moveToNextLine).

(** [updateView(options)] *)
Definition updateView (onUpdateView : option ViewUpdater)
    (options : UpdateViewOptions) (this : t ScriptStates)
    : result (t ScriptStates * bool) :=
  '(this, moveToNextLine) ←
    match onUpdateView with
    | Some onUpdateView => updateWithStatus (onUpdateView options) this
    | None => Ok (this, true)
    end;
  let it := state this in
  let it :=
    {| fileName := fileName it;
       nextCommandIndex := nextCommandIndex it;
       layoutName := layoutName it;
       elements := reset_elements (elements it) (elements it);
       scriptStates := scriptStates it;
       keepSkippingWait := false |} in
  Ok (set_state it this, moveToNextLine).

End Engine.

End Engine.

(** ** Layout.ts *)

Module Layout.

#[local] Open Scope Q_scope.

(** The identity of an [HTMLElement]. *)
Abbreviation Node := nat (only parsing).

(** The two inline style properties the opacity helpers use. *)
Record Style := {
  visibility_hidden : bool;
  opacity : option Q
}.

(** [HTMLElements.getOpacity(element)] *)
Definition getOpacity (style : Style) : Q :=
  if visibility_hidden style then 0
  else default 1 (opacity style).

(** [HTMLElements.setOpacity(element, opacity)] *)
Definition setOpacity (opacity : Q) : Style :=
  {| visibility_hidden := Qeq_bool opacity 0;
     opacity := if Qeq_bool opacity 0 || Qeq_bool opacity 1 then None
                else Some opacity |}.

Definition LAYOUT_TRANSITION_DURATION : Q := 500.

(** A transition made by [transitionElement], with the node its
    callbacks captured. *)
Record LayoutTransition := {
  target : Node;
  tween : Transition.t Q
}.

(** The layout and what it shares with the page: the Transition objects
    it allocated (the identity of one is its index), the frame callbacks
    it registered with the clock, and the styles of the nodes. *)
Record t := {
  layoutNames : list string;
  elementLayouts : list (Node * list string);
  layoutTypeContainerElements : list (string * list (ElementType * Node));
  layoutTypeTemplateElements : list (string * list (ElementType * Node));
  layoutName : string;
  transitions : list nat;
  allocated : list LayoutTransition;
  frameCallbacks : list nat;
  styles : gmap Node Style
}.

Definition set_layoutName (layoutName : string) (this : t) : t :=
  {| layoutNames := layoutNames this;
     elementLayouts := elementLayouts this;
     layoutTypeContainerElements := layoutTypeContainerElements this;
     layoutTypeTemplateElements := layoutTypeTemplateElements this;
     layoutName := layoutName;
     transitions := transitions this;
     allocated := allocated this;
     frameCallbacks := frameCallbacks this;
     styles := styles this |}.

Definition set_transitions (transitions : list nat) (this : t) : t :=
  {| layoutNames := layoutNames this;
     elementLayouts := elementLayouts this;
     layoutTypeContainerElements := layoutTypeContainerElements this;
     layoutTypeTemplateElements := layoutTypeTemplateElements this;
     layoutName := layoutName this;
     transitions := transitions;
     allocated := allocated this;
     frameCallbacks := frameCallbacks this;
     styles := styles this |}.

Definition set_allocated (allocated : list LayoutTransition) (this : t) : t :=
  {| layoutNames := layoutNames this;
     elementLayouts := elementLayouts this;
     layoutTypeContainerElements := layoutTypeContainerElements this;
     layoutTypeTemplateElements := layoutTypeTemplateElements this;
     layoutName := layoutName this;
     transitions := transitions this;
     allocated := allocated;
     frameCallbacks := frameCallbacks this;
     styles := styles this |}.

Definition set_frameCallbacks (frameCallbacks : list nat) (this : t) : t :=
  {| layoutNames := layoutNames this;
     elementLayouts := elementLayouts this;
     layoutTypeContainerElements := layoutTypeContainerElements this;
     layoutTypeTemplateElements := layoutTypeTemplateElements this;
     layoutName := layoutName this;
     transitions := transitions this;
     allocated := allocated this;
     frameCallbacks := frameCallbacks;
     styles := styles this |}.

Definition set_styles (styles : gmap Node Style) (this : t) : t :=
  {| layoutNames := layoutNames this;
     elementLayouts := elementLayouts this;
     layoutTypeContainerElements := layoutTypeContainerElements this;
     layoutTypeTemplateElements := layoutTypeTemplateElements this;
     layoutName := layoutName this;
     transitions := transitions this;
     allocated := allocated this;
     frameCallbacks := frameCallbacks this;
     styles := styles |}.

(** A node without an inline style is fully opaque. *)
Definition style_of (this : t) (element : Node) : Style :=
  default {| visibility_hidden := false; opacity := None |}
          (styles this !! element).

(** [map.get(key)] on a [Map] kept as its entries. *)
Definition map_get {K V : Type} `{EqDecision K} (key : K)
    (entries : list (K * V)) : option V :=
  snd <$> List.find (λ entry, bool_decide (fst entry = key)) entries.

(** [getContainerElement(layoutName, elementType)] *)
Definition getContainerElement (this : t) (layoutName : string)
    (elementType : ElementType) : option Node :=
  typeElements ← map_get layoutName (layoutTypeContainerElements this);
  map_get elementType typeElements.

(** [getTemplateElement(layoutName, elementType)] *)
Definition getTemplateElement (this : t) (layoutName : string)
    (elementType : ElementType) : option Node :=
  typeElements ← map_get layoutName (layoutTypeTemplateElements this);
  map_get elementType typeElements.

(** [clock.addFrameCallback(id, ...)]: a [Map.set]. *)
Definition addFrameCallback (id : nat) (frameCallbacks : list nat) : list nat :=
  if bool_decide (id ∈ frameCallbacks) then frameCallbacks
  else frameCallbacks ++ [id].

(** [clock.removeFrameCallback(id)]: a [Map.delete]. *)
Definition removeFrameCallback (id : nat) (frameCallbacks : list nat)
    : list nat :=
  List.filter (λ it, negb (Nat.eqb it id)) frameCallbacks.

(** The callbacks [transitionElement] registers, run for one
    notification of transition [id]. *)
Definition notified (id : nat) (element : Node)
    (notification : Transition.Notification Q) (this : t) : t :=
  match notification with
  | (Transition.OnUpdate, it) =>
      set_styles (<[element := setOpacity it]> (styles this)) this
  | (Transition.OnEnd, _) =>
      let this := set_transitions (remove_first id (transitions this)) this in
      set_frameCallbacks (removeFrameCallback id (frameCallbacks this)) this
  | _ => this
  end.

Definition notifiedAll (id : nat) (element : Node)
    (notifications : list (Transition.Notification Q)) (this : t) : t :=
  foldl (λ this notification, notified id element notification this)
        this notifications.

(** [private transitionElement(element, opacity, transitionDuration)] *)
Definition transitionElement (element : Node) (opacity : Q)
    (transitionDuration : Q) (this : t) : result t :=
  let transition :=
    Transition.new (getOpacity (style_of this element)) opacity
                   transitionDuration Transition.IdentityConverter in
  let id := length (allocated this) in
  let this :=
    set_allocated
      (allocated this ++ [{| target := element; tween := transition |}])
      this in
  let this := set_transitions (transitions this ++ [id]) this in
  let this :=
    set_frameCallbacks (addFrameCallback id (frameCallbacks this)) this in
  '(transition, notifications) ← Transition.start transition;
  let this :=
    set_allocated
      (<[id := {| target := element; tween := transition |}]>
         (allocated this))
      this in
  Ok (notifiedAll id element notifications this).

(** What is left of the generator after its first [yield]. *)
Inductive Suspended :=
| Finished
| Enter (enterElements : list Node).

Definition includes (layoutNames : list string) (layoutName : string) : bool :=
  bool_decide (layoutName ∈ layoutNames).

(** The loop that sorts the decorated nodes into exiting and entering
    ones. *)
Fixpoint exitEnterElements (oldLayoutName newLayoutName : string)
    (elementLayouts : list (Node * list string)) : list Node * list Node :=
  match elementLayouts with
  | [] => ([], [])
  | (element, layoutNames) :: elementLayouts =>
      let '(exitElements, enterElements) :=
        exitEnterElements oldLayoutName newLayoutName elementLayouts in
      let isInOldLayout := includes layoutNames oldLayoutName in
      let isInNewLayout := includes layoutNames newLayoutName in
      if Bool.eqb isInOldLayout isInNewLayout then
        (exitElements, enterElements)
      else if isInOldLayout then (element :: exitElements, enterElements)
      else (exitElements, element :: enterElements)
  end.

(** [set.add(value)] on a [Set] kept in insertion order. *)
Definition set_add {A : Type} `{EqDecision A} (value : A) (set : list A)
    : list A :=
  if bool_decide (value ∈ set) then set else set ++ [value].

(** The kinds whose container differs between the two layouts. *)
Definition exitElementTypes (this : t) (oldLayoutName newLayoutName : string)
    : list ElementType :=
  let oldTypeElements :=
    map_get oldLayoutName (layoutTypeContainerElements this) in
  let newTypeElements :=
    map_get newLayoutName (layoutTypeContainerElements this) in
  match oldTypeElements with
  | None => []
  | Some oldTypeElements =>
      foldl
        (λ exitElementTypes entry,
           let '(elementType, oldElement) := entry in
           let newElement :=
             typeElements ← newTypeElements; map_get elementType typeElements in
           if bool_decide (Some oldElement = newElement)
           then exitElementTypes
           else set_add elementType exitElementTypes)
        [] oldTypeElements
  end.

(** The default comparator of [sort()]: by string order. *)
Definition compare_strings (left right : string) : Z :=
  match String.compare left right with
  | Lt => (-1)%Z
  | Eq => 0%Z
  | Gt => 1%Z
  end.

(** [*transition(layoutName)] up to its first [yield]: the new layout,
    the yielded kinds and the rest of the generator. *)
Definition transition (newLayoutName : string) (this : t)
    : result (t * list ElementType * Suspended) :=
  if negb (includes (layoutNames this) newLayoutName) then
    Err (ViewError "Unknown layout")
  else
    let oldLayoutName := layoutName this in
    let this := set_layoutName newLayoutName this in
    if String.eqb oldLayoutName newLayoutName then Ok (this, [], Finished)
    else
      let '(exitElements, enterElements) :=
        exitEnterElements oldLayoutName newLayoutName (elementLayouts this) in
      this ← forEach
                (λ exitElement,
                   transitionElement exitElement 0 LAYOUT_TRANSITION_DURATION)
                exitElements this;
      let exitElementTypes :=
        exitElementTypes this oldLayoutName newLayoutName in
      Ok (this,
          View.sort (λ left right,
                       compare_strings (ElementType_name left)
                                       (ElementType_name right))
                    exitElementTypes,
          Enter enterElements).

(** The second [next()]: the generator runs to its end. *)
Definition transition_next (suspended : Suspended) (this : t) : result t :=
  match suspended with
  | Finished => Ok this
  | Enter enterElements =>
      forEach
        (λ enterElement,
           transitionElement enterElement 1 LAYOUT_TRANSITION_DURATION)
        enterElements this
  end.

(** [transition.cancel()] on a transition of the layout, with its
    callbacks. *)
Definition cancelTransition (id : nat) (this : t) : t :=
  match allocated this !! id with
  | None => this
  | Some layoutTransition =>
      let '(transition, notifications) :=
        Transition.cancel true (tween layoutTransition) in
      let this :=
        set_allocated
          (<[id := {| target := target layoutTransition;
                      tween := transition |}]> (allocated this))
          this in
      notifiedAll id (target layoutTransition) notifications this
  end.

(** [snap()]: every tracked transition is canceled, over a copy of the
    array. *)
Definition snap (this : t) : t :=
  foldl (λ this id, cancelTransition id this) this (transitions this).

(** The constructor, from what its traversals of the template found:
    the decorated nodes with their layout names, the container and
    template nodes per layout, and the styles of the page. *)
Definition create (elementLayouts : list (Node * list string))
    (layoutTypeContainerElements layoutTypeTemplateElements
       : list (string * list (ElementType * Node)))
    (styles : gmap Node Style) : t :=
  let layoutNameSet :=
    foldl (λ set entry, foldl (λ set it, set_add it set) set (snd entry))
          ["none"%string] elementLayouts in
  let styles :=
    foldl (λ styles entry,
             if includes (snd entry) "none" then styles
             else <[fst entry := setOpacity 0]> styles)
          styles elementLayouts in
  {| layoutNames := View.sort compare_strings layoutNameSet;
     elementLayouts := elementLayouts;
     layoutTypeContainerElements := layoutTypeContainerElements;
     layoutTypeTemplateElements := layoutTypeTemplateElements;
     layoutName := "none";
     transitions := [];
     allocated := [];
     frameCallbacks := [];
     styles := styles |}.

End Layout.

(** ** Element.ts *)

Module Element.
Import ElementResolvedProperties.

#[local] Open Scope Q_scope.

(** The identities of rendered Objects and of Transition objects. *)
Abbreviation ObjectId := nat (only parsing).
Abbreviation TransitionId := nat (only parsing).

(** A rendered Object as [BaseElement] uses it: the named properties it
    reads and writes, whether it is attached, and how often it was
    detached and destroyed. *)
Record RenderedObject := {
  values : gmap string ResolvedValue;
  attached : bool;
  detachCount : nat;
  destroyCount : nat
}.

(** A Transition made by [transitionPropertyValue], with what its
    callbacks captured. *)
Record PropertyTransition := {
  object : ObjectId;
  propertyName : string;
  propertyValue : Q;
  tween : Transition.t Q
}.

(** The mutable state an element shares with its transitions: the two
    multimaps (as their entries in insertion order), the Transition
    objects and rendered Objects allocated so far (the identity of one
    is its index), and the frame callbacks registered with the clock. *)
Record Store := {
  objectTransitions : list (ObjectId * TransitionId);
  propertyTransitions : list (string * TransitionId);
  allocated : list PropertyTransition;
  objects : list RenderedObject;
  frameCallbacks : list TransitionId
}.

Definition empty : Store :=
  {| objectTransitions := []; propertyTransitions := []; allocated := [];
     objects := []; frameCallbacks := [] |}.

Definition set_objectTransitions (entries : list (ObjectId * TransitionId))
    (store : Store) : Store :=
  {| objectTransitions := entries;
     propertyTransitions := propertyTransitions store;
     allocated := allocated store; objects := objects store;
     frameCallbacks := frameCallbacks store |}.

Definition set_propertyTransitions (entries : list (string * TransitionId))
    (store : Store) : Store :=
  {| objectTransitions := objectTransitions store;
     propertyTransitions := entries;
     allocated := allocated store; objects := objects store;
     frameCallbacks := frameCallbacks store |}.

Definition set_allocated (allocated : list PropertyTransition)
    (store : Store) : Store :=
  {| objectTransitions := objectTransitions store;
     propertyTransitions := propertyTransitions store;
     allocated := allocated; objects := objects store;
     frameCallbacks := frameCallbacks store |}.

Definition set_objects (objects : list RenderedObject) (store : Store)
    : Store :=
  {| objectTransitions := objectTransitions store;
     propertyTransitions := propertyTransitions store;
     allocated := allocated store; objects := objects;
     frameCallbacks := frameCallbacks store |}.

Definition set_frameCallbacks (frameCallbacks : list TransitionId)
    (store : Store) : Store :=
  {| objectTransitions := objectTransitions store;
     propertyTransitions := propertyTransitions store;
     allocated := allocated store; objects := objects store;
     frameCallbacks := frameCallbacks |}.

(** [multimap.get(key)]: the values set under the key, oldest first. *)
Definition multimap_get {K : Type} `{EqDecision K} (key : K)
    (entries : list (K * TransitionId)) : list TransitionId :=
  snd <$> List.filter (λ entry, bool_decide (fst entry = key)) entries.

(** [multimap.set(key, value)] *)
Definition multimap_set {K : Type} (key : K) (value : TransitionId)
    (entries : list (K * TransitionId)) : list (K * TransitionId) :=
  entries ++ [(key, value)].

(** [multimap.remove(key, value)] *)
Definition multimap_remove {K : Type} `{EqDecision K} (key : K)
    (value : TransitionId) (entries : list (K * TransitionId))
    : list (K * TransitionId) :=
  remove_first (key, value) entries.

(** [object.getPropertyValue(propertyName)]: an object throws for a
    property it does not have. *)
Definition getPropertyValue (object : ObjectId) (propertyName : string)
    (store : Store) : result ResolvedValue :=
  match objects store !! object with
  | None => Err (ViewError "No such object")
  | Some rendered =>
      match values rendered !! propertyName with
      | None => Err (ViewError "Unknown property")
      | Some propertyValue => Ok propertyValue
      end
  end.

(** [object.setPropertyValue(propertyName, propertyValue)] *)
Definition setPropertyValue (object : ObjectId) (propertyName : string)
    (propertyValue : ResolvedValue) (store : Store) : result Store :=
  match objects store !! object with
  | None => Err (ViewError "No such object")
  | Some rendered =>
      match values rendered !! propertyName with
      | None => Err (ViewError "Unknown property")
      | Some _ =>
          let rendered :=
            {| values := <[propertyName := propertyValue]> (values rendered);
               attached := attached rendered;
               detachCount := detachCount rendered;
               destroyCount := destroyCount rendered |} in
          Ok (set_objects (<[object := rendered]> (objects store)) store)
      end
  end.

(** [attachObject(object)] *)
Definition attachObject (object : ObjectId) (store : Store) : result Store :=
  match objects store !! object with
  | None => Err (ViewError "No such object")
  | Some rendered =>
      let rendered :=
        {| values := values rendered; attached := true;
           detachCount := detachCount rendered;
           destroyCount := destroyCount rendered |} in
      Ok (set_objects (<[object := rendered]> (objects store)) store)
  end.

(** [detachObject(object)] *)
Definition detachObject (object : ObjectId) (store : Store) : result Store :=
  match objects store !! object with
  | None => Err (ViewError "No such object")
  | Some rendered =>
      let rendered :=
        {| values := values rendered; attached := false;
           detachCount := S (detachCount rendered);
           destroyCount := destroyCount rendered |} in
      Ok (set_objects (<[object := rendered]> (objects store)) store)
  end.

(** [destroyObject(object)] *)
Definition destroyObject (object : ObjectId) (store : Store) : result Store :=
  match objects store !! object with
  | None => Err (ViewError "No such object")
  | Some rendered =>
      let rendered :=
        {| values := values rendered; attached := attached rendered;
           detachCount := detachCount rendered;
           destroyCount := S (destroyCount rendered) |} in
      Ok (set_objects (<[object := rendered]> (objects store)) store)
  end.

(** The object [createObject] resolves to: a new Object with the
    initial property values of its kind, not attached. *)
Definition createObject (initialValues : gmap string ResolvedValue)
    (store : Store) : Store * ObjectId :=
  (set_objects
     (objects store
        ++ [{| values := initialValues; attached := false;
               detachCount := 0; destroyCount := 0 |}])
     store,
   length (objects store)).

Definition set_tween (id : TransitionId) (tween : Transition.t Q)
    (store : Store) : Store :=
  match allocated store !! id with
  | None => store
  | Some propertyTransition =>
      set_allocated
        (<[id := {| object := object propertyTransition;
                    propertyName := propertyName propertyTransition;
                    propertyValue := propertyValue propertyTransition;
                    tween := tween |}]> (allocated store))
        store
  end.

(** The update callback: [it => this.setPropertyValue(object,
    propertyName, it)]. *)
Definition onUpdate (id : TransitionId) (it : Q) (store : Store)
    : result Store :=
  match allocated store !! id with
  | None => Err (ViewError "No such transition")
  | Some propertyTransition =>
      setPropertyValue (object propertyTransition)
                       (propertyName propertyTransition) (RNumber it) store
  end.

(** The end callback; [cancel] is [it => it.cancel()]. *)
Definition onEnd (cancel : TransitionId → Store → result Store)
    (id : TransitionId) (store : Store) : result Store :=
  match allocated store !! id with
  | None => Err (ViewError "No such transition")
  | Some propertyTransition =>
      let object := object propertyTransition in
      let propertyName := propertyName propertyTransition in
      let store :=
        set_objectTransitions
          (multimap_remove object id (objectTransitions store)) store in
      let store :=
        set_propertyTransitions
          (multimap_remove propertyName id (propertyTransitions store))
          store in
      let store :=
        set_frameCallbacks
          (Layout.removeFrameCallback id (frameCallbacks store)) store in
      if String.eqb propertyName "value"
         && Qeq_bool (propertyValue propertyTransition) 0
      then
        let transitions := multimap_get object (objectTransitions store) in
        store ← forEach cancel transitions store;
        store ← detachObject object store;
        destroyObject object store
      else Ok store
  end.

(** The callbacks of transition [id], run for one notification. *)
Definition notified (cancel : TransitionId → Store → result Store)
    (id : TransitionId) (notification : Transition.Notification Q)
    (store : Store) : result Store :=
  match notification with
  | (Transition.OnUpdate, it) => onUpdate id it store
  | (Transition.OnEnd, _) => onEnd cancel id store
  | _ => Ok store
  end.

(** [transition.cancel()] with its callbacks. The end callback of a
    [value] transition to [0] cancels further transitions: the
    recursion is bounded by [fuel]. *)
Fixpoint cancel (fuel : nat) (id : TransitionId) (store : Store)
    : result Store :=
  match fuel with
  | O => Err OutOfFuel
  | S fuel =>
      match allocated store !! id with
      | None => Err (ViewError "No such transition")
      | Some propertyTransition =>
          let '(tween, notifications) :=
            Transition.cancel true (tween propertyTransition) in
          let store := set_tween id tween store in
          forEach (notified (cancel fuel) id) notifications store
      end
  end.

(** One more than the number of transitions ever allocated is always
    enough fuel. *)
Definition cancelTransition (id : TransitionId) (store : Store)
    : result Store :=
  cancel (S (length (allocated store))) id store.

(** [private transitionPropertyValue(object, propertyName,
    propertyValue, transitionDelay, transitionDuration,
    transitionEasing)] *)
Definition transitionPropertyValue (object : ObjectId) (propertyName : string)
    (propertyValue : ResolvedValue) (transitionDelay transitionDuration : Q)
    (transitionEasing : Q → Q) (store : Store) : result Store :=
  match propertyValue with
  | RNumber number =>
      currentPropertyValue ← getPropertyValue object propertyName store;
      match currentPropertyValue with
      | RNumber currentNumber =>
          let transition :=
            Transition.setEasing transitionEasing
              (Transition.setDelay transitionDelay
                 (Transition.new currentNumber number transitionDuration
                                 Transition.IdentityConverter)) in
          let id := length (allocated store) in
          let store :=
            set_allocated
              (allocated store
                 ++ [{| object := object; propertyName := propertyName;
                        propertyValue := number; tween := transition |}])
              store in
          let store :=
            set_objectTransitions
              (multimap_set object id (objectTransitions store)) store in
          let store :=
            set_propertyTransitions
              (multimap_set propertyName id (propertyTransitions store))
              store in
          let store :=
            set_frameCallbacks
              (Layout.addFrameCallback id (frameCallbacks store)) store in
          '(transition, notifications) ← Transition.start transition;
          let store := set_tween id transition store in
          forEach (notified cancelTransition id) notifications store
      | _ => Err (ViewError "Not a number")
      end
  | _ => setPropertyValue object propertyName propertyValue store
  end.

(** The frame callback [it => transition.update(it)] of one
    transition. *)
Definition updateTransition (time : Q) (id : TransitionId) (store : Store)
    : result Store :=
  match allocated store !! id with
  | None => Err (ViewError "No such transition")
  | Some propertyTransition =>
      let '(tween, notifications) :=
        Transition.update time (tween propertyTransition) in
      let store := set_tween id tween store in
      forEach (notified cancelTransition id) notifications store
  end.

(** One frame of the clock: [frameCallbacks.forEach(it => it(time))];
    an entry deleted before its turn is not visited. *)
Definition nextFrame (time : Q) (store : Store) : result Store :=
  forEach
    (λ id store,
       if bool_decide (id ∈ frameCallbacks store)
       then updateTransition time id store
       else Ok store)
    (frameCallbacks store) store.

(** The fields of the element itself. *)
Record t (Options : Type) := {
  current : option ObjectId;
  properties : option ElementProperties;
  options : option Options;
  store : Store
}.
Arguments current {Options} _.
Arguments properties {Options} _.
Arguments options {Options} _.
Arguments store {Options} _.

(** What [*transition] yields first: a resolved promise, or the promise
    of [createObject(type, value)]. *)
Inductive Yielded :=
| Resolved
| Creating (type : ElementType) (value : string).

(** The locals of the generator that are alive across its [yield]. *)
Record Suspended (Options : Type) := {
  oldObject : option ObjectId;
  oldProperties : option ElementProperties;
  oldOptions : option Options;
  newProperties : ElementProperties;
  newOptions : option Options;
  oldValue : option string;
  newValue : option string
}.
Arguments oldObject {Options} _.
Arguments oldProperties {Options} _.
Arguments oldOptions {Options} _.
Arguments newProperties {Options} _.
Arguments newOptions {Options} _.
Arguments oldValue {Options} _.
Arguments newValue {Options} _.

(** [a !== b] on possibly-undefined resolved values. *)
Definition differs (left right : option ResolvedValue) : bool :=
  match left, right with
  | None, None => false
  | Some l, Some r => negb (ResolvedValue_eqb l r)
  | _, _ => true
  end.

(** [properties?.[propertyName]] *)
Definition property (properties : option ResolvedProperties)
    (propertyName : string) : option ResolvedValue :=
  properties ← properties; Layout.map_get propertyName properties.

(** Dereferencing a value the source asserts to be defined. *)
Definition defined {A : Type} (value : option A) : result A :=
  match value with
  | Some a => Ok a
  | None => Err (ViewError "undefined")
  end.

Section BaseElement.
Context {Options : Type}.

(** The constructor argument and the abstract methods of
    [BaseElement]; [Ease] is [CssEasings.Ease], a cubic Bezier curve of
    the bezier-easing package. *)
Variable crossFade : bool.
Variable resolveProperties :
  ElementProperties → ObjectId → bool → option Options
  → result ResolvedProperties.
Variable getTransitionElementCount : ObjectId → bool → Q.
Variable Ease : Q → Q.

(** [private getElementTransitionEasing(name)] *)
Definition getElementTransitionEasing (name : string) : result (Q → Q) :=
  if String.eqb name "linear" then Ok Transition.LinearEasing
  else if String.eqb name "ease" then Ok Ease
  else Err (ViewError "Unsupported transition easing").

(** [*transition(properties, options)] up to its [yield]. [None] for
    the suspended generator: it returns right after the [yield]. *)
Definition transition_begin (properties : ElementProperties)
    (options : option Options) (this : t Options)
    : result (Yielded * option (Suspended Options)) :=
  oldValue ← match Element.properties this with
              | Some oldProperties => resolveElementValue oldProperties
              | None => Ok None
              end;
  newValue ← resolveElementValue properties;
  let suspended :=
    {| oldObject := current this;
       oldProperties := Element.properties this;
       oldOptions := Element.options this;
       newProperties := properties; newOptions := options;
       oldValue := oldValue; newValue := newValue |} in
  if negb (truthy oldValue) && negb (truthy newValue) then
    Ok (Resolved, None)
  else if truthy newValue && negb (bool_decide (newValue = oldValue)) then
    Ok (Creating (type properties) (default ""%string newValue),
        Some suspended)
  else Ok (Resolved, Some suspended).

(** The body of the loop over [propertyNames]. *)
Definition transitionProperty (suspended : Suspended Options)
    (newObject : option ObjectId)
    (oldObjectOldProperties oldObjectNewProperties
     newObjectOldProperties newObjectNewProperties
       : option ResolvedProperties)
    (oldObjectTransitionDuration newObjectTransitionDelay
     newObjectTransitionDuration : Q)
    (propertyName : string) (store : Store) : result Store :=
  let oldObjectChanged :=
    differs (property oldObjectOldProperties propertyName)
            (property oldObjectNewProperties propertyName) in
  let newObjectChanged :=
    differs (property newObjectOldProperties propertyName)
            (property newObjectNewProperties propertyName) in
  store ←
    (if oldObjectChanged || newObjectChanged then
       let transitions :=
         multimap_get propertyName (propertyTransitions store) in
       forEach cancelTransition transitions store
     else Ok store);
  easingName ← resolveElementPropertyTransitionEasing
                  (newProperties suspended) propertyName;
  transitionEasing ← getElementTransitionEasing easingName;
  store ←
    (if oldObjectChanged then
       oldObject ← defined (oldObject suspended);
       propertyValue ← defined (property oldObjectNewProperties propertyName);
       transitionPropertyValue oldObject propertyName propertyValue
         0 oldObjectTransitionDuration transitionEasing store
     else Ok store);
  if newObjectChanged then
    newObject ← defined newObject;
    propertyValue ← defined (property newObjectNewProperties propertyName);
    transitionPropertyValue newObject propertyName propertyValue
      newObjectTransitionDelay newObjectTransitionDuration
      transitionEasing store
  else Ok store.

(** [oldObjectTransitionDuration] *)
Definition oldObjectTransitionDuration (suspended : Suspended Options)
    : result Q :=
  match oldObject suspended with
  | Some oldObject =>
      resolveElementTransitionDuration (newProperties suspended)
        (getTransitionElementCount oldObject false)
  | None => Ok 0
  end.

(** [newObjectTransitionDelay] *)
Definition newObjectTransitionDelay (oldObjectTransitionDuration : Q) : Q :=
  if crossFade then 0 else oldObjectTransitionDuration.

(** [*transition(properties, options)] after its [yield], resumed once
    the promise has resolved: [newObject] is the object
    [createObject] made, if the generator asked for one. *)
Definition transition_commit (suspended : Suspended Options)
    (newObject : option ObjectId) (this : t Options) : result (t Options) :=
  let store := store this in
  let newValue := newValue suspended in
  let oldValue := oldValue suspended in
  let valueChanged := negb (bool_decide (oldValue = newValue)) in
  '(oldObjectOldProperties, oldObjectNewProperties) ←
    match oldObject suspended with
    | Some oldObject =>
        oldProperties ← defined (oldProperties suspended);
        oldObjectOldProperties ←
          resolveProperties oldProperties oldObject false
                            (oldOptions suspended);
        oldObjectNewProperties ←
          (if crossFade && truthy newValue then
             resolveProperties (newProperties suspended) oldObject
                               valueChanged (newOptions suspended)
           else
             resolveProperties oldProperties oldObject valueChanged
                               (oldOptions suspended));
        Ok (Some oldObjectOldProperties, Some oldObjectNewProperties)
    | None => Ok (None, None)
    end;
  '(newObjectOldProperties, newObjectNewProperties) ←
    match newObject with
    | Some newObject =>
        newObjectOldProperties ←
          (if crossFade && truthy oldValue then
             oldProperties ← defined (oldProperties suspended);
             resolveProperties oldProperties newObject valueChanged
                               (oldOptions suspended)
           else
             resolveProperties (newProperties suspended) newObject
                               valueChanged (newOptions suspended));
        newObjectNewProperties ←
          resolveProperties (newProperties suspended) newObject false
                            (newOptions suspended);
        Ok (Some newObjectOldProperties, Some newObjectNewProperties)
    | None => Ok (None, None)
    end;
  store ←
    match newObject, newObjectOldProperties with
    | Some newObject, Some newObjectOldProperties =>
        store ← forEach
                   (λ entry, setPropertyValue newObject (fst entry) (snd entry))
                   newObjectOldProperties store;
        attachObject newObject store
    | _, _ => Ok store
    end;
  oldDuration ← oldObjectTransitionDuration suspended;
  let newDelay := newObjectTransitionDelay oldDuration in
  newDuration ←
    match newObject with
    | Some newObject =>
        resolveElementTransitionDuration (newProperties suspended)
          (getTransitionElementCount newObject true)
    | None => Ok 0
    end;
  keyed ← defined (oldObjectOldProperties ?? newObjectNewProperties);
  let propertyNames := fst <$> keyed in
  store ← forEach
             (transitionProperty suspended newObject
                oldObjectOldProperties oldObjectNewProperties
                newObjectOldProperties newObjectNewProperties
                oldDuration newDelay newDuration)
             propertyNames store;
  if truthy newValue then
    Ok {| current := newObject ?? oldObject suspended;
          properties := Some (newProperties suspended);
          options := newOptions suspended;
          store := store |}
  else
    Ok {| current := None; properties := None; options := None;
          store := store |}.

(** How the reconciler drives the generator of one element: the first
    [next()], the awaited promise (a created Object has the initial
    property values of its kind), the second [next()]. *)
Definition update (initialValues : gmap string ResolvedValue)
    (properties : ElementProperties) (options : option Options)
    (this : t Options) : result (t Options) :=
  '(yielded, suspended) ← transition_begin properties options this;
  match suspended with
  | None => Ok this
  | Some suspended =>
      match yielded with
      | Resolved => transition_commit suspended None this
      | Creating _ _ =>
          let '(store, newObject) := createObject initialValues (store this) in
          transition_commit suspended (Some newObject)
            {| current := current this; properties := Element.properties this;
               options := Element.options this; store := store |}
      end
  end.

End BaseElement.

(** [class ImageElement]: it cross-fades; an [ImageObject] starts with
    the fields below; [naturalSize] is the natural size of the image an
    Object has loaded. *)
Section ImageElement.
Variables (PI : Q) (manifest : View.Manifest).
Variable naturalSize : ObjectId → Q * Q.

Definition ImageElement_crossFade : bool := true.

Definition ImageElement_resolveProperties (properties : ElementProperties)
    (object : ObjectId) (valueChanged : bool)
    (options : option View.TransitionOptions) : result ResolvedProperties :=
  resolved ← View.ImageElement_resolveProperties PI manifest properties
                (fst (naturalSize object)) (snd (naturalSize object))
                valueChanged (default View.NoOptions options);
  Ok (Image.entries resolved).

Definition ImageObject_initialValues : gmap string ResolvedValue :=
  list_to_map
    [("value"%string, RNumber 1); ("anchorX"%string, RNumber 0);
     ("anchorY"%string, RNumber 0); ("positionX"%string, RNumber 0);
     ("positionY"%string, RNumber 0); ("offsetX"%string, RNumber 0);
     ("offsetY"%string, RNumber 0); ("pivotX"%string, RNumber 0);
     ("pivotY"%string, RNumber 0); ("scaleX"%string, RNumber 1);
     ("scaleY"%string, RNumber 1); ("skewX"%string, RNumber 0);
     ("skewY"%string, RNumber 0); ("rotation"%string, RNumber 0);
     ("alpha"%string, RNumber 1)].

End ImageElement.

(** [class ChoiceElement]: it does not cross-fade and keeps the default
    [getTransitionElementCount]. *)
Definition ChoiceElement_crossFade : bool := false.

Definition ChoiceElement_resolveProperties (properties : ElementProperties)
    (object : ObjectId) (valueChanged : bool) (options : option unit)
    : result ResolvedProperties :=
  Choice_resolve properties valueChanged.

Definition ChoiceObject_initialValues : gmap string ResolvedValue :=
  list_to_map
    [("value"%string, RNumber 1); ("enabled"%string, RBoolean true);
     ("script"%string, RString "")].

(** [protected getTransitionElementCount(_object, _isEnter)] of
    [BaseElement]. *)
Definition getTransitionElementCount (object : ObjectId) (isEnter : bool) : Q :=
  1.

End Element.

(** ** Element: the registry invariant *)

Module ElementInvariant.
Import Element.

(** The Object and the property a transition was made for, and whether
    it is running. *)
Definition owner (store : Store) (id : TransitionId) : option ObjectId :=
  object <$> allocated store !! id.

Definition named (store : Store) (id : TransitionId) : option string :=
  propertyName <$> allocated store !! id.

Definition running (store : Store) (id : TransitionId) : bool :=
  from_option (λ it, Transition.isRunning (tween it)) false
              (allocated store !! id).

(** A transition is registered when the clock holds its frame
    callback. *)
Definition registered (store : Store) (id : TransitionId) : Prop :=
  id ∈ frameCallbacks store.

(** The two multimaps and the clock list the same transitions, each
    once and under its own Object and property; every registered
    transition is running; and no two registered transitions share an
    Object and a property. *)
Record Inv (store : Store) : Prop := {
  inv_frame_nodup : NoDup (frameCallbacks store);
  inv_object_nodup : NoDup (objectTransitions store);
  inv_property_nodup : NoDup (propertyTransitions store);
  inv_object : ∀ object id,
    (object, id) ∈ objectTransitions store
    ↔ registered store id ∧ owner store id = Some object;
  inv_property : ∀ propertyName id,
    (propertyName, id) ∈ propertyTransitions store
    ↔ registered store id ∧ named store id = Some propertyName;
  inv_running : ∀ id, registered store id → running store id = true;
  inv_unique : ∀ id1 id2,
    registered store id1 → registered store id2 →
    owner store id1 = owner store id2 →
    named store id1 = named store id2 →
    id1 = id2
}.

(** The number of allocated transitions that are running. *)
Definition running_count (store : Store) : nat :=
  length (List.filter (λ it, Transition.isRunning (tween it))
                      (allocated store)).

Definition delay_of (store : Store) (id : TransitionId) : option Q :=
  (λ it, Transition.delay (tween it)) <$> allocated store !! id.

(** Later stores keep the transitions of earlier ones, with the Object
    and property they were made for and with their delay. *)
Definition extends (before after : Store) : Prop :=
  (length (allocated before) ≤ length (allocated after))%nat
  ∧ ∀ id, (id < length (allocated before))%nat →
      owner after id = owner before id
      ∧ named after id = named before id
      ∧ delay_of after id = delay_of before id.

(** The transitions allocated between two stores. *)
Definition allocated_between (before after : Store) (id : TransitionId)
    : Prop :=
  (length (allocated before) ≤ id < length (allocated after))%nat.

(** What canceling does to the registry: transitions leave the clock,
    none is allocated, and no transition starts to run. *)
Definition shrinks (before after : Store) : Prop :=
  frameCallbacks after ⊆ frameCallbacks before
  ∧ length (allocated after) = length (allocated before)
  ∧ (∀ id, owner after id = owner before id
           ∧ named after id = named before id
           ∧ delay_of after id = delay_of before id)
  ∧ (∀ id, running after id = true → running before id = true).

(** The first three statements of the end callback. *)
Definition unregister (id : TransitionId) (it : PropertyTransition)
    (store : Store) : Store :=
  set_frameCallbacks
    (Layout.removeFrameCallback id (frameCallbacks store))
    (set_propertyTransitions
       (multimap_remove (propertyName it) id (propertyTransitions store))
       (set_objectTransitions
          (multimap_remove (object it) id (objectTransitions store))
          store)).

(** A way to cancel a transition that keeps the invariant. *)
Definition cancels (cancel : TransitionId → Store → result Store) : Prop :=
  ∀ id store store',
    Inv store → cancel id store = Ok store' →
    Inv store' ∧ shrinks store store'
    ∧ ¬ registered store' id ∧ running store' id = false.

(** The lifecycle of a rendered Object: whether it is attached, and how
    often it was detached and destroyed. *)
Definition lifecycle (store : Store) (object : ObjectId)
    : option (bool * nat * nat) :=
  (λ rendered,
     (attached rendered, detachCount rendered, destroyCount rendered))
    <$> objects store !! object.

(** Nothing was attached, detached or destroyed between two stores. *)
Definition same_lifecycle (before after : Store) : Prop :=
  ∀ object, lifecycle after object = lifecycle before object.

(** One [detachObject] and one [destroyObject]. *)
Definition torn_down (state : bool * nat * nat) : bool * nat * nat :=
  (false, S (snd (fst state)), S (snd state)).

(** The end callback tears the Object down: end value [0] on the
    property [value]. *)
Definition tears_down (it : PropertyTransition) : bool :=
  String.eqb (propertyName it) "value" && Qeq_bool (propertyValue it) 0.

(** The statements of [transitionPropertyValue] that allocate and
    register the new transition. *)
Definition enroll (it : PropertyTransition) (store : Store) : Store :=
  let id := length (allocated store) in
  set_frameCallbacks
    (Layout.addFrameCallback id (frameCallbacks store))
    (set_propertyTransitions
       (multimap_set (propertyName it) id (propertyTransitions store))
       (set_objectTransitions
          (multimap_set (object it) id (objectTransitions store))
          (set_allocated (allocated store ++ [it]) store))).

(** What [transitionPropertyValue] does to the registry: the
    transitions it allocates are for the given Object and property and
    have the given delay, and it registers no other transition. *)
Definition creates (before after : Store) (object : ObjectId)
    (name : string) (delay : Q) : Prop :=
  extends before after
  ∧ (∀ id, registered after id →
       registered before id ∨ allocated_between before after id)
  ∧ (∀ id, allocated_between before after id →
       owner after id = Some object
       ∧ named after id = Some name
       ∧ delay_of after id = Some delay).

(** What the commit phase does to the registry: every transition it
    allocates belongs to the outgoing Object and has delay [0], or
    belongs to the incoming Object and has the delay [newDelay]. *)
Definition replaces (before after : Store)
    (oldObject newObject : option ObjectId) (newDelay : Q) : Prop :=
  extends before after
  ∧ ∀ id, allocated_between before after id →
      (is_Some oldObject ∧ owner after id = oldObject
       ∧ delay_of after id = Some 0%Q)
      ∨ (is_Some newObject ∧ owner after id = newObject
         ∧ delay_of after id = Some newDelay).

(** Every transition registered for the property was allocated between
    the two stores. *)
Definition renewed (before after : Store) (name : string) : Prop :=
  ∀ id, registered after id → named after id = Some name →
    allocated_between before after id.

(** The Object exists and has the property. *)
Definition has_property (store : Store) (object : ObjectId) (name : string)
    : Prop :=
  ∃ rendered, objects store !! object = Some rendered
              ∧ is_Some (values rendered !! name).

(** Every transition is for a property its Object has, and the
    multimap of Objects lists transitions of the store. *)
Definition well_formed (store : Store) : Prop :=
  (∀ id it, allocated store !! id = Some it →
     has_property store (object it) (propertyName it))
  ∧ (∀ object id, (object, id) ∈ objectTransitions store →
       is_Some (allocated store !! id)).

(** Objects keep their properties, transitions their Object and
    property, and the multimap of Objects lists no further
    transition. *)
Definition preserved (before after : Store) : Prop :=
  (∀ object name, has_property before object name →
                  has_property after object name)
  ∧ (∀ id, owner after id = owner before id
           ∧ named after id = named before id)
  ∧ objectTransitions after ⊆ objectTransitions before.

(** [well_formed], computed. *)
Definition has_propertyb (store : Store) (object : ObjectId) (name : string)
    : bool :=
  match objects store !! object with
  | Some rendered => bool_decide (is_Some (values rendered !! name))
  | None => false
  end.

Definition well_formedb (store : Store) : bool :=
  forallb (λ it, has_propertyb store (object it) (propertyName it))
          (allocated store)
  && forallb (λ entry, bool_decide (snd entry < length (allocated store))%nat)
             (objectTransitions store).

(** Writing to the Objects leaves the registry alone. *)
Definition same_registry (before after : Store) : Prop :=
  objectTransitions after = objectTransitions before
  ∧ propertyTransitions after = propertyTransitions before
  ∧ frameCallbacks after = frameCallbacks before
  ∧ allocated after = allocated before.

(** Whether [start()] has been called on the transition. *)
Definition started (store : Store) (id : TransitionId) : bool :=
  from_option (λ it, Transition.isStarted (tween it)) false
              (allocated store !! id).

(** What the callbacks and the cancellations leave alone: the
    transitions allocated, each with its Object, its property, its
    delay, and whether it has been started. *)
Definition same_transitions (before after : Store) : Prop :=
  length (allocated after) = length (allocated before)
  ∧ ∀ id, owner after id = owner before id
          ∧ named after id = named before id
          ∧ delay_of after id = delay_of before id
          ∧ started after id = started before id.

(** Later stores keep the transitions of earlier ones as they were
    made. *)
Definition grows (before after : Store) : Prop :=
  (length (allocated before) ≤ length (allocated after))%nat
  ∧ ∀ id, (id < length (allocated before))%nat →
      owner after id = owner before id
      ∧ named after id = named before id
      ∧ delay_of after id = delay_of before id
      ∧ started after id = started before id.

(** The two stores have a started transition between them, made for the
    Object and the property, with the delay. *)
Definition starts (before after : Store) (object : ObjectId)
    (name : string) (delay : Q) : Prop :=
  ∃ id, allocated_between before after id
        ∧ owner after id = Some object
        ∧ named after id = Some name
        ∧ delay_of after id = Some delay
        ∧ started after id = true.

End ElementInvariant.

(** ** Scenarios *)

Module Scenarios.
Import ElementResolvedProperties Element ElementInvariant.

#[local] Open Scope Q_scope.

Definition from_result {A : Type} (fallback : A) (r : result A) : A :=
  match r with
  | Ok a => a
  | Err _ => fallback
  end.

(** A choice slot that shows [Yes] and is then changed to [No]. *)
Definition choice_update :=
  update (Options := unit) ChoiceElement_crossFade
         ChoiceElement_resolveProperties getTransitionElementCount
         Transition.LinearEasing ChoiceObject_initialValues.

Definition choice_new : t unit :=
  {| current := None; properties := None; options := None; store := empty |}.

Definition choice_yes : ElementProperties :=
  element_with_value choice 1 (Some (StringValue "Yes")).

Definition choice_no : ElementProperties :=
  element_with_value choice 1 (Some (StringValue "No")).

Definition choice_shown : t unit :=
  from_result choice_new (choice_update choice_yes None choice_new).

(** The second update, step by step: the suspended generator, the
    element once [createObject] has made the incoming Object [1], and
    the element after the commit. *)
Definition choice_suspended : Suspended unit :=
  match transition_begin choice_no None choice_shown with
  | Ok (_, Some suspended) => suspended
  | _ =>
      {| oldObject := None; oldProperties := None; oldOptions := None;
         newProperties := choice_no; newOptions := None;
         oldValue := None; newValue := None |}
  end.

Definition choice_loaded : t unit :=
  {| current := current choice_shown; properties := properties choice_shown;
     options := options choice_shown;
     store := fst (createObject ChoiceObject_initialValues
                                (store choice_shown)) |}.

Definition choice_commit :=
  transition_commit (Options := unit) ChoiceElement_crossFade
                    ChoiceElement_resolveProperties getTransitionElementCount
                    Transition.LinearEasing choice_suspended (Some 1%nat)
                    choice_loaded.

Definition choice_changed : t unit := from_result choice_shown choice_commit.

(** A background that shows [a.png] half transparent, is made opaque,
    and is then changed to [b.png]. *)
Definition manifest : View.Manifest :=
  {| View.width := 1280; View.height := 720; View.density := 1 |}.

Definition background_update :=
  update (Options := View.TransitionOptions) ImageElement_crossFade
         (ImageElement_resolveProperties 3 manifest (λ _, (640, 480)))
         getTransitionElementCount Transition.LinearEasing
         ImageObject_initialValues.

Definition background_with (file : string) (opacity : Q) : ElementProperties :=
  {| type := background; index := 1; value := Some (StringValue file);
     transitionDuration := None; transitionEasing := None;
     anchorX := None; anchorY := None; positionX := None; positionY := None;
     offsetX := None; offsetY := None; pivotX := None; pivotY := None;
     scaleX := None; scaleY := None; skewX := None; skewY := None;
     rotation := None; alpha := Some (NumberValue opacity);
     enabled := None; script := None; volume := None; loop := None |}.

Definition background_new : t View.TransitionOptions :=
  {| current := None; properties := None; options := None; store := empty |}.

Definition background_shown : t View.TransitionOptions :=
  from_result background_new
    (background_update (background_with "a.png" (1 # 2)) None background_new).

Definition background_opaque : t View.TransitionOptions :=
  from_result background_shown
    (background_update (background_with "a.png" 1) None background_shown).

Definition background_changed : t View.TransitionOptions :=
  from_result background_opaque
    (background_update (background_with "b.png" 1) None background_opaque).

(** Transition [2] fades the [value] of the outgoing Object [0] to [0].
    When it is canceled, its end callback runs in [background_ending]:
    the transition has ended and its update callback has set the value.
    [background_ended] is the store the end callback leaves. *)
Definition background_fading : PropertyTransition :=
  default {| object := 0%nat; propertyName := "none"; propertyValue := 0;
             tween := Transition.new 0 0 0 Transition.IdentityConverter |}
          (allocated (store background_changed) !! 2%nat).

Definition background_faded : PropertyTransition :=
  {| object := object background_fading;
     propertyName := propertyName background_fading;
     propertyValue := propertyValue background_fading;
     tween := fst (Transition.cancel true (tween background_fading)) |}.

Definition background_ending : Store :=
  from_result (store background_changed)
    (onUpdate 2 0 (set_tween 2 (tween background_faded)
                             (store background_changed))).

Definition background_ended : Store :=
  from_result background_ending
    (onEnd cancelTransition 2 background_ending).

End Scenarios.

(** ** Scenarios of the other modules *)

Module TransitionScenarios.
Import Transition.

#[local] Open Scope Q_scope.

(** A transition that was started and then canceled: it has ended. *)
Definition ended_transition : t Q :=
  match start (new 0 1 500 IdentityConverter) with
  | Ok (started, _) => fst (cancel true started)
  | Err _ => new 0 1 500 IdentityConverter
  end.

End TransitionScenarios.

Module ViewScenarios.
Import ElementResolvedProperties View.

#[local] Open Scope Q_scope.

(** The scenario of the spec: [figure1] shows [a.png], [figure2] shows
    [b.png], nothing else is declared. *)
Definition two_figures : ElementPropertiesMap :=
  [("figure1", element_with_value figure 1 (Some (StringValue "a.png")));
   ("figure2", element_with_value figure 2 (Some (StringValue "b.png")))].

(** The resolved [positionX] of an image element of the map. *)
Definition positionX_of (PI : Q) (manifest : Manifest)
    (elementPropertiesMap : ElementPropertiesMap) (elementName : string)
    (naturalWidth naturalHeight : Q) : result Q :=
  options ← transitionOptions elementPropertiesMap elementName;
  match get elementPropertiesMap elementName with
  | None => Err (ViewError "undefined element properties")
  | Some properties =>
      resolved ← ImageElement_resolveProperties PI manifest properties
                    naturalWidth naturalHeight true options;
      Ok (Image.r_positionX resolved)
  end.

End ViewScenarios.

Module EngineScenarios.
Import Engine.

Definition example_engine : t unit :=
  {| status := StatusExecuting;
     state :=
       {| fileName := "main.vnm"; nextCommandIndex := 3;
          layoutName := "none";
          elements :=
            [("figure1", element_with_value figure 1 (Some NoneValue));
             ("figure2",
              element_with_value figure 2 (Some (StringValue "b.png")));
             ("text1", element_with_value text 1 None)];
          scriptStates := tt;
          keepSkippingWait := true |} |}.

End EngineScenarios.

Module LayoutScenarios.
Import Layout.

(** A page with a title screen shown only in layout [title] and a
    dialogue box shown only in layout [dialogue]. *)
Definition example_layout : t :=
  create [(1, ["title"%string]); (2, ["dialogue"%string])]
         [("title"%string, [(background, 10)]);
          ("dialogue"%string, [(background, 10); (text, 11)])]
         [] ∅.

End LayoutScenarios.

(** ** Transition.ts: the methods as calls *)

Module TransitionLifecycle.
Import Transition.

#[local] Open Scope Q_scope.

(** How often a list of notifications notifies the end callbacks. *)
Definition endCount {V : Type} (notifications : list (Notification V)) : nat :=
  length (List.filter (λ notification,
                         match fst notification with
                         | OnEnd => true
                         | _ => false
                         end) notifications).

(** A method call on a transition: the transition before, the
    transition after and the notifications, or nothing when the method
    throws. *)
Inductive Method := Start | Pause | Resume | Cancel (snapToEnd : bool)
                  | SetFraction (fraction : Q) | Update (time : Q).

Definition call {V : Type} (method : Method) (this : t V)
    : result (t V * list (Notification V)) :=
  match method with
  | Start => start this
  | Pause => pause this
  | Resume => resume this
  | Cancel snapToEnd => Ok (cancel snapToEnd this)
  | SetFraction fraction => set_fraction fraction this
  | Update time => Ok (update time this)
  end.

(** The frames of a clock at [times], one [update] each: the transition
    after them and what they notified. *)
Fixpoint updates {V : Type} (times : list Q) (this : t V)
    : t V * list (Notification V) :=
  match times with
  | [] => (this, [])
  | time :: times =>
      let '(this, first) := update time this in
      let '(this, rest) := updates times this in
      (this, first ++ rest)
  end.

(** A transition of 500 ms that was started, saw a frame at 100 ms and
    was then paused. *)
Definition example_paused : t Q :=
  let fresh := new 0 1 500 IdentityConverter in
  match start fresh with
  | Ok (started, _) =>
      match pause (fst (update 100 started)) with
      | Ok (paused, _) => paused
      | Err _ => fresh
      end
  | Err _ => fresh
  end.

End TransitionLifecycle.

(** ** PropertyValue.ts: parsing a string value *)

Module StringValue.

#[local] Open Scope string_scope.

(** The loop of [StringValue.parse] from index [i] on: [rest] is the
    source from [i] to its end, so that [i < source.length - 1] says
    that more than one character is left and [i + 1 >= source.length -
    1] that at most two are.  A source is a sequence of code units; the
    loop singles out the quote and the backslash only. *)
Fixpoint parse_from (rest : string) (value : string) : option string :=
  match rest with
  | EmptyString => Some value
  | String char rest' =>
      if Ascii.eqb char "'" then
        match rest' with
        | EmptyString => parse_from rest' value
        | String _ _ => None
        end
      else if Ascii.eqb char "\" then
        match rest' with
        | String nextChar (String _ _ as rest'') =>
            if Ascii.eqb nextChar "'" || Ascii.eqb nextChar "\" then
              parse_from rest'' (value ++ String nextChar EmptyString)
            else None
        | _ => None
        end
      else parse_from rest' (value ++ String char EmptyString)
  end.

(** [source.endsWith("'")] *)
Fixpoint endsWith_quote (source : string) : bool :=
  match source with
  | EmptyString => false
  | String char EmptyString => Ascii.eqb char "'"
  | String _ rest => endsWith_quote rest
  end.

(** [StringValue.parse(source)]: the parsed string, [None] for
    [undefined]. *)
Definition parse (source : string) : option string :=
  match source with
  | String "'" _ =>
      if negb (endsWith_quote source) then None
      else parse_from source ""
  | _ => Some source
  end.

End StringValue.

(** ** View.ts: the order and the ordinals of the elements *)

Module ViewOrder.
Import ElementResolvedProperties View.

(** The order of the kinds: the order of their names as strings. *)
Definition before (left right : ElementType) : bool :=
  String.ltb (ElementType_name left) (ElementType_name right).

(** An element that resolves to a value: it is counted. *)
Definition visible (elementPropertiesMap : ElementPropertiesMap)
    (elementName : string) : Prop :=
  ∃ elementProperties elementValue,
    get elementPropertiesMap elementName = Some elementProperties
    ∧ resolveElementValue elementProperties = Ok elementValue
    ∧ truthy elementValue = true.

(** Every ordinal is below the count of its kind, and two elements of
    a kind do not share an ordinal. *)
Definition ordinals (elementPropertiesMap : ElementPropertiesMap)
    (elementIndices elementTypeCounts : gmap string nat) : Prop :=
  (∀ elementName ordinal,
     elementIndices !! elementName = Some ordinal →
     ∃ elementProperties count,
       get elementPropertiesMap elementName = Some elementProperties
       ∧ elementTypeCounts !! ElementType_name (type elementProperties)
         = Some count
       ∧ (ordinal < count)%nat)
  ∧ (∀ left right leftProperties rightProperties ordinal,
       get elementPropertiesMap left = Some leftProperties →
       get elementPropertiesMap right = Some rightProperties →
       type leftProperties = type rightProperties →
       elementIndices !! left = Some ordinal →
       elementIndices !! right = Some ordinal →
       left = right).

End ViewOrder.

(** ** Layout.ts: frames, and the invariant of the tracked transitions *)

Module LayoutClock.
Import Layout.

#[local] Open Scope Q_scope.

(** The frame callback [it => transition.update(it)] of one
    transition of the layout, with the callbacks it notifies. *)
Definition updateTransition (time : Q) (id : nat) (this : t) : t :=
  match allocated this !! id with
  | None => this
  | Some layoutTransition =>
      let '(transition, notifications) :=
        Transition.update time (tween layoutTransition) in
      let this :=
        set_allocated
          (<[id := {| target := target layoutTransition;
                      tween := transition |}]> (allocated this))
          this in
      notifiedAll id (target layoutTransition) notifications this
  end.

(** One frame of the clock, for the callbacks of the layout:
    [frameCallbacks.forEach(it => it(time))]; an entry deleted before
    its turn is not visited. *)
Definition nextFrame (time : Q) (this : t) : t :=
  foldl (λ this id,
           if bool_decide (id ∈ frameCallbacks this)
           then updateTransition time id this
           else this)
        this (frameCallbacks this).

(** The frames the clock runs while the view waits. *)
Definition frames (times : list Q) (this : t) : t :=
  foldl (λ this time, nextFrame time this) this times.

(** The [set_layout] case of [View.update]: the first step of the
    generator, the wait (the clock runs the frames [times1]), [snap()],
    the second step, the wait and [snap()] again. *)
Definition switch (newLayoutName : string) (times1 times2 : list Q)
    (this : t) : result (t * list ElementType) :=
  '(this, exitElementTypes, suspended) ← transition newLayoutName this;
  let this := snap (frames times1 this) in
  this ← transition_next suspended this;
  Ok (snap (frames times2 this), exitElementTypes).

End LayoutClock.

Module LayoutInvariant.
Import Layout LayoutClock.

#[local] Open Scope Q_scope.

(** Whether the transition a layout allocated under [id] is running. *)
Definition running (this : t) (id : nat) : bool :=
  from_option (λ it, Transition.isRunning (tween it)) false
              (allocated this !! id).

(** A transition as [transitionElement] makes it: over numbers, with
    the default easing. *)
Definition linear (this : t) (id : nat) : Prop :=
  ∃ it, allocated this !! id = Some it
        ∧ Transition.converter (tween it) = Transition.IdentityConverter
        ∧ Transition.easing (tween it) = Transition.LinearEasing.

(** The node transition [id] fades and the opacity it is heading for. *)
Definition heading (this : t) (id : nat) : option (Node * Q) :=
  (λ it, (target it, Transition.endValue (tween it))) <$> allocated this !! id.

(** The layout tracks each of its transitions once, tracks only running
    transitions, holds exactly their frame callbacks, and does not
    decorate a node twice ([elementLayouts] is a [Map]). *)
Record Inv (this : t) : Prop := {
  inv_tracked : NoDup (transitions this);
  inv_frame : frameCallbacks this = transitions this;
  inv_running : ∀ id, id ∈ transitions this → running this id = true;
  inv_linear : ∀ id, id ∈ transitions this → linear this id;
  inv_nodes : NoDup (fst <$> elementLayouts this)
}.

(** The layout is at rest: it tracks no transition, and every decorated
    node that is not in the active layout is hidden. *)
Record Settled (this : t) : Prop := {
  settled_inv : Inv this;
  settled_rest : transitions this = [];
  settled_hidden : ∀ element layoutNames,
    (element, layoutNames) ∈ elementLayouts this →
    layoutName this ∉ layoutNames →
    getOpacity (style_of this element) == 0
}.

(** The parts of a layout that no transition changes. *)
Definition same_page (before after : t) : Prop :=
  layoutNames after = layoutNames before
  ∧ elementLayouts after = elementLayouts before
  ∧ layoutTypeContainerElements after = layoutTypeContainerElements before
  ∧ layoutTypeTemplateElements after = layoutTypeTemplateElements before
  ∧ layoutName after = layoutName before.

(** What an update or a cancellation of the tracked transition [id]
    does: it writes an opacity to the node of the transition, and the
    transition either stays tracked or has ended, is dropped and has
    written the opacity it was heading for. *)
Definition touched (id : nat) (before after : t) : Prop :=
  same_page before after
  ∧ (∀ id', heading after id' = heading before id')
  ∧ (∀ id', id' ≠ id → allocated after !! id' = allocated before !! id')
  ∧ ∃ element opacity written,
      heading before id = Some (element, opacity)
      ∧ styles after = <[element := setOpacity written]> (styles before)
      ∧ ((transitions after = transitions before
          ∧ frameCallbacks after = frameCallbacks before
          ∧ running after id = true ∧ linear after id)
         ∨ (transitions after = remove_first id (transitions before)
            ∧ frameCallbacks after
              = removeFrameCallback id (frameCallbacks before)
            ∧ running after id = false
            ∧ written == opacity)).

(** The nodes [targets] are fading to [opacity]: every tracked
    transition fades one of them to that opacity, and each of them
    either is still being faded or has that opacity. *)
Record Fading (targets : list Node) (opacity : Q) (this : t) : Prop := {
  fading_inv : Inv this;
  fading_tracked : ∀ id, id ∈ transitions this →
    ∃ element opacity',
      heading this id = Some (element, opacity')
      ∧ element ∈ targets ∧ opacity' == opacity;
  fading_targets : ∀ element, element ∈ targets →
    (∃ id opacity', id ∈ transitions this
                    ∧ heading this id = Some (element, opacity'))
    ∨ getOpacity (style_of this element) == opacity
}.

(** Nodes outside [targets] keep their style. *)
Definition untouched (targets : list Node) (before after : t) : Prop :=
  ∀ element, element ∉ targets →
    style_of after element = style_of before element.

End LayoutInvariant.

Module LayoutClockScenarios.
Import Layout LayoutClock LayoutScenarios.

#[local] Open Scope Q_scope.

(** The layout of the example after a complete switch to
    [dialogue], with three frames in its first wait and two in its
    second. *)
Definition example_switched : t :=
  match switch "dialogue" [0; 250; 600] [700; 900] example_layout with
  | Ok (this, _) => this
  | Err _ => example_layout
  end.

End LayoutClockScenarios.

(** ** Element.ts: [hasTransition], [snap] and [destroy] *)

Module ElementControl.
Import ElementResolvedProperties Element ElementInvariant.

#[local] Open Scope Q_scope.

(** [hasTransition(propertyMatcher)] *)
Definition hasTransition (propertyMatcher : string → bool) (store : Store)
    : bool :=
  existsb (λ it, propertyMatcher (fst it)) (propertyTransitions store).

(** [snap(propertyMatcher)].  [entries] is the snapshot
    [Array.from(this.propertyTransitions)]: the entries of the multimap
    in the order it iterates them, key by key. *)
Definition snap (entries : list (string * TransitionId))
    (propertyMatcher : string → bool) (store : Store) : result Store :=
  forEach
    (λ entry store,
       if propertyMatcher (fst entry) then cancelTransition (snd entry) store
       else Ok store)
    entries store.

(** [destroy()].  [transitions] is the snapshot
    [Array.from(this.objectTransitions.values())]. *)
Definition destroy {Options : Type} (transitions : list TransitionId)
    (this : t Options) : result (t Options) :=
  store ← forEach cancelTransition transitions (store this);
  store ←
    match current this with
    | Some object =>
        store ← detachObject object store;
        destroyObject object store
    | None => Ok store
    end;
  Ok {| current := current this; properties := properties this;
        options := options this; store := store |}.

(** What an Object holds for a property, and the end value of a
    transition. *)
Definition value_of (store : Store) (object : ObjectId) (name : string)
    : option ResolvedValue :=
  rendered ← objects store !! object; values rendered !! name.

Definition end_of (store : Store) (id : TransitionId) : option Q :=
  (λ it, Transition.endValue (tween it)) <$> allocated store !! id.

(** Every running transition is registered with the clock. *)
Definition tracked (store : Store) : Prop :=
  ∀ id, running store id = true → registered store id.

Definition trackedb (store : Store) : bool :=
  forallb (λ id, implb (running store id)
                       (bool_decide (id ∈ frameCallbacks store)))
          (seq 0 (length (allocated store))).

(** The registered transition [id] animates the property [name] of
    [object]. *)
Definition drives (store : Store) (id : TransitionId) (object : ObjectId)
    (name : string) : Prop :=
  registered store id ∧ owner store id = Some object
  ∧ named store id = Some name.

(** Between two stores, transitions keep their end value; the property
    of a transition that has left the clock holds its end value; and a
    property whose transition, if it has one, is still registered holds
    what it held. *)
Definition settles (before after : Store) : Prop :=
  (∀ id, end_of after id = end_of before id)
  ∧ (∀ id object name value,
       drives before id object name → ¬ registered after id →
       end_of before id = Some value →
       value_of after object name = Some (RNumber value))
  ∧ (∀ object name,
       (∀ id, drives before id object name → registered after id) →
       value_of after object name = value_of before object name).

(** A way to cancel that settles the properties. *)
Definition settling (cancel : TransitionId → Store → result Store) : Prop :=
  ∀ id store store',
    Inv store → tracked store → cancel id store = Ok store' →
    tracked store' ∧ settles store store'.

End ElementControl.

(** ** HTMLElements.ts: [insertWithOrder] *)

Module HTMLElements.

#[local] Open Scope Z_scope.

(** A child of the parent as [insertWithOrder] reads it: its identity,
    whether it is an [HTMLElement], and the integer [Number.parseInt]
    reads from its [data-order]; [None] when the attribute is missing
    or empty, or holds no integer ([order < NaN] is false). *)
Record Child := {
  node : nat;
  isHTMLElement : bool;
  dataset_order : option Z
}.

(** The loop over [parentElement.children]: [insertBeforeElement] is
    the position of the child found so far. *)
Fixpoint findInsertBefore (order : Z) (children : list Child) (position : nat)
    (insertBeforeElement : option nat) : option nat :=
  match children with
  | [] => insertBeforeElement
  | childElement :: children =>
      let insertBeforeElement :=
        if negb (isHTMLElement childElement) then insertBeforeElement
        else
          match dataset_order childElement with
          | None => insertBeforeElement
          | Some childOrder =>
              if order <? childOrder then Some position
              else insertBeforeElement
          end in
      findInsertBefore order children (S position) insertBeforeElement
  end.

(** [insertWithOrder(parentElement, order, element)] for an element
    that is not yet a child of the parent: the children afterwards.
    [insertBefore(element, null)] appends. *)
Definition insertWithOrder (children : list Child) (order : Z) (element : nat)
    : list Child :=
  let insertBeforeElement := findInsertBefore order children 0 None in
  let element :=
    {| node := element; isHTMLElement := true;
       dataset_order := Some order |} in
  match insertBeforeElement with
  | Some position => take position children ++ element :: drop position children
  | None => children ++ [element]
  end.

(** The orders [insertWithOrder] compares with, in document order. *)
Definition orders (children : list Child) : list Z :=
  omap (λ child, if isHTMLElement child then dataset_order child else None)
       children.

(** Whether the loop of [insertWithOrder] picks the child. *)
Definition larger (order : Z) (child : Child) : bool :=
  isHTMLElement child
  && from_option (λ childOrder, order <? childOrder) false
                 (dataset_order child).

(** Two layers in a container, with the orders [1] and [3]. *)
Definition example_children : list Child :=
  [{| node := 0; isHTMLElement := true; dataset_order := Some 1 |};
   {| node := 1; isHTMLElement := true; dataset_order := Some 3 |}].

End HTMLElements.

(** ** TextObject.ts: the [value] of a text *)

Module TextObject.
Import Layout.

#[local] Open Scope Q_scope.

Definition ENTER_TRANSITION_WINDOW_SIZE : Q := 5.

(** The fields of a [TextObject]: the inline styles of its element and
    of the spans of its grapheme clusters. *)
Record t := {
  element : Style;
  spans : list Style;
  _value : Q;
  isEnter : bool;
  enterByGraphemeCluster : bool
}.

(** [get transitionElementCount()] *)
Definition transitionElementCount (this : t) : result Q :=
  if negb (enterByGraphemeCluster this) then
    Err (ViewError "Unexpected call to get transitionElementCount when not entering by grapheme cluster")
  else
    Ok (inject_Z (Z.of_nat (length (spans this)))
        + ENTER_TRANSITION_WINDOW_SIZE - 1).

(** [get value()] *)
Definition value (this : t) : Q := _value this.

(** [set value(value)] *)
Definition set_value (value : Q) (this : t) : t :=
  let isEnter :=
    if Qeq_bool value 0 then true
    else if isEnter this && Qeq_bool value 1 then false
    else isEnter this in
  if isEnter && enterByGraphemeCluster this then
    let windowStart :=
      value * (inject_Z (Z.of_nat (length (spans this)))
               + ENTER_TRANSITION_WINDOW_SIZE - 1)
      - ENTER_TRANSITION_WINDOW_SIZE + 1 / 2 in
    {| element := setOpacity 1;
       spans :=
         imap (λ index span,
                 let indexCenter := inject_Z (Z.of_nat index) + 1 / 2 in
                 let windowFraction :=
                   Qmax 0 (Qmin (indexCenter - windowStart)
                                ENTER_TRANSITION_WINDOW_SIZE)
                   / ENTER_TRANSITION_WINDOW_SIZE in
                 let opacity := 1 - windowFraction in
                 setOpacity opacity)
              (spans this);
       _value := value; isEnter := isEnter;
       enterByGraphemeCluster := enterByGraphemeCluster this |}
  else
    {| element := setOpacity value;
       spans := if enterByGraphemeCluster this
                then (λ _, setOpacity 1) <$> spans this
                else spans this;
       _value := value; isEnter := isEnter;
       enterByGraphemeCluster := enterByGraphemeCluster this |}.

(** [getPropertyValue(propertyName)] and [setPropertyValue(propertyName,
    propertyValue)] *)
Definition getPropertyValue (propertyName : string) (this : t) : result Q :=
  if String.eqb propertyName "value" then Ok (value this)
  else Err (ViewError "Unknown property").

Definition setPropertyValue (propertyName : string) (propertyValue : Q)
    (this : t) : result t :=
  if String.eqb propertyName "value" then Ok (set_value propertyValue this)
  else Err (ViewError "Unknown property").

(** The opacity of the span at [index]; [1] where there is none. *)
Definition spanOpacity (this : t) (index : nat) : Q :=
  from_option getOpacity 1 (spans this !! index).

(** The progress of an enter transition, counted in grapheme
    clusters, and the opacity the window gives the span at [index]. *)
Definition progress (this : t) (value : Q) : Q :=
  value * (inject_Z (Z.of_nat (length (spans this))) + 4).

Definition revealed (progress : Q) (index : nat) : Q :=
  Qmin (Qmax 0 ((progress - inject_Z (Z.of_nat index)) / 5)) 1.

(** A text of three grapheme clusters that has begun to enter. *)
Definition example_text : t :=
  {| element := setOpacity 1;
     spans := [setOpacity 0; setOpacity 0; setOpacity 0];
     _value := 0; isEnter := true; enterByGraphemeCluster := true |}.

End TextObject.

(** ** PropertyValue.ts: the parsers *)

Module PropertyValueParse.

(** Strings are sequences of 8-bit code units. *)
Definition chars (source : string) : list ascii := list_ascii_of_string source.

(** [source.endsWith(suffix)] *)
Definition endsWith (source suffix : string) : bool :=
  bool_decide (chars suffix `suffix_of` chars source).

(** [source.substring(0, source.length - count)] *)
Definition dropEnd (source : string) (count : nat) : string :=
  string_of_list_ascii (take (length (chars source) - count) (chars source)).

Definition AngleUnit_name (unit : AngleUnit) : string :=
  match unit with
  | UnitDeg => "deg"
  | UnitRad => "rad"
  | UnitGrad => "grad"
  | UnitTurn => "turn"
  end.

Definition TimeUnit_name (unit : TimeUnit) : string :=
  match unit with
  | UnitS => "s"
  | UnitMs => "ms"
  | UnitSpe => "spe"
  | UnitMspe => "mspe"
  end.

Definition InitialValue_parse (source : string) : option PropertyValue :=
  if negb (String.eqb source "initial") then None else Some InitialValue.

Definition NoneValue_parse (source : string) : option PropertyValue :=
  if negb (String.eqb source "none") then None else Some NoneValue.

Definition ZeroValue_parse (source : string) : option PropertyValue :=
  if negb (String.eqb source "0") then None else Some ZeroValue.

Definition BooleanValue_parse (source : string) : option PropertyValue :=
  if String.eqb source "true" then Some (BooleanValue true)
  else if String.eqb source "false" then Some (BooleanValue false)
  else None.

Definition StringValue_parse (source : string) : option PropertyValue :=
  StringValue <$> StringValue.parse source.

Section Number.
(** [Number(string)] for the strings whose number this model can hold;
    [None] is [NaN]. *)
Variable Number : string → option Q.

Definition AngleValue_parse (source : string) : option PropertyValue :=
  unit ←
    (if endsWith source "deg" then Some UnitDeg
     else if endsWith source "grad" then Some UnitGrad
     else if endsWith source "rad" then Some UnitRad
     else if endsWith source "turn" then Some UnitTurn
     else None);
  value ← Number (dropEnd source (String.length (AngleUnit_name unit)));
  Some (AngleValue value unit).

Definition NumberValue_parse (source : string) : option PropertyValue :=
  NumberValue <$> Number source.

Definition LengthValue_parse (source : string) : option PropertyValue :=
  if negb (endsWith source "px") then None
  else LengthValue <$> Number (dropEnd source 2).

Definition PercentageValue_parse (source : string) : option PropertyValue :=
  if negb (endsWith source "%") then None
  else PercentageValue <$> Number (dropEnd source 1).

Definition TimeValue_parse (source : string) : option PropertyValue :=
  unit ←
    (if endsWith source "ms" then Some UnitMs
     else if endsWith source "s" then Some UnitS
     else if endsWith source "mspe" then Some UnitMspe
     else if endsWith source "spe" then Some UnitSpe
     else None);
  value ← Number (dropEnd source (String.length (TimeUnit_name unit)));
  Some (TimeValue value unit).

End Number.

(** A [Number] that reads the numerals [5] and [1.5] only. *)
Definition example_Number (source : string) : option Q :=
  if String.eqb source "5" then Some 5%Q
  else if String.eqb source "1.5" then Some (3 # 2)%Q
  else None.

End PropertyValueParse.

(** ** ElementProperties.ts: [Property.parse] *)

Module Property.
Import PropertyValueParse.

Definition ELEMENT_TYPES : list ElementType :=
  [background; figure; foreground; avatar; name; text; choice; music; sound;
   voice; video; effect].

(** The element of [ELEMENT_TYPES] that [typeString] is, if
    [ELEMENT_TYPES.includes(typeString)]. *)
Definition includes (typeString : string) : option ElementType :=
  List.find (λ type, String.eqb (ElementType_name type) typeString)
            ELEMENT_TYPES.

(** The digits at the start of a list, and the rest of it. *)
Fixpoint leadingDigits (input : list ascii) : list ascii * list ascii :=
  match input with
  | char :: rest =>
      if ElementPropertyMatcher.is_digit char then
        let '(digits, others) := leadingDigits rest in
        (char :: digits, others)
      else ([], input)
  | [] => ([], [])
  end.

(** A dot of a regular expression matches no line terminator. *)
Definition isLineTerminator (char : ascii) : bool :=
  Ascii.eqb char "010" || Ascii.eqb char "013".

(** [elementName.match(...)]: the two groups of the match.  The
    regular expression asks for a first group of any characters but
    line terminators followed by one character that is no digit, and
    then for an optional second group, a digit from [1] to [9] followed
    by digits, up to the end of the name.  So the second group can only
    be the digits that end the name, and the first group ends with the
    last character that is no digit. *)
Definition matchElementName (elementName : string)
    : option (string * option string) :=
  let '(digits, others) := leadingDigits (reverse (chars elementName)) in
  match others with
  | [] => None
  | last :: before =>
      if existsb isLineTerminator before then None
      else
        match reverse digits with
        | [] => Some (string_of_list_ascii (reverse others), None)
        | first :: _ =>
            if Ascii.eqb first "0" then None
            else Some (string_of_list_ascii (reverse others),
                       Some (string_of_list_ascii (reverse digits)))
        end
  end.

(** The natural number a string of decimal digits denotes, and the
    decimal digits of a natural number. *)
Definition denoted (digits : string) : Z :=
  match DecimalString.NilEmpty.uint_of_string digits with
  | Some digits => Z.of_N (N.of_uint digits)
  | None => 0
  end.

Definition printed (number : Z) : string :=
  DecimalString.NilEmpty.string_of_uint (N.to_uint (Z.to_N number)).

(** An index is a JavaScript number that [Number] has read from a
    string of digits: a double with a natural number for its value, or
    [Infinity].  It is kept as that natural number, and [Infinity] as
    the power of two that stands for it when a number too large for a
    double is rounded. *)
Definition Infinity : Z := (2 ^ 1024)%Z.

(** The double nearest to a natural number: the number itself when
    53 bits hold it, and else its first 53 bits, rounded to the nearest
    with a tie going to the even one; what is rounded to [2 ^ 1024] or
    more is [Infinity]. *)
Definition nearestDouble (number : Z) : Z :=
  let shift := (Z.log2 number - 52)%Z in
  if (shift <=? 0)%Z then number
  else
    let quotient := Z.shiftr number shift in
    let remainder := Z.land number (Z.ones shift) in
    let half := Z.shiftl 1 (shift - 1) in
    let quotient :=
      if (half <? remainder)%Z || ((remainder =? half)%Z && Z.odd quotient)
      then (quotient + 1)%Z
      else quotient in
    Z.min (Z.shiftl quotient shift) Infinity.

(** [Number(indexString)] for a string of decimal digits. *)
Definition decimal (indexString : string) : Z :=
  nearestDouble (denoted indexString).

(** The property names [parse] returns; [PropertyKey_name] is the
    string. *)
Inductive PropertyKey :=
| Key_value | Key_transitionDuration | Key_transitionEasing
| Key_anchorX | Key_anchorY | Key_positionX | Key_positionY
| Key_offsetX | Key_offsetY | Key_pivotX | Key_pivotY
| Key_scaleX | Key_scaleY | Key_skewX | Key_skewY | Key_rotation | Key_alpha
| Key_enabled | Key_script | Key_volume | Key_loop.

#[global] Instance PropertyKey_eq_dec : EqDecision PropertyKey.
Proof. solve_decision. Defined.

Definition PropertyKey_name (key : PropertyKey) : string :=
  match key with
  | Key_value => "value"
  | Key_transitionDuration => "transitionDuration"
  | Key_transitionEasing => "transitionEasing"
  | Key_anchorX => "anchorX"
  | Key_anchorY => "anchorY"
  | Key_positionX => "positionX"
  | Key_positionY => "positionY"
  | Key_offsetX => "offsetX"
  | Key_offsetY => "offsetY"
  | Key_pivotX => "pivotX"
  | Key_pivotY => "pivotY"
  | Key_scaleX => "scaleX"
  | Key_scaleY => "scaleY"
  | Key_skewX => "skewX"
  | Key_skewY => "skewY"
  | Key_rotation => "rotation"
  | Key_alpha => "alpha"
  | Key_enabled => "enabled"
  | Key_script => "script"
  | Key_volume => "volume"
  | Key_loop => "loop"
  end.

Section Number.
Variable Number : string → option Q.

(** [function parsePropertyValue(propertyName, propertyValue, parse)] *)
Definition parsePropertyValue (propertyName propertyValue : string)
    (parse : string → option PropertyValue) : result PropertyValue :=
  match InitialValue_parse propertyValue ?? parse propertyValue with
  | None => Err (EngineError "Invalid value for property")
  | Some value => Ok value
  end.

Definition zeroLengthPercentage (it : string) : option PropertyValue :=
  ZeroValue_parse it ?? LengthValue_parse Number it
  ?? PercentageValue_parse Number it.

Definition numberPercentage (it : string) : option PropertyValue :=
  NumberValue_parse Number it ?? PercentageValue_parse Number it.

Definition zeroAngle (it : string) : option PropertyValue :=
  ZeroValue_parse it ?? AngleValue_parse Number it.

(** One [case] of a [switch (propertyName)]: the name and the parsed
    value. *)
Definition found (key : PropertyKey) (propertyName propertyValue : string)
    (parse : string → option PropertyValue)
    : result (option (PropertyKey * PropertyValue)) :=
  value ← parsePropertyValue propertyName propertyValue parse;
  Ok (Some (key, value)).

(** The first [switch (propertyName)]: the properties of every kind. *)
Definition parseBase (propertyName propertyValue : string)
    : result (option (PropertyKey * PropertyValue)) :=
  if String.eqb propertyName "value" then
    found Key_value propertyName propertyValue
          (λ it, NoneValue_parse it ?? StringValue_parse it)
  else if String.eqb propertyName "transition_duration" then
    found Key_transitionDuration propertyName propertyValue
          (λ it, ZeroValue_parse it ?? TimeValue_parse Number it)
  else if String.eqb propertyName "transition_easing" then
    found Key_transitionEasing propertyName propertyValue StringValue_parse
  else Ok None.

(** The [switch (type)] with its inner switches. *)
Definition parseOfType (type : ElementType)
    (propertyName propertyValue : string)
    : result (option (PropertyKey * PropertyValue)) :=
  match type with
  | background | figure | foreground | avatar =>
      if String.eqb propertyName "anchor_x" then
        found Key_anchorX propertyName propertyValue zeroLengthPercentage
      else if String.eqb propertyName "anchor_y" then
        found Key_anchorY propertyName propertyValue zeroLengthPercentage
      else if String.eqb propertyName "position_x" then
        found Key_positionX propertyName propertyValue zeroLengthPercentage
      else if String.eqb propertyName "position_y" then
        found Key_positionY propertyName propertyValue zeroLengthPercentage
      else if String.eqb propertyName "offset_x" then
        found Key_offsetX propertyName propertyValue zeroLengthPercentage
      else if String.eqb propertyName "offset_y" then
        found Key_offsetY propertyName propertyValue zeroLengthPercentage
      else if String.eqb propertyName "pivot_x" then
        found Key_pivotX propertyName propertyValue zeroLengthPercentage
      else if String.eqb propertyName "pivot_y" then
        found Key_pivotY propertyName propertyValue zeroLengthPercentage
      else if String.eqb propertyName "scale_x" then
        found Key_scaleX propertyName propertyValue numberPercentage
      else if String.eqb propertyName "scale_y" then
        found Key_scaleY propertyName propertyValue numberPercentage
      else if String.eqb propertyName "skew_x" then
        found Key_skewX propertyName propertyValue zeroAngle
      else if String.eqb propertyName "skew_y" then
        found Key_skewY propertyName propertyValue zeroAngle
      else if String.eqb propertyName "rotation" then
        found Key_rotation propertyName propertyValue zeroAngle
      else if String.eqb propertyName "alpha" then
        found Key_alpha propertyName propertyValue numberPercentage
      else Ok None
  | name | text => Ok None
  | choice =>
      if String.eqb propertyName "enabled" then
        found Key_enabled propertyName propertyValue BooleanValue_parse
      else if String.eqb propertyName "script" then
        found Key_script propertyName propertyValue StringValue_parse
      else Ok None
  | music | sound | voice =>
      if String.eqb propertyName "volume" then
        found Key_volume propertyName propertyValue numberPercentage
      else if String.eqb propertyName "loop" then
        found Key_loop propertyName propertyValue BooleanValue_parse
      else Ok None
  | video => Ok None
  | effect => Ok None
  end.

End Number.

(** [type Property] *)
Record t := {
  type : ElementType;
  index : Z;
  name : PropertyKey;
  value : PropertyValue
}.

Section Parse.
Variable Number : string → option Q.

(** The rest of [parse], once the type and the index are known. *)
Definition parseProperty (type : ElementType) (index : Z)
    (propertyName propertyValue : string) : result t :=
  parsed ← parseBase Number propertyName propertyValue;
  parsed ←
    match parsed with
    | Some _ => Ok parsed
    | None => parseOfType Number type propertyName propertyValue
    end;
  match parsed with
  | None => Err (EngineError "Unexpected property name")
  | Some (name, value) =>
      Ok {| type := type; index := index; name := name; value := value |}
  end.

(** [Property.parse(elementName, propertyName, propertyValue)] *)
Definition parse (elementName propertyName propertyValue : string)
    : result t :=
  match matchElementName elementName with
  | None => Err (EngineError "Unsupported element name")
  | Some (typeString, indexString) =>
      match includes typeString with
      | None => Err (EngineError "Unsupported element type")
      | Some type =>
          let index :=
            match indexString with
            | Some indexString => decimal indexString
            | None => 1%Z
            end in
          parseProperty type index propertyName propertyValue
      end
  end.

End Parse.

(** [`${index}`] prints the shortest decimal that [Number] reads as the
    index: of the numbers with the fewest significant digits that are
    rounded to the index, the one nearest to it, and of two equally
    near the one whose last significant digit is even.  With [power]
    the weight of the last significant digit, such a number is one of
    the two multiples of [power] around the index. *)
Definition candidates (index power : Z) : list Z :=
  let low := (index / power * power)%Z in
  List.filter (λ candidate,
                 (0 <? candidate)%Z && (nearestDouble candidate =? index)%Z)
              [low; (low + power)%Z].

Definition closest (index power : Z) (found : list Z) : option Z :=
  match found with
  | [] => None
  | [candidate] => Some candidate
  | low :: high :: _ =>
      if (index - low <? high - index)%Z then Some low
      else if (high - index <? index - low)%Z then Some high
      else if Z.even (low / power) then Some low
      else Some high
  end.

Fixpoint shortestAmong (index : Z) (powers : list Z) : Z :=
  match powers with
  | [] => index
  | power :: powers =>
      match closest index power (candidates index power) with
      | Some candidate => candidate
      | None => shortestAmong index powers
      end
  end.

(** No double needs more than 17 significant digits. *)
Definition shortest (index : Z) : Z :=
  let length := String.length (printed index) in
  shortestAmong index
    ((λ count, (10 ^ Z.of_nat (length - count))%Z)
       <$> seq 1 (Nat.min length 17)).

Fixpoint dropZeros (reversed : list ascii) : list ascii :=
  match reversed with
  | char :: rest => if Ascii.eqb char "0" then dropZeros rest else reversed
  | [] => []
  end.

(** Below [10 ^ 21] the digits are printed in full, and from there on
    with an exponent. *)
Definition toString (index : Z) : string :=
  if (index =? Infinity)%Z then "Infinity"
  else
    let text := printed (shortest index) in
    if (shortest index <? 10 ^ 21)%Z then text
    else
      let exponent := printed (Z.of_nat (String.length text - 1)) in
      match reverse (dropZeros (reverse (chars text))) with
      | [] => text
      | [digit] => String digit ("e+" ++ exponent)
      | digit :: digits =>
          String digit ("." ++ string_of_list_ascii digits
                            ++ "e+" ++ exponent)
      end.

(** The key of an element in the state, [`${type}${index}`]. *)

Definition canonicalElementName (type : ElementType) (index : Z) : string :=
  ElementType_name type ++ toString index.

(** The property [alpha] of the second figure, set to [5]. *)
Definition example_property : t :=
  {| type := figure; index := 2; name := Key_alpha;
     value := NumberValue 5 |}.

(** The value of a video. *)
Definition example_video : t :=
  {| type := video; index := 1; name := Key_value;
     value := StringValue "a.mp4" |}.

(** [property] with the value [initial]. *)
Definition reset (property : t) : t :=
  {| type := type property; index := index property;
     name := name property; value := InitialValue |}.

End Property.

(** ** Command.ts: [set_property] *)

Module SetProperty.

(** [element[name]] *)
Definition getProperty (key : Property.PropertyKey)
    (element : ElementProperties) : option PropertyValue :=
  match key with
  | Property.Key_value => value element
  | Property.Key_transitionDuration => transitionDuration element
  | Property.Key_transitionEasing => transitionEasing element
  | Property.Key_anchorX => anchorX element
  | Property.Key_anchorY => anchorY element
  | Property.Key_positionX => positionX element
  | Property.Key_positionY => positionY element
  | Property.Key_offsetX => offsetX element
  | Property.Key_offsetY => offsetY element
  | Property.Key_pivotX => pivotX element
  | Property.Key_pivotY => pivotY element
  | Property.Key_scaleX => scaleX element
  | Property.Key_scaleY => scaleY element
  | Property.Key_skewX => skewX element
  | Property.Key_skewY => skewY element
  | Property.Key_rotation => rotation element
  | Property.Key_alpha => alpha element
  | Property.Key_enabled => enabled element
  | Property.Key_script => script element
  | Property.Key_volume => volume element
  | Property.Key_loop => loop element
  end.

(** The element with the given type, index and properties. *)
Definition withProperties (type : ElementType) (index : Z)
    (properties : Property.PropertyKey → option PropertyValue)
    : ElementProperties :=
  {| type := type; index := index;
     value := properties Property.Key_value;
     transitionDuration := properties Property.Key_transitionDuration;
     transitionEasing := properties Property.Key_transitionEasing;
     anchorX := properties Property.Key_anchorX;
     anchorY := properties Property.Key_anchorY;
     positionX := properties Property.Key_positionX;
     positionY := properties Property.Key_positionY;
     offsetX := properties Property.Key_offsetX;
     offsetY := properties Property.Key_offsetY;
     pivotX := properties Property.Key_pivotX;
     pivotY := properties Property.Key_pivotY;
     scaleX := properties Property.Key_scaleX;
     scaleY := properties Property.Key_scaleY;
     skewX := properties Property.Key_skewX;
     skewY := properties Property.Key_skewY;
     rotation := properties Property.Key_rotation;
     alpha := properties Property.Key_alpha;
     enabled := properties Property.Key_enabled;
     script := properties Property.Key_script;
     volume := properties Property.Key_volume;
     loop := properties Property.Key_loop |}.

(** [element[name] = value], and [delete element[name]] for [None]. *)
Definition setProperty (key : Property.PropertyKey)
    (propertyValue : option PropertyValue) (element : ElementProperties)
    : ElementProperties :=
  withProperties (type element) (index element)
    (λ other, if decide (other = key) then propertyValue
              else getProperty other element).

(** [{ type, index, [name]: value }] *)
Definition newElement (type : ElementType) (index : Z)
    (key : Property.PropertyKey) (propertyValue : PropertyValue)
    : ElementProperties :=
  withProperties type index
    (λ other, if decide (other = key) then Some propertyValue else None).

Import Property.

Definition PROPERTY_KEYS : list PropertyKey :=
  [Key_value; Key_transitionDuration; Key_transitionEasing;
   Key_anchorX; Key_anchorY; Key_positionX; Key_positionY;
   Key_offsetX; Key_offsetY; Key_pivotX; Key_pivotY;
   Key_scaleX; Key_scaleY; Key_skewX; Key_skewY; Key_rotation; Key_alpha;
   Key_enabled; Key_script; Key_volume; Key_loop].

(** [Object.keys(element).length]: [type], [index] and the properties
    that are set. *)
Definition keysLength (element : ElementProperties) : nat :=
  2 + length (List.filter (λ key, bool_decide (is_Some (getProperty key element)))
                          PROPERTY_KEYS).

(** [it.elements[elementName] = element]: an existing key keeps its
    place, a new one comes last. *)
Definition setElement (elementName : string) (element : ElementProperties)
    (elements : View.ElementPropertiesMap) : View.ElementPropertiesMap :=
  if bool_decide (is_Some (View.get elements elementName)) then
    (λ entry, if String.eqb (fst entry) elementName
              then (elementName, element) else entry) <$> elements
  else elements ++ [(elementName, element)].

Section Number.
Variable Number : string → option Q.

(** The body of the loop over [elementNames], on the draft of the
    elements of the state. *)
Definition setElementProperty (propertyName propertyValue : string)
    (elementName : string) (elements : View.ElementPropertiesMap)
    : result View.ElementPropertiesMap :=
  property ← parse Number elementName propertyName propertyValue;
  let canonicalElementName :=
    canonicalElementName (type property) (index property) in
  let element := View.get elements canonicalElementName in
  match value property with
  | InitialValue =>
      match element with
      | Some element =>
          if bool_decide (is_Some (getProperty (name property) element)) then
            let element := setProperty (name property) None element in
            if (keysLength element =? 2)%nat then
              Ok (Engine.delete_element canonicalElementName elements)
            else Ok (setElement canonicalElementName element elements)
          else Ok elements
      | None => Ok elements
      end
  | propertyValue =>
      match element with
      | Some element =>
          Ok (setElement canonicalElementName
                (setProperty (name property) (Some propertyValue) element)
                elements)
      | None =>
          Ok (setElement canonicalElementName
                (newElement (type property) (index property)
                            (name property) propertyValue)
                elements)
      end
  end.

(** The update of the state by [set_property]: [elementNames] are the
    names the glob of the command stands for.  An update that throws
    leaves the state as it was. *)
Definition execute (elementNames : list string)
    (propertyName propertyValue : string)
    (elements : View.ElementPropertiesMap)
    : result View.ElementPropertiesMap :=
  forEach (setElementProperty propertyName propertyValue) elementNames
          elements.

End Number.

(** The state holds no element under the name, or one that lacks the
    property and has another. *)
Definition settable (elements : View.ElementPropertiesMap)
    (elementName : string) (key : PropertyKey) : Prop :=
  match View.get elements elementName with
  | Some element =>
      getProperty key element = None ∧ keysLength element ≠ 2%nat
  | None => True
  end.

(** A state with the first figure only. *)
Definition example_elements : View.ElementPropertiesMap :=
  [("figure1"%string,
    element_with_value figure 1 (Some (StringValue "a.png")))].

End SetProperty.

(** ** Engine.ts: [Document.parse] *)

Module Document.

#[local] Open Scope string_scope.

(** The values and the lines of the parser, without their locations. *)
Inductive Value :=
| LiteralValue (value : string)
| QuotedValue (value : string)
| ScriptValue (script : string).

Inductive Line :=
| CommentLine
| BlankLine
| MacroLine (arguments : list string)
| ElementLine (name : Value) (properties : list (option Value * Value))
| CommandLine (name : Value) (arguments : list Value).

(** A value of the metadata: an array of strings, as the front matter
    gives for [macro_line] and [blank_line], or an object of such
    arrays. *)
Inductive MetadataValue :=
| StringArray (strings : list string)
| Object (entries : list (string * list string)).

Definition METADATA_DEFAULTS : list (string * list string) :=
  [("macro_line", ["name: $1"; "avatar: $2"; "text: $3"; "voice: $4"]);
   ("blank_line",
    [": wait background*, figure*, foreground*, avatar*, name*, text*, choice*, voice*";
     ": snap background*, figure*, foreground*, avatar*, name*, text*, choice*, voice*";
     ": pause"])].

(** [{ ...document.frontMatter.metadata, METADATA_DEFAULTS }]: the
    shorthand adds the one property [METADATA_DEFAULTS]. *)
Definition metadata (frontMatter : gmap string (list string))
    : gmap string MetadataValue :=
  <["METADATA_DEFAULTS" := Object METADATA_DEFAULTS]>
    (StringArray <$> frontMatter).

(** [(metadata[key] as string[] | undefined) ?? []], read for the keys
    [macro_line] and [blank_line]. *)
Definition stringArray (metadata : gmap string MetadataValue) (key : string)
    : list string :=
  match metadata !! key with
  | Some (StringArray strings) => strings
  | _ => []
  end.

(** [array.map(f)] and [array.flatMap(f)] for an [f] that may throw. *)
Fixpoint map_result {A B : Type} (f : A → result B) (array : list A)
    : result (list B) :=
  match array with
  | [] => Ok []
  | it :: array =>
      first ← f it; rest ← map_result f array; Ok (first :: rest)
  end.

Definition flatMap_result {A B : Type} (f : A → result (list B))
    (array : list A) : result (list B) :=
  lists ← map_result f array; Ok (concat lists).

Definition isCommentLine (line : Line) : bool :=
  match line with
  | CommentLine => true
  | _ => false
  end.

(** The command lines of an element line: one [set_property] for each
    property, on the property [value] where no name is given. *)
Definition elementCommandLines (name : Value)
    (properties : list (option Value * Value)) : list Line :=
  (λ property,
     CommandLine (LiteralValue "set_property")
                 [name; default (LiteralValue "value") (fst property);
                  snd property])
    <$> properties.

(** [private static getValue(value)] *)
Definition getValue (value : Value) : option string :=
  match value with
  | LiteralValue value => Some value
  | QuotedValue value => Some value
  | ScriptValue _ => None
  end.

(** The loop over [commandLines.entries()]. *)
Fixpoint labels (commandLines : list Line) (index : nat)
    (labelIndices : gmap string nat) : result (gmap string nat) :=
  match commandLines with
  | [] => Ok labelIndices
  | line :: commandLines =>
      labelIndices ←
        match line with
        | CommandLine commandName arguments =>
            if bool_decide (getValue commandName = Some "label") then
              arguments_ ←
                map_result
                  (λ it, match getValue it with
                         | None =>
                             Err (EngineError
                                    "Unsupported script value in label command")
                         | Some argument => Ok argument
                         end)
                  arguments;
              match arguments_ with
              | [labelName] => Ok (<[labelName := index]> labelIndices)
              | _ =>
                  Err (EngineError
                         "Invalid number of arguments for label command")
              end
            else Ok labelIndices
        | _ => Ok labelIndices
        end;
      labels commandLines (S index) labelIndices
  end.

Record t := {
  commandLines : list Line;
  labelIndices : gmap string nat
}.

Section Parser.
(** [VnmarkParser.parse(lineSource, { startRule: 'Line' })], and
    [argumentsString.replace(argumentsPattern, it)] for the arguments
    of a macro line. *)
Variable parseLine : string → result Line.
Variable replace : list string → string → string.

(** [Document.parse(source)] from the parsed document on: its front
    matter and the lines of its body, if it has one. *)
Definition parse (frontMatter : gmap string (list string))
    (body : option (list Line)) : result t :=
  let lines :=
    default [] (List.filter (λ it, negb (isCommentLine it)) <$> body) in
  let metadata := metadata frontMatter in
  let macroLine := stringArray metadata "macro_line" in
  lines ←
    flatMap_result
      (λ line,
         match line with
         | MacroLine arguments_ =>
             if (length arguments_ <=? 1)%nat then
               Err (EngineError "Unexpected marco line argument list size")
             else
               map_result (λ it, parseLine (replace arguments_ it)) macroLine
         | _ => Ok [line]
         end)
      lines;
  let blankLine := stringArray metadata "blank_line" in
  blankLineLines ← map_result parseLine blankLine;
  let lines :=
    concat ((λ line, match line with
                     | BlankLine => blankLineLines
                     | _ => [line]
                     end) <$> lines) in
  let lines :=
    concat ((λ line, match line with
                     | ElementLine elementName properties =>
                         elementCommandLines elementName properties
                     | _ => [line]
                     end) <$> lines) in
  labelIndices ← labels lines 0 ∅;
  Ok {| commandLines := lines; labelIndices := labelIndices |}.

End Parser.

(** Whether the line is the command [label] with the one argument
    [labelName]. *)
Definition isLabel (labelName : string) (line : Line) : Prop :=
  ∃ commandName argument,
    line = CommandLine commandName [argument]
    ∧ getValue commandName = Some "label"
    ∧ getValue argument = Some labelName.

(** The lines of a body that are neither comments, blank lines nor
    macro lines, with the element lines as their command lines. *)
Definition plainCommandLines (body : list Line) : list Line :=
  concat ((λ line, match line with
                   | CommentLine | BlankLine | MacroLine _ => []
                   | ElementLine elementName properties =>
                       elementCommandLines elementName properties
                   | CommandLine _ _ => [line]
                   end) <$> body).

(** A macro line is well-formed when it has more than one argument. *)
Definition macrosWellFormed (body : list Line) : Prop :=
  Forall (λ line, match line with
                  | MacroLine arguments_ => (1 < length arguments_)%nat
                  | _ => True
                  end) body.

(** A body that declares the label [start] twice. *)
Definition example_body : list Line :=
  [CommandLine (LiteralValue "label") [LiteralValue "start"];
   BlankLine;
   ElementLine (LiteralValue "text") [(None, QuotedValue "Hello")];
   CommandLine (LiteralValue "label") [QuotedValue "start"];
   CommandLine (LiteralValue "jump") [LiteralValue "start"]].

Definition example_document : t :=
  match parse (λ _, Ok BlankLine) (λ _ it, it) ∅ (Some example_body) with
  | Ok document => document
  | Err _ => {| commandLines := []; labelIndices := ∅ |}
  end.

End Document.

(** * Properties *)

(** ** Transition *)

Module TransitionFacts.
Import Transition TransitionScenarios.

#[local] Open Scope Q_scope.

Section Facts.
Context {V : Type}.
Implicit Types this : t V.

Lemma clamp_min_max (x : Q) : Qmin (Qmax 0 x) 1 == clamp x 0 1.
Proof.
  unfold clamp.
  destruct (Qlt_le_dec x 0) as [Hx|Hx].
  - rewrite (Q.max_l 0 x) by (apply Qlt_le_weak, Hx).
    apply Q.min_l. discriminate.
  - rewrite (Q.max_r 0 x) by exact Hx.
    destruct (Qlt_le_dec 1 x) as [H1|H1].
    + apply Q.min_r, Qlt_le_weak, H1.
    + apply Q.min_l, H1.
Qed.

Lemma fraction_zero_duration this :
  duration this == 0 → fraction this = 1.
Proof.
  intros Hd. unfold fraction.
  apply Qeq_bool_iff in Hd. by rewrite Hd.
Qed.

Lemma fraction_nonzero_duration this :
  ¬ duration this == 0 →
  fraction this
  == clamp ((runningTime this - delay this) / duration this) 0 1.
Proof.
  intros Hd. unfold fraction.
  destruct (Qeq_bool (duration this) 0) eqn:E.
  - apply Qeq_bool_iff in E. contradiction.
  - apply clamp_min_max.
Qed.

Lemma isRunning_ended this : isEnded this = true → isRunning this = false.
Proof.
  intros H. unfold isRunning. rewrite H.
  by destruct (isStarted this), (isPaused this).
Qed.

Lemma set_isPaused_same this b : isPaused this = b → set_isPaused b this = this.
Proof. intros <-. by destruct this. Qed.

End Facts.

(** C4, as stated: on an ended transition [pause()] and [resume()] would
    have to return the transition unchanged.  They throw instead. *)
Lemma pause_resume_ended_not_noop :
  isEnded ended_transition = true
  ∧ pause ended_transition ≠ Ok (ended_transition, [])
  ∧ resume ended_transition ≠ Ok (ended_transition, []).
Proof. repeat split; discriminate. Qed.

(** C4, amended: on a transition that has not ended, [pause()] and
    [resume()] are idempotent, are no-ops when not applicable (pause when
    already paused, resume when not paused), change nothing but the
    paused flag (so the current value is never recomputed and no update
    callback fires); on an ended transition both throw. *)
Theorem pause_resume_idempotent {V : Type} (this : t V) :
  (isEnded this = false →
     pause this
       = Ok (set_isPaused true this,
             if isPaused this then [] else [(OnPause, currentValue this)])
     ∧ resume this
       = Ok (set_isPaused false this,
             if isPaused this then [(OnResume, currentValue this)] else [])
     ∧ (isPaused this = true → pause this = Ok (this, []))
     ∧ (isPaused this = false → resume this = Ok (this, []))
     ∧ (∀ this' ns, pause this = Ok (this', ns) →
          pause this' = Ok (this', []))
     ∧ (∀ this' ns, resume this = Ok (this', ns) →
          resume this' = Ok (this', [])))
  ∧ (isEnded this = true →
       (∃ e, pause this = Err e) ∧ (∃ e, resume this = Err e)).
Proof.
  split.
  - intros Hend. unfold pause, resume. rewrite Hend.
    destruct (isPaused this) eqn:Hp; simpl.
    + rewrite (set_isPaused_same this true Hp).
      repeat split; try done.
      * intros this' ns [= <- <-]. by rewrite Hend, Hp.
      * intros this' ns [= <- <-]. by simpl; rewrite Hend.
    + rewrite (set_isPaused_same this false Hp).
      repeat split; try done.
      * intros this' ns [= <- <-]. by simpl; rewrite Hend.
      * intros this' ns [= <- <-]. by rewrite Hend, Hp.
  - intros Hend. unfold pause, resume. rewrite Hend. eauto.
Qed.

Lemma pause_resume_idempotent_witness :
  let this := new 0 1 500 IdentityConverter in
  pause this = Ok (set_isPaused true this, [(OnPause, 0)])
  ∧ pause (set_isPaused true this) = Ok (set_isPaused true this, []).
Proof.
  intros this.
  destruct (pause_resume_idempotent this) as [H _].
  destruct (H eq_refl) as (Hp & _ & _ & _ & Hidem & _).
  split; [exact Hp | exact (Hidem _ _ Hp)].
Defined.

(** C5: [cancel(true)] does nothing unless the transition is running; on
    a running transition it sets the ended flag and the current value to
    the end value and notifies the update callbacks once, then the end
    callbacks once; on an ended transition it changes nothing. *)
Theorem cancel_snapToEnd {V : Type} (this : t V) :
  (isRunning this = false → cancel true this = (this, []))
  ∧ (isRunning this = true →
       cancel true this
       = (set_currentValue (endValue this) (set_isEnded true this),
          [(OnUpdate, endValue this); (OnEnd, endValue this)])
       ∧ isEnded (fst (cancel true this)) = true
       ∧ currentValue (fst (cancel true this)) = endValue this)
  ∧ (isEnded this = true → cancel true this = (this, [])).
Proof.
  unfold cancel. repeat split.
  - by intros ->.
  - by rewrite H.
  - by rewrite H.
  - by rewrite H.
  - intros H. by rewrite (isRunning_ended _ H).
Qed.

Lemma cancel_snapToEnd_witness :
  let running := set_isStarted true (new 0 7 500 IdentityConverter) in
  cancel true running
  = (set_currentValue 7 (set_isEnded true running),
     [(OnUpdate, 7); (OnEnd, 7)])
  ∧ cancel true (fst (cancel true running)) = (fst (cancel true running), []).
Proof.
  intros running.
  destruct (cancel_snapToEnd running) as (_ & Hrun & _).
  destruct (Hrun eq_refl) as (Heq & Hended & _).
  split; [exact Heq|].
  destruct (cancel_snapToEnd (fst (cancel true running))) as (_ & _ & Hend).
  exact (Hend Hended).
Defined.

(** C6: the fraction is [clamp((runningTime - delay) / duration, 0, 1)]
    for a non-zero duration and [1] for a zero duration; [start()] on a
    fresh zero-duration transition ends it within the call, reports
    fraction 1 and notifies start, then update, then end. *)
Theorem fraction_clamp_zero_duration_ends {V : Type} (this : t V) :
  (¬ duration this == 0 →
     fraction this
     == clamp ((runningTime this - delay this) / duration this) 0 1)
  ∧ (duration this == 0 → fraction this = 1)
  ∧ fraction this == spec_fraction this
  ∧ (duration this == 0 → isStarted this = false → isEnded this = false →
       ∃ this',
         start this
         = Ok (this', [(OnStart, currentValue this);
                        (OnUpdate, currentValue this');
                        (OnEnd, currentValue this')])
         ∧ isStarted this' = true
         ∧ isEnded this' = true
         ∧ fraction this' = 1).
Proof.
  split; [apply fraction_nonzero_duration|].
  split; [apply fraction_zero_duration|].
  split.
  { unfold fraction, spec_fraction.
    destruct (Qeq_bool (duration this) 0); [reflexivity|].
    apply clamp_min_max. }
  intros Hd Hs He.
  unfold start. rewrite He, Hs.
  unfold updateCurrentValue.
  assert (Hf : fraction (set_isStarted true this) = 1).
  { apply fraction_zero_duration. exact Hd. }
  rewrite Hf. simpl.
  match goal with |- ∃ _, Ok (?x, _) = _ ∧ _ => exists x end.
  repeat split.
  apply fraction_zero_duration. exact Hd.
Qed.

Lemma fraction_clamp_zero_duration_ends_witness :
  let this := new 0 1 0 IdentityConverter in
  fraction this = 1
  ∧ ∃ this',
      start this
      = Ok (this', [(OnStart, 0); (OnUpdate, currentValue this');
                     (OnEnd, currentValue this')])
      ∧ isStarted this' = true ∧ isEnded this' = true ∧ fraction this' = 1.
Proof.
  intros this.
  destruct (fraction_clamp_zero_duration_ends this) as (_ & Hz & _ & Hstart).
  split; [apply Hz; reflexivity|].
  apply Hstart; reflexivity.
Defined.

End TransitionFacts.

(** ** View: default figure positions *)

Module ViewFacts.
Import ElementResolvedProperties View ViewScenarios.

#[local] Open Scope Q_scope.

Lemma two_figures_options :
  transitionOptions two_figures "figure1"
    = Ok (FigureOptions (Some 0) (Some 2))
  ∧ transitionOptions two_figures "figure2"
    = Ok (FigureOptions (Some 1) (Some 2)).
Proof. split; vm_compute; reflexivity. Qed.

(** C1 on the code: the two figures get the default duration 500 and are
    both created with ordinals 0 and 1 of 2, but the default positions
    the code resolves are [0] and [screenWidth / 3], not
    [screenWidth / 3] and [2 * screenWidth / 3]. *)
Theorem two_figures_default_position (PI : Q) (manifest : Manifest)
    (naturalWidth naturalHeight : Q) :
  Forall (λ entry, resolveElementTransitionDuration (snd entry) 1 = Ok 500)
         two_figures
  ∧ (∃ x1 x2,
       positionX_of PI manifest two_figures "figure1"
                    naturalWidth naturalHeight = Ok x1
       ∧ positionX_of PI manifest two_figures "figure2"
                      naturalWidth naturalHeight = Ok x2
       ∧ x1 == 0
       ∧ x2 == width manifest * (1 # 3)
       ∧ (0 < width manifest →
            ¬ x1 == width manifest * (1 # 3)
            ∧ ¬ x2 == width manifest * (2 # 3))).
Proof.
  split.
  - repeat constructor.
  - unfold positionX_of.
    destruct two_figures_options as [-> ->]. simpl.
    eexists _, _. split; [reflexivity|]. split; [reflexivity|].
    set (w := width manifest).
    assert (H1 : 0 / (2 + 1) * w == 0) by (field; discriminate).
    assert (H2 : 1 / (2 + 1) * w == w * (1 # 3)) by (field; discriminate).
    split; [exact H1|]. split; [exact H2|].
    intros Hw. split.
    + rewrite H1. intros Heq. lra.
    + rewrite H2. intros Heq. lra.
Qed.

Lemma two_figures_default_position_witness :
  ∃ x1 x2,
    positionX_of 3 {| width := 1280; height := 720; density := 1 |}
                 two_figures "figure1" 400 600 = Ok x1
    ∧ positionX_of 3 {| width := 1280; height := 720; density := 1 |}
                   two_figures "figure2" 400 600 = Ok x2
    ∧ x1 == 0
    ∧ ¬ x2 == 1280 * (2 # 3).
Proof.
  destruct (two_figures_default_position 3
              {| width := 1280; height := 720; density := 1 |} 400 600)
    as (_ & x1 & x2 & H1 & H2 & Hx1 & _ & Hneq).
  exists x1, x2. split; [exact H1|]. split; [exact H2|].
  split; [exact Hx1|].
  apply Hneq. reflexivity.
Defined.

End ViewFacts.

(** ** ElementPropertyMatcher *)

Module ElementPropertyMatcherFacts.
Import ElementPropertyMatcher.

#[local] Open Scope string_scope.

Example replace_trailing_one_examples :
  replace_trailing_one "figure1" = "figure"
  ∧ replace_trailing_one "figure" = "figure"
  ∧ replace_trailing_one "figure11" = "figure11"
  ∧ replace_trailing_one "figure21" = "figure21"
  ∧ replace_trailing_one "figure2" = "figure2"
  ∧ replace_trailing_one "1" = ""
  ∧ replace_trailing_one "a1b1" = "a1b".
Proof. repeat split. Qed.

Lemma last_is_digit_cons previous c before :
  last_is_digit previous (c :: before) = last_is_digit (Some c) before.
Proof.
  unfold last_is_digit. rewrite reverse_cons.
  destruct (reverse before) as [|d ds]; reflexivity.
Qed.

Lemma string_eqb_empty (input : string) :
  String.eqb input "" = true ↔ input = "".
Proof. apply String.eqb_eq. Qed.

(** What the scan computes, on the list of characters of the input. *)
Lemma replace_from_spec (input : string) (previous : option ascii) :
  list_ascii_of_string (replace_from previous input)
  = match reverse (list_ascii_of_string input) with
    | c :: before =>
        if Ascii.eqb c "1" && negb (last_is_digit previous (reverse before))
        then reverse before
        else list_ascii_of_string input
    | [] => []
    end.
Proof.
  revert previous. induction input as [|c rest IH]; intros previous.
  { reflexivity. }
  cbn [replace_from list_ascii_of_string].
  destruct (String.eqb rest "") eqn:Hrest.
  - apply String.eqb_eq in Hrest. subst rest. cbn [list_ascii_of_string].
    change (reverse [c]) with [c]. change (reverse []) with (@nil ascii).
    unfold last_is_digit. cbn [reverse rev_append].
    change (reverse []) with (@nil ascii). cbn [list_ascii_of_string].
    rewrite andb_true_r, andb_comm.
    destruct (Ascii.eqb c "1"), (from_option is_digit false previous);
      reflexivity.
  - rewrite andb_false_r. cbn [list_ascii_of_string]. rewrite IH.
    rewrite reverse_cons.
    destruct (reverse (list_ascii_of_string rest)) as [|d before] eqn:Hrev.
    { apply (f_equal reverse) in Hrev. rewrite reverse_involutive in Hrev.
      destruct rest; [discriminate Hrest|discriminate Hrev]. }
    cbn [app]. rewrite reverse_app, reverse_singleton. cbn [app].
    rewrite last_is_digit_cons.
    destruct (Ascii.eqb d "1" && negb (last_is_digit (Some c) (reverse before)));
      [reflexivity|].
    f_equal.
Qed.

Lemma ends_with_digit_last (before : list ascii) :
  ends_with_digit (string_of_list_ascii before) = last_is_digit None before.
Proof.
  unfold ends_with_digit, last_is_digit.
  rewrite list_ascii_of_string_of_list_ascii.
  destruct (reverse before); reflexivity.
Qed.

(** The regular-expression replacement removes exactly one single
    trailing [1] that is not preceded by a digit. *)
Lemma replace_trailing_one_spec (elementName : string) :
  replace_trailing_one elementName = without_single_trailing_one elementName.
Proof.
  unfold replace_trailing_one, without_single_trailing_one.
  rewrite <- (string_of_list_ascii_of_string (replace_from None elementName)).
  rewrite replace_from_spec.
  destruct (reverse (list_ascii_of_string elementName)) as [|c before] eqn:Hrev.
  - apply (f_equal reverse) in Hrev. rewrite reverse_involutive in Hrev.
    destruct elementName; [reflexivity|discriminate Hrev].
  - rewrite ends_with_digit_last.
    destruct (Ascii.eqb c "1" && negb (last_is_digit None (reverse before)));
      [reflexivity|].
    apply string_of_list_ascii_of_string.
Qed.

(** C9: the matcher returned for an element name contains the property
    matcher of a pattern exactly when the pattern's element glob matches
    the name or the name without its single trailing [1]; the returned
    matcher accepts a property name exactly when one of those does. *)
Theorem getPropertyMatcher_iff (this : t) (elementName : string) :
  (∀ propertyMatcher,
     propertyMatcher ∈ propertyMatchers this elementName
     ↔ ∃ elementMatcher,
         (elementMatcher, propertyMatcher) ∈ matchers this
         ∧ (elementMatcher elementName = true
            ∨ elementMatcher (without_single_trailing_one elementName)
              = true))
  ∧ (∀ propertyName,
       getPropertyMatcher this elementName propertyName = true
       ↔ ∃ elementMatcher propertyMatcher,
           (elementMatcher, propertyMatcher) ∈ matchers this
           ∧ (elementMatcher elementName = true
              ∨ elementMatcher (without_single_trailing_one elementName)
                = true)
           ∧ propertyMatcher propertyName = true).
Proof.
  assert (Hin : ∀ propertyMatcher,
     propertyMatcher ∈ propertyMatchers this elementName
     ↔ ∃ elementMatcher,
         (elementMatcher, propertyMatcher) ∈ matchers this
         ∧ (elementMatcher elementName = true
            ∨ elementMatcher (without_single_trailing_one elementName)
              = true)).
  { intros propertyMatcher. unfold propertyMatchers.
    rewrite list_elem_of_fmap. rewrite <- replace_trailing_one_spec. split.
    - intros ([elementMatcher pm] & -> & Hin).
      apply list_elem_of_In, filter_In in Hin as [Hin Hmatch].
      exists elementMatcher. split; [by apply list_elem_of_In|].
      by apply orb_true_iff in Hmatch.
    - intros (elementMatcher & Hin & Hmatch).
      exists (elementMatcher, propertyMatcher). split; [reflexivity|].
      apply list_elem_of_In, filter_In. split; [by apply list_elem_of_In|].
      by apply orb_true_iff. }
  split; [exact Hin|].
  intros propertyName. unfold getPropertyMatcher.
  rewrite existsb_exists. split.
  - intros (propertyMatcher & Hpm & Hmatch).
    apply list_elem_of_In, Hin in Hpm as (elementMatcher & Hem & Hname).
    by exists elementMatcher, propertyMatcher.
  - intros (elementMatcher & propertyMatcher & Hem & Hname & Hmatch).
    exists propertyMatcher. split; [|exact Hmatch].
    apply list_elem_of_In, Hin. by exists elementMatcher.
Qed.

End ElementPropertyMatcherFacts.

(** ** Engine *)

Module EngineFacts.
Import Engine EngineScenarios.

Section Facts.
Context {ScriptStates : Type}.

Lemma delete_element_subseteq elementName (elements : View.ElementPropertiesMap) :
  delete_element elementName elements ⊆ elements.
Proof.
  intros entry Hin. apply list_elem_of_In in Hin.
  apply filter_In in Hin as [Hin _]. by apply list_elem_of_In.
Qed.

Lemma reset_elements_subseteq entries (elements : View.ElementPropertiesMap) :
  reset_elements entries elements ⊆ elements.
Proof.
  revert elements. induction entries as [|[elementName element] entries IH];
    intros elements; [done|].
  cbn [reset_elements]. etrans; [apply IH|].
  destruct (value_is_reset element); [apply delete_element_subseteq|done].
Qed.

Lemma reset_elements_deleted entries (elements : View.ElementPropertiesMap)
    elementName element element' :
  (elementName, element) ∈ entries →
  value_is_reset element = true →
  (elementName, element') ∉ reset_elements entries elements.
Proof.
  revert elements.
  induction entries as [|[name0 element0] entries IH]; intros elements Hin Hreset.
  { by apply elem_of_nil in Hin. }
  cbn [reset_elements].
  apply elem_of_cons in Hin as [[= <- <-]|Hin].
  - rewrite Hreset. intros Hin.
    apply reset_elements_subseteq in Hin.
    apply list_elem_of_In, filter_In in Hin as [_ Hne].
    cbn in Hne. by rewrite String.eqb_refl in Hne.
  - by apply IH.
Qed.

(** C10: when [updateView] resolves, whatever the request and whatever
    the view updater did and returned, no element of the state has an
    absent value or the value [none], and [keepSkippingWait] is false.
    The call resolves whenever there is no updater or the updater's
    promise resolves. *)
Theorem updateView_resets (onUpdateView : option ViewUpdater)
    (options : UpdateViewOptions) (this : t ScriptStates) :
  (∀ this' moveToNextLine,
     updateView onUpdateView options this = Ok (this', moveToNextLine) →
     (∀ elementName element,
        (elementName, element) ∈ elements (state this') →
        value element ≠ None ∧ value element ≠ Some NoneValue)
     ∧ keepSkippingWait (state this') = false
     ∧ status this' = status this)
  ∧ (onUpdateView = None →
       ∃ this', updateView onUpdateView options this = Ok (this', true))
  ∧ (∀ updater state' moveToNextLine,
       onUpdateView = Some updater →
       updater options (state this) = Ok (state', moveToNextLine) →
       ∃ this',
         updateView onUpdateView options this = Ok (this', moveToNextLine)).
Proof.
  split; [|split].
  - intros this' moveToNextLine. unfold updateView.
    set (updated := match onUpdateView with
                    | Some f => updateWithStatus (f options) this
                    | None => Ok (this, true)
                    end).
    destruct updated as [[this1 b]|e] eqn:Hupdated; [|discriminate].
    cbn. intros [= <- <-]. cbn.
    split; [|split; [reflexivity|]].
    + intros elementName element Hin.
      assert (Hreset : value_is_reset element = false).
      { destruct (value_is_reset element) eqn:Hreset; [|done].
        exfalso.
        eapply reset_elements_deleted; [|exact Hreset|exact Hin].
        eapply reset_elements_subseteq, Hin. }
      unfold value_is_reset in Hreset.
      destruct (value element) as [[]|]; done.
    + subst updated. destruct onUpdateView as [f|].
      * unfold updateWithStatus in Hupdated. cbn in Hupdated.
        destruct (f options (state this)) as [[s b']|]; [|discriminate].
        cbn in Hupdated. by injection Hupdated as <- <-.
      * by injection Hupdated as <- <-.
  - intros ->. eexists. reflexivity.
  - intros updater state' moveToNextLine -> Hupdater.
    unfold updateView, updateWithStatus. cbn. rewrite Hupdater. cbn.
    eexists. reflexivity.
Qed.

End Facts.

Lemma updateView_resets_witness :
  ∃ this',
    updateView None Pause example_engine = Ok (this', true)
    ∧ elements (state this')
      = [("figure2", element_with_value figure 2 (Some (StringValue "b.png")))]
    ∧ keepSkippingWait (state this') = false.
Proof.
  destruct (updateView_resets None Pause example_engine)
    as (Hsafe & Hnone & _).
  destruct (Hnone eq_refl) as [this' Hthis'].
  exists this'. split; [exact Hthis'|].
  destruct (Hsafe _ _ Hthis') as (_ & Hkeep & _).
  split; [|exact Hkeep].
  vm_compute in Hthis'. injection Hthis' as <-. reflexivity.
Defined.

End EngineFacts.

(** ** Layout *)

Module LayoutFacts.
Import Layout LayoutScenarios.

Lemma insert_sorted_elem_of {A : Type} (compare : A → A → Z) (x y : A)
    (l : list A) :
  x ∈ View.insert_sorted compare y l ↔ x = y ∨ x ∈ l.
Proof.
  induction l as [|z l IH]; cbn [View.insert_sorted].
  - rewrite list_elem_of_singleton, elem_of_nil. tauto.
  - destruct (compare y z <=? 0)%Z.
    + by rewrite elem_of_cons.
    + rewrite !elem_of_cons, IH. tauto.
Qed.

Lemma sort_elem_of {A : Type} (compare : A → A → Z) (x : A) (l : list A) :
  x ∈ View.sort compare l ↔ x ∈ l.
Proof.
  unfold View.sort. induction l as [|y l IH]; cbn [foldr]; [done|].
  by rewrite insert_sorted_elem_of, elem_of_cons, IH.
Qed.

Lemma set_add_elem_of {A : Type} `{EqDecision A} (x y : A) (set : list A) :
  x ∈ set_add y set ↔ x = y ∨ x ∈ set.
Proof.
  unfold set_add. case_bool_decide as Hin.
  - split; [tauto|]. by intros [->|].
  - rewrite elem_of_app, list_elem_of_singleton. tauto.
Qed.

Lemma set_add_all_mono (x : string) (names set : list string) :
  x ∈ set → x ∈ foldl (λ set it, set_add it set) set names.
Proof.
  revert set. induction names as [|y names IH]; intros set Hin; [done|].
  cbn [foldl]. apply IH, set_add_elem_of. by right.
Qed.

(** The constructor makes [none] a known layout and the active one. *)
Lemma create_layoutName_known elementLayouts containers templates styles :
  let this := create elementLayouts containers templates styles in
  layoutName this ∈ layoutNames this.
Proof.
  cbn. apply sort_elem_of.
  assert (Hnone : "none"%string ∈ ["none"%string])
    by (by apply list_elem_of_singleton).
  revert Hnone. generalize ["none"%string].
  induction elementLayouts as [|entry elementLayouts IH]; intros set Hin;
    [done|].
  cbn [foldl]. by apply IH, set_add_all_mono.
Qed.

Lemma notifiedAll_names id element notifications this :
  layoutName (notifiedAll id element notifications this) = layoutName this
  ∧ layoutNames (notifiedAll id element notifications this) = layoutNames this.
Proof.
  unfold notifiedAll. revert this.
  induction notifications as [|[[] value] notifications IH]; intros this;
    cbn [foldl]; [done|..]; by rewrite (proj1 (IH _)), (proj2 (IH _)).
Qed.

Lemma transitionElement_names element opacity duration this this' :
  transitionElement element opacity duration this = Ok this' →
  layoutName this' = layoutName this ∧ layoutNames this' = layoutNames this.
Proof.
  unfold transitionElement.
  destruct (Transition.start _) as [[transition notifications]|e];
    [|discriminate].
  cbn. intros [= <-].
  by rewrite (proj1 (notifiedAll_names _ _ _ _)),
             (proj2 (notifiedAll_names _ _ _ _)).
Qed.

Lemma forEach_transitionElement_names opacity duration elements this this' :
  forEach (λ element, transitionElement element opacity duration)
          elements this = Ok this' →
  layoutName this' = layoutName this ∧ layoutNames this' = layoutNames this.
Proof.
  revert this. induction elements as [|element elements IH]; intros this;
    cbn [forEach].
  - by intros [= <-].
  - destruct (transitionElement element opacity duration this)
      as [this1|e] eqn:Hfirst; [|discriminate].
    cbn. intros Hrest.
    apply IH in Hrest as [-> ->].
    by apply transitionElement_names in Hfirst.
Qed.

Lemma cancelTransition_names id this :
  layoutName (cancelTransition id this) = layoutName this
  ∧ layoutNames (cancelTransition id this) = layoutNames this.
Proof.
  unfold cancelTransition.
  destruct (allocated this !! id) as [layoutTransition|]; [|done].
  destruct (Transition.cancel true (tween layoutTransition))
    as [transition notifications].
  by rewrite (proj1 (notifiedAll_names _ _ _ _)),
             (proj2 (notifiedAll_names _ _ _ _)).
Qed.

Lemma cancelAll_names ids this :
  layoutName (foldl (λ this id, cancelTransition id this) this ids)
  = layoutName this
  ∧ layoutNames (foldl (λ this id, cancelTransition id this) this ids)
    = layoutNames this.
Proof.
  revert this. induction ids as [|id ids IH]; intros this; cbn [foldl];
    [done|].
  destruct (IH (cancelTransition id this)) as [-> ->].
  apply cancelTransition_names.
Qed.

Lemma snap_names this :
  layoutName (snap this) = layoutName this
  ∧ layoutNames (snap this) = layoutNames this.
Proof. apply cancelAll_names. Qed.

Lemma transition_names newLayoutName this this' exits suspended :
  transition newLayoutName this = Ok (this', exits, suspended) →
  layoutName this' = newLayoutName
  ∧ layoutNames this' = layoutNames this
  ∧ newLayoutName ∈ layoutNames this.
Proof.
  unfold transition.
  destruct (includes (layoutNames this) newLayoutName) eqn:Hknown;
    [|discriminate].
  apply bool_decide_eq_true in Hknown. cbn [negb].
  destruct (String.eqb (layoutName this) newLayoutName).
  { by intros [= <- <- <-]. }
  destruct (exitEnterElements _ _ _) as [exitElements enterElements].
  destruct (forEach _ exitElements _) as [this1|e] eqn:Hexit; [|discriminate].
  cbn. intros [= <- <- <-].
  by apply forEach_transitionElement_names in Hexit as [-> ->].
Qed.

Lemma transition_next_names suspended this this' :
  transition_next suspended this = Ok this' →
  layoutName this' = layoutName this ∧ layoutNames this' = layoutNames this.
Proof.
  destruct suspended as [|enterElements]; cbn [transition_next].
  - by intros [= <-].
  - apply forEach_transitionElement_names.
Qed.

Lemma set_layoutName_same this :
  set_layoutName (layoutName this) this = this.
Proof. by destruct this. Qed.

Lemma transition_active this :
  layoutName this ∈ layoutNames this →
  transition (layoutName this) this = Ok (this, [], Finished).
Proof.
  intros Hknown. unfold transition, includes.
  rewrite bool_decide_eq_true_2 by done. cbn [negb].
  by rewrite String.eqb_refl, set_layoutName_same.
Qed.

(** C8: a layout transition to the active layout name leaves the layout
    as it is (no transition is created, no style changes), yields the
    empty list of kinds and has nothing left to do at the second step;
    so after a complete switch to a name (first step, snap, second
    step, snap), switching to that name again changes nothing. *)
Theorem transition_same_layout_noop (this : t) :
  (layoutName this ∈ layoutNames this →
     transition (layoutName this) this = Ok (this, [], Finished)
     ∧ transition_next Finished this = Ok this)
  ∧ (∀ newLayoutName this1 exits suspended this2,
       transition newLayoutName this = Ok (this1, exits, suspended) →
       transition_next suspended (snap this1) = Ok this2 →
       transition newLayoutName (snap this2) = Ok (snap this2, [], Finished)
       ∧ transition_next Finished (snap this2) = Ok (snap this2)).
Proof.
  split.
  - intros Hknown. split; [by apply transition_active|done].
  - intros newLayoutName this1 exits suspended this2 Hfirst Hsecond.
    split; [|done].
    apply transition_names in Hfirst as (Hname1 & Hnames1 & Hknown).
    apply transition_next_names in Hsecond as [Hname2 Hnames2].
    destruct (snap_names this1) as [Hname1' Hnames1'].
    destruct (snap_names this2) as [Hname3 Hnames3].
    assert (Hactive : layoutName (snap this2) = newLayoutName) by congruence.
    rewrite <- Hactive at 1. apply transition_active.
    rewrite Hactive. congruence.
Qed.

Lemma transition_same_layout_noop_witness :
  transition "none" example_layout = Ok (example_layout, [], Finished)
  ∧ ∃ this1 this2,
      transition "dialogue" example_layout
        = Ok (this1, [], Enter [2])
      ∧ transition_next (Enter [2]) (snap this1) = Ok this2
      ∧ transition "dialogue" (snap this2) = Ok (snap this2, [], Finished).
Proof.
  destruct (transition_same_layout_noop example_layout) as [Hactive Htwice].
  split.
  - apply Hactive.
    apply (bool_decide_unpack
             (layoutName example_layout ∈ layoutNames example_layout)).
    vm_compute. exact I.
  - destruct (transition "dialogue" example_layout)
      as [[[this1 exits] suspended]|e] eqn:Hfirst; [|by vm_compute in Hfirst].
    destruct (transition_next suspended (snap this1)) as [this2|e] eqn:Hsecond.
    + exists this1, this2.
      destruct (Htwice _ _ _ _ _ Hfirst Hsecond) as [Hagain _].
      vm_compute in Hfirst. injection Hfirst as <- <- <-.
      split; [reflexivity|]. split; [exact Hsecond|exact Hagain].
    + exfalso. vm_compute in Hfirst. injection Hfirst as <- <- <-.
      by vm_compute in Hsecond.
Defined.

End LayoutFacts.

(** ** Element *)

Module ElementFacts.
Import ElementResolvedProperties Element ElementInvariant.

#[local] Open Scope Q_scope.

(** *** Lists *)

Section Lists.
Context {A : Type} `{EqDecision A}.
Implicit Types l : list A.

Lemma remove_first_subseteq (y : A) l : remove_first y l ⊆ l.
Proof.
  induction l as [|x l IH]; cbn [remove_first]; [done|].
  case_decide; [by apply list_subseteq_cons|].
  intros z. rewrite !elem_of_cons. intros [->|Hz]; [by left|].
  right. by apply IH.
Qed.

Lemma remove_first_elem_of (x y : A) l :
  NoDup l → x ∈ remove_first y l ↔ x ∈ l ∧ x ≠ y.
Proof.
  induction 1 as [|z l Hz Hl IH]; cbn [remove_first].
  { rewrite elem_of_nil. tauto. }
  case_decide as Heq.
  - subst z. rewrite elem_of_cons. split.
    + intros Hx. split; [by right|]. by intros ->.
    + by intros [[->|Hx] Hne].
  - rewrite !elem_of_cons, IH. split.
    + intros [->|[Hx Hne]]; [by split; [left|]|by split; [right|]].
    + intros [[->|Hx] Hne]; [by left|by right].
Qed.

Lemma remove_first_NoDup (y : A) l : NoDup l → NoDup (remove_first y l).
Proof.
  induction 1 as [|z l Hz Hl IH]; cbn [remove_first]; [constructor|].
  case_decide; [done|]. constructor; [|done].
  intros Hin. by apply remove_first_subseteq in Hin.
Qed.

Lemma remove_first_absent (y : A) l : y ∉ l → remove_first y l = l.
Proof.
  induction l as [|x l IH]; cbn [remove_first]; [done|].
  rewrite not_elem_of_cons. intros [Hne Hy].
  case_decide; [by subst|]. by rewrite IH.
Qed.

Lemma remove_first_snoc (y : A) l : y ∉ l → remove_first y (l ++ [y]) = l.
Proof.
  induction l as [|x l IH]; cbn [remove_first app].
  - intros _. by rewrite decide_True.
  - rewrite not_elem_of_cons. intros [Hne Hy].
    rewrite decide_False by done. by rewrite IH.
Qed.

End Lists.

Lemma removeFrameCallback_elem_of (x id : nat) (l : list nat) :
  x ∈ Layout.removeFrameCallback id l ↔ x ∈ l ∧ x ≠ id.
Proof.
  unfold Layout.removeFrameCallback.
  rewrite !list_elem_of_In, filter_In, negb_true_iff, Nat.eqb_neq. tauto.
Qed.

Lemma removeFrameCallback_NoDup (id : nat) (l : list nat) :
  NoDup l → NoDup (Layout.removeFrameCallback id l).
Proof.
  unfold Layout.removeFrameCallback.
  induction 1 as [|x l Hx Hl IH]; cbn [List.filter]; [constructor|].
  destruct (negb (x =? id)%nat); [|done].
  constructor; [|done].
  intros Hin. apply list_elem_of_In, filter_In in Hin as [Hin _].
  by apply Hx, list_elem_of_In.
Qed.

Lemma removeFrameCallback_absent (id : nat) (l : list nat) :
  id ∉ l → Layout.removeFrameCallback id l = l.
Proof.
  unfold Layout.removeFrameCallback.
  induction l as [|x l IH]; cbn [List.filter]; [done|].
  rewrite not_elem_of_cons. intros [Hne Hid].
  rewrite (proj2 (Nat.eqb_neq x id)) by done. cbn. by rewrite IH.
Qed.

Lemma removeFrameCallback_snoc (id : nat) (l : list nat) :
  id ∉ l → Layout.removeFrameCallback id (l ++ [id]) = l.
Proof.
  intros Hid. unfold Layout.removeFrameCallback.
  rewrite List.filter_app. cbn [List.filter].
  rewrite Nat.eqb_refl. cbn. rewrite app_nil_r.
  by apply removeFrameCallback_absent.
Qed.

Lemma addFrameCallback_fresh (id : nat) (l : list nat) :
  id ∉ l → Layout.addFrameCallback id l = l ++ [id].
Proof. intros Hid. unfold Layout.addFrameCallback. by rewrite bool_decide_eq_false_2. Qed.

Lemma multimap_get_elem_of {K : Type} `{EqDecision K} (key : K)
    (id : TransitionId) (entries : list (K * TransitionId)) :
  id ∈ multimap_get key entries ↔ (key, id) ∈ entries.
Proof.
  unfold multimap_get. rewrite list_elem_of_fmap. split.
  - intros ([key' id'] & -> & Hin).
    apply list_elem_of_In, filter_In in Hin as [Hin Hkey].
    apply bool_decide_eq_true in Hkey. cbn in Hkey. subst key'.
    by apply list_elem_of_In.
  - intros Hin. exists (key, id). split; [done|].
    apply list_elem_of_In, filter_In. split; [by apply list_elem_of_In|].
    by apply bool_decide_eq_true.
Qed.

(** *** Transitions *)

Lemma cancel_not_running {V : Type} (tween : Transition.t V) :
  Transition.isRunning tween = false →
  Transition.cancel true tween = (tween, []).
Proof. intros H. unfold Transition.cancel. by rewrite H. Qed.

Lemma cancel_running {V : Type} (tween : Transition.t V) :
  Transition.isRunning tween = true →
  ∃ tween',
    Transition.cancel true tween
    = (tween', [(Transition.OnUpdate, Transition.endValue tween);
                (Transition.OnEnd, Transition.endValue tween)])
    ∧ Transition.isRunning tween' = false
    ∧ Transition.delay tween' = Transition.delay tween.
Proof.
  intros H. unfold Transition.cancel. rewrite H. cbn.
  eexists. split; [reflexivity|]. split; [|reflexivity].
  apply TransitionFacts.isRunning_ended. reflexivity.
Qed.

(** [start()] on a transition fresh from its constructor. *)
Lemma start_fresh (current target duration delay : Q) (easing : Q → Q) :
  ∃ tween value,
    Transition.start
      (Transition.setEasing easing
         (Transition.setDelay delay
            (Transition.new current target duration
                            Transition.IdentityConverter)))
    = Ok (tween,
          (Transition.OnStart, current) :: (Transition.OnUpdate, value)
            :: (if Transition.isRunning tween then []
                else [(Transition.OnEnd, value)]))
    ∧ Transition.delay tween = delay.
Proof.
  unfold Transition.start, Transition.updateCurrentValue. cbn.
  match goal with |- context [Qeq_bool ?f 1] => destruct (Qeq_bool f 1) end;
    cbn;
    match goal with
    | |- ∃ _ _, Ok (?t, _ :: (_, ?v) :: _) = _ ∧ _ => exists t, v
    end; split; reflexivity.
Qed.

Lemma update_cases {V : Type} (time : Q) (tween : Transition.t V) :
  ∃ tween' notifications,
    Transition.update time tween = (tween', notifications)
    ∧ Transition.delay tween' = Transition.delay tween
    ∧ ((notifications = []
        ∧ Transition.isRunning tween' = Transition.isRunning tween)
       ∨ (∃ value,
            Transition.isRunning tween = true
            ∧ notifications
              = (Transition.OnUpdate, value)
                  :: (if Transition.isRunning tween' then []
                      else [(Transition.OnEnd, value)]))).
Proof.
  unfold Transition.update.
  destruct (Transition.isRunning tween) eqn:Hrun; cbn [negb].
  - remember (Transition.set_lastUpdateTime (Some time)
                match Transition.lastUpdateTime tween with
                | Some last =>
                    Transition.set_runningTime
                      (Transition.runningTime tween + (time - last)) tween
                | None => tween
                end) as moved eqn:Hmoved.
    assert (Hrunning : Transition.isRunning moved = true
                       ∧ Transition.delay moved = Transition.delay tween).
    { subst moved. destruct (Transition.lastUpdateTime tween); by cbn. }
    clear Hmoved. destruct Hrunning as [Hrunning Hdelay].
    unfold Transition.isRunning in Hrunning.
    apply andb_true_iff in Hrunning as [Hrunning Hended].
    apply andb_true_iff in Hrunning as [Hstarted Hpaused].
    unfold Transition.updateCurrentValue.
    destruct (Qeq_bool (Transition.fraction moved) 1); cbn.
    + eexists _, _. split; [reflexivity|]. split; [exact Hdelay|].
      right. eexists. split; [done|].
      unfold Transition.isRunning. cbn.
      by rewrite andb_false_r.
    + eexists _, _. split; [reflexivity|]. split; [exact Hdelay|].
      right. eexists. split; [done|].
      unfold Transition.isRunning. cbn.
      by rewrite Hstarted, Hpaused, Hended.
  - eexists _, _. split; [reflexivity|]. split; [reflexivity|].
    left. split; [done|]. by rewrite <- Hrun.
Qed.

(** *** Stores *)

Lemma owner_allocated store id object :
  owner store id = Some object → (id < length (allocated store))%nat.
Proof.
  unfold owner. intros H. apply fmap_Some in H as (it & Hit & _).
  by apply lookup_lt_Some in Hit.
Qed.

Lemma running_allocated store id :
  running store id = true → (id < length (allocated store))%nat.
Proof.
  unfold running.
  destruct (allocated store !! id) eqn:H; [|done].
  intros _. by apply lookup_lt_Some in H.
Qed.

Lemma set_tween_fields id tween store :
  objectTransitions (set_tween id tween store) = objectTransitions store
  ∧ propertyTransitions (set_tween id tween store) = propertyTransitions store
  ∧ frameCallbacks (set_tween id tween store) = frameCallbacks store
  ∧ objects (set_tween id tween store) = objects store
  ∧ length (allocated (set_tween id tween store)) = length (allocated store).
Proof.
  unfold set_tween. destruct (allocated store !! id); [|done].
  cbn. by rewrite length_insert.
Qed.

Lemma set_tween_lookup id tween store it :
  allocated store !! id = Some it →
  allocated (set_tween id tween store) !! id
  = Some {| object := object it; propertyName := propertyName it;
            propertyValue := propertyValue it; tween := tween |}.
Proof.
  intros Hit. unfold set_tween. rewrite Hit. cbn.
  apply list_lookup_insert_eq. by apply lookup_lt_Some in Hit.
Qed.

Lemma set_tween_lookup_ne id id' tween store :
  id' ≠ id →
  allocated (set_tween id tween store) !! id' = allocated store !! id'.
Proof.
  intros Hne. unfold set_tween. destruct (allocated store !! id); [|done].
  cbn. by apply list_lookup_insert_ne.
Qed.

Lemma set_tween_owner id tween store id' :
  owner (set_tween id tween store) id' = owner store id'.
Proof.
  unfold owner. destruct (decide (id' = id)) as [->|Hne].
  - destruct (allocated store !! id) as [it|] eqn:Hit.
    + by rewrite (set_tween_lookup _ _ _ _ Hit).
    + unfold set_tween. rewrite Hit. by rewrite Hit.
  - by rewrite set_tween_lookup_ne.
Qed.

Lemma set_tween_named id tween store id' :
  named (set_tween id tween store) id' = named store id'.
Proof.
  unfold named. destruct (decide (id' = id)) as [->|Hne].
  - destruct (allocated store !! id) as [it|] eqn:Hit.
    + by rewrite (set_tween_lookup _ _ _ _ Hit).
    + unfold set_tween. rewrite Hit. by rewrite Hit.
  - by rewrite set_tween_lookup_ne.
Qed.

Lemma set_tween_running_ne id tween store id' :
  id' ≠ id → running (set_tween id tween store) id' = running store id'.
Proof. intros Hne. unfold running. by rewrite set_tween_lookup_ne. Qed.

Lemma set_tween_running id tween store it :
  allocated store !! id = Some it →
  running (set_tween id tween store) id = Transition.isRunning tween.
Proof.
  intros Hit. unfold running. by rewrite (set_tween_lookup _ _ _ _ Hit).
Qed.

Lemma same_registry_refl store : same_registry store store.
Proof. done. Qed.

Lemma same_registry_trans s1 s2 s3 :
  same_registry s1 s2 → same_registry s2 s3 → same_registry s1 s3.
Proof.
  intros (?&?&?&?) (?&?&?&?). repeat split; congruence.
Qed.

Lemma setPropertyValue_registry object name value store store' :
  setPropertyValue object name value store = Ok store' →
  same_registry store store'.
Proof.
  unfold setPropertyValue.
  destruct (objects store !! object) as [rendered|]; [|discriminate].
  destruct (values rendered !! name); [|discriminate].
  by intros [= <-].
Qed.

Lemma attachObject_registry object store store' :
  attachObject object store = Ok store' → same_registry store store'.
Proof.
  unfold attachObject.
  destruct (objects store !! object); [|discriminate]. by intros [= <-].
Qed.

Lemma detachObject_registry object store store' :
  detachObject object store = Ok store' → same_registry store store'.
Proof.
  unfold detachObject.
  destruct (objects store !! object); [|discriminate]. by intros [= <-].
Qed.

Lemma destroyObject_registry object store store' :
  destroyObject object store = Ok store' → same_registry store store'.
Proof.
  unfold destroyObject.
  destruct (objects store !! object); [|discriminate]. by intros [= <-].
Qed.

Lemma onUpdate_registry id value store store' :
  onUpdate id value store = Ok store' → same_registry store store'.
Proof.
  unfold onUpdate. destruct (allocated store !! id); [|discriminate].
  apply setPropertyValue_registry.
Qed.

Lemma same_registry_owner before after id :
  same_registry before after → owner after id = owner before id.
Proof. intros (_&_&_&H). unfold owner. by rewrite H. Qed.

Lemma same_registry_named before after id :
  same_registry before after → named after id = named before id.
Proof. intros (_&_&_&H). unfold named. by rewrite H. Qed.

Lemma same_registry_running before after id :
  same_registry before after → running after id = running before id.
Proof. intros (_&_&_&H). unfold running. by rewrite H. Qed.

(** *** The invariant under the elementary steps *)

(** The invariant only reads the registry, and of the transitions only
    the Object, the property and whether a registered one runs. *)
Lemma Inv_transport before after :
  Inv before →
  objectTransitions after = objectTransitions before →
  propertyTransitions after = propertyTransitions before →
  frameCallbacks after = frameCallbacks before →
  (∀ id, registered before id → owner after id = owner before id) →
  (∀ id, registered before id → named after id = named before id) →
  (∀ id, registered before id → running after id = true) →
  Inv after.
Proof.
  intros [Hfn Hon Hpn Ho Hp Hr Hu] Hobj Hprop Hframe Howner Hnamed Hrunning.
  split; unfold registered in *.
  - by rewrite Hframe.
  - by rewrite Hobj.
  - by rewrite Hprop.
  - intros object id. rewrite Hobj, Hframe, Ho. split.
    + intros [Hreg Hown]. by rewrite Howner.
    + intros [Hreg Hown]. by rewrite <- Howner.
  - intros name id. rewrite Hprop, Hframe, Hp. split.
    + intros [Hreg Hown]. by rewrite Hnamed.
    + intros [Hreg Hown]. by rewrite <- Hnamed.
  - intros id. rewrite Hframe. apply Hrunning.
  - intros id1 id2. rewrite Hframe. intros H1 H2.
    rewrite !Howner, !Hnamed by done. by apply Hu.
Qed.

Lemma Inv_same_registry before after :
  same_registry before after → Inv before → Inv after.
Proof.
  intros Hsame Hinv. pose proof Hsame as (Hobj & Hprop & Hframe & Halloc).
  apply (Inv_transport before); try done.
  - intros id _. by apply same_registry_owner.
  - intros id _. by apply same_registry_named.
  - intros id Hid. rewrite (same_registry_running before) by done.
    by apply Hinv.
Qed.

(** Dropping a transition from the two multimaps and from the clock. *)
Lemma Inv_unregister before after id object name :
  Inv before →
  owner before id = Some object →
  named before id = Some name →
  objectTransitions after
    = multimap_remove object id (objectTransitions before) →
  propertyTransitions after
    = multimap_remove name id (propertyTransitions before) →
  frameCallbacks after
    = Layout.removeFrameCallback id (frameCallbacks before) →
  (∀ id', owner after id' = owner before id') →
  (∀ id', named after id' = named before id') →
  (∀ id', id' ≠ id → running after id' = running before id') →
  Inv after.
Proof.
  intros [Hfn Hon Hpn Ho Hp Hr Hu] Hobject Hname Hobj Hprop Hframe
         Howner Hnamed Hrunning.
  split; unfold registered, multimap_remove in *.
  - rewrite Hframe. by apply removeFrameCallback_NoDup.
  - rewrite Hobj. by apply remove_first_NoDup.
  - rewrite Hprop. by apply remove_first_NoDup.
  - intros object' id'.
    rewrite Hobj, Hframe, Howner, remove_first_elem_of by done.
    rewrite removeFrameCallback_elem_of, Ho. split.
    + intros [[Hreg Hown] Hne]. split; [split; [done|]|done].
      intros ->. apply Hne. congruence.
    + intros [[Hreg Hne] Hown]. split; [done|]. by intros [= _ ->].
  - intros name' id'.
    rewrite Hprop, Hframe, Hnamed, remove_first_elem_of by done.
    rewrite removeFrameCallback_elem_of, Hp. split.
    + intros [[Hreg Hown] Hne]. split; [split; [done|]|done].
      intros ->. apply Hne. congruence.
    + intros [[Hreg Hne] Hown]. split; [done|]. by intros [= _ ->].
  - intros id'. rewrite Hframe, removeFrameCallback_elem_of.
    intros [Hreg Hne]. rewrite Hrunning by done. by apply Hr.
  - intros id1 id2. rewrite Hframe, !removeFrameCallback_elem_of.
    rewrite !Howner, !Hnamed. intros [H1 _] [H2 _]. by apply Hu.
Qed.

(** Registering a freshly allocated, running transition for a pair of
    Object and property that has no registered transition. *)
Lemma Inv_register before after id object name :
  Inv before →
  allocated before !! id = None →
  objectTransitions after
    = multimap_set object id (objectTransitions before) →
  propertyTransitions after
    = multimap_set name id (propertyTransitions before) →
  frameCallbacks after
    = Layout.addFrameCallback id (frameCallbacks before) →
  owner after id = Some object →
  named after id = Some name →
  running after id = true →
  (∀ id', id' ≠ id →
     owner after id' = owner before id'
     ∧ named after id' = named before id'
     ∧ running after id' = running before id') →
  (∀ id', registered before id' →
     ¬ (owner before id' = Some object ∧ named before id' = Some name)) →
  Inv after.
Proof.
  intros Hinv Hfresh Hobj Hprop Hframe Howner Hnamed Hrunning Hother Hfree.
  assert (Hunreg : id ∉ frameCallbacks before).
  { intros Hreg. apply Hinv in Hreg. unfold running in Hreg.
    by rewrite Hfresh in Hreg. }
  rewrite addFrameCallback_fresh in Hframe by done.
  assert (Hne : ∀ id', registered before id' → id' ≠ id).
  { intros id' Hreg ->. by apply Hunreg. }
  destruct Hinv as [Hfn Hon Hpn Ho Hp Hr Hu].
  split; unfold registered, multimap_set in *.
  - rewrite Hframe. apply NoDup_app. split; [done|].
    split; [|apply NoDup_singleton].
    intros id' Hreg ->%list_elem_of_singleton. by apply Hunreg.
  - rewrite Hobj. apply NoDup_app. split; [done|].
    split; [|apply NoDup_singleton].
    intros entry Hin ->%list_elem_of_singleton.
    apply Ho in Hin as [Hreg _]. by apply Hunreg.
  - rewrite Hprop. apply NoDup_app. split; [done|].
    split; [|apply NoDup_singleton].
    intros entry Hin ->%list_elem_of_singleton.
    apply Hp in Hin as [Hreg _]. by apply Hunreg.
  - intros object' id'.
    rewrite Hobj, Hframe, !elem_of_app, !list_elem_of_singleton, Ho.
    split.
    + intros [[Hreg Hown]|[= -> ->]]; [|by split; [right|]].
      split; [by left|].
      by rewrite (proj1 (Hother id' (Hne id' Hreg))).
    + intros [[Hreg| ->] Hown].
      * left. split; [done|].
        by rewrite <- (proj1 (Hother id' (Hne id' Hreg))).
      * right. congruence.
  - intros name' id'.
    rewrite Hprop, Hframe, !elem_of_app, !list_elem_of_singleton, Hp.
    split.
    + intros [[Hreg Hown]|[= -> ->]]; [|by split; [right|]].
      split; [by left|].
      by rewrite (proj1 (proj2 (Hother id' (Hne id' Hreg)))).
    + intros [[Hreg| ->] Hown].
      * left. split; [done|].
        by rewrite <- (proj1 (proj2 (Hother id' (Hne id' Hreg)))).
      * right. congruence.
  - intros id'. rewrite Hframe, elem_of_app, list_elem_of_singleton.
    intros [Hreg| ->]; [|done].
    rewrite (proj2 (proj2 (Hother id' (Hne id' Hreg)))). by apply Hr.
  - intros id1 id2.
    rewrite Hframe, !elem_of_app, !list_elem_of_singleton.
    intros [H1| ->] [H2| ->]; [| | |done].
    + destruct (Hother id1 (Hne id1 H1)) as (-> & -> & _).
      destruct (Hother id2 (Hne id2 H2)) as (-> & -> & _).
      by apply Hu.
    + destruct (Hother id1 (Hne id1 H1)) as (-> & -> & _).
      rewrite Howner, Hnamed. intros Hown Hnam.
      by destruct (Hfree id1 H1).
    + destruct (Hother id2 (Hne id2 H2)) as (-> & -> & _).
      rewrite Howner, Hnamed. intros Hown Hnam.
      by destruct (Hfree id2 H2).
Qed.

(** *** Canceling *)

Lemma shrinks_refl store : shrinks store store.
Proof. by repeat split. Qed.

Lemma shrinks_trans s1 s2 s3 : shrinks s1 s2 → shrinks s2 s3 → shrinks s1 s3.
Proof.
  intros (Hf1 & Hl1 & Hm1 & Hr1) (Hf2 & Hl2 & Hm2 & Hr2).
  split; [by etrans|]. split; [congruence|]. split.
  - intros id. destruct (Hm1 id) as (<- & <- & <-). apply Hm2.
  - intros id H. by apply Hr1, Hr2.
Qed.

Lemma same_registry_shrinks before after :
  same_registry before after → shrinks before after.
Proof.
  intros (Hobj & Hprop & Hframe & Halloc).
  unfold shrinks, owner, named, delay_of, running.
  rewrite Hframe, Halloc. by repeat split.
Qed.

Lemma set_tween_same id it store :
  allocated store !! id = Some it → set_tween id (tween it) store = store.
Proof.
  intros Hit. unfold set_tween. rewrite Hit.
  destruct store as [? ? allocated ? ?], it. cbn in *.
  unfold set_allocated. cbn. f_equal. by apply list_insert_id.
Qed.

Lemma set_tween_delay_of id tween store it :
  allocated store !! id = Some it →
  Transition.delay tween = Transition.delay (Element.tween it) →
  ∀ id', delay_of (set_tween id tween store) id' = delay_of store id'.
Proof.
  intros Hit Hdelay id'. unfold delay_of.
  destruct (decide (id' = id)) as [->|Hne].
  - rewrite (set_tween_lookup _ _ _ _ Hit), Hit. cbn. by rewrite Hdelay.
  - by rewrite set_tween_lookup_ne.
Qed.

(** Ending a transition: its state is replaced by one that does not
    run. *)
Lemma set_tween_shrinks id tween store it :
  allocated store !! id = Some it →
  Transition.delay tween = Transition.delay (Element.tween it) →
  Transition.isRunning tween = false →
  shrinks store (set_tween id tween store).
Proof.
  intros Hit Hdelay Hstopped.
  destruct (set_tween_fields id tween store) as (_ & _ & Hframe & _ & Hlen).
  split; [by rewrite Hframe|]. split; [done|]. split.
  - intros id'. by rewrite set_tween_owner, set_tween_named,
      (set_tween_delay_of _ _ _ _ Hit Hdelay).
  - intros id'. destruct (decide (id' = id)) as [->|Hne].
    + by rewrite (set_tween_running _ _ _ _ Hit), Hstopped.
    + by rewrite set_tween_running_ne.
Qed.

Lemma unregister_shrinks id it store : shrinks store (unregister id it store).
Proof.
  split; [|by repeat split].
  intros id'. cbn. rewrite removeFrameCallback_elem_of. tauto.
Qed.

Lemma unregister_unregistered id it store :
  ¬ registered (unregister id it store) id.
Proof.
  unfold registered. cbn. rewrite removeFrameCallback_elem_of. tauto.
Qed.

Lemma shrinks_unregistered before after id :
  shrinks before after → ¬ registered before id → ¬ registered after id.
Proof. intros (Hframe & _) Hnot Hreg. by apply Hnot, Hframe. Qed.

Lemma shrinks_stopped before after id :
  shrinks before after → running before id = false → running after id = false.
Proof.
  intros (_ & _ & _ & Hrun) Hstopped.
  destruct (running after id) eqn:H; [|done].
  apply Hrun in H. congruence.
Qed.

(** The invariant after the end callback has dropped a transition that
    was registered in a store satisfying it. *)
Lemma Inv_unregister_ended before store id it :
  Inv before →
  allocated store !! id = Some it →
  objectTransitions store = objectTransitions before →
  propertyTransitions store = propertyTransitions before →
  frameCallbacks store = frameCallbacks before →
  (∀ id', owner store id' = owner before id') →
  (∀ id', named store id' = named before id') →
  (∀ id', id' ≠ id → running store id' = running before id') →
  Inv (unregister id it store).
Proof.
  intros Hinv Hit Hobj Hprop Hframe Howner Hnamed Hrunning.
  apply (Inv_unregister before _ id (object it) (propertyName it)); try done.
  - rewrite <- Howner. unfold owner. by rewrite Hit.
  - rewrite <- Hnamed. unfold named. by rewrite Hit.
  - cbn. by rewrite Hobj.
  - cbn. by rewrite Hprop.
  - cbn. by rewrite Hframe.
Qed.

Lemma forEach_cancels cancel ids store store' :
  cancels cancel →
  Inv store →
  forEach cancel ids store = Ok store' →
  Inv store' ∧ shrinks store store'
  ∧ ∀ id, id ∈ ids → ¬ registered store' id ∧ running store' id = false.
Proof.
  intros Hcancel. revert store.
  induction ids as [|id ids IH]; intros store Hinv; cbn [forEach].
  - intros [= <-]. split; [done|]. split; [apply shrinks_refl|].
    intros id Hin. by apply elem_of_nil in Hin.
  - destruct (cancel id store) as [store1|e] eqn:Hfirst; [|discriminate].
    cbn. intros Hrest.
    destruct (Hcancel _ _ _ Hinv Hfirst) as (Hinv1 & Hshrinks1 & Hunreg & Hstop).
    destruct (IH _ Hinv1 Hrest) as (Hinv' & Hshrinks' & Hall).
    split; [done|]. split; [by eapply shrinks_trans|].
    intros id' [->|Hin]%elem_of_cons; [|by apply Hall].
    split; [by eapply shrinks_unregistered|by eapply shrinks_stopped].
Qed.

Lemma onEnd_unfold cancel id it store :
  allocated store !! id = Some it →
  onEnd cancel id store
  = if tears_down it then
      store ← forEach cancel
                 (multimap_get (object it)
                    (objectTransitions (unregister id it store)))
                 (unregister id it store);
      store ← detachObject (object it) store;
      destroyObject (object it) store
    else Ok (unregister id it store).
Proof. intros Hit. unfold onEnd. by rewrite Hit. Qed.

(** The end callback, once the transition is dropped from the
    registry. *)
Lemma onEnd_inv cancel id it store store' :
  cancels cancel →
  allocated store !! id = Some it →
  Inv (unregister id it store) →
  onEnd cancel id store = Ok store' →
  Inv store' ∧ shrinks (unregister id it store) store'.
Proof.
  intros Hcancel Hit Hinv. rewrite (onEnd_unfold _ _ _ _ Hit).
  destruct (tears_down it).
  - destruct (forEach cancel _ _) as [store1|e] eqn:Hcascade; [|discriminate].
    cbn. destruct (detachObject _ store1) as [store2|e] eqn:Hdetach;
      [|discriminate].
    cbn. intros Hdestroy.
    destruct (forEach_cancels _ _ _ _ Hcancel Hinv Hcascade)
      as (Hinv1 & Hshrinks1 & _).
    apply detachObject_registry in Hdetach.
    apply destroyObject_registry in Hdestroy.
    pose proof (same_registry_trans _ _ _ Hdetach Hdestroy) as Hsame.
    split; [by eapply Inv_same_registry|].
    eapply shrinks_trans; [done|]. by apply same_registry_shrinks.
  - intros [= <-]. split; [done|apply shrinks_refl].
Qed.

(** [transition.cancel()] keeps the invariant, whatever the fuel. *)
Lemma cancel_cancels fuel : cancels (cancel fuel).
Proof.
  induction fuel as [|fuel IH]; intros id store store' Hinv; [discriminate|].
  cbn [cancel].
  destruct (allocated store !! id) as [it|] eqn:Hit; [|discriminate].
  destruct (Transition.isRunning (tween it)) eqn:Hrun.
  - destruct (cancel_running _ Hrun) as (tween' & -> & Hstopped & Hdelay).
    cbn [forEach notified].
    destruct (onUpdate id _ _) as [store2|e] eqn:Hupdate; [|discriminate].
    cbn. destruct (onEnd (cancel fuel) id store2) as [store3|e] eqn:Hend;
      [|discriminate].
    cbn. intros [= <-].
    pose proof (set_tween_shrinks _ _ _ _ Hit Hdelay Hstopped) as Hshrinks1.
    destruct (set_tween_fields id tween' store)
      as (Hobj1 & Hprop1 & Hframe1 & _ & _).
    apply onUpdate_registry in Hupdate.
    pose proof Hupdate as (Hobj2 & Hprop2 & Hframe2 & Halloc2).
    assert (∃ it2, allocated store2 !! id = Some it2) as [it2 Hit2].
    { rewrite Halloc2, (set_tween_lookup _ _ _ _ Hit). eauto. }
    assert (Hinv2 : Inv (unregister id it2 store2)).
    { apply (Inv_unregister_ended store); try done; try congruence.
      - intros id'. by rewrite (same_registry_owner _ _ _ Hupdate),
          set_tween_owner.
      - intros id'. by rewrite (same_registry_named _ _ _ Hupdate),
          set_tween_named.
      - intros id' Hne. by rewrite (same_registry_running _ _ _ Hupdate),
          set_tween_running_ne. }
    destruct (onEnd_inv _ _ _ _ _ IH Hit2 Hinv2 Hend) as [Hinv3 Hshrinks3].
    assert (Hshrinks : shrinks store store3).
    { eapply shrinks_trans; [exact Hshrinks1|].
      eapply shrinks_trans; [by apply same_registry_shrinks|].
      eapply shrinks_trans; [apply unregister_shrinks|exact Hshrinks3]. }
    split; [done|]. split; [done|]. split.
    + eapply shrinks_unregistered; [exact Hshrinks3|].
      apply unregister_unregistered.
    + eapply shrinks_stopped;
        [eapply shrinks_trans;
           [by apply same_registry_shrinks
           |eapply shrinks_trans; [apply unregister_shrinks|exact Hshrinks3]]|].
      by rewrite (set_tween_running _ _ _ _ Hit).
  - rewrite (cancel_not_running _ Hrun). cbn [forEach].
    rewrite (set_tween_same _ _ _ Hit). intros [= <-].
    split; [done|]. split; [apply shrinks_refl|].
    assert (Hstopped : running store id = false).
    { unfold running. by rewrite Hit. }
    split; [|done].
    intros Hreg. apply Hinv in Hreg. congruence.
Qed.

Lemma cancelTransition_cancels : cancels cancelTransition.
Proof. intros id store. apply cancel_cancels. Qed.

(** *** Creating transitions *)

Lemma extends_refl store : extends store store.
Proof. by split. Qed.

Lemma extends_trans s1 s2 s3 : extends s1 s2 → extends s2 s3 → extends s1 s3.
Proof.
  intros [Hl1 Hm1] [Hl2 Hm2]. split; [lia|].
  intros id Hid. destruct (Hm1 id Hid) as (<- & <- & <-).
  apply Hm2. lia.
Qed.

Lemma shrinks_extends before after : shrinks before after → extends before after.
Proof.
  intros (_ & Hlen & Hmeta & _). split; [lia|]. intros id _. apply Hmeta.
Qed.

Lemma same_registry_extends before after :
  same_registry before after → extends before after.
Proof. intros H. by apply shrinks_extends, same_registry_shrinks. Qed.

Lemma shrinks_length before after :
  shrinks before after → length (allocated after) = length (allocated before).
Proof. by intros (_ & Hlen & _). Qed.

Lemma Inv_registered_allocated store id :
  Inv store → registered store id → (id < length (allocated store))%nat.
Proof. intros Hinv Hreg. by apply running_allocated, Hinv. Qed.

Section Enroll.
Variables (it : PropertyTransition) (store : Store).
Let id := length (allocated store).

Lemma enroll_lookup : allocated (enroll it store) !! id = Some it.
Proof. cbn. by apply list_lookup_middle. Qed.

Lemma enroll_lookup_ne id' :
  id' ≠ id → allocated (enroll it store) !! id' = allocated store !! id'.
Proof.
  intros Hne. cbn. destruct (decide (id' < id)%nat) as [Hlt|Hge].
  - by apply lookup_app_l.
  - rewrite (lookup_ge_None_2 (allocated store)) by (subst id; lia).
    apply lookup_ge_None_2. rewrite length_app. cbn. subst id. lia.
Qed.

Lemma enroll_length :
  length (allocated (enroll it store)) = S (length (allocated store)).
Proof. cbn. rewrite length_app. cbn. lia. Qed.

End Enroll.

(** The registry after [enroll], [start()] and the update callback. *)
Section Started.
Variables (it : PropertyTransition) (tween' : Transition.t Q).
Variables (store store' : Store).
Let id := length (allocated store).
Hypothesis Hdelay : Transition.delay tween' = Transition.delay (tween it).
Hypothesis Hsame : same_registry (set_tween id tween' (enroll it store)) store'.

Lemma started_lookup :
  allocated store' !! id
  = Some {| object := object it; propertyName := propertyName it;
            propertyValue := propertyValue it; tween := tween' |}.
Proof using Hsame.
  destruct Hsame as (_ & _ & _ & ->).
  apply set_tween_lookup, enroll_lookup.
Qed.

Lemma started_lookup_ne id' :
  id' ≠ id → allocated store' !! id' = allocated store !! id'.
Proof using Hsame.
  intros Hne. destruct Hsame as (_ & _ & _ & ->).
  by rewrite set_tween_lookup_ne, enroll_lookup_ne.
Qed.

Lemma started_length : length (allocated store') = S (length (allocated store)).
Proof using Hsame.
  destruct Hsame as (_ & _ & _ & ->).
  destruct (set_tween_fields id tween' (enroll it store)) as (_&_&_&_& ->).
  apply enroll_length.
Qed.

Lemma started_other id' :
  id' ≠ id →
  owner store' id' = owner store id'
  ∧ named store' id' = named store id'
  ∧ running store' id' = running store id'
  ∧ delay_of store' id' = delay_of store id'.
Proof using Hsame.
  intros Hne. unfold owner, named, running, delay_of.
  by rewrite started_lookup_ne.
Qed.

Lemma started_self :
  owner store' id = Some (object it)
  ∧ named store' id = Some (propertyName it)
  ∧ running store' id = Transition.isRunning tween'
  ∧ delay_of store' id = Some (Transition.delay (tween it)).
Proof using Hsame Hdelay.
  unfold owner, named, running, delay_of. rewrite started_lookup. cbn.
  by rewrite Hdelay.
Qed.

Lemma started_registry :
  objectTransitions store'
    = multimap_set (object it) id (objectTransitions store)
  ∧ propertyTransitions store'
    = multimap_set (propertyName it) id (propertyTransitions store)
  ∧ frameCallbacks store'
    = Layout.addFrameCallback id (frameCallbacks store).
Proof using Hsame.
  destruct Hsame as (-> & -> & -> & _).
  by destruct (set_tween_fields id tween' (enroll it store))
    as (-> & -> & -> & _).
Qed.

(** The new transition keeps running: it is registered. *)
Lemma started_Inv :
  Inv store →
  Transition.isRunning tween' = true →
  (∀ id', registered store id' →
     ¬ (owner store id' = Some (object it)
        ∧ named store id' = Some (propertyName it))) →
  Inv store'.
Proof using Hsame Hdelay.
  intros Hinv Hrun Hfree.
  destruct started_registry as (Hobj & Hprop & Hframe).
  destruct started_self as (Hown & Hnam & Hrunning & _).
  apply (Inv_register store store' id (object it) (propertyName it));
    try done.
  - apply lookup_ge_None_2. subst id. lia.
  - by rewrite Hrunning.
  - intros id' Hne. destruct (started_other id' Hne) as (?&?&?&?). done.
Qed.

(** The new transition ended within [start()]: the end callback drops
    it again. *)
Lemma started_ended_Inv it' :
  Inv store →
  allocated store' !! id = Some it' →
  Inv (unregister id it' store')
  ∧ frameCallbacks (unregister id it' store') = frameCallbacks store.
Proof using Hsame.
  intros Hinv Hit'.
  rewrite started_lookup in Hit'. injection Hit' as <-.
  destruct started_registry as (Hobj & Hprop & Hframe).
  assert (Hunreg : id ∉ frameCallbacks store).
  { intros Hreg. apply (Inv_registered_allocated _ _ Hinv) in Hreg.
    subst id. lia. }
  assert (Hframe' : frameCallbacks (unregister id
                      {| object := object it; propertyName := propertyName it;
                         propertyValue := propertyValue it; tween := tween' |}
                      store') = frameCallbacks store).
  { cbn. rewrite Hframe, addFrameCallback_fresh by done.
    by apply removeFrameCallback_snoc. }
  split; [|done].
  apply (Inv_transport store); try done.
  - cbn. rewrite Hobj. unfold multimap_set, multimap_remove.
    apply remove_first_snoc. intros Hin. by apply Hinv in Hin as [Hreg _].
  - cbn. rewrite Hprop. unfold multimap_set, multimap_remove.
    apply remove_first_snoc. intros Hin. by apply Hinv in Hin as [Hreg _].
  - intros id' Hreg. apply started_other. by intros ->.
  - intros id' Hreg. apply started_other. by intros ->.
  - intros id' Hreg.
    assert (Hne : id' ≠ id) by (by intros ->).
    destruct (started_other id' Hne) as (_ & _ & Hrun & _).
    unfold running in *. cbn. rewrite Hrun. by apply Hinv.
Qed.

End Started.

Lemma transitionPropertyValue_Inv object name value delay duration easing
    store store' :
  Inv store →
  (∀ id, registered store id →
     ¬ (owner store id = Some object ∧ named store id = Some name)) →
  transitionPropertyValue object name value delay duration easing store
  = Ok store' →
  Inv store' ∧ creates store store' object name delay.
Proof.
  intros Hinv Hfree. unfold transitionPropertyValue.
  destruct value as [number| |]; cycle 1.
  { intros Hset%setPropertyValue_registry.
    split; [by eapply Inv_same_registry|].
    pose proof Hset as (_ & _ & Hframe & Halloc).
    split; [by apply same_registry_extends|].
    unfold allocated_between, registered. rewrite Hframe, Halloc.
    split; [by left|lia]. }
  { intros Hset%setPropertyValue_registry.
    split; [by eapply Inv_same_registry|].
    pose proof Hset as (_ & _ & Hframe & Halloc).
    split; [by apply same_registry_extends|].
    unfold allocated_between, registered. rewrite Hframe, Halloc.
    split; [by left|lia]. }
  destruct (getPropertyValue object name store) as [[current| |]|e];
    try discriminate.
  cbn [mbind result_bind].
  destruct (start_fresh current number duration delay easing)
    as (tween' & value & -> & Hdelay).
  cbn [mbind result_bind].
  set (it := {| object := object; propertyName := name;
                propertyValue := number;
                tween := Transition.setEasing easing
                           (Transition.setDelay delay
                              (Transition.new current number duration
                                 Transition.IdentityConverter)) |}).
  change (set_frameCallbacks _ _) with (enroll it store).
  set (id := length (allocated store)).
  cbn [forEach notified mbind result_bind].
  destruct (onUpdate id value _) as [store2|e] eqn:Hupdate; [|discriminate].
  apply onUpdate_registry in Hupdate.
  cbn [mbind result_bind].
  pose proof (started_length it tween' store store2 Hupdate) as Hlen.
  pose proof (started_self it tween' store store2 Hdelay Hupdate)
    as (Hown & Hnam & Hrun & Hdel).
  assert (Hbetween : ∀ after, length (allocated after) = S id →
            ∀ id', allocated_between store after id' → id' = id).
  { intros after Hafter id'. unfold allocated_between. rewrite Hafter.
    subst id. lia. }
  destruct (Transition.isRunning tween') eqn:Hrunning; cbn [forEach].
  - intros [= <-].
    split; [by eapply (started_Inv it tween' store store2)|].
    split; [|split].
    + split; [lia|]. intros id' Hid'.
      destruct (started_other it tween' store store2 Hupdate id')
        as (?&?&?&?); [subst id; lia|done].
    + intros id'.
      destruct (started_registry it tween' store store2 Hupdate)
        as (_ & _ & Hframe).
      unfold registered, allocated_between. rewrite Hframe, Hlen.
      unfold Layout.addFrameCallback. case_bool_decide; [by left|].
      rewrite elem_of_app, list_elem_of_singleton.
      intros [Hreg| ->]; [by left|right; subst id; lia].
    + intros id' ->%(Hbetween store2 Hlen). done.
  - cbn [notified].
    destruct (onEnd cancelTransition id store2) as [store3|e] eqn:Hend;
      [|discriminate].
    cbn [mbind result_bind forEach]. intros [= <-].
    pose proof (started_lookup it tween' store store2 Hupdate) as Hit2.
    destruct (started_ended_Inv it tween' store store2 Hupdate _ Hinv Hit2)
      as [Hinv2 Hframe2].
    destruct (onEnd_inv _ _ _ _ _ cancelTransition_cancels Hit2 Hinv2 Hend)
      as [Hinv3 Hshrinks3].
    pose proof (shrinks_trans _ _ _ (unregister_shrinks id _ store2) Hshrinks3)
      as (Hframe3 & Hlen3 & Hmeta3 & _).
    split; [done|]. split; [|split].
    + split; [lia|]. intros id' Hid'.
      destruct (Hmeta3 id') as (-> & -> & ->).
      destruct (started_other it tween' store store2 Hupdate id')
        as (?&?&?&?); [subst id; lia|done].
    + intros id' Hreg. left. destruct Hshrinks3 as (Hsub & _).
      apply Hsub in Hreg. unfold registered. by rewrite <- Hframe2.
    + intros id' ->%(Hbetween store3 ltac:(lia)).
      by destruct (Hmeta3 id) as (-> & -> & ->).
Qed.

(** *** The commit phase *)

(** Case analysis on the first computation of a chain of binds. *)
Tactic Notation "bind_case" "as" simple_intropattern(p) "eqn" ":" ident(H) :=
  match goal with
  | |- mbind _ ?m = Ok _ → _ =>
      destruct m as [p|?] eqn:H; [cbn [mbind result_bind]|discriminate]
  end.

Lemma replaces_refl store oldObject newObject newDelay :
  replaces store store oldObject newObject newDelay.
Proof.
  split; [apply extends_refl|]. unfold allocated_between. intros id. lia.
Qed.

Lemma replaces_trans s1 s2 s3 oldObject newObject newDelay :
  replaces s1 s2 oldObject newObject newDelay →
  replaces s2 s3 oldObject newObject newDelay →
  replaces s1 s3 oldObject newObject newDelay.
Proof.
  intros [Hext1 Hnew1] [Hext2 Hnew2].
  split; [by eapply extends_trans|].
  intros id [Hlo Hhi].
  destruct (decide (id < length (allocated s2))%nat) as [Hlt|Hge].
  - destruct Hext2 as [_ Hmeta]. destruct (Hmeta id Hlt) as (-> & _ & ->).
    apply Hnew1. split; lia.
  - apply Hnew2. split; lia.
Qed.

Lemma extends_replaces before after oldObject newObject newDelay :
  extends before after →
  length (allocated after) = length (allocated before) →
  replaces before after oldObject newObject newDelay.
Proof.
  intros Hext Hlen. split; [done|].
  unfold allocated_between. intros id. lia.
Qed.

Lemma creates_replaces_old before after object name oldObject newObject
    newDelay :
  oldObject = Some object →
  creates before after object name 0 →
  replaces before after oldObject newObject newDelay.
Proof.
  intros -> (Hext & _ & Hnew). split; [done|].
  intros id Hid. left. destruct (Hnew id Hid) as (-> & _ & ->). eauto.
Qed.

Lemma creates_replaces_new before after object name oldObject newObject
    newDelay :
  newObject = Some object →
  creates before after object name newDelay →
  replaces before after oldObject newObject newDelay.
Proof.
  intros -> (Hext & _ & Hnew). split; [done|].
  intros id Hid. right. destruct (Hnew id Hid) as (-> & _ & ->). eauto.
Qed.

(** Canceling every transition registered for a property. *)
Lemma cancel_property_transitions name store store' :
  Inv store →
  forEach cancelTransition
          (multimap_get name (propertyTransitions store)) store = Ok store' →
  Inv store' ∧ shrinks store store'
  ∧ ∀ id, registered store' id → named store' id ≠ Some name.
Proof.
  intros Hinv Hcancel.
  destruct (forEach_cancels _ _ _ _ cancelTransition_cancels Hinv Hcancel)
    as (Hinv' & Hshrinks & Hall).
  split; [done|]. split; [done|].
  intros id Hreg Hnamed.
  pose proof Hshrinks as (Hsub & _ & Hmeta & _).
  destruct (Hmeta id) as (_ & Hnamed' & _).
  rewrite Hnamed' in Hnamed.
  assert (Hin : id ∈ multimap_get name (propertyTransitions store)).
  { apply multimap_get_elem_of, Hinv. split; [by apply Hsub|done]. }
  by destruct (Hall id Hin).
Qed.

Lemma defined_Ok {A : Type} (value : option A) (a : A) :
  defined value = Ok a → value = Some a.
Proof. destruct value; [by intros [= ->]|discriminate]. Qed.

Section Commit.
Context {Options : Type}.
Variable crossFade : bool.
Variable resolveProperties :
  ElementProperties → ObjectId → bool → option Options
  → result ResolvedProperties.
Variable getTransitionElementCount : ObjectId → bool → Q.
Variable Ease : Q → Q.

Lemma transitionProperty_Inv (suspended : Suspended Options) newObject
    oldOld oldNew newOld newNew oldDuration newDelay newDuration
    name store store' :
  Inv store →
  (∀ object, oldObject suspended = Some object →
             newObject ≠ Some object) →
  transitionProperty Ease suspended newObject oldOld oldNew newOld newNew
                     oldDuration newDelay newDuration name store
  = Ok store' →
  Inv store'
  ∧ replaces store store' (oldObject suspended) newObject newDelay
  ∧ (differs (property oldOld name) (property oldNew name)
     || differs (property newOld name) (property newNew name) = true →
     renewed store store' name).
Proof.
  intros Hinv Hdistinct. unfold transitionProperty.
  set (oldChanged := differs (property oldOld name) (property oldNew name)).
  set (newChanged := differs (property newOld name) (property newNew name)).
  destruct (oldChanged || newChanged) eqn:Hchanged; cycle 1.
  { apply orb_false_iff in Hchanged as [-> ->].
    cbn [mbind result_bind].
    destruct (resolveElementPropertyTransitionEasing _ _) as [easing|e];
      [|discriminate].
    cbn [mbind result_bind].
    destruct (getElementTransitionEasing Ease easing); [|discriminate].
    cbn [mbind result_bind]. intros [= <-].
    split; [done|]. split; [apply replaces_refl|done]. }
  destruct (forEach cancelTransition _ store) as [store1|e] eqn:Hcancel;
    [|discriminate].
  cbn [mbind result_bind].
  destruct (cancel_property_transitions _ _ _ Hinv Hcancel)
    as (Hinv1 & Hshrinks1 & Hnone1).
  destruct (resolveElementPropertyTransitionEasing _ _) as [easingName|e];
    [|discriminate].
  cbn [mbind result_bind].
  destruct (getElementTransitionEasing Ease easingName) as [easing|e];
    [|discriminate].
  cbn [mbind result_bind].
  pose proof (shrinks_length _ _ Hshrinks1) as Hlen1.
  assert (Hreplaces1 : replaces store store1 (oldObject suspended) newObject
                                newDelay).
  { apply extends_replaces; [by apply shrinks_extends|done]. }
  assert (Hold : ∀ store2,
    (if oldChanged then
       oldObject ← defined (oldObject suspended);
       propertyValue ← defined (property oldNew name);
       transitionPropertyValue oldObject name propertyValue 0 oldDuration
                               easing store1
     else Ok store1) = Ok store2 →
    Inv store2
    ∧ replaces store1 store2 (oldObject suspended) newObject newDelay
    ∧ ∀ id, registered store2 id → named store2 id = Some name →
        allocated_between store1 store2 id
        ∧ owner store2 id = oldObject suspended).
  { intros store2. destruct oldChanged.
    - destruct (defined (oldObject suspended)) as [object|e] eqn:Hobject;
        [|discriminate].
      apply defined_Ok in Hobject. cbn [mbind result_bind].
      destruct (defined (property oldNew name)) as [value|e]; [|discriminate].
      cbn [mbind result_bind]. intros Hcreate.
      apply transitionPropertyValue_Inv in Hcreate as [Hinv2 Hcreates];
        [|done|intros id Hreg [_ Hnamed]; by apply (Hnone1 id)].
      split; [done|]. split; [by eapply creates_replaces_old|].
      intros id Hreg Hnamed.
      destruct Hcreates as (Hext & Hregs & Hnew).
      destruct (Hregs id Hreg) as [Hreg1|Hbetween].
      + exfalso. apply (Hnone1 id Hreg1).
        destruct Hext as [_ Hmeta].
        destruct (Hmeta id) as (_ & <- & _); [|done].
        by apply Inv_registered_allocated.
      + split; [done|]. rewrite Hobject. by apply Hnew.
    - intros [= <-]. split; [done|]. split; [apply replaces_refl|].
      intros id Hreg Hnamed. by destruct (Hnone1 id Hreg). }
  destruct (if oldChanged then _ else _) as [store2|e] eqn:Hstore2;
    [|discriminate].
  cbn [mbind result_bind].
  destruct (Hold store2 eq_refl) as (Hinv2 & Hreplaces2 & Hnamed2).
  clear Hold Hstore2.
  destruct newChanged.
  - destruct (defined newObject) as [object|e] eqn:Hobject; [|discriminate].
    apply defined_Ok in Hobject. cbn [mbind result_bind].
    destruct (defined (property newNew name)) as [value|e]; [|discriminate].
    cbn [mbind result_bind]. intros Hcreate.
    apply transitionPropertyValue_Inv in Hcreate as [Hinv3 Hcreates]; [|done|].
    2:{ intros id Hreg [Howner Hnamed].
        destruct (Hnamed2 id Hreg Hnamed) as [_ Hold'].
        rewrite Howner in Hold'. symmetry in Hold'.
        apply (Hdistinct _ Hold'). done. }
    split; [done|]. split.
    { eapply replaces_trans; [exact Hreplaces1|].
      eapply replaces_trans; [exact Hreplaces2|].
      by eapply creates_replaces_new. }
    intros _ id Hreg Hnamed.
    destruct Hcreates as (Hext & Hregs & Hnew).
    pose proof Hreplaces2 as [[Hlen2 _] _].
    pose proof Hext as [Hlen3 Hmeta].
    destruct (Hregs id Hreg) as [Hreg2|[Hlo Hhi]].
    + pose proof (Inv_registered_allocated _ _ Hinv2 Hreg2) as Hlt.
      destruct (Hmeta id Hlt) as (_ & Hnamed' & _).
      rewrite Hnamed' in Hnamed.
      destruct (Hnamed2 id Hreg2 Hnamed) as [[Hlo Hhi] _].
      split; lia.
    + split; lia.
  - intros [= <-]. split; [done|]. split.
    { eapply replaces_trans; [exact Hreplaces1|exact Hreplaces2]. }
    intros _ id Hreg Hnamed.
    destruct (Hnamed2 id Hreg Hnamed) as [[Hlo Hhi] _]. split; lia.
Qed.

Lemma forEach_transitionProperty_Inv (suspended : Suspended Options)
    newObject oldOld oldNew newOld newNew oldDuration newDelay newDuration
    names store store' :
  Inv store →
  (∀ object, oldObject suspended = Some object →
             newObject ≠ Some object) →
  forEach
    (transitionProperty Ease suspended newObject oldOld oldNew newOld newNew
                        oldDuration newDelay newDuration)
    names store = Ok store' →
  Inv store' ∧ replaces store store' (oldObject suspended) newObject newDelay.
Proof.
  intros Hinv Hdistinct. revert store Hinv.
  induction names as [|name names IH]; intros store Hinv; cbn [forEach].
  - intros [= <-]. split; [done|apply replaces_refl].
  - destruct (transitionProperty _ _ _ _ _ _ _ _ _ _ name store)
      as [store1|e] eqn:Hfirst; [|discriminate].
    cbn [mbind result_bind]. intros Hrest.
    destruct (transitionProperty_Inv _ _ _ _ _ _ _ _ _ _ _ _ Hinv Hdistinct
                Hfirst) as (Hinv1 & Hreplaces1 & _).
    destruct (IH _ Hinv1 Hrest) as [Hinv' Hreplaces'].
    split; [done|]. by eapply replaces_trans.
Qed.

Lemma forEach_setPropertyValue_registry object
    (entries : ResolvedProperties) store store' :
  forEach (λ entry, setPropertyValue object (fst entry) (snd entry))
          entries store = Ok store' →
  same_registry store store'.
Proof.
  revert store. induction entries as [|entry entries IH]; intros store;
    cbn [forEach].
  - by intros [= <-].
  - destruct (setPropertyValue object (fst entry) (snd entry) store)
      as [store1|e] eqn:Hfirst; [|discriminate].
    cbn [mbind result_bind]. intros Hrest.
    eapply same_registry_trans;
      [by eapply setPropertyValue_registry|by apply IH].
Qed.

(** The commit phase: the registry it leaves, and the delays of the
    transitions it allocates. *)
Lemma transition_commit_Inv (suspended : Suspended Options) newObject
    (this this' : t Options) :
  Inv (store this) →
  (∀ object, oldObject suspended = Some object →
             newObject ≠ Some object) →
  transition_commit crossFade resolveProperties getTransitionElementCount
                    Ease suspended newObject this = Ok this' →
  Inv (store this')
  ∧ ∃ oldDuration,
      oldObjectTransitionDuration getTransitionElementCount suspended
      = Ok oldDuration
      ∧ replaces (store this) (store this') (oldObject suspended) newObject
                 (newObjectTransitionDelay crossFade oldDuration).
Proof.
  intros Hinv Hdistinct. unfold transition_commit.
  bind_case as [oldOld oldNew] eqn:Hold.
  bind_case as [newOld newNew] eqn:Hnew.
  bind_case as store1 eqn:Hattach.
  assert (Hsame1 : same_registry (store this) store1).
  { destruct newObject as [object|], newOld as [entries|];
      try (by injection Hattach as <-).
    destruct (forEach _ entries (store this)) as [store0|e] eqn:Hset;
      [|discriminate].
    cbn [mbind result_bind] in Hattach.
    eapply same_registry_trans;
      [by eapply forEach_setPropertyValue_registry
      |by eapply attachObject_registry]. }
  bind_case as oldDuration eqn:HoldDuration.
  bind_case as newDuration eqn:HnewDuration.
  bind_case as keyed eqn:Hkeyed.
  bind_case as store2 eqn:Hloop.
  apply forEach_transitionProperty_Inv in Hloop as [Hinv2 Hreplaces2];
    [|by eapply Inv_same_registry|done].
  assert (Hreplaces : replaces (store this) store2 (oldObject suspended)
                               newObject
                               (newObjectTransitionDelay crossFade oldDuration)).
  { eapply replaces_trans; [|exact Hreplaces2].
    apply extends_replaces; [by apply same_registry_extends|].
    by destruct Hsame1 as (_ & _ & _ & ->). }
  destruct (truthy (newValue suspended)); intros [= <-]; cbn [store];
    (split; [done|]); by exists oldDuration.
Qed.

End Commit.

(** *** Frames *)

Lemma forEach_preserves {A S : Type} (P : S → Prop)
    (f : A → S → result S) (array : list A) :
  (∀ it state state', P state → f it state = Ok state' → P state') →
  ∀ state state', P state → forEach f array state = Ok state' → P state'.
Proof.
  intros Hf. induction array as [|it array IH]; intros state state' HP;
    cbn [forEach].
  - by intros [= <-].
  - destruct (f it state) as [state1|e] eqn:Hfirst; [|discriminate].
    cbn [mbind result_bind]. apply IH. by eapply Hf.
Qed.

Lemma Inv_empty : Inv empty.
Proof.
  split; cbn; try apply NoDup_nil_2.
  - intros object id. unfold registered. cbn. rewrite !elem_of_nil. tauto.
  - intros name id. unfold registered. cbn. rewrite !elem_of_nil. tauto.
  - intros id Hreg. by apply elem_of_nil in Hreg.
  - intros id1 id2 Hreg. by apply elem_of_nil in Hreg.
Qed.

(** A frame callback keeps the invariant: the transition goes on
    running, or it ends and its end callback drops it. *)
Lemma updateTransition_Inv time id store store' :
  Inv store → updateTransition time id store = Ok store' → Inv store'.
Proof.
  intros Hinv. unfold updateTransition.
  destruct (allocated store !! id) as [it|] eqn:Hit; [|discriminate].
  destruct (update_cases time (tween it))
    as (tween' & notifications & -> & Hdelay & Hcases).
  destruct (set_tween_fields id tween' store)
    as (Hobj1 & Hprop1 & Hframe1 & _ & _).
  assert (Hkept : Transition.isRunning tween'
                  = Transition.isRunning (tween it) →
                  Inv (set_tween id tween' store)).
  { intros Hrun. apply (Inv_transport store); try done.
    - intros id' _. apply set_tween_owner.
    - intros id' _. apply set_tween_named.
    - intros id' Hreg. destruct (decide (id' = id)) as [->|Hne].
      + rewrite (set_tween_running _ _ _ _ Hit), Hrun.
        apply Hinv in Hreg. unfold running in Hreg. by rewrite Hit in Hreg.
      + rewrite set_tween_running_ne by done. by apply Hinv. }
  destruct Hcases as [[-> Hrun]|(value & Hrun & ->)].
  { cbn [forEach]. intros [= <-]. by apply Hkept. }
  cbn [forEach notified].
  destruct (onUpdate id value _) as [store2|e] eqn:Hupdate; [|discriminate].
  cbn [mbind result_bind].
  apply onUpdate_registry in Hupdate.
  destruct (Transition.isRunning tween') eqn:Hrun'; cbn [forEach].
  - intros [= <-]. eapply Inv_same_registry; [done|].
    apply Hkept. congruence.
  - cbn [notified].
    destruct (onEnd cancelTransition id store2) as [store3|e] eqn:Hend;
      [|discriminate].
    cbn [mbind result_bind forEach]. intros [= <-].
    pose proof Hupdate as (Hobj2 & Hprop2 & Hframe2 & Halloc2).
    assert (∃ it2, allocated store2 !! id = Some it2) as [it2 Hit2].
    { rewrite Halloc2, (set_tween_lookup _ _ _ _ Hit). eauto. }
    assert (Hinv2 : Inv (unregister id it2 store2)).
    { apply (Inv_unregister_ended store); try done; try congruence.
      - intros id'. by rewrite (same_registry_owner _ _ _ Hupdate),
          set_tween_owner.
      - intros id'. by rewrite (same_registry_named _ _ _ Hupdate),
          set_tween_named.
      - intros id' Hne. by rewrite (same_registry_running _ _ _ Hupdate),
          set_tween_running_ne. }
    by destruct (onEnd_inv _ _ _ _ _ cancelTransition_cancels Hit2 Hinv2 Hend).
Qed.

Lemma nextFrame_Inv time store store' :
  Inv store → nextFrame time store = Ok store' → Inv store'.
Proof.
  unfold nextFrame. apply forEach_preserves.
  intros id state state' Hinv.
  case_bool_decide; [by apply updateTransition_Inv|by intros [= <-]].
Qed.

(** Any sequence of cancellations, such as those of [snap] and
    [destroy], keeps the invariant. *)
Lemma forEach_cancelTransition_Inv ids store store' :
  Inv store → forEach cancelTransition ids store = Ok store' → Inv store'.
Proof.
  apply forEach_preserves. intros id state state' Hinv Hcancel.
  by destruct (cancelTransition_cancels _ _ _ Hinv Hcancel).
Qed.

(** *** Fuel *)

Lemma filter_length_insert {A : Type} (f : A → bool) (l : list A)
    (i : nat) (x y : A) :
  l !! i = Some x → f x = true → f y = false →
  S (length (List.filter f (<[i:=y]> l))) = length (List.filter f l).
Proof.
  intros Hx Hfx Hfy. revert i Hx.
  induction l as [|z l IH]; intros [|i] Hx; try discriminate.
  - injection Hx as ->. simpl. by rewrite Hfx, Hfy.
  - simpl in *. destruct (f z); simpl; by rewrite <- (IH i Hx).
Qed.

Lemma running_count_set_tween id tween store it :
  allocated store !! id = Some it →
  Transition.isRunning (Element.tween it) = true →
  Transition.isRunning tween = false →
  S (running_count (set_tween id tween store)) = running_count store.
Proof.
  intros Hit Hrun Hstopped. unfold running_count, set_tween. rewrite Hit.
  cbn [allocated set_allocated].
  by apply (filter_length_insert _ _ _ it).
Qed.

Lemma same_registry_running_count before after :
  same_registry before after → running_count after = running_count before.
Proof. intros (_&_&_&H). unfold running_count. by rewrite H. Qed.

(** With more fuel than running transitions, canceling never runs out
    of fuel, and it leaves no more transitions running than before. *)
Lemma cancel_fuel fuel :
  ∀ id store,
    (running_count store < fuel)%nat →
    cancel fuel id store ≠ Err OutOfFuel
    ∧ ∀ store', cancel fuel id store = Ok store' →
        (running_count store' ≤ running_count store)%nat.
Proof.
  induction fuel as [|fuel IH]; intros id store Hfuel; [lia|].
  cbn [cancel].
  destruct (allocated store !! id) as [it|] eqn:Hit; [|done].
  destruct (Transition.isRunning (tween it)) eqn:Hrun; cycle 1.
  { rewrite (cancel_not_running _ Hrun). cbn [forEach].
    rewrite (set_tween_same _ _ _ Hit). split; [done|].
    by intros store' [= <-]. }
  destruct (cancel_running _ Hrun) as (tween' & -> & Hstopped & _).
  pose proof (running_count_set_tween _ _ _ _ Hit Hrun Hstopped) as Hcount1.
  cbn [forEach notified].
  destruct (onUpdate id _ _) as [store2|e] eqn:Hupdate; cycle 1.
  { cbn. split; [|done]. intros [= ->].
    unfold onUpdate, setPropertyValue in Hupdate.
    repeat (destruct (_ !! _) in Hupdate; try discriminate). }
  cbn [mbind result_bind].
  apply onUpdate_registry in Hupdate.
  pose proof (same_registry_running_count _ _ Hupdate) as Hcount2.
  pose proof Hupdate as (_ & _ & _ & Halloc2).
  assert (∃ it2, allocated store2 !! id = Some it2) as [it2 Hit2].
  { rewrite Halloc2, (set_tween_lookup _ _ _ _ Hit). eauto. }
  rewrite (onEnd_unfold _ _ _ _ Hit2).
  assert (Hcascade : ∀ ids state,
    (running_count state < fuel)%nat →
    forEach (cancel fuel) ids state ≠ Err OutOfFuel
    ∧ ∀ state', forEach (cancel fuel) ids state = Ok state' →
        (running_count state' ≤ running_count state)%nat).
  { induction ids as [|id' ids IHids]; intros state Hstate; cbn [forEach].
    - split; [done|]. by intros state' [= <-].
    - destruct (IH id' state Hstate) as [Hfirst Hle].
      destruct (cancel fuel id' state) as [state1|e]; [|by cbn].
      cbn [mbind result_bind].
      specialize (Hle state1 eq_refl).
      destruct (IHids state1 ltac:(lia)) as [Hrest Hle'].
      split; [done|]. intros state' Hstate'. specialize (Hle' _ Hstate'). lia. }
  assert (Hcount3 : running_count (unregister id it2 store2)
                    = running_count store2) by done.
  destruct (tears_down it2).
  - destruct (Hcascade
                (multimap_get (object it2)
                   (objectTransitions (unregister id it2 store2)))
                (unregister id it2 store2) ltac:(lia)) as [Hfirst Hle].
    destruct (forEach (cancel fuel) _ _) as [store3|e]; [|by cbn].
    cbn [mbind result_bind]. specialize (Hle store3 eq_refl).
    destruct (detachObject (object it2) store3) as [store4|e] eqn:Hdetach;
      cycle 1.
    { cbn. split; [|done]. intros [= ->]. unfold detachObject in Hdetach.
      destruct (_ !! _) in Hdetach; discriminate. }
    cbn [mbind result_bind].
    apply detachObject_registry, same_registry_running_count in Hdetach.
    destruct (destroyObject (object it2) store4) as [store5|e] eqn:Hdestroy;
      cycle 1.
    { cbn. split; [|done]. intros [= ->]. unfold destroyObject in Hdestroy.
      destruct (_ !! _) in Hdestroy; discriminate. }
    cbn [mbind result_bind forEach].
    apply destroyObject_registry, same_registry_running_count in Hdestroy.
    split; [done|]. intros store' [= <-]. lia.
  - cbn [mbind result_bind forEach]. split; [done|].
    intros store' [= <-]. lia.
Qed.

Lemma running_count_le store :
  (running_count store ≤ length (allocated store))%nat.
Proof. unfold running_count. apply List.filter_length_le. Qed.

(** [cancelTransition] always has enough fuel. *)
Lemma cancelTransition_fuel id store :
  cancelTransition id store ≠ Err OutOfFuel.
Proof.
  apply cancel_fuel. pose proof (running_count_le store). lia.
Qed.

(** *** Termination *)

Lemma preserved_refl store : preserved store store.
Proof. done. Qed.

Lemma preserved_trans s1 s2 s3 :
  preserved s1 s2 → preserved s2 s3 → preserved s1 s3.
Proof.
  intros (Hp1 & Hr1 & Hs1) (Hp2 & Hr2 & Hs2). split; [|split].
  - intros object name H. by apply Hp2, Hp1.
  - intros id. destruct (Hr1 id) as [<- <-]. apply Hr2.
  - by transitivity (objectTransitions s2).
Qed.

Lemma owner_is_Some store id :
  is_Some (owner store id) ↔ is_Some (allocated store !! id).
Proof. unfold owner. by rewrite fmap_is_Some. Qed.

Lemma preserved_allocated before after id :
  preserved before after →
  is_Some (allocated before !! id) → is_Some (allocated after !! id).
Proof.
  intros (_ & Hr & _). rewrite <- !owner_is_Some.
  by destruct (Hr id) as [-> _].
Qed.

Lemma preserved_well_formed before after :
  preserved before after → well_formed before → well_formed after.
Proof.
  intros Hpres [Hprop Hlisted]. pose proof Hpres as (Hp & Hr & Hs).
  split.
  - intros id it Hit. destruct (Hr id) as [Hown Hnam].
    unfold owner, named in Hown, Hnam. rewrite Hit in Hown, Hnam.
    destruct (allocated before !! id) as [it0|] eqn:Hit0; [|done].
    cbn in Hown, Hnam. injection Hown as ->. injection Hnam as ->.
    by apply Hp, (Hprop id).
  - intros object id Hin. apply (preserved_allocated before); [done|].
    by apply (Hlisted object), Hs.
Qed.

Lemma same_registry_preserved before after :
  same_registry before after →
  (∀ object name, has_property before object name →
                  has_property after object name) →
  preserved before after.
Proof.
  intros Hsame Hp. split; [done|]. split.
  - intros id. by rewrite (same_registry_owner _ _ _ Hsame),
      (same_registry_named _ _ _ Hsame).
  - by destruct Hsame as (-> & _).
Qed.

Lemma set_tween_preserved id tween store :
  preserved store (set_tween id tween store).
Proof.
  destruct (set_tween_fields id tween store) as (Hobj & _ & _ & Hobjects & _).
  split; [|split].
  - intros object name. unfold has_property. by rewrite Hobjects.
  - intros id'. by rewrite set_tween_owner, set_tween_named.
  - by rewrite Hobj.
Qed.

Lemma unregister_preserved id it store :
  preserved store (unregister id it store).
Proof.
  split; [done|]. split; [done|]. cbn. apply remove_first_subseteq.
Qed.

Lemma setPropertyValue_total object name value store :
  has_property store object name →
  ∃ store', setPropertyValue object name value store = Ok store'
            ∧ preserved store store'.
Proof.
  intros (rendered & Hobject & [old Hold]). unfold setPropertyValue.
  rewrite Hobject, Hold. eexists. split; [reflexivity|].
  apply same_registry_preserved; [done|].
  intros object' name' (rendered' & Hobject' & Hname'). unfold has_property.
  cbn. destruct (decide (object' = object)) as [->|Hne].
  - rewrite list_lookup_insert_eq by (by eapply lookup_lt_Some).
    eexists. split; [reflexivity|]. cbn. simplify_eq.
    destruct (decide (name' = name)) as [->|Hne].
    + by rewrite lookup_insert_eq.
    + by rewrite lookup_insert_ne.
  - rewrite list_lookup_insert_ne by done. eauto.
Qed.

Lemma detachObject_total object name store :
  has_property store object name →
  ∃ store', detachObject object store = Ok store' ∧ preserved store store'.
Proof.
  intros (rendered & Hobject & Hname). unfold detachObject.
  rewrite Hobject. eexists. split; [reflexivity|].
  apply same_registry_preserved; [done|].
  intros object' name' (rendered' & Hobject' & Hname'). unfold has_property.
  cbn. destruct (decide (object' = object)) as [->|Hne].
  - rewrite list_lookup_insert_eq by (by eapply lookup_lt_Some).
    eexists. split; [reflexivity|]. cbn. by simplify_eq.
  - rewrite list_lookup_insert_ne by done. eauto.
Qed.

Lemma destroyObject_total object name store :
  has_property store object name →
  ∃ store', destroyObject object store = Ok store' ∧ preserved store store'.
Proof.
  intros (rendered & Hobject & Hname). unfold destroyObject.
  rewrite Hobject. eexists. split; [reflexivity|].
  apply same_registry_preserved; [done|].
  intros object' name' (rendered' & Hobject' & Hname'). unfold has_property.
  cbn. destruct (decide (object' = object)) as [->|Hne].
  - rewrite list_lookup_insert_eq by (by eapply lookup_lt_Some).
    eexists. split; [reflexivity|]. cbn. by simplify_eq.
  - rewrite list_lookup_insert_ne by done. eauto.
Qed.

(** With more fuel than running transitions, canceling a transition of
    a well-formed store returns. *)
Lemma cancel_total fuel :
  ∀ id store,
    well_formed store → is_Some (allocated store !! id) →
    (running_count store < fuel)%nat →
    ∃ store', cancel fuel id store = Ok store' ∧ preserved store store'.
Proof.
  induction fuel as [|fuel IH]; intros id store Hwf [it Hit] Hfuel; [lia|].
  cbn [cancel]. rewrite Hit.
  destruct (Transition.isRunning (tween it)) eqn:Hrun; cycle 1.
  { rewrite (cancel_not_running _ Hrun). cbn [forEach].
    rewrite (set_tween_same _ _ _ Hit). by exists store. }
  destruct (cancel_running _ Hrun) as (tween' & -> & Hstopped & _).
  pose proof (running_count_set_tween _ _ _ _ Hit Hrun Hstopped) as Hcount1.
  pose proof (set_tween_preserved id tween' store) as Hpres1.
  pose proof (set_tween_lookup _ tween' _ _ Hit) as Hit1.
  set (store1 := set_tween id tween' store) in *.
  assert (Hhas : has_property store (object it) (propertyName it))
    by (by apply (proj1 Hwf id)).
  cbn [forEach notified]. unfold onUpdate. rewrite Hit1. cbn [object propertyName].
  destruct (setPropertyValue_total (object it) (propertyName it)
              (RNumber (Transition.endValue (tween it))) store1
              (proj1 Hpres1 _ _ Hhas)) as (store2 & Hupdate & Hpres2).
  rewrite Hupdate. cbn [mbind result_bind].
  apply setPropertyValue_registry in Hupdate.
  pose proof (same_registry_running_count _ _ Hupdate) as Hcount2.
  pose proof Hupdate as (_ & _ & _ & Halloc2).
  assert (Hit2 : allocated store2 !! id = Some
            {| object := object it; propertyName := propertyName it;
               propertyValue := propertyValue it; tween := tween' |})
    by (by rewrite Halloc2).
  rewrite (onEnd_unfold _ _ _ _ Hit2).
  set (it2 := {| object := object it; propertyName := propertyName it;
                 propertyValue := propertyValue it; tween := tween' |}) in *.
  pose proof (unregister_preserved id it2 store2) as Hpres3.
  set (store3 := unregister id it2 store2) in *.
  assert (Hcount3 : running_count store3 = running_count store2) by done.
  assert (H03 : preserved store store3)
    by (eapply preserved_trans; [|exact Hpres3];
        eapply preserved_trans; [exact Hpres1|exact Hpres2]).
  destruct (tears_down it2); cycle 1.
  { cbn [forEach]. by exists store3. }
  assert (Hcascade : ∀ ids state,
    well_formed state → (running_count state < fuel)%nat →
    (∀ id', id' ∈ ids → is_Some (allocated state !! id')) →
    ∃ state', forEach (cancel fuel) ids state = Ok state'
              ∧ preserved state state').
  { induction ids as [|id' ids IHids]; intros state Hstate Hcount Hids;
      cbn [forEach].
    - by exists state.
    - destruct (IH id' state Hstate (Hids id' ltac:(by left)) Hcount)
        as (state1 & Hfirst & Hpres).
      rewrite Hfirst. cbn [mbind result_bind].
      destruct (cancel_fuel fuel id' state Hcount) as [_ Hle].
      specialize (Hle state1 Hfirst).
      destruct (IHids state1) as (state' & Hrest & Hpres').
      + by apply (preserved_well_formed state).
      + lia.
      + intros id'' Hin. apply (preserved_allocated state); [done|].
        apply Hids. by right.
      + exists state'. split; [done|]. by apply (preserved_trans _ state1). }
  assert (Hwf3 : well_formed store3) by (by apply (preserved_well_formed store)).
  destruct (Hcascade (multimap_get (object it2) (objectTransitions store3))
              store3 Hwf3 ltac:(lia)) as (store4 & Hloop & Hpres4).
  { intros id' Hin. apply multimap_get_elem_of in Hin.
    by apply (proj2 Hwf3 (object it2)). }
  rewrite Hloop. cbn [mbind result_bind].
  assert (H04 : preserved store store4) by (by apply (preserved_trans _ store3)).
  destruct (detachObject_total (object it2) (propertyName it) store4
              (proj1 H04 _ _ Hhas)) as (store5 & -> & Hpres5).
  cbn [mbind result_bind].
  assert (H05 : preserved store store5) by (by apply (preserved_trans _ store4)).
  destruct (destroyObject_total (object it2) (propertyName it) store5
              (proj1 H05 _ _ Hhas)) as (store6 & -> & Hpres6).
  cbn [forEach]. exists store6. split; [done|].
  by apply (preserved_trans _ store5).
Qed.

(** [cancelTransition] returns on every transition of a well-formed
    store. *)
Lemma cancelTransition_total id store :
  well_formed store → is_Some (allocated store !! id) →
  ∃ store', cancelTransition id store = Ok store' ∧ preserved store store'.
Proof.
  intros Hwf Hid. apply cancel_total; [done|done|].
  pose proof (running_count_le store). lia.
Qed.

(** The end callback returns in a well-formed store. *)
Lemma onEnd_total id store :
  well_formed store → is_Some (allocated store !! id) →
  ∃ store', onEnd cancelTransition id store = Ok store'.
Proof.
  intros Hwf [it Hit]. rewrite (onEnd_unfold _ _ _ _ Hit).
  pose proof (unregister_preserved id it store) as Hpres.
  set (store3 := unregister id it store) in *.
  destruct (tears_down it); [|by eexists].
  assert (Hhas : has_property store (object it) (propertyName it))
    by (by apply (proj1 Hwf id)).
  assert (Hcascade : ∀ ids state,
    well_formed state →
    (∀ id', id' ∈ ids → is_Some (allocated state !! id')) →
    ∃ state', forEach cancelTransition ids state = Ok state'
              ∧ preserved state state').
  { induction ids as [|id' ids IHids]; intros state Hstate Hids;
      cbn [forEach].
    - by exists state.
    - destruct (cancelTransition_total id' state Hstate
                  (Hids id' ltac:(by left))) as (state1 & -> & Hpres1).
      cbn [mbind result_bind].
      destruct (IHids state1) as (state' & Hrest & Hpres').
      + by apply (preserved_well_formed state).
      + intros id'' Hin. apply (preserved_allocated state); [done|].
        apply Hids. by right.
      + exists state'. split; [done|]. by apply (preserved_trans _ state1). }
  assert (Hwf3 : well_formed store3) by (by apply (preserved_well_formed store)).
  destruct (Hcascade (multimap_get (object it) (objectTransitions store3))
              store3 Hwf3) as (store4 & -> & Hpres4).
  { intros id' Hin. apply multimap_get_elem_of in Hin.
    by apply (proj2 Hwf3 (object it)). }
  cbn [mbind result_bind].
  assert (H04 : preserved store store4) by (by apply (preserved_trans _ store3)).
  destruct (detachObject_total (object it) (propertyName it) store4
              (proj1 H04 _ _ Hhas)) as (store5 & -> & Hpres5).
  cbn [mbind result_bind].
  assert (H05 : preserved store store5) by (by apply (preserved_trans _ store4)).
  destruct (destroyObject_total (object it) (propertyName it) store5
              (proj1 H05 _ _ Hhas)) as (store6 & -> & Hpres6).
  by eexists.
Qed.

Lemma well_formedb_spec store :
  well_formedb store = true → well_formed store.
Proof.
  unfold well_formedb. rewrite andb_true_iff, !forallb_forall.
  intros [Hprop Hlisted]. split.
  - intros id it Hit.
    assert (Hin : In it (allocated store))
      by (apply list_elem_of_In, list_elem_of_lookup; eauto).
    specialize (Hprop it Hin). unfold has_propertyb in Hprop.
    destruct (objects store !! object it) as [rendered|] eqn:Hobject;
      [|discriminate].
    exists rendered. split; [done|]. by apply bool_decide_eq_true in Hprop.
  - intros object id Hin. apply list_elem_of_In in Hin.
    specialize (Hlisted _ Hin). apply bool_decide_eq_true in Hlisted.
    by apply lookup_lt_is_Some.
Qed.

(** *** Tearing down *)

Lemma forEach_preserves_in {A S : Type} (P : S → Prop)
    (f : A → S → result S) (array : list A) :
  (∀ it state state',
     it ∈ array → P state → f it state = Ok state' → P state') →
  ∀ state state', P state → forEach f array state = Ok state' → P state'.
Proof.
  induction array as [|it array IH]; intros Hf state state' HP;
    cbn [forEach].
  - by intros [= <-].
  - destruct (f it state) as [state1|e] eqn:Hfirst; [|discriminate].
    cbn [mbind result_bind]. apply IH.
    + intros it' s s' Hin. apply Hf. by right.
    + eapply Hf; [by left|done|done].
Qed.

Lemma same_lifecycle_refl store : same_lifecycle store store.
Proof. done. Qed.

Lemma same_lifecycle_trans s1 s2 s3 :
  same_lifecycle s1 s2 → same_lifecycle s2 s3 → same_lifecycle s1 s3.
Proof. intros H1 H2 object. by rewrite H2, H1. Qed.

Lemma setPropertyValue_lifecycle object name value store store' :
  setPropertyValue object name value store = Ok store' →
  same_lifecycle store store'.
Proof.
  unfold setPropertyValue.
  destruct (objects store !! object) as [rendered|] eqn:Hobject;
    [|discriminate].
  destruct (values rendered !! name); [|discriminate].
  intros [= <-] object'. unfold lifecycle. cbn.
  destruct (decide (object' = object)) as [->|Hne].
  - rewrite list_lookup_insert_eq by (by eapply lookup_lt_Some).
    by rewrite Hobject.
  - by rewrite list_lookup_insert_ne.
Qed.

Lemma detachObject_lifecycle object store store' :
  detachObject object store = Ok store' →
  (∃ attached detachCount destroyCount,
     lifecycle store object = Some (attached, detachCount, destroyCount)
     ∧ lifecycle store' object = Some (false, S detachCount, destroyCount))
  ∧ ∀ object', object' ≠ object →
      lifecycle store' object' = lifecycle store object'.
Proof.
  unfold detachObject.
  destruct (objects store !! object) as [rendered|] eqn:Hobject;
    [|discriminate].
  intros [= <-]. unfold lifecycle. cbn. split.
  - rewrite list_lookup_insert_eq by (by eapply lookup_lt_Some).
    rewrite Hobject. cbn. eauto.
  - intros object' Hne. by rewrite list_lookup_insert_ne.
Qed.

Lemma destroyObject_lifecycle object store store' :
  destroyObject object store = Ok store' →
  (∃ attached detachCount destroyCount,
     lifecycle store object = Some (attached, detachCount, destroyCount)
     ∧ lifecycle store' object = Some (attached, detachCount, S destroyCount))
  ∧ ∀ object', object' ≠ object →
      lifecycle store' object' = lifecycle store object'.
Proof.
  unfold destroyObject.
  destruct (objects store !! object) as [rendered|] eqn:Hobject;
    [|discriminate].
  intros [= <-]. unfold lifecycle. cbn. split.
  - rewrite list_lookup_insert_eq by (by eapply lookup_lt_Some).
    rewrite Hobject. cbn. eauto.
  - intros object' Hne. by rewrite list_lookup_insert_ne.
Qed.

Lemma tears_down_iff it :
  tears_down it = true ↔ propertyName it = "value"%string ∧ propertyValue it == 0.
Proof.
  unfold tears_down. rewrite andb_true_iff, String.eqb_eq, Qeq_bool_iff. done.
Qed.

(** The end callback of a transition that does not tear down only
    touches the registry. *)
Lemma onEnd_plain cancel id it store store' :
  allocated store !! id = Some it →
  tears_down it = false →
  onEnd cancel id store = Ok store' →
  store' = unregister id it store.
Proof.
  intros Hit Hplain. rewrite (onEnd_unfold _ _ _ _ Hit), Hplain.
  by intros [= <-].
Qed.

(** Canceling a transition on another property than [value] detaches
    and destroys nothing. *)
Lemma cancel_other_property_lifecycle fuel id store store' :
  named store id ≠ Some "value"%string →
  cancel fuel id store = Ok store' →
  same_lifecycle store store'.
Proof.
  intros Hnamed. destruct fuel as [|fuel]; [discriminate|]. cbn [cancel].
  destruct (allocated store !! id) as [it|] eqn:Hit; [|discriminate].
  assert (Hname : propertyName it ≠ "value"%string).
  { intros Hname. apply Hnamed. unfold named. by rewrite Hit, <- Hname. }
  destruct (Transition.isRunning (tween it)) eqn:Hrun; cycle 1.
  { rewrite (cancel_not_running _ Hrun). cbn [forEach].
    rewrite (set_tween_same _ _ _ Hit). by intros [= <-]. }
  destruct (cancel_running _ Hrun) as (tween' & -> & _ & _).
  cbn [forEach notified].
  destruct (onUpdate id _ _) as [store2|e] eqn:Hupdate; [|discriminate].
  cbn [mbind result_bind].
  destruct (onEnd (cancel fuel) id store2) as [store3|e] eqn:Hend;
    [|discriminate].
  cbn [mbind result_bind forEach]. intros [= <-].
  assert (Hlife2 : same_lifecycle store store2).
  { unfold onUpdate in Hupdate.
    destruct (allocated (set_tween id tween' store) !! id); [|discriminate].
    apply setPropertyValue_lifecycle in Hupdate.
    intros object. rewrite Hupdate. unfold lifecycle.
    by destruct (set_tween_fields id tween' store) as (_&_&_& -> &_). }
  pose proof (onUpdate_registry _ _ _ _ Hupdate) as (_ & _ & _ & Halloc2).
  assert (Hit2 : allocated store2 !! id
                 = Some {| object := object it; propertyName := propertyName it;
                           propertyValue := propertyValue it;
                           tween := tween' |}).
  { rewrite Halloc2. by apply set_tween_lookup. }
  apply (onEnd_plain _ _ _ _ _ Hit2) in Hend.
  - by subst store3.
  - unfold tears_down. cbn.
    by rewrite (proj2 (String.eqb_neq _ _) Hname).
Qed.

Lemma unregister_meta id it store id' :
  owner (unregister id it store) id' = owner store id'
  ∧ named (unregister id it store) id' = named store id'
  ∧ running (unregister id it store) id' = running store id'
  ∧ lifecycle (unregister id it store) id' = lifecycle store id'.
Proof. done. Qed.

(** A transition that has ended notifies nobody any more. *)
Lemma ended_is_silent {V : Type} (tween : Transition.t V) (time fraction : Q) :
  Transition.isEnded tween = true →
  Transition.cancel true tween = (tween, [])
  ∧ snd (Transition.update time tween) = []
  ∧ (∃ e, Transition.start tween = Err e)
  ∧ (∃ e, Transition.set_fraction fraction tween = Err e).
Proof.
  intros Hended.
  pose proof (TransitionFacts.isRunning_ended _ Hended) as Hrun.
  split; [by apply cancel_not_running|].
  unfold Transition.update, Transition.start, Transition.set_fraction.
  rewrite Hrun, Hended. eauto.
Qed.

(** The store in which the end callback of a registered transition
    runs: the transition has been given its final state and its update
    callback has run. *)
Lemma ending_context store id it tween' value store2 :
  Inv store →
  registered store id →
  allocated store !! id = Some it →
  onUpdate id value (set_tween id tween' store) = Ok store2 →
  let it2 := {| object := object it; propertyName := propertyName it;
                propertyValue := propertyValue it; tween := tween' |} in
  allocated store2 !! id = Some it2
  ∧ Inv (unregister id it2 store2)
  ∧ (∀ id', registered (unregister id it2 store2) id' →
       owner store2 id' = Some (object it2) →
       named store2 id' ≠ Some (propertyName it2))
  ∧ lifecycle store2 (object it) = lifecycle store (object it).
Proof.
  intros Hinv Hreg Hit Hupdate it2.
  assert (Hlife : same_lifecycle store store2).
  { unfold onUpdate in Hupdate.
    destruct (allocated (set_tween id tween' store) !! id); [|discriminate].
    apply setPropertyValue_lifecycle in Hupdate.
    intros object. rewrite Hupdate. unfold lifecycle.
    by destruct (set_tween_fields id tween' store) as (_&_&_& -> &_). }
  apply onUpdate_registry in Hupdate.
  pose proof Hupdate as (Hobj2 & Hprop2 & Hframe2 & Halloc2).
  destruct (set_tween_fields id tween' store)
    as (Hobj1 & Hprop1 & Hframe1 & _ & _).
  assert (Hit2 : allocated store2 !! id = Some it2).
  { rewrite Halloc2. by apply set_tween_lookup. }
  assert (Howner : ∀ id', owner store2 id' = owner store id').
  { intros id'. by rewrite (same_registry_owner _ _ _ Hupdate),
      set_tween_owner. }
  assert (Hnamed : ∀ id', named store2 id' = named store id').
  { intros id'. by rewrite (same_registry_named _ _ _ Hupdate),
      set_tween_named. }
  split; [done|]. split; [|split; [|done]].
  - apply (Inv_unregister_ended store); try done; try congruence.
    intros id' Hne. by rewrite (same_registry_running _ _ _ Hupdate),
      set_tween_running_ne.
  - intros id' Hreg' Hown Hnam. unfold registered in Hreg'. cbn in Hreg'.
    rewrite Hframe2, Hframe1 in Hreg'.
    apply removeFrameCallback_elem_of in Hreg' as [Hreg' Hne].
    apply Hne. apply (inv_unique _ Hinv); try done.
    + rewrite <- Howner, Hown. unfold owner. by rewrite Hit.
    + rewrite <- Hnamed, Hnam. unfold named. by rewrite Hit.
Qed.

(** C3: the end callback of a transition on [value] with end value [0]
    leaves no transition of its Object registered, stops the Object's
    other registered transitions, and detaches and destroys the Object
    once, touching no other Object; the end callback of any other
    transition leaves every Object as it is; and a transition that has
    ended never notifies its end callbacks again; and in a well-formed
    store the end callback returns.  The callback runs in a store whose
    registry, once the ending transition is dropped from it, satisfies
    the invariant, and in which the ending transition was the only one
    registered for its Object and property. *)
Theorem end_callback_tears_down_once (store : Store) (id : TransitionId)
    (it : PropertyTransition) :
  allocated store !! id = Some it →
  Inv (unregister id it store) →
  (∀ id', registered (unregister id it store) id' →
     owner store id' = Some (object it) →
     named store id' ≠ Some (propertyName it)) →
  (propertyName it = "value"%string → propertyValue it == 0 →
   ∀ store', onEnd cancelTransition id store = Ok store' →
     (∀ id', owner store id' = Some (object it) → ¬ registered store' id')
     ∧ (∀ id', registered (unregister id it store) id' →
          owner store id' = Some (object it) → running store' id' = false)
     ∧ lifecycle store' (object it)
       = torn_down <$> lifecycle store (object it)
     ∧ (∀ object', object' ≠ object it →
          lifecycle store' object' = lifecycle store object'))
  ∧ (¬ (propertyName it = "value"%string ∧ propertyValue it == 0) →
     ∀ cancel store', onEnd cancel id store = Ok store' →
       objects store' = objects store)
  ∧ (∀ (tween : Transition.t Q) time,
       Transition.isEnded tween = true →
       Transition.cancel true tween = (tween, [])
       ∧ snd (Transition.update time tween) = [])
  ∧ (well_formed store →
     ∃ store', onEnd cancelTransition id store = Ok store').
Proof.
  intros Hit Hinv Hunique. split; [|split; [|split]].
  - intros Hname Hzero store'. rewrite Hname in Hunique.
    rewrite (onEnd_unfold _ _ _ _ Hit),
            (proj2 (tears_down_iff it) (conj Hname Hzero)).
    set (store3 := unregister id it store) in *.
    set (ids := multimap_get (object it) (objectTransitions store3)).
    destruct (forEach cancelTransition ids store3) as [store4|e] eqn:Hcascade;
      [|discriminate].
    cbn [mbind result_bind].
    destruct (detachObject (object it) store4) as [store5|e] eqn:Hdetach;
      [|discriminate].
    cbn [mbind result_bind]. intros Hdestroy.
    destruct (forEach_cancels _ _ _ _ cancelTransition_cancels Hinv Hcascade)
      as (Hinv4 & Hshrinks4 & Hall).
    assert (Hids : ∀ id', id' ∈ ids ↔
              registered store3 id' ∧ owner store id' = Some (object it)).
    { intros id'. subst ids. rewrite multimap_get_elem_of.
      by rewrite (inv_object _ Hinv). }
    assert (Hlife4 : same_lifecycle store3 store4).
    { refine (proj2 (proj2 (forEach_preserves_in
        (λ state, Inv state ∧ shrinks store3 state
                  ∧ same_lifecycle store3 state)
        cancelTransition ids _ store3 store4 _ Hcascade))).
      - intros id' state state' Hin (Hstate & Hshrinks & Hlife) Hcancel.
        apply Hids in Hin as [Hreg Hown].
        assert (Hnamed : named state id' ≠ Some "value"%string).
        { destruct Hshrinks as (_ & _ & Hmeta & _).
          destruct (Hmeta id') as (_ & -> & _). by apply Hunique. }
        destruct (cancelTransition_cancels _ _ _ Hstate Hcancel)
          as (Hstate' & Hshrinks' & _).
        split; [done|]. split; [by eapply shrinks_trans|].
        eapply same_lifecycle_trans; [exact Hlife|].
        by eapply cancel_other_property_lifecycle.
      - split; [done|]. split; [apply shrinks_refl|done]. }
    pose proof (detachObject_registry _ _ _ Hdetach) as Hsame5.
    pose proof (destroyObject_registry _ _ _ Hdestroy) as Hsame6.
    pose proof (same_registry_trans _ _ _ Hsame5 Hsame6) as Hsame.
    pose proof Hsame as (_ & _ & Hframe & _).
    destruct (detachObject_lifecycle _ _ _ Hdetach)
      as [(a & d & k & Hbefore5 & Hafter5) Hother5].
    destruct (destroyObject_lifecycle _ _ _ Hdestroy)
      as [(a' & d' & k' & Hbefore6 & Hafter6) Hother6].
    split; [|split; [|split]].
    + intros id' Hown Hreg. unfold registered in Hreg.
      rewrite Hframe in Hreg.
      assert (Hreg3 : registered store3 id').
      { destruct Hshrinks4 as (Hsub & _). by apply Hsub. }
      by destruct (Hall id' (proj2 (Hids id') (conj Hreg3 Hown))).
    + intros id' Hreg3 Hown.
      rewrite (same_registry_running _ _ _ Hsame).
      by destruct (Hall id' (proj2 (Hids id') (conj Hreg3 Hown))).
    + rewrite Hafter6. rewrite Hafter5 in Hbefore6. injection Hbefore6 as <- <- <-.
      rewrite Hlife4 in Hbefore5.
      change (lifecycle store3 (object it)) with (lifecycle store (object it))
        in Hbefore5.
      by rewrite Hbefore5.
    + intros object' Hne.
      by rewrite (Hother6 _ Hne), (Hother5 _ Hne), Hlife4.
  - intros Hplain cancel store' Hend.
    apply (onEnd_plain _ _ _ _ _ Hit) in Hend; [by subst store'|].
    destruct (tears_down it) eqn:Htears; [|done].
    by apply tears_down_iff in Htears.
  - intros tween time Hended.
    by destruct (ended_is_silent tween time 0 Hended) as (? & ? & _).
  - intros Hwf. apply onEnd_total; [done|]. by exists it.
Qed.

(** *** The reconciler's use of an element *)

Lemma createObject_registry initialValues store :
  same_registry store (fst (createObject initialValues store)).
Proof. done. Qed.

Lemma update_Inv {Options : Type} crossFade resolveProperties
    getTransitionElementCount Ease initialValues properties
    (options : option Options) (this this' : t Options) :
  Inv (store this) →
  (∀ object, current this = Some object →
             (object < length (objects (store this)))%nat) →
  update crossFade resolveProperties getTransitionElementCount Ease
         initialValues properties options this = Ok this' →
  Inv (store this').
Proof.
  intros Hinv Hcurrent. unfold update.
  bind_case as [yielded suspended] eqn:Hbegin.
  destruct suspended as [suspended|]; [|by intros [= <-]].
  assert (Hold : oldObject suspended = current this).
  { unfold transition_begin in Hbegin.
    destruct (match Element.properties this with
              | Some _ => _ | None => _ end); [|discriminate].
    cbn [mbind result_bind] in Hbegin.
    destruct (resolveElementValue properties); [|discriminate].
    cbn [mbind result_bind] in Hbegin.
    repeat (destruct (_ && _) in Hbegin); by simplify_eq. }
  destruct yielded.
  - intros Hcommit.
    eapply (transition_commit_Inv _ _ _ _ _ _ _ _) in Hcommit as [Hinv' _];
      done.
  - cbn. intros Hcommit.
    eapply (transition_commit_Inv _ _ _ _ _ _ _ _) in Hcommit as [Hinv' _];
      [done| |].
    + by apply (Inv_same_registry (store this)).
    + intros object Hobject [= Heq]. rewrite Hold in Hobject.
      apply Hcurrent in Hobject. lia.
Qed.

(** C2: the registry invariant, part of which is that no two registered
    transitions share an Object and a property, holds of the empty
    store and is kept by the commit phase of [transition], by a frame
    of the clock and by any sequence of cancellations; a cancellation
    removes the frame callback of the transition it is called on; and
    when the commit phase finds a property changed on either Object,
    every transition registered for that property afterwards was
    allocated by that very step: those that existed have been canceled
    and are no longer registered.  Canceling never exhausts the bound
    on its nested end callbacks, and returns on every transition of a
    well-formed store. *)
Theorem one_transition_per_object_property :
  Inv empty
  ∧ (∀ store id1 id2,
       Inv store → registered store id1 → registered store id2 →
       owner store id1 = owner store id2 →
       named store id1 = named store id2 → id1 = id2)
  ∧ (∀ (Options : Type) crossFade resolveProperties
       getTransitionElementCount Ease (suspended : Suspended Options)
       newObject this this',
       Inv (store this) →
       (∀ object, oldObject suspended = Some object →
                  newObject ≠ Some object) →
       transition_commit crossFade resolveProperties
                         getTransitionElementCount Ease suspended newObject
                         this = Ok this' →
       Inv (store this'))
  ∧ (∀ (Options : Type) crossFade resolveProperties
       getTransitionElementCount Ease initialValues properties
       (options : option Options) this this',
       Inv (store this) →
       (∀ object, current this = Some object →
                  (object < length (objects (store this)))%nat) →
       update crossFade resolveProperties getTransitionElementCount Ease
              initialValues properties options this = Ok this' →
       Inv (store this'))
  ∧ (∀ (Options : Type) Ease (suspended : Suspended Options) newObject
       oldOld oldNew newOld newNew oldDuration newDelay newDuration
       name store store',
       Inv store →
       (∀ object, oldObject suspended = Some object →
                  newObject ≠ Some object) →
       transitionProperty Ease suspended newObject oldOld oldNew newOld
                          newNew oldDuration newDelay newDuration name store
       = Ok store' →
       differs (property oldOld name) (property oldNew name)
       || differs (property newOld name) (property newNew name) = true →
       renewed store store' name)
  ∧ (∀ id store store',
       Inv store → cancelTransition id store = Ok store' →
       Inv store' ∧ ¬ registered store' id
       ∧ frameCallbacks store' ⊆ frameCallbacks store)
  ∧ (∀ ids store store',
       Inv store → forEach cancelTransition ids store = Ok store' →
       Inv store')
  ∧ (∀ time store store',
       Inv store → nextFrame time store = Ok store' → Inv store')
  ∧ (∀ id store, cancelTransition id store ≠ Err OutOfFuel)
  ∧ (∀ id store,
       well_formed store → is_Some (allocated store !! id) →
       ∃ store', cancelTransition id store = Ok store').
Proof.
  split; [apply Inv_empty|].
  split; [intros store id1 id2 Hinv; apply Hinv|].
  split.
  { intros Options crossFade resolveProperties count Ease suspended newObject
           this this' Hinv Hdistinct Hcommit.
    by destruct (transition_commit_Inv _ _ _ _ _ _ _ _ Hinv Hdistinct
                   Hcommit). }
  split; [intros Options; apply update_Inv|].
  split.
  { intros Options Ease suspended newObject oldOld oldNew newOld newNew
           oldDuration newDelay newDuration name store store'
           Hinv Hdistinct Hstep.
    by destruct (transitionProperty_Inv _ _ _ _ _ _ _ _ _ _ _ _ _
                   Hinv Hdistinct Hstep) as (_ & _ & ?). }
  split.
  { intros id store store' Hinv Hcancel.
    destruct (cancelTransition_cancels _ _ _ Hinv Hcancel)
      as (Hinv' & (Hsub & _) & Hunreg & _).
    done. }
  split; [apply forEach_cancelTransition_Inv|].
  split; [apply nextFrame_Inv|]. split; [apply cancelTransition_fuel|].
  intros id store Hwf Hid.
  destruct (cancelTransition_total id store Hwf Hid) as (store' & ? & _).
  by exists store'.
Qed.

(** *** The transitions a commit starts *)

Lemma same_transitions_refl store : same_transitions store store.
Proof. by split. Qed.

Lemma same_transitions_trans s1 s2 s3 :
  same_transitions s1 s2 → same_transitions s2 s3 → same_transitions s1 s3.
Proof.
  intros [Hl1 Hm1] [Hl2 Hm2]. split; [congruence|].
  intros id. destruct (Hm1 id) as (<- & <- & <- & <-). apply Hm2.
Qed.

Lemma same_registry_transitions before after :
  same_registry before after → same_transitions before after.
Proof.
  intros (_ & _ & _ & Halloc). unfold same_transitions.
  unfold owner, named, delay_of, started. by rewrite Halloc.
Qed.

Lemma unregister_transitions id it store :
  same_transitions store (unregister id it store).
Proof. by split. Qed.

Lemma set_tween_transitions id tween store it :
  allocated store !! id = Some it →
  Transition.delay tween = Transition.delay (Element.tween it) →
  Transition.isStarted tween = Transition.isStarted (Element.tween it) →
  same_transitions store (set_tween id tween store).
Proof.
  intros Hit Hdelay Hstarted. split.
  - by destruct (set_tween_fields id tween store) as (_ & _ & _ & _ & ->).
  - intros id'. rewrite set_tween_owner, set_tween_named.
    split; [done|]. split; [done|].
    unfold delay_of, started.
    destruct (decide (id' = id)) as [->|Hne].
    + rewrite (set_tween_lookup _ _ _ _ Hit), Hit. cbn.
      by rewrite Hdelay, Hstarted.
    + by rewrite set_tween_lookup_ne.
Qed.

Lemma forEach_transitions {A : Type} (f : A → Store → result Store)
    (array : list A) :
  (∀ it state state', f it state = Ok state' → same_transitions state state') →
  ∀ state state',
    forEach f array state = Ok state' → same_transitions state state'.
Proof.
  intros Hf. induction array as [|it array IH]; intros state state';
    cbn [forEach].
  - intros [= <-]. apply same_transitions_refl.
  - destruct (f it state) as [state1|e] eqn:Hfirst; [|discriminate].
    cbn [mbind result_bind]. intros Hrest.
    eapply same_transitions_trans; [by eapply Hf|by apply IH].
Qed.

Lemma onEnd_transitions cancel id store store' :
  (∀ id state state',
     cancel id state = Ok state' → same_transitions state state') →
  onEnd cancel id store = Ok store' →
  same_transitions store store'.
Proof.
  intros Hcancel. unfold onEnd.
  destruct (allocated store !! id) as [it|] eqn:Hit; [|discriminate].
  change (set_frameCallbacks _ _) with (unregister id it store).
  destruct (_ && _); [|by intros [= <-]].
  destruct (forEach cancel _ _) as [store1|e] eqn:Hcascade; [|discriminate].
  cbn [mbind result_bind].
  destruct (detachObject _ store1) as [store2|e] eqn:Hdetach;
    [|discriminate].
  cbn [mbind result_bind]. intros Hdestroy.
  eapply same_transitions_trans; [apply (unregister_transitions id it)|].
  eapply same_transitions_trans;
    [eapply (forEach_transitions cancel); [exact Hcancel|exact Hcascade]|].
  eapply same_transitions_trans.
  - apply same_registry_transitions. by eapply detachObject_registry.
  - apply same_registry_transitions. by eapply destroyObject_registry.
Qed.

Lemma notified_transitions cancel id notification store store' :
  (∀ id state state',
     cancel id state = Ok state' → same_transitions state state') →
  notified cancel id notification store = Ok store' →
  same_transitions store store'.
Proof.
  intros Hcancel. destruct notification as [[] value]; cbn [notified];
    try (intros [= <-]; apply same_transitions_refl).
  - by apply onEnd_transitions.
  - intros Hupdate.
    apply same_registry_transitions. by eapply onUpdate_registry.
Qed.

Lemma cancel_isStarted {V : Type} (tween : Transition.t V) :
  Transition.isStarted (fst (Transition.cancel true tween))
  = Transition.isStarted tween
  ∧ Transition.delay (fst (Transition.cancel true tween))
    = Transition.delay tween.
Proof.
  unfold Transition.cancel. by destruct (Transition.isRunning tween).
Qed.

Lemma cancel_transitions fuel id store store' :
  cancel fuel id store = Ok store' → same_transitions store store'.
Proof.
  revert id store store'.
  induction fuel as [|fuel IH]; intros id store store'; [discriminate|].
  cbn [cancel].
  destruct (allocated store !! id) as [it|] eqn:Hit; [|discriminate].
  destruct (cancel_isStarted (tween it)) as [Hstarted Hdelay].
  destruct (Transition.cancel true (tween it)) as [tween' notifications].
  cbn [fst] in Hstarted, Hdelay. intros Hnotified.
  eapply same_transitions_trans;
    [exact (set_tween_transitions id tween' store it Hit Hdelay Hstarted)|].
  eapply (forEach_transitions (notified (cancel fuel) id)); [|done].
  intros notification state state'. by apply notified_transitions.
Qed.

Lemma cancelTransition_transitions id store store' :
  cancelTransition id store = Ok store' → same_transitions store store'.
Proof. apply cancel_transitions. Qed.

Lemma grows_refl store : grows store store.
Proof. by split. Qed.

Lemma grows_trans s1 s2 s3 : grows s1 s2 → grows s2 s3 → grows s1 s3.
Proof.
  intros [Hl1 Hm1] [Hl2 Hm2]. split; [lia|].
  intros id Hid. destruct (Hm1 id Hid) as (<- & <- & <- & <-).
  apply Hm2. lia.
Qed.

Lemma same_transitions_grows before after :
  same_transitions before after → grows before after.
Proof. intros [Hlen Hmeta]. split; [lia|]. intros id _. apply Hmeta. Qed.

Lemma starts_grows s1 s2 s3 s4 object name delay :
  grows s1 s2 → starts s2 s3 object name delay → grows s3 s4 →
  starts s1 s4 object name delay.
Proof.
  intros [Hl1 _] (id & [Hlo Hhi] & Howner & Hnamed & Hdelay & Hstarted)
         [Hl3 Hm3].
  exists id. destruct (Hm3 id Hhi) as (-> & -> & -> & ->).
  split; [split; lia|done].
Qed.

Lemma start_isStarted {V : Type} (tween tween' : Transition.t V)
    notifications :
  Transition.start tween = Ok (tween', notifications) →
  Transition.isStarted tween' = true.
Proof.
  unfold Transition.start. destruct (Transition.isEnded tween); [discriminate|].
  destruct (Transition.isStarted tween) eqn:Hstarted.
  - by intros [= <- _].
  - unfold Transition.updateCurrentValue. cbn.
    destruct (Qeq_bool _ 1); by intros [= <- _].
Qed.

(** [transitionPropertyValue] keeps the transitions there are, and for
    a number it allocates one, for the Object and the property and with
    the delay, and starts it. *)
Lemma transitionPropertyValue_starts object name value delay duration easing
    store store' :
  transitionPropertyValue object name value delay duration easing store
  = Ok store' →
  grows store store'
  ∧ (∀ id, allocated_between store store' id → started store' id = true)
  ∧ (∀ number, value = RNumber number → starts store store' object name delay).
Proof.
  unfold transitionPropertyValue.
  assert (Hset : ∀ other,
    setPropertyValue object name other store = Ok store' →
    grows store store'
    ∧ (∀ id, allocated_between store store' id → started store' id = true)).
  { intros other Hset%setPropertyValue_registry.
    split; [by apply same_transitions_grows, same_registry_transitions|].
    destruct Hset as (_ & _ & _ & Halloc).
    intros id. unfold allocated_between. rewrite Halloc. lia. }
  destruct value as [number| |]; cycle 1.
  { intros [Hgrows Hnew]%Hset. split; [done|]. split; [done|]. done. }
  { intros [Hgrows Hnew]%Hset. split; [done|]. split; [done|]. done. }
  clear Hset.
  destruct (getPropertyValue object name store) as [[current| |]|e];
    try discriminate.
  cbn [mbind result_bind].
  destruct (start_fresh current number duration delay easing)
    as (tween' & value & Hstart & Hdelay).
  pose proof (start_isStarted _ _ _ Hstart) as Hstarted.
  rewrite Hstart. clear Hstart.
  cbn [mbind result_bind].
  set (it := {| object := object; propertyName := name;
                propertyValue := number;
                tween := Transition.setEasing easing
                           (Transition.setDelay delay
                              (Transition.new current number duration
                                 Transition.IdentityConverter)) |}).
  change (set_frameCallbacks _ _) with (enroll it store).
  set (id := length (allocated store)).
  cbn [forEach notified mbind result_bind].
  destruct (onUpdate id value _) as [store2|e] eqn:Hupdate; [|discriminate].
  apply onUpdate_registry in Hupdate.
  cbn [mbind result_bind].
  pose proof (started_length it tween' store store2 Hupdate) as Hlen.
  pose proof (started_lookup it tween' store store2 Hupdate) as Hit2.
  pose proof (started_self it tween' store store2 Hdelay Hupdate)
    as (Hown & Hnam & _ & Hdel).
  fold id in Hit2, Hown, Hnam, Hdel.
  assert (Hstarted2 : started store2 id = true).
  { unfold started. by rewrite Hit2. }
  assert (Hgrows2 : grows store store2).
  { split; [lia|]. intros id' Hid'.
    assert (Hne : id' ≠ id) by (subst id; lia).
    unfold started.
    rewrite (started_lookup_ne it tween' store store2 Hupdate id' Hne).
    by destruct (started_other it tween' store store2 Hupdate id' Hne)
      as (-> & -> & _ & ->). }
  assert (Hlater : ∀ store3, same_transitions store2 store3 →
    grows store store3
    ∧ (∀ id', allocated_between store store3 id' → started store3 id' = true)
    ∧ (∀ number', RNumber number = RNumber number' →
                  starts store store3 object name delay)).
  { intros store3 Hsame.
    pose proof Hsame as [Hlen3 Hmeta3].
    destruct (Hmeta3 id) as (Hown3 & Hnam3 & Hdel3 & Hstarted3).
    split; [by eapply grows_trans; [|apply same_transitions_grows]|].
    assert (Honly : ∀ id', allocated_between store store3 id' → id' = id).
    { intros id'. unfold allocated_between. rewrite Hlen3, Hlen.
      subst id. lia. }
    split.
    - intros id' ->%Honly. congruence.
    - intros _ _. exists id. split.
      + unfold allocated_between. rewrite Hlen3, Hlen. subst id. lia.
      + rewrite Hown3, Hnam3, Hdel3, Hstarted3, Hown, Hnam, Hdel, Hstarted2.
        done. }
  destruct (Transition.isRunning tween'); cbn [forEach].
  - intros [= <-]. apply Hlater, same_transitions_refl.
  - cbn [notified].
    destruct (onEnd cancelTransition id store2) as [store3|e] eqn:Hend;
      [|discriminate].
    cbn [mbind result_bind forEach]. intros [= <-].
    apply Hlater. eapply onEnd_transitions; [|exact Hend].
    intros id' state state'. apply cancelTransition_transitions.
Qed.

Section Starts.
Context {Options : Type}.
Variable crossFade : bool.
Variable resolveProperties :
  ElementProperties → ObjectId → bool → option Options
  → result ResolvedProperties.
Variable getTransitionElementCount : ObjectId → bool → Q.
Variable Ease : Q → Q.

(** One turn of the loop: a transition is started for either Object
    whose value of the property has changed to a number. *)
Lemma transitionProperty_starts (suspended : Suspended Options) newObject
    oldOld oldNew newOld newNew oldDuration newDelay newDuration
    name store store' :
  transitionProperty Ease suspended newObject oldOld oldNew newOld newNew
                     oldDuration newDelay newDuration name store
  = Ok store' →
  grows store store'
  ∧ (∀ id, allocated_between store store' id → started store' id = true)
  ∧ (∀ object number,
       oldObject suspended = Some object →
       differs (property oldOld name) (property oldNew name) = true →
       property oldNew name = Some (RNumber number) →
       starts store store' object name 0)
  ∧ (∀ object number,
       newObject = Some object →
       differs (property newOld name) (property newNew name) = true →
       property newNew name = Some (RNumber number) →
       starts store store' object name newDelay).
Proof.
  unfold transitionProperty.
  set (oldChanged := differs (property oldOld name) (property oldNew name)).
  set (newChanged := differs (property newOld name) (property newNew name)).
  bind_case as store1 eqn:Hcancel.
  assert (Hsame1 : same_transitions store store1).
  { destruct (oldChanged || newChanged).
    - eapply (forEach_transitions cancelTransition); [|exact Hcancel].
      intros id state state'. apply cancelTransition_transitions.
    - injection Hcancel as <-. apply same_transitions_refl. }
  pose proof (same_transitions_grows _ _ Hsame1) as Hgrows1.
  destruct (resolveElementPropertyTransitionEasing _ _) as [easingName|e];
    [|discriminate].
  cbn [mbind result_bind].
  destruct (getElementTransitionEasing Ease easingName) as [easing|e];
    [|discriminate].
  cbn [mbind result_bind].
  bind_case as store2 eqn:Hold.
  assert (Hstep2 : grows store1 store2
    ∧ (∀ id, allocated_between store1 store2 id → started store2 id = true)
    ∧ (∀ object number,
         oldObject suspended = Some object → oldChanged = true →
         property oldNew name = Some (RNumber number) →
         starts store1 store2 object name 0)).
  { destruct oldChanged.
    - destruct (oldObject suspended) as [old|]; [|discriminate].
      cbn [defined mbind result_bind] in Hold.
      destruct (property oldNew name) as [value|]; [|discriminate].
      cbn [defined mbind result_bind] in Hold.
      apply transitionPropertyValue_starts in Hold
        as (Hgrows & Hnew & Hstarts).
      split; [done|]. split; [done|].
      intros object number [= <-] _ [= ->]. by eapply Hstarts.
    - injection Hold as <-. split; [apply grows_refl|].
      split; [|done]. unfold allocated_between. intros id. lia. }
  destruct Hstep2 as (Hgrows2 & Hnew2 & Hstarts2).
  intros Hnew.
  assert (Hstep3 : grows store2 store'
    ∧ (∀ id, allocated_between store2 store' id → started store' id = true)
    ∧ (∀ object number,
         newObject = Some object → newChanged = true →
         property newNew name = Some (RNumber number) →
         starts store2 store' object name newDelay)).
  { destruct newChanged.
    - destruct newObject as [new|]; [|discriminate].
      cbn [defined mbind result_bind] in Hnew.
      destruct (property newNew name) as [value|]; [|discriminate].
      cbn [defined mbind result_bind] in Hnew.
      apply transitionPropertyValue_starts in Hnew
        as (Hgrows & Hnew3 & Hstarts).
      split; [done|]. split; [done|].
      intros object number [= <-] _ [= ->]. by eapply Hstarts.
    - injection Hnew as <-. split; [apply grows_refl|].
      split; [|done]. unfold allocated_between. intros id. lia. }
  destruct Hstep3 as (Hgrows3 & Hnew3 & Hstarts3).
  split; [eapply grows_trans; [exact Hgrows1|by eapply grows_trans]|].
  split.
  { intros id [Hlo Hhi].
    destruct Hsame1 as [Hlen1 _].
    destruct (decide (id < length (allocated store2))%nat) as [Hlt|Hge].
    - destruct Hgrows3 as [_ Hmeta3].
      destruct (Hmeta3 id Hlt) as (_ & _ & _ & ->).
      apply Hnew2. split; lia.
    - apply Hnew3. split; lia. }
  split.
  - intros object number Hobject Hchanged Hvalue.
    eapply starts_grows; [exact Hgrows1| |exact Hgrows3].
    by eapply Hstarts2.
  - intros object number Hobject Hchanged Hvalue.
    eapply starts_grows; [by eapply grows_trans| |apply grows_refl].
    by eapply Hstarts3.
Qed.

Lemma forEach_transitionProperty_starts (suspended : Suspended Options)
    newObject oldOld oldNew newOld newNew oldDuration newDelay newDuration
    names store store' :
  forEach
    (transitionProperty Ease suspended newObject oldOld oldNew newOld newNew
                        oldDuration newDelay newDuration)
    names store = Ok store' →
  grows store store'
  ∧ (∀ id, allocated_between store store' id → started store' id = true)
  ∧ (∀ name object number,
       name ∈ names →
       oldObject suspended = Some object →
       differs (property oldOld name) (property oldNew name) = true →
       property oldNew name = Some (RNumber number) →
       starts store store' object name 0)
  ∧ (∀ name object number,
       name ∈ names →
       newObject = Some object →
       differs (property newOld name) (property newNew name) = true →
       property newNew name = Some (RNumber number) →
       starts store store' object name newDelay).
Proof.
  revert store.
  induction names as [|name names IH]; intros store; cbn [forEach].
  - intros [= <-]. split; [apply grows_refl|]. split.
    + unfold allocated_between. intros id. lia.
    + split; intros name object number Hin; by apply elem_of_nil in Hin.
  - destruct (transitionProperty _ _ _ _ _ _ _ _ _ _ name store)
      as [store1|e] eqn:Hfirst; [|discriminate].
    cbn [mbind result_bind]. intros Hrest.
    apply transitionProperty_starts in Hfirst
      as (Hgrows1 & Hnew1 & Hold1 & Hinc1).
    apply IH in Hrest as (Hgrows & Hnew & Hold & Hinc).
    split; [by eapply grows_trans|]. split.
    { intros id [Hlo Hhi].
      destruct (decide (id < length (allocated store1))%nat) as [Hlt|Hge].
      - destruct Hgrows as [_ Hmeta].
        destruct (Hmeta id Hlt) as (_ & _ & _ & ->).
        apply Hnew1. split; lia.
      - apply Hnew. split; lia. }
    split.
    + intros name' object number [->|Hin]%elem_of_cons Hobject Hchanged
             Hvalue.
      * eapply starts_grows; [apply grows_refl| |exact Hgrows].
        by eapply Hold1.
      * eapply starts_grows; [exact Hgrows1| |apply grows_refl].
        by eapply Hold.
    + intros name' object number [->|Hin]%elem_of_cons Hobject Hchanged
             Hvalue.
      * eapply starts_grows; [apply grows_refl| |exact Hgrows].
        by eapply Hinc1.
      * eapply starts_grows; [exact Hgrows1| |apply grows_refl].
        by eapply Hinc.
Qed.

(** The commit phase with an outgoing and an incoming Object: what it
    resolves, and the transitions it starts. *)
Lemma transition_commit_starts (suspended : Suspended Options)
    (outgoing incoming : ObjectId) (this this' : t Options) :
  oldObject suspended = Some outgoing →
  transition_commit crossFade resolveProperties getTransitionElementCount
                    Ease suspended (Some incoming) this = Ok this' →
  ∃ oldProperties oldOld oldNew newOld newNew oldDuration,
    Element.oldProperties suspended = Some oldProperties
    ∧ resolveProperties oldProperties outgoing false (oldOptions suspended)
      = Ok oldOld
    ∧ (if crossFade && truthy (newValue suspended)
       then resolveProperties (newProperties suspended) outgoing
              (negb (bool_decide (oldValue suspended = newValue suspended)))
              (newOptions suspended)
       else resolveProperties oldProperties outgoing
              (negb (bool_decide (oldValue suspended = newValue suspended)))
              (oldOptions suspended))
      = Ok oldNew
    ∧ (if crossFade && truthy (oldValue suspended)
       then resolveProperties oldProperties incoming
              (negb (bool_decide (oldValue suspended = newValue suspended)))
              (oldOptions suspended)
       else resolveProperties (newProperties suspended) incoming
              (negb (bool_decide (oldValue suspended = newValue suspended)))
              (newOptions suspended))
      = Ok newOld
    ∧ resolveProperties (newProperties suspended) incoming false
                        (newOptions suspended)
      = Ok newNew
    ∧ oldObjectTransitionDuration getTransitionElementCount suspended
      = Ok oldDuration
    ∧ (∀ id, allocated_between (store this) (store this') id →
             started (store this') id = true)
    ∧ (∀ name number,
         name ∈ (fst <$> oldOld) →
         differs (property (Some oldOld) name) (property (Some oldNew) name)
         = true →
         property (Some oldNew) name = Some (RNumber number) →
         starts (store this) (store this') outgoing name 0)
    ∧ (∀ name number,
         name ∈ (fst <$> oldOld) →
         differs (property (Some newOld) name) (property (Some newNew) name)
         = true →
         property (Some newNew) name = Some (RNumber number) →
         starts (store this) (store this') incoming name
                (newObjectTransitionDelay crossFade oldDuration)).
Proof.
  intros Hold. unfold transition_commit. rewrite Hold.
  destruct (Element.oldProperties suspended) as [oldProperties|];
    [|discriminate].
  cbn [defined mbind result_bind].
  destruct (resolveProperties oldProperties outgoing false _)
    as [oldOld|e] eqn:HoldOld; [|discriminate].
  cbn [mbind result_bind].
  destruct (if crossFade && truthy (newValue suspended) then _ else _)
    as [oldNew|e] eqn:HoldNew; [|discriminate].
  cbn [mbind result_bind].
  destruct (if crossFade && truthy (oldValue suspended) then _ else _)
    as [newOld|e] eqn:HnewOld; [|discriminate].
  cbn [mbind result_bind].
  destruct (resolveProperties (newProperties suspended) incoming false _)
    as [newNew|e] eqn:HnewNew; [|discriminate].
  cbn [mbind result_bind].
  bind_case as store1 eqn:Hattach.
  assert (Hsame1 : same_registry (store this) store1).
  { destruct (forEach _ newOld (store this)) as [store0|e] eqn:Hset;
      [|discriminate].
    cbn [mbind result_bind] in Hattach.
    eapply same_registry_trans;
      [by eapply forEach_setPropertyValue_registry
      |by eapply attachObject_registry]. }
  bind_case as oldDuration eqn:HoldDuration.
  bind_case as newDuration eqn:HnewDuration.
  bind_case as keyed eqn:Hkeyed.
  cbn in Hkeyed. injection Hkeyed as <-.
  bind_case as store2 eqn:Hloop.
  apply forEach_transitionProperty_starts in Hloop
    as (Hgrows & Hnew & Houtgoing & Hincoming).
  pose proof (same_transitions_grows _ _
                (same_registry_transitions _ _ Hsame1)) as Hgrows1.
  pose proof Hsame1 as (_ & _ & _ & Halloc1).
  intros Hfinal.
  assert (Hstore : store this' = store2)
    by (destruct (truthy (newValue suspended)); by injection Hfinal as <-).
  rewrite Hstore.
  exists oldProperties, oldOld, oldNew, newOld, newNew, oldDuration.
  do 6 (split; [done|]).
  split.
  { intros id. unfold allocated_between. rewrite <- Halloc1. apply Hnew. }
  split.
  - intros name number Hin Hchanged Hvalue.
    eapply starts_grows; [exact Hgrows1| |apply grows_refl].
    by eapply Houtgoing.
  - intros name number Hin Hchanged Hvalue.
    eapply starts_grows; [exact Hgrows1| |apply grows_refl].
    by eapply Hincoming.
Qed.

End Starts.

(** C7: in a commit with an outgoing and an incoming Object, every
    transition the commit allocates has been started, and either
    belongs to the outgoing Object and has delay [0], or belongs to the
    incoming Object and has delay [0] when the element cross-fades and
    the transition duration of the outgoing Object when it does not.
    And the commit does start them: for every property whose resolved
    value has changed to a number on the outgoing Object it starts a
    transition of that property of the outgoing Object with delay [0],
    and for every one changed to a number on the incoming Object a
    transition of that property of the incoming Object with that
    delay. *)
Theorem replacement_transition_delays {Options : Type} crossFade
    resolveProperties getTransitionElementCount Ease
    (suspended : Suspended Options) (outgoing incoming : ObjectId)
    (this this' : t Options) :
  Inv (store this) →
  oldObject suspended = Some outgoing →
  incoming ≠ outgoing →
  transition_commit crossFade resolveProperties getTransitionElementCount
                    Ease suspended (Some incoming) this = Ok this' →
  ∃ oldObjectTransitionDuration,
    resolveElementTransitionDuration (newProperties suspended)
      (getTransitionElementCount outgoing false)
    = Ok oldObjectTransitionDuration
    ∧ (∀ id, allocated_between (store this) (store this') id →
        started (store this') id = true
        ∧ ((owner (store this') id = Some outgoing
            ∧ delay_of (store this') id = Some 0)
           ∨ (owner (store this') id = Some incoming
              ∧ delay_of (store this') id
                = Some (if crossFade then 0
                        else oldObjectTransitionDuration))))
    ∧ ∃ oldProperties oldOld oldNew newOld newNew,
        Element.oldProperties suspended = Some oldProperties
        ∧ resolveProperties oldProperties outgoing false
                            (oldOptions suspended)
          = Ok oldOld
        ∧ (if crossFade && truthy (newValue suspended)
           then resolveProperties (newProperties suspended) outgoing
                  (negb (bool_decide
                           (oldValue suspended = newValue suspended)))
                  (newOptions suspended)
           else resolveProperties oldProperties outgoing
                  (negb (bool_decide
                           (oldValue suspended = newValue suspended)))
                  (oldOptions suspended))
          = Ok oldNew
        ∧ (if crossFade && truthy (oldValue suspended)
           then resolveProperties oldProperties incoming
                  (negb (bool_decide
                           (oldValue suspended = newValue suspended)))
                  (oldOptions suspended)
           else resolveProperties (newProperties suspended) incoming
                  (negb (bool_decide
                           (oldValue suspended = newValue suspended)))
                  (newOptions suspended))
          = Ok newOld
        ∧ resolveProperties (newProperties suspended) incoming false
                            (newOptions suspended)
          = Ok newNew
        ∧ (∀ name number,
             name ∈ (fst <$> oldOld) →
             differs (property (Some oldOld) name)
                     (property (Some oldNew) name) = true →
             property (Some oldNew) name = Some (RNumber number) →
             starts (store this) (store this') outgoing name 0)
        ∧ (∀ name number,
             name ∈ (fst <$> oldOld) →
             differs (property (Some newOld) name)
                     (property (Some newNew) name) = true →
             property (Some newNew) name = Some (RNumber number) →
             starts (store this) (store this') incoming name
                    (if crossFade then 0 else oldObjectTransitionDuration)).
Proof.
  intros Hinv Hold Hne Hcommit.
  pose proof (transition_commit_starts _ _ _ _ _ _ _ _ _ Hold Hcommit)
    as (oldProperties & oldOld & oldNew & newOld & newNew & started'
        & HoldProperties & HoldOld & HoldNew & HnewOld & HnewNew
        & Hstarted & Hnew & Houtgoing & Hincoming).
  eapply (transition_commit_Inv _ _ _ _ _ _ _ _) in Hcommit
    as (_ & oldDuration & Hduration & _ & Hdelays); [|done|].
  2:{ intros object Hobject [= ->]. congruence. }
  rewrite Hduration in Hstarted. injection Hstarted as <-.
  exists oldDuration. split.
  { unfold oldObjectTransitionDuration in Hduration.
    by rewrite Hold in Hduration. }
  split.
  { intros id Hid. split; [by apply Hnew|]. rewrite Hold in Hdelays.
    destruct (Hdelays id Hid) as [(_ & ? & ?)|(_ & ? & ?)];
      [by left|by right]. }
  exists oldProperties, oldOld, oldNew, newOld, newNew.
  do 5 (split; [done|]). split; [exact Houtgoing|exact Hincoming].
Qed.

(** *** Scenarios *)

Import Scenarios.

Lemma choice_shown_eq :
  choice_update choice_yes None choice_new = Ok choice_shown.
Proof. vm_compute. reflexivity. Qed.

Lemma choice_shown_Inv : Inv (store choice_shown).
Proof.
  eapply (update_Inv _ _ _ _ _ _ _ choice_new);
    [apply Inv_empty| |exact choice_shown_eq].
  intros object. discriminate.
Qed.

Lemma choice_changed_eq : choice_commit = Ok choice_changed.
Proof. vm_compute. reflexivity. Qed.

Lemma one_transition_per_object_property_witness :
  Inv (store choice_changed)
  ∧ frameCallbacks (store choice_changed) = [1; 2]%nat
  ∧ owner (store choice_changed) <$> [1; 2]%nat = [Some 0; Some 1]%nat.
Proof.
  destruct one_transition_per_object_property
    as (Hempty & _ & Hcommit & Hupdate & _).
  split; [|by vm_compute].
  assert (Hshown : Inv (store choice_shown)).
  { eapply (Hupdate unit _ _ _ _ _ _ _ choice_new);
      [exact Hempty| |exact choice_shown_eq].
    intros object. discriminate. }
  refine (Hcommit unit _ _ _ _ choice_suspended (Some 1%nat) choice_loaded
                  choice_changed _ _ choice_changed_eq).
  - by apply (Inv_same_registry (store choice_shown)).
  - intros object Hobject [= <-]. by vm_compute in Hobject.
Defined.

Lemma replacement_transition_delays_witness :
  ∃ oldObjectTransitionDuration,
    resolveElementTransitionDuration choice_no 1
    = Ok oldObjectTransitionDuration
    ∧ oldObjectTransitionDuration == 500
    ∧ (∀ id, allocated_between (store choice_loaded) (store choice_changed)
                               id →
         started (store choice_changed) id = true
         ∧ ((owner (store choice_changed) id = Some 0%nat
             ∧ delay_of (store choice_changed) id = Some 0)
            ∨ (owner (store choice_changed) id = Some 1%nat
               ∧ delay_of (store choice_changed) id
                 = Some oldObjectTransitionDuration)))
    ∧ starts (store choice_loaded) (store choice_changed) 0%nat "value" 0
    ∧ starts (store choice_loaded) (store choice_changed) 1%nat "value"
             oldObjectTransitionDuration.
Proof.
  destruct (replacement_transition_delays
              ChoiceElement_crossFade ChoiceElement_resolveProperties
              getTransitionElementCount Transition.LinearEasing
              choice_suspended 0%nat 1%nat choice_loaded choice_changed)
    as (duration & Hduration & Hdelays
        & oldProperties & oldOld & oldNew & newOld & newNew
        & HoldProperties & HoldOld & HoldNew & HnewOld & HnewNew
        & Houtgoing & Hincoming).
  - apply (Inv_same_registry (store choice_shown)); [|exact choice_shown_Inv].
    exact (createObject_registry ChoiceObject_initialValues
             (store choice_shown)).
  - reflexivity.
  - discriminate.
  - exact choice_changed_eq.
  - exists duration. split; [exact Hduration|].
    vm_compute in HoldProperties. injection HoldProperties as <-.
    vm_compute in HoldOld. injection HoldOld as <-.
    vm_compute in HoldNew. injection HoldNew as <-.
    vm_compute in HnewOld. injection HnewOld as <-.
    vm_compute in HnewNew. injection HnewNew as <-.
    split; [vm_compute in Hduration; by injection Hduration as <-|].
    split; [exact Hdelays|]. split.
    + apply (Houtgoing "value"%string 0); [|reflexivity|reflexivity].
      vm_compute. by left.
    + apply (Hincoming "value"%string 1); [|reflexivity|reflexivity].
      vm_compute. by left.
Defined.

Lemma background_shown_eq :
  background_update (background_with "a.png" (1 # 2)) None background_new
  = Ok background_shown.
Proof. vm_compute. reflexivity. Qed.

Lemma background_opaque_eq :
  background_update (background_with "a.png" 1) None background_shown
  = Ok background_opaque.
Proof. vm_compute. reflexivity. Qed.

Lemma background_changed_eq :
  background_update (background_with "b.png" 1) None background_opaque
  = Ok background_changed.
Proof. vm_compute. reflexivity. Qed.

Lemma background_changed_Inv : Inv (store background_changed).
Proof.
  assert (H1 : Inv (store background_shown)).
  { refine (update_Inv _ _ _ _ _ _ _ background_new background_shown
                       Inv_empty _ background_shown_eq).
    by intros object [=]. }
  assert (H2 : Inv (store background_opaque)).
  { refine (update_Inv _ _ _ _ _ _ _ background_shown background_opaque
                       H1 _ background_opaque_eq).
    intros object H. vm_compute in H. injection H as <-. vm_compute. lia. }
  refine (update_Inv _ _ _ _ _ _ _ background_opaque background_changed
                     H2 _ background_changed_eq).
  intros object H. vm_compute in H. injection H as <-. vm_compute. lia.
Qed.

Lemma background_fading_eq :
  allocated (store background_changed) !! 2%nat = Some background_fading.
Proof. vm_compute. reflexivity. Qed.

Lemma background_ending_eq :
  onUpdate 2 0 (set_tween 2 (tween background_faded)
                          (store background_changed))
  = Ok background_ending.
Proof. vm_compute. reflexivity. Qed.

Lemma background_ended_eq :
  onEnd cancelTransition 2 background_ending = Ok background_ended.
Proof. vm_compute. reflexivity. Qed.

Lemma background_changed_registered :
  registered (store background_changed) 2.
Proof. vm_compute. set_solver. Qed.

Lemma background_ending_context :
  allocated background_ending !! 2%nat = Some background_faded
  ∧ Inv (unregister 2 background_faded background_ending)
  ∧ (∀ id', registered (unregister 2 background_faded background_ending) id' →
       owner background_ending id' = Some (object background_faded) →
       named background_ending id' ≠ Some (propertyName background_faded)).
Proof.
  pose proof (ending_context _ _ _ _ _ _ background_changed_Inv
                background_changed_registered background_fading_eq
                background_ending_eq) as (H1 & H2 & H3 & _).
  exact (conj H1 (conj H2 H3)).
Qed.

Lemma end_callback_tears_down_once_witness :
  ∃ store',
    onEnd cancelTransition 2 background_ending = Ok store'
    ∧ named (store background_changed) <$> [1; 2; 3]%nat
      = [Some "alpha"; Some "value"; Some "value"]%string
    ∧ owner (store background_changed) <$> [1; 2; 3]%nat
      = [Some 0; Some 0; Some 1]%nat
    ∧ ¬ registered store' 1 ∧ ¬ registered store' 2
    ∧ lifecycle background_ending 0 = Some (true, 0, 0)%nat
    ∧ lifecycle store' 0 = Some (false, 1, 1)%nat
    ∧ lifecycle store' 1 = lifecycle background_ending 1
    ∧ well_formed background_ending.
Proof.
  exists background_ended.
  destruct background_ending_context as (Hit & Hinv & Hunique).
  destruct (end_callback_tears_down_once _ _ _ Hit Hinv Hunique)
    as (Htears & _ & _).
  assert (Hname : propertyName background_faded = "value"%string)
    by (vm_compute; reflexivity).
  assert (Hzero : propertyValue background_faded == 0)
    by (vm_compute; reflexivity).
  destruct (Htears Hname Hzero background_ended background_ended_eq)
    as (Hunreg & _ & Hlife & Hothers).
  split; [exact background_ended_eq|].
  split; [vm_compute; reflexivity|]. split; [vm_compute; reflexivity|].
  split; [apply Hunreg; vm_compute; reflexivity|].
  split; [apply Hunreg; vm_compute; reflexivity|].
  assert (Hbefore : lifecycle background_ending 0 = Some (true, 0, 0)%nat)
    by (vm_compute; reflexivity).
  split; [exact Hbefore|].
  split.
  - change (object background_faded) with 0%nat in Hlife. rewrite Hlife, Hbefore. reflexivity.
  - split; [apply Hothers; vm_compute; lia|].
    apply well_formedb_spec. vm_compute. reflexivity.
Defined.

End ElementFacts.

(** ** The life of a transition *)

Module TransitionLifecycleFacts.
Import Transition TransitionLifecycle TransitionScenarios.

#[local] Open Scope Q_scope.

Section Facts.
Context {V : Type}.
Implicit Types this : t V.

Lemma updateCurrentValue_ended this :
  isEnded (fst (updateCurrentValue this))
  = isEnded this || Qeq_bool (fraction this) 1.
Proof.
  unfold updateCurrentValue. cbn.
  destruct (Qeq_bool (fraction this) 1); cbn; [by rewrite orb_true_r|].
  by rewrite orb_false_r.
Qed.

Lemma updateCurrentValue_endCount this :
  endCount (snd (updateCurrentValue this))
  = if Qeq_bool (fraction this) 1 then 1%nat else 0%nat.
Proof.
  unfold updateCurrentValue. cbn.
  by destruct (Qeq_bool (fraction this) 1).
Qed.

End Facts.

(** X1: once a transition has ended it stays as it is: [start], [pause],
    [resume] and the [fraction] setter throw, [cancel] returns the
    transition unchanged, [update] only records the time, and no
    callback is notified. *)
Theorem ended_is_terminal {V : Type} (this : t V) :
  isEnded this = true →
  (∃ e, start this = Err e) ∧ (∃ e, pause this = Err e)
  ∧ (∃ e, resume this = Err e)
  ∧ (∀ fraction, ∃ e, set_fraction fraction this = Err e)
  ∧ (∀ snapToEnd, cancel snapToEnd this = (this, []))
  ∧ (∀ time, update time this = (set_lastUpdateTime (Some time) this, [])).
Proof.
  intros Hended.
  pose proof (TransitionFacts.isRunning_ended _ Hended) as Hrun.
  unfold start, pause, resume, set_fraction, cancel, update.
  rewrite Hended, Hrun. cbn. eauto 10.
Qed.

Lemma ended_is_terminal_witness :
  isEnded ended_transition = true
  ∧ (∃ e, start ended_transition = Err e)
  ∧ (∀ time, update time ended_transition
             = (set_lastUpdateTime (Some time) ended_transition, [])).
Proof.
  assert (H : isEnded ended_transition = true) by reflexivity.
  destruct (ended_is_terminal ended_transition H) as (Hs & _ & _ & _ & _ & Hu).
  split; [exact H|]. split; [exact Hs|exact Hu].
Defined.

(** X2: whatever method is called, the end callbacks are notified exactly
    when that call ends the transition, and then once; a call that
    throws notifies nothing. *)
Theorem end_notified_once {V : Type} (method : Method) (this this' : t V)
    (notifications : list (Notification V)) :
  call method this = Ok (this', notifications) →
  endCount notifications
  = (if negb (isEnded this) && isEnded this' then 1 else 0)%nat
  ∧ (isEnded this = true → isEnded this' = true ∧ notifications = []).
Proof.
  destruct method as [| | |snapToEnd|fraction|time]; cbn [call].
  - unfold start. destruct (isEnded this) eqn:Hended; [discriminate|].
    destruct (isStarted this) eqn:Hstarted.
    { intros [= <- <-]. rewrite Hended. by split. }
    destruct (updateCurrentValue (set_isStarted true this))
      as [this1 updated] eqn:Hupdate.
    intros [= <- <-]. split; [|done].
    pose proof (updateCurrentValue_ended (set_isStarted true this)) as H1.
    pose proof (updateCurrentValue_endCount (set_isStarted true this)) as H2.
    rewrite Hupdate in H1, H2. cbn [fst snd] in H1, H2.
    cbn [isEnded set_isStarted] in H1. rewrite Hended in H1. cbn in H1.
    rewrite H1. cbn [negb andb]. exact H2.
  - unfold pause. destruct (isEnded this) eqn:Hended; [discriminate|].
    destruct (isPaused this).
    + intros [= <- <-]. rewrite Hended. by split.
    + intros [= <- <-]. cbn. rewrite Hended. by split.
  - unfold resume. destruct (isEnded this) eqn:Hended; [discriminate|].
    destruct (isPaused this).
    + intros [= <- <-]. cbn. rewrite Hended. by split.
    + intros [= <- <-]. rewrite Hended. by split.
  - unfold cancel. destruct (isRunning this) eqn:Hrun; cbn [negb].
    + assert (Hended : isEnded this = false).
      { unfold isRunning in Hrun. by destruct (isEnded this), (isStarted this),
          (isPaused this). }
      destruct snapToEnd; intros [= <- <-]; rewrite Hended; by split.
    + intros [= <- <-]. split; [|done].
      by destruct (isEnded this).
  - unfold set_fraction. destruct (isEnded this) eqn:Hended; [discriminate|].
    intros Heq. split; [|done].
    set (moved := set_runningTime _ this) in *.
    assert (Heq' : updateCurrentValue moved = (this', notifications))
      by congruence. clear Heq. rename Heq' into Heq.
    pose proof (updateCurrentValue_ended moved) as H1.
    pose proof (updateCurrentValue_endCount moved) as H2.
    rewrite Heq in H1, H2. cbn [fst snd] in H1, H2.
    change (isEnded moved) with (isEnded this) in H1.
    rewrite Hended in H1. cbn in H1. rewrite H1. exact H2.
  - unfold update. destruct (isRunning this) eqn:Hrun; cbn [negb].
    + assert (Hended : isEnded this = false).
      { unfold isRunning in Hrun. by destruct (isEnded this), (isStarted this),
          (isPaused this). }
      intros Heq. split; [|by rewrite Hended].
      set (moved := set_lastUpdateTime _ _) in *.
      assert (Heq' : updateCurrentValue moved = (this', notifications))
        by congruence. clear Heq. rename Heq' into Heq.
      pose proof (updateCurrentValue_ended moved) as H1.
      pose proof (updateCurrentValue_endCount moved) as H2.
      rewrite Heq in H1, H2. cbn [fst snd] in H1, H2.
      assert (Hmoved : isEnded moved = isEnded this)
        by (subst moved; by destruct (lastUpdateTime this)).
      rewrite Hmoved, Hended in H1. cbn in H1.
      rewrite Hended, H1. exact H2.
    + intros [= <- <-]. cbn. split; [|done]. by destruct (isEnded this).
Qed.

Lemma end_notified_once_witness :
  ∃ this' notifications,
    call (Cancel true) (set_isStarted true (new 0 1 500 IdentityConverter))
    = Ok (this', notifications)
    ∧ endCount notifications = 1%nat.
Proof.
  eexists _, _. split; [reflexivity|].
  apply (end_notified_once (Cancel true)
           (set_isStarted true (new 0 1 500 IdentityConverter)) _ _ eq_refl).
Defined.

Section Frames.
Context {V : Type}.
Implicit Types this : t V.

Lemma updateCurrentValue_runningTime this :
  runningTime (fst (updateCurrentValue this)) = runningTime this
  ∧ lastUpdateTime (fst (updateCurrentValue this)) = lastUpdateTime this
  ∧ isStarted (fst (updateCurrentValue this)) = isStarted this
  ∧ isPaused (fst (updateCurrentValue this)) = isPaused this.
Proof.
  unfold updateCurrentValue. cbn.
  by destruct (Qeq_bool (fraction this) 1).
Qed.

Lemma update_running this time last :
  isRunning this = true → lastUpdateTime this = Some last →
  runningTime (fst (update time this)) = runningTime this + (time - last)
  ∧ lastUpdateTime (fst (update time this)) = Some time
  ∧ isStarted (fst (update time this)) = isStarted this
  ∧ isPaused (fst (update time this)) = isPaused this.
Proof.
  intros Hrun Hlast. unfold update. rewrite Hrun, Hlast. cbn [negb].
  destruct (updateCurrentValue_runningTime
              (set_lastUpdateTime (Some time)
                 (set_runningTime (runningTime this + (time - last)) this)))
    as (-> & -> & -> & ->).
  done.
Qed.

(** Frames on a transition that is not running only move the time of
    the last update. *)
Lemma updates_not_running this times :
  isRunning this = false →
  updates times this
  = (match last times with
     | Some time => set_lastUpdateTime (Some time) this
     | None => this
     end, []).
Proof.
  revert this. induction times as [|time times IH]; intros this Hrun;
    [done|].
  cbn [updates]. unfold update at 1. rewrite Hrun. cbn [negb].
  rewrite IH by done. cbn [app].
  destruct times as [|next times]; [done|].
  rewrite last_cons_cons.
  pose proof (last_is_Some (next :: times)) as [_ Hlast].
  destruct (last (next :: times)) as [time'|]; [done|].
  by destruct Hlast.
Qed.

End Frames.

(** X4: time spent paused is not counted.  However many frames a transition
    sees while it is not running, it stays as it is but for the time of
    its last update, which is that of the last frame, and it notifies
    nobody.  When a paused transition is then resumed, its next frame
    adds to the running time only the time since that last frame: the
    running time is [runningTime + (time - lastTime)], with the running
    time from before the pause. *)
Theorem paused_time_not_counted {V : Type} (this : t V) (times : list Q)
    (lastTime : Q) :
  isRunning this = false →
  updates (times ++ [lastTime]) this
  = (set_lastUpdateTime (Some lastTime) this, [])
  ∧ (isStarted this = true → isEnded this = false →
     ∃ resumed,
       resume (set_lastUpdateTime (Some lastTime) this)
       = Ok (resumed, [(OnResume, currentValue this)])
       ∧ isRunning resumed = true
       ∧ ∀ time,
           runningTime (fst (update time resumed))
           = runningTime this + (time - lastTime)).
Proof.
  intros Hrun. split.
  - rewrite updates_not_running by done. by rewrite last_snoc.
  - intros Hstarted Hended.
    assert (Hpaused : isPaused this = true).
    { unfold isRunning in Hrun. rewrite Hstarted, Hended in Hrun.
      by destruct (isPaused this). }
    unfold resume. cbn [isEnded isPaused set_lastUpdateTime].
    rewrite Hended, Hpaused. cbn [negb].
    eexists. split; [reflexivity|].
    assert (Hrun' : isRunning (set_isPaused false
                      (set_lastUpdateTime (Some lastTime) this)) = true).
    { unfold isRunning. cbn. by rewrite Hstarted, Hended. }
    split; [exact Hrun'|]. intros time.
    by destruct (update_running _ time lastTime Hrun' eq_refl) as (-> & _).
Qed.

Lemma paused_time_not_counted_witness :
  updates ([200; 300] ++ [400]) example_paused
  = (set_lastUpdateTime (Some 400) example_paused, [])
  ∧ ∃ resumed,
      resume (set_lastUpdateTime (Some 400) example_paused)
      = Ok (resumed, [(OnResume, currentValue example_paused)])
      ∧ isRunning resumed = true
      ∧ runningTime (fst (update 450 resumed))
        = runningTime example_paused + (450 - 400).
Proof.
  destruct (paused_time_not_counted example_paused [200; 300] 400)
    as [Hframes Hresume]; [reflexivity|].
  split; [exact Hframes|].
  destruct Hresume as (resumed & Hresumed & Hrunning & Htime);
    [reflexivity|reflexivity|].
  exists resumed. split; [exact Hresumed|]. split; [exact Hrunning|].
  exact (Htime 450).
Defined.

End TransitionLifecycleFacts.

(** ** Property values *)

Module PropertyValueFacts.
Import Resolve ElementResolvedProperties.

#[local] Open Scope Q_scope.

(** X6: [StringValue.parse] returns every source that does not start with a
    quote as it is.  A source that starts with a quote is rejected,
    whatever follows, with one exception: the source that is a single
    quote parses to the empty string.  No quoted source is ever
    unquoted or unescaped. *)
Theorem StringValue_parse_cases (source : string) :
  StringValue.parse source
  = match source with
    | String "'" EmptyString => Some ""%string
    | String "'" _ => None
    | _ => Some source
    end.
Proof.
  destruct source as [|char rest]; [done|].
  unfold StringValue.parse.
  destruct (Ascii.eqb_spec char "'") as [->|Hne].
  - destruct rest as [|next rest]; [done|].
    destruct (StringValue.endsWith_quote _); [|done]. done.
  - destruct char as [[] [] [] [] [] [] [] []]; try done.
Qed.

End PropertyValueFacts.

(** ** The order of the elements *)

Module ViewOrderFacts.
Import ElementResolvedProperties View ViewOrder.

(** *** The comparator *)

Lemma insert_sorted_Permutation {A : Type} (compare : A → A → Z) (x : A)
    (l : list A) :
  insert_sorted compare x l ≡ₚ x :: l.
Proof.
  induction l as [|y l IH]; cbn [insert_sorted]; [done|].
  destruct (compare x y <=? 0)%Z; [done|].
  rewrite IH. apply Permutation_swap.
Qed.

Lemma sort_Permutation {A : Type} (compare : A → A → Z) (l : list A) :
  sort compare l ≡ₚ l.
Proof.
  induction l as [|x l IH]; [done|].
  unfold sort in *. cbn [foldr]. by rewrite insert_sorted_Permutation, IH.
Qed.

Section Sorted.
Context {A : Type} (compare : A → A → Z) (P : A → Prop).
Hypothesis compare_total :
  ∀ x y, P x → P y → (compare x y ≤ 0 ∨ compare y x ≤ 0)%Z.
Hypothesis compare_trans :
  ∀ x y z, P x → P y → P z →
    (compare x y ≤ 0)%Z → (compare y z ≤ 0)%Z → (compare x z ≤ 0)%Z.

Lemma insert_sorted_StronglySorted (x : A) (l : list A) :
  P x → Forall P l →
  StronglySorted (λ a b, (compare a b ≤ 0)%Z) l →
  StronglySorted (λ a b, (compare a b ≤ 0)%Z) (insert_sorted compare x l).
Proof using compare_total compare_trans.
  intros Hx HP Hsorted. induction Hsorted as [|y l Hsorted IH Hy];
    cbn [insert_sorted].
  { repeat constructor. }
  apply Forall_cons in HP as [HPy HPl].
  destruct (Z.leb_spec (compare x y) 0) as [Hle|Hgt].
  - constructor; [by constructor|]. constructor; [done|].
    apply Forall_forall. intros z Hz.
    apply (compare_trans x y z); try done.
    + rewrite Forall_forall in HPl. by apply HPl.
    + rewrite Forall_forall in Hy. by apply Hy.
  - constructor; [by apply IH|].
    apply Forall_forall. intros z Hz.
    rewrite (insert_sorted_Permutation compare x l) in Hz.
    apply elem_of_cons in Hz as [->|Hz].
    + destruct (compare_total x y Hx HPy); [lia|done].
    + rewrite Forall_forall in Hy. by apply Hy.
Qed.

Lemma sort_StronglySorted (l : list A) :
  Forall P l → StronglySorted (λ a b, (compare a b ≤ 0)%Z) (sort compare l).
Proof using compare_total compare_trans.
  induction l as [|x l IH]; intros HP; [constructor|].
  apply Forall_cons in HP as [Hx HPl].
  unfold sort in *. cbn [foldr].
  apply insert_sorted_StronglySorted; [done| |by apply IH].
  apply Forall_forall. intros y Hy.
  rewrite (sort_Permutation compare l) in Hy.
  rewrite Forall_forall in HPl. by apply HPl.
Qed.

End Sorted.

Lemma before_total left right :
  before left right = true ∨ before right left = true ∨ left = right.
Proof. destruct left, right; vm_compute; auto. Qed.

Lemma before_irrefl type : before type type = false.
Proof. by destruct type. Qed.

Lemma before_asym left right :
  before left right = true → before right left = false.
Proof. destruct left, right; vm_compute; auto. Qed.

Lemma before_trans x y z :
  before x y = true → before y z = true → before x z = true.
Proof. destruct x, y, z; vm_compute; auto. Qed.

Lemma compareElements_le left right :
  (compareElements left right ≤ 0)%Z
  ↔ before (type left) (type right) = true
    ∨ (type left = type right ∧ (index left ≤ index right)%Z).
Proof.
  unfold compareElements. fold (before (type left) (type right)).
  fold (before (type right) (type left)).
  destruct (before (type left) (type right)) eqn:Hlr.
  { split; [by left|lia]. }
  destruct (before (type right) (type left)) eqn:Hrl.
  { split; [lia|]. intros [?|[Heq _]]; [done|].
    rewrite Heq, before_irrefl in Hrl. done. }
  destruct (before_total (type left) (type right)) as [?|[?|Heq]];
    [congruence|congruence|].
  split; [intros; right; split; [done|lia]|].
  intros [?|[_ ?]]; [done|lia].
Qed.

Lemma get_is_Some (elementPropertiesMap : ElementPropertiesMap) name :
  name ∈ fst <$> elementPropertiesMap → is_Some (get elementPropertiesMap name).
Proof.
  unfold get. induction elementPropertiesMap as [|[key value] entries IH];
    cbn [fmap list_fmap List.find fst].
  { by intros ?%elem_of_nil. }
  intros [->|Hin]%elem_of_cons.
  - rewrite String.eqb_refl. by eexists.
  - destruct (String.eqb key name); [by eexists|by apply IH].
Qed.

Lemma StronglySorted_impl_in {A : Type} (R R' : A → A → Prop) (P : A → Prop)
    (l : list A) :
  (∀ a b, P a → P b → R a b → R' a b) →
  Forall P l → StronglySorted R l → StronglySorted R' l.
Proof.
  intros Himpl HP Hsorted. induction Hsorted as [|x l Hsorted IH Hx].
  { constructor. }
  apply Forall_cons in HP as [HPx HPl]. constructor; [by apply IH|].
  rewrite Forall_forall in Hx, HPl |- *. intros y Hy.
  apply Himpl; [done|by apply HPl|by apply Hx].
Qed.

(** X8: the reconciler visits the elements of the state in a fixed order:
    [elementNames] holds every key of the state once more and no other
    name, ordered by the name of the kind and, within a kind, by
    index. *)
Theorem elementNames_sorted (elementPropertiesMap : ElementPropertiesMap) :
  elementNames elementPropertiesMap ≡ₚ fst <$> elementPropertiesMap
  ∧ StronglySorted
      (λ left right,
         ∃ leftProperties rightProperties,
           get elementPropertiesMap left = Some leftProperties
           ∧ get elementPropertiesMap right = Some rightProperties
           ∧ (before (type leftProperties) (type rightProperties) = true
              ∨ (type leftProperties = type rightProperties
                 ∧ (index leftProperties ≤ index rightProperties)%Z)))
      (elementNames elementPropertiesMap).
Proof.
  split; [apply sort_Permutation|].
  set (P := λ name, is_Some (get elementPropertiesMap name)).
  assert (Hkeys : Forall P (fst <$> elementPropertiesMap)).
  { apply Forall_forall. intros name. apply get_is_Some. }
  apply (StronglySorted_impl_in
           (λ a b, (compareElementNames elementPropertiesMap a b ≤ 0)%Z) _ P).
  - intros left right [pl Hl] [pr Hr] Hle. exists pl, pr.
    split; [done|]. split; [done|].
    unfold compareElementNames in Hle. rewrite Hl, Hr in Hle.
    by apply compareElements_le.
  - apply Forall_forall. intros name Hname.
    unfold elementNames in Hname. rewrite sort_Permutation in Hname.
    rewrite Forall_forall in Hkeys. by apply Hkeys.
  - apply (sort_StronglySorted _ P); [| |done].
    + intros x y [px Hx] [py Hy]. unfold compareElementNames.
      rewrite Hx, Hy, !compareElements_le.
      destruct (before_total (type px) (type py)) as [?|[?|Heq]];
        [by left; left|by right; left|].
      destruct (Z.le_ge_cases (index px) (index py));
        [left; right|right; right]; split; (done || lia).
    + intros x y z [px Hx] [py Hy] [pz Hz]. unfold compareElementNames.
      rewrite Hx, Hy, Hz, !compareElements_le.
      intros [Hxy|[Hxy Hi]] [Hyz|[Hyz Hj]].
      * left. by eapply before_trans.
      * left. by rewrite <- Hyz.
      * left. by rewrite Hxy.
      * right. split; [congruence|lia].
Qed.

(** *** Ordinals *)

Lemma ElementType_name_inj left right :
  ElementType_name left = ElementType_name right → left = right.
Proof. destruct left, right; vm_compute; congruence. Qed.

Lemma countElements_invariant elementPropertiesMap elementNames :
  ∀ elementIndices elementTypeCounts elementIndices' elementTypeCounts',
    ordinals elementPropertiesMap elementIndices elementTypeCounts →
    countElements elementPropertiesMap elementNames elementIndices
                  elementTypeCounts
    = Ok (elementIndices', elementTypeCounts') →
    ordinals elementPropertiesMap elementIndices' elementTypeCounts'
    ∧ ∀ elementName,
        is_Some (elementIndices' !! elementName)
        ↔ is_Some (elementIndices !! elementName)
          ∨ (elementName ∈ elementNames
             ∧ visible elementPropertiesMap elementName).
Proof.
  induction elementNames as [|elementName elementNames IH];
    intros indices counts indices' counts' Hinv; cbn [countElements].
  { intros [= <- <-]. split; [done|]. intros name. split; [by left|].
    intros [?|[?%elem_of_nil _]]; done. }
  destruct (get elementPropertiesMap elementName) as [properties|] eqn:Hget;
    [|discriminate].
  destruct (resolveElementValue properties) as [elementValue|e] eqn:Hvalue;
    [|discriminate].
  cbn [mbind result_bind].
  destruct (truthy elementValue) eqn:Htruthy; cbn [negb].
  - intros Hrest. apply IH in Hrest as [Hinv' Hdom]; cycle 1.
    { destruct Hinv as [Hbelow Hinj]. split.
      - intros name ordinal Hname.
        destruct (decide (name = elementName)) as [->|Hne].
        + rewrite lookup_insert_eq in Hname. injection Hname as <-.
          exists properties, (S (default 0%nat
            (counts !! ElementType_name (type properties)))).
          split; [done|]. split; [by rewrite lookup_insert_eq|lia].
        + rewrite lookup_insert_ne in Hname by done.
          destruct (Hbelow name ordinal Hname) as (p & c & Hp & Hc & Hlt).
          destruct (decide (ElementType_name (type p)
                            = ElementType_name (type properties)))
            as [Heq|Hneq].
          * exists p, (S (default 0%nat
              (counts !! ElementType_name (type properties)))).
            split; [done|]. rewrite Heq, lookup_insert_eq.
            split; [done|]. rewrite Heq in Hc. rewrite Hc. cbn. lia.
          * exists p, c. split; [done|].
            by rewrite lookup_insert_ne.
      - intros left right pl pr ordinal Hl Hr Htype Hil Hir.
        destruct (decide (left = elementName)) as [->|Hnel];
          destruct (decide (right = elementName)) as [->|Hner]; [done| | |].
        + rewrite lookup_insert_eq in Hil. injection Hil as <-.
          rewrite lookup_insert_ne in Hir by done.
          destruct (Hbelow right _ Hir) as (p & c & Hp & Hc & Hlt).
          assert (Hc' : counts !! ElementType_name (type properties) = Some c)
            by congruence.
          rewrite Hc' in Hlt. cbn in Hlt. lia.
        + rewrite lookup_insert_eq in Hir. injection Hir as <-.
          rewrite lookup_insert_ne in Hil by done.
          destruct (Hbelow left _ Hil) as (p & c & Hp & Hc & Hlt).
          assert (Hc' : counts !! ElementType_name (type properties) = Some c)
            by congruence.
          rewrite Hc' in Hlt. cbn in Hlt. lia.
        + rewrite lookup_insert_ne in Hil, Hir by done.
          by apply (Hinj left right pl pr ordinal). }
    split; [done|]. intros name. rewrite Hdom.
    destruct (decide (name = elementName)) as [->|Hne].
    + rewrite lookup_insert_eq. split.
      * intros _. right. split; [by left|]. by exists properties, elementValue.
      * intros _. left. by eexists.
    + rewrite lookup_insert_ne by done. rewrite elem_of_cons.
      split; [intros [?|[? ?]]; [by left|right; split; [by right|done]]|].
      intros [?|[[->|?] ?]]; [by left|done|by right].
  - intros Hrest. apply IH in Hrest as [Hinv' Hdom]; [|done].
    split; [done|]. intros name. rewrite Hdom, elem_of_cons.
    split; [intros [?|[? ?]]; [by left|right; split; [by right|done]]|].
    intros [?|[[->|?] Hvisible]]; [by left| |by right].
    destruct Hvisible as (p & v & Hp & Hv & Ht). exfalso.
    congruence.
Qed.

(** X9: the loop that numbers the visible elements gives an ordinal to
    exactly the listed elements that resolve to a value; every ordinal
    counts from [0] and is below the final count of its kind, and no
    two elements of a kind share an ordinal. *)
Theorem countElements_ordinals elementPropertiesMap elementNames
    elementIndices elementTypeCounts :
  countElements elementPropertiesMap elementNames ∅ ∅
  = Ok (elementIndices, elementTypeCounts) →
  ordinals elementPropertiesMap elementIndices elementTypeCounts
  ∧ ∀ elementName,
      is_Some (elementIndices !! elementName)
      ↔ elementName ∈ elementNames ∧ visible elementPropertiesMap elementName.
Proof.
  intros Hcount.
  apply countElements_invariant in Hcount as [Hinv Hdom].
  - split; [done|]. intros name. rewrite Hdom, lookup_empty.
    split; [|by right]. intros [[? [=]]|?]; done.
  - split; intros *; by rewrite lookup_empty.
Qed.

(** *** Default positions of figures *)

Import ViewScenarios.

#[local] Open Scope Q_scope.






Lemma countElements_ordinals_witness :
  ∃ elementIndices elementTypeCounts,
    countElements two_figures (elementNames two_figures) ∅ ∅
    = Ok (elementIndices, elementTypeCounts)
    ∧ elementIndices !! "figure1"%string = Some 0%nat
    ∧ elementIndices !! "figure2"%string = Some 1%nat
    ∧ ordinals two_figures elementIndices elementTypeCounts.
Proof.
  destruct (countElements two_figures (elementNames two_figures) ∅ ∅)
    as [[elementIndices elementTypeCounts]|e] eqn:Hcount;
    [|by vm_compute in Hcount].
  exists elementIndices, elementTypeCounts. split; [reflexivity|].
  destruct (countElements_ordinals _ _ _ _ Hcount) as [Hordinals _].
  vm_compute in Hcount. injection Hcount as <- <-.
  split; [reflexivity|]. split; [reflexivity|exact Hordinals].
Defined.

End ViewOrderFacts.

(** ** Layout: the tracked transitions and the visible nodes *)

Module LayoutInvariantFacts.
Import Layout LayoutClock LayoutInvariant.

#[local] Open Scope Q_scope.

(** *** Opacity *)

Lemma getOpacity_setOpacity (opacity : Q) :
  getOpacity (setOpacity opacity) == opacity.
Proof.
  unfold getOpacity, setOpacity. cbn.
  destruct (Qeq_bool opacity 0) eqn:H0.
  { apply Qeq_bool_iff in H0. by rewrite H0. }
  cbn. destruct (Qeq_bool opacity 1) eqn:H1; cbn; [|done].
  apply Qeq_bool_iff in H1. by rewrite H1.
Qed.

(** *** Transitions of a layout *)

Lemma start_layout (current opacity : Q) :
  ∃ started written,
    Transition.start
      (Transition.new current opacity LAYOUT_TRANSITION_DURATION
                      Transition.IdentityConverter)
    = Ok (started, [(Transition.OnStart, current);
                    (Transition.OnUpdate, written)])
    ∧ Transition.isRunning started = true
    ∧ Transition.converter started = Transition.IdentityConverter
    ∧ Transition.easing started = Transition.LinearEasing
    ∧ Transition.endValue started = opacity.
Proof.
  unfold Transition.start, Transition.updateCurrentValue.
  cbn [Transition.isEnded Transition.isStarted Transition.new
       Transition.set_isStarted].
  assert (Hfraction :
    Qeq_bool (Transition.fraction
                (Transition.set_isStarted true
                   (Transition.new current opacity LAYOUT_TRANSITION_DURATION
                                   Transition.IdentityConverter))) 1 = false)
    by reflexivity.
  cbn [Transition.new Transition.set_isStarted] in Hfraction.
  rewrite Hfraction. cbn.
  eexists _, _. split; [reflexivity|]. done.
Qed.

Lemma update_linear (time : Q) (tween : Transition.t Q) :
  Transition.isRunning tween = true →
  Transition.converter tween = Transition.IdentityConverter →
  Transition.easing tween = Transition.LinearEasing →
  ∃ tween' written,
    Transition.update time tween
    = (tween', (Transition.OnUpdate, written)
                 :: (if Transition.isRunning tween' then []
                     else [(Transition.OnEnd, written)]))
    ∧ Transition.converter tween' = Transition.IdentityConverter
    ∧ Transition.easing tween' = Transition.LinearEasing
    ∧ Transition.endValue tween' = Transition.endValue tween
    ∧ (Transition.isRunning tween' = false →
       written == Transition.endValue tween).
Proof.
  intros Hrun Hconverter Heasing. unfold Transition.update.
  rewrite Hrun. cbn [negb].
  remember (Transition.set_lastUpdateTime (Some time)
              match Transition.lastUpdateTime tween with
              | Some last =>
                  Transition.set_runningTime
                    (Transition.runningTime tween + (time - last)) tween
              | None => tween
              end) as moved eqn:Hmoved.
  assert (Hfields : Transition.isRunning moved = true
                    ∧ Transition.converter moved = Transition.converter tween
                    ∧ Transition.easing moved = Transition.easing tween
                    ∧ Transition.endValue moved = Transition.endValue tween
                    ∧ Transition.startValue moved
                      = Transition.startValue tween).
  { subst moved. destruct (Transition.lastUpdateTime tween); by cbn. }
  clear Hmoved. destruct Hfields as (Hrunning & Hc & He & Hend & Hstart).
  unfold Transition.isRunning in Hrunning.
  apply andb_true_iff in Hrunning as [Hrunning Hended].
  apply andb_true_iff in Hrunning as [Hstarted Hpaused].
  unfold Transition.updateCurrentValue.
  destruct (Qeq_bool (Transition.fraction moved) 1) eqn:Hfraction; cbn.
  - match goal with
    | |- ∃ _ _, (?t, (_, ?v) :: _) = _ ∧ _ => exists t, v
    end.
    split.
    { unfold Transition.isRunning. cbn. by rewrite andb_false_r. }
    cbn. split; [congruence|]. split; [congruence|]. split; [done|].
    intros _. rewrite Hc, Hconverter, He, Heasing, Hend, Hstart. cbn.
    apply Qeq_bool_iff in Hfraction. unfold Transition.LinearEasing.
    rewrite Hfraction. ring.
  - match goal with
    | |- ∃ _ _, (?t, (_, ?v) :: _) = _ ∧ _ => exists t, v
    end.
    split.
    { unfold Transition.isRunning. cbn. by rewrite Hstarted, Hpaused, Hended. }
    cbn. split; [congruence|]. split; [congruence|]. split; [done|].
    unfold Transition.isRunning. cbn. by rewrite Hstarted, Hpaused, Hended.
Qed.

Lemma cancel_linear (tween : Transition.t Q) :
  Transition.isRunning tween = true →
  ∃ tween',
    Transition.cancel true tween
    = (tween', [(Transition.OnUpdate, Transition.endValue tween);
                (Transition.OnEnd, Transition.endValue tween)])
    ∧ Transition.isRunning tween' = false
    ∧ Transition.endValue tween' = Transition.endValue tween.
Proof.
  intros Hrun. unfold Transition.cancel. rewrite Hrun. cbn.
  eexists. split; [reflexivity|]. split; [|reflexivity].
  unfold Transition.isRunning. cbn. by rewrite andb_false_r.
Qed.

(** *** Lists *)

Lemma remove_first_filter (id : nat) (l : list nat) :
  NoDup l → remove_first id l = removeFrameCallback id l.
Proof.
  unfold removeFrameCallback.
  induction 1 as [|x l Hx Hl IH]; cbn [remove_first List.filter]; [done|].
  case_decide as Heq.
  - subst x. rewrite Nat.eqb_refl. cbn [negb].
    symmetry. clear IH Hl. induction l as [|y l IH]; [done|].
    cbn [List.filter]. apply not_elem_of_cons in Hx as [Hne Hx].
    destruct (Nat.eqb_spec y id) as [->|_]; [done|]. cbn [negb].
    f_equal. by apply IH.
  - destruct (Nat.eqb_spec x id) as [->|_]; [done|]. cbn [negb].
    by rewrite IH.
Qed.

Lemma remove_first_in (x id : nat) (l : list nat) :
  NoDup l → x ∈ remove_first id l ↔ x ∈ l ∧ x ≠ id.
Proof.
  induction 1 as [|y l Hy Hl IH]; cbn [remove_first].
  { rewrite elem_of_nil. tauto. }
  case_decide as Heq.
  - subst y. rewrite elem_of_cons. split.
    + intros Hx. split; [by right|]. by intros ->.
    + by intros [[->|?] ?].
  - rewrite !elem_of_cons, IH. split.
    + intros [->|[? ?]]; [by split; [left|]|by split; [right|]].
    + intros [[->|?] ?]; [by left|by right].
Qed.

Lemma remove_first_distinct (id : nat) (l : list nat) :
  NoDup l → NoDup (remove_first id l).
Proof.
  induction 1 as [|y l Hy Hl IH]; cbn [remove_first]; [constructor|].
  case_decide; [done|]. constructor; [|done].
  rewrite remove_first_in by done. tauto.
Qed.

(** *** One transition of the layout *)

Lemma layout_running_allocated this id :
  running this id = true →
  ∃ it, allocated this !! id = Some it
        ∧ Transition.isRunning (tween it) = true.
Proof.
  unfold running. destruct (allocated this !! id) as [it|]; [|done].
  intros H. by exists it.
Qed.

Lemma heading_insert this id it tween' :
  allocated this !! id = Some it →
  Transition.endValue tween' = Transition.endValue (tween it) →
  ∀ id',
    (λ it, (target it, Transition.endValue (tween it)))
      <$> <[id := {| target := target it; tween := tween' |}]>
            (allocated this) !! id'
    = heading this id'.
Proof.
  intros Hit Hend id'. unfold heading.
  destruct (decide (id' = id)) as [->|Hne].
  - rewrite list_lookup_insert_eq by (by eapply lookup_lt_Some).
    rewrite Hit. cbn. by rewrite Hend.
  - by rewrite list_lookup_insert_ne.
Qed.

Lemma cancelTransition_touched this id :
  Inv this → id ∈ transitions this →
  touched id this (cancelTransition id this)
  ∧ id ∉ transitions (cancelTransition id this).
Proof.
  intros Hinv Hid.
  destruct (layout_running_allocated _ _ (inv_running _ Hinv id Hid))
    as (it & Hit & Hrun).
  destruct (cancel_linear _ Hrun) as (tween' & Hcancel & Hstopped & Hend).
  unfold cancelTransition. rewrite Hit, Hcancel.
  unfold touched, same_page. cbn.
  split.
  - split; [done|].
    split; [intros id'; unfold heading at 1; cbn; by apply heading_insert|].
    split.
    { intros id' Hne. by rewrite list_lookup_insert_ne. }
    exists (target it), (Transition.endValue (tween it)),
           (Transition.endValue (tween it)).
    split; [unfold heading; by rewrite Hit|]. split; [done|].
    right. split; [done|]. split; [done|]. split; [|done].
    unfold running. cbn.
    by rewrite list_lookup_insert_eq by (by eapply lookup_lt_Some).
  - rewrite remove_first_in by apply Hinv. tauto.
Qed.

Lemma updateTransition_touched time this id :
  Inv this → id ∈ transitions this →
  touched id this (updateTransition time id this).
Proof.
  intros Hinv Hid.
  destruct (layout_running_allocated _ _ (inv_running _ Hinv id Hid))
    as (it & Hit & Hrun).
  destruct (inv_linear _ Hinv id Hid) as (it' & Hit' & Hconverter & Heasing).
  assert (it' = it) by congruence. subst it'.
  destruct (update_linear time _ Hrun Hconverter Heasing)
    as (tween' & written & Hupdate & Hconverter' & Heasing' & Hend & Hwritten).
  unfold updateTransition. rewrite Hit, Hupdate.
  assert (Hlookup :
    <[id := {| target := target it; tween := tween' |}]> (allocated this)
      !! id = Some {| target := target it; tween := tween' |})
    by (by rewrite list_lookup_insert_eq by (by eapply lookup_lt_Some)).
  unfold touched, same_page.
  destruct (Transition.isRunning tween') eqn:Hrun'; cbn.
  - split; [done|].
    split; [intros id'; unfold heading at 1; cbn; by apply heading_insert|].
    split.
    { intros id' Hne. by rewrite list_lookup_insert_ne. }
    exists (target it), (Transition.endValue (tween it)), written.
    split; [unfold heading; by rewrite Hit|]. split; [done|].
    left. split; [done|]. split; [done|]. split.
    + unfold running. cbn. by rewrite Hlookup.
    + eexists. cbn. split; [exact Hlookup|]. done.
  - split; [done|].
    split; [intros id'; unfold heading at 1; cbn; by apply heading_insert|].
    split.
    { intros id' Hne. by rewrite list_lookup_insert_ne. }
    exists (target it), (Transition.endValue (tween it)), written.
    split; [unfold heading; by rewrite Hit|]. split; [done|].
    right. split; [done|]. split; [done|]. split; [|by apply Hwritten].
    unfold running. cbn. by rewrite Hlookup.
Qed.

Lemma touched_Inv id this this' :
  Inv this → id ∈ transitions this → touched id this this' → Inv this'.
Proof.
  intros Hinv Hid (Hpage & Hheading & Hothers & e & o & v & He & Hstyles
                   & Hcases).
  destruct Hpage as (_ & Hlayouts & _).
  assert (Hrunning : ∀ id', id' ≠ id → running this' id' = running this id').
  { intros id' Hne. unfold running. by rewrite Hothers. }
  assert (Hlinear : ∀ id', id' ≠ id → linear this id' → linear this' id').
  { intros id' Hne (it & Hit & ?). exists it. by rewrite Hothers. }
  destruct Hcases as [(Htracked & Hframe & Hrun & Hlin)
                     |(Htracked & Hframe & Hrun & _)].
  - split.
    + rewrite Htracked. apply Hinv.
    + rewrite Hframe, Htracked. apply Hinv.
    + intros id'. rewrite Htracked. intros Hid'.
      destruct (decide (id' = id)) as [->|Hne]; [done|].
      rewrite Hrunning by done. by apply Hinv.
    + intros id'. rewrite Htracked. intros Hid'.
      destruct (decide (id' = id)) as [->|Hne]; [done|].
      apply Hlinear; [done|]. by apply Hinv.
    + rewrite Hlayouts. apply Hinv.
  - split.
    + rewrite Htracked. apply remove_first_distinct, Hinv.
    + rewrite Hframe, Htracked, (inv_frame _ Hinv).
      symmetry. apply remove_first_filter, Hinv.
    + intros id'. rewrite Htracked, remove_first_in by apply Hinv.
      intros [Hid' Hne]. rewrite Hrunning by done. by apply Hinv.
    + intros id'. rewrite Htracked, remove_first_in by apply Hinv.
      intros [Hid' Hne]. apply Hlinear; [done|]. by apply Hinv.
    + rewrite Hlayouts. apply Hinv.
Qed.

(** *** Frames and [snap()] *)

Section Preserved.
Variable P : t → Prop.
Hypothesis P_touched : ∀ id this this',
  Inv this → P this → id ∈ transitions this → touched id this this' →
  P this'.

Lemma nextFrame_preserves time this :
  Inv this → P this → Inv (nextFrame time this) ∧ P (nextFrame time this).
Proof using P_touched.
  unfold nextFrame. generalize (frameCallbacks this) as ids.
  intros ids. revert this.
  induction ids as [|id ids IH]; intros this Hinv HP; cbn [foldl]; [done|].
  case_bool_decide as Hid; [|by apply IH].
  rewrite (inv_frame _ Hinv) in Hid.
  pose proof (updateTransition_touched time this id Hinv Hid) as Htouched.
  apply IH; [by eapply touched_Inv|by eapply P_touched].
Qed.

Lemma frames_preserves times this :
  Inv this → P this → Inv (frames times this) ∧ P (frames times this).
Proof using P_touched.
  unfold frames. revert this.
  induction times as [|time times IH]; intros this Hinv HP; cbn [foldl];
    [done|].
  destruct (nextFrame_preserves time this Hinv HP). by apply IH.
Qed.

Lemma cancelAll_preserves ids :
  ∀ this,
    NoDup ids → ids ⊆ transitions this → Inv this → P this →
    let this' := foldl (λ this id, cancelTransition id this) this ids in
    Inv this' ∧ P this'
    ∧ ∀ id, id ∈ transitions this' ↔ id ∈ transitions this ∧ id ∉ ids.
Proof using P_touched.
  induction ids as [|id ids IH]; intros this Hnodup Hsub Hinv HP;
    cbn [foldl].
  { split; [done|]. split; [done|]. intros id. rewrite elem_of_nil. tauto. }
  apply NoDup_cons in Hnodup as [Hid Hnodup].
  assert (Htracked : id ∈ transitions this) by (apply Hsub; by left).
  destruct (cancelTransition_touched this id Hinv Htracked)
    as [Htouched Hgone].
  pose proof Htouched as (_ & _ & _ & e & o & v & _ & _ & Hcases).
  assert (Hafter : transitions (cancelTransition id this)
                   = remove_first id (transitions this)).
  { destruct Hcases as [(Hsame & _)|(Hremoved & _)]; [|done].
    rewrite Hsame in Hgone. done. }
  destruct (IH (cancelTransition id this)) as (Hinv' & HP' & Hiff);
    [done| |by eapply touched_Inv|by eapply P_touched|].
  { intros x Hx. rewrite Hafter, remove_first_in by apply Hinv.
    split; [apply Hsub; by right|]. by intros ->. }
  split; [done|]. split; [done|]. intros x.
  rewrite Hiff, Hafter, remove_first_in by apply Hinv.
  rewrite not_elem_of_cons. tauto.
Qed.

Lemma snap_preserves this :
  Inv this → P this →
  Inv (snap this) ∧ P (snap this) ∧ transitions (snap this) = [].
Proof using P_touched.
  intros Hinv HP.
  destruct (cancelAll_preserves (transitions this) this)
    as (Hinv' & HP' & Hiff); [apply Hinv|done|done|done|].
  split; [done|]. split; [done|].
  change (foldl _ this (transitions this)) with (snap this) in Hiff.
  destruct (transitions (snap this)) as [|id rest]; [done|].
  exfalso. assert (Hin : id ∈ id :: rest) by (by left).
  apply Hiff in Hin. tauto.
Qed.

End Preserved.

Lemma touched_same_page id this this' :
  touched id this this' → same_page this this'.
Proof. by intros [? _]. Qed.

Lemma same_page_trans this1 this2 this3 :
  same_page this1 this2 → same_page this2 this3 → same_page this1 this3.
Proof.
  intros (?&?&?&?&?) (?&?&?&?&?). repeat split; congruence.
Qed.

Lemma same_page_refl this : same_page this this.
Proof. done. Qed.

(** *** [transitionElement] *)

Lemma tracked_allocated this id :
  Inv this → id ∈ transitions this → (id < length (allocated this))%nat.
Proof.
  intros Hinv Hid.
  destruct (layout_running_allocated _ _ (inv_running _ Hinv id Hid)) as (it & Hit & _).
  by eapply lookup_lt_Some.
Qed.

Lemma transitionElement_spec element opacity this :
  Inv this →
  ∃ this' written,
    transitionElement element opacity LAYOUT_TRANSITION_DURATION this
    = Ok this'
    ∧ same_page this this' ∧ Inv this'
    ∧ transitions this' = transitions this ++ [length (allocated this)]
    ∧ heading this' (length (allocated this)) = Some (element, opacity)
    ∧ (∀ id, (id < length (allocated this))%nat →
         heading this' id = heading this id)
    ∧ styles this' = <[element := setOpacity written]> (styles this).
Proof.
  intros Hinv. unfold transitionElement.
  destruct (start_layout (getOpacity (style_of this element)) opacity)
    as (started & written & -> & Hrun & Hconverter & Heasing & Hend).
  set (id := length (allocated this)).
  assert (Hfresh : id ∉ transitions this).
  { intros Hid. apply (tracked_allocated _ _ Hinv) in Hid. subst id. lia. }
  eexists _, written. cbn. split; [reflexivity|].
  assert (Hlookup :
    <[id := {| target := element; tween := started |}]>
      (allocated this
         ++ [{| target := element;
                tween := Transition.new (getOpacity (style_of this element))
                           opacity LAYOUT_TRANSITION_DURATION
                           Transition.IdentityConverter |}]) !! id
    = Some {| target := element; tween := started |}).
  { apply list_lookup_insert_eq. rewrite length_app. cbn. subst id. lia. }
  assert (Hold : ∀ id', (id' < id)%nat →
    <[id := {| target := element; tween := started |}]>
      (allocated this
         ++ [{| target := element;
                tween := Transition.new (getOpacity (style_of this element))
                           opacity LAYOUT_TRANSITION_DURATION
                           Transition.IdentityConverter |}]) !! id'
    = allocated this !! id').
  { intros id' Hlt. rewrite list_lookup_insert_ne by lia.
    by apply lookup_app_l. }
  split; [done|]. split; [|split; [done|]; split; [|split; [|done]]].
  - split; cbn.
    + apply NoDup_app. split; [apply Hinv|]. split; [|apply NoDup_singleton].
      intros x Hx ->%list_elem_of_singleton. done.
    + rewrite (inv_frame _ Hinv). unfold addFrameCallback.
      by rewrite bool_decide_eq_false_2.
    + intros id'. rewrite elem_of_app, list_elem_of_singleton.
      unfold running. cbn. intros [Hid'| ->].
      * rewrite Hold by (by apply tracked_allocated).
        by apply (inv_running _ Hinv).
      * by rewrite Hlookup.
    + intros id'. rewrite elem_of_app, list_elem_of_singleton.
      unfold linear. cbn. intros [Hid'| ->].
      * rewrite Hold by (by apply tracked_allocated).
        by apply (inv_linear _ Hinv).
      * rewrite Hlookup. by eexists.
    + apply Hinv.
  - unfold heading. cbn. rewrite Hlookup. cbn. by rewrite Hend.
  - intros id' Hlt. unfold heading. cbn. by rewrite Hold.
Qed.

(** *** Fading *)

Lemma style_of_insert this this' element style element' :
  styles this' = <[element := style]> (styles this) →
  style_of this' element'
  = if decide (element' = element) then style else style_of this element'.
Proof.
  intros Hstyles. unfold style_of. rewrite Hstyles.
  case_decide as Heq.
  - subst. by rewrite lookup_insert_eq.
  - by rewrite lookup_insert_ne.
Qed.

Lemma touched_Fading targets opacity id this this' :
  Fading targets opacity this → id ∈ transitions this →
  touched id this this' → Fading targets opacity this'.
Proof.
  intros [Hinv Htracked Htargets] Hid Htouched.
  pose proof (touched_Inv _ _ _ Hinv Hid Htouched) as Hinv'.
  destruct Htouched as (_ & Hheading & _ & e & o & v & He & Hstyles & Hcases).
  destruct (Htracked id Hid) as (e0 & o0 & He0 & Hin0 & Ho0).
  assert (e0 = e ∧ o0 = o) as [-> ->] by (split; congruence).
  assert (Hsub : ∀ id', id' ∈ transitions this' → id' ∈ transitions this).
  { intros id'. destruct Hcases as [(-> & _)|(-> & _)]; [done|].
    rewrite remove_first_in by apply Hinv. tauto. }
  split; [done| |].
  - intros id' Hid'. rewrite Hheading. by apply Htracked, Hsub.
  - intros e' He'. rewrite (style_of_insert _ _ _ _ _ Hstyles).
    case_decide as Heq.
    + subst e'. destruct Hcases as [(Hsame & _)|(_ & _ & _ & Hv)].
      * left. exists id, o. by rewrite Hsame, Hheading.
      * right. by rewrite getOpacity_setOpacity, Hv.
    + destruct (Htargets e' He') as [(id' & o' & Hid' & Hh)|?]; [|by right].
      left. exists id', o'. rewrite Hheading. split; [|done].
      destruct Hcases as [(-> & _)|(-> & _)]; [done|].
      rewrite remove_first_in by apply Hinv. split; [done|].
      intros ->. congruence.
Qed.

Lemma touched_untouched targets opacity id origin this this' :
  Fading targets opacity this → id ∈ transitions this →
  touched id this this' →
  untouched targets origin this → untouched targets origin this'.
Proof.
  intros Hfading Hid Htouched Huntouched e' He'.
  destruct Htouched as (_ & _ & _ & e & o & v & He & Hstyles & _).
  destruct (fading_tracked _ _ _ Hfading id Hid) as (e0 & o0 & He0 & Hin0 & _).
  assert (e0 = e) by congruence. subst e0.
  rewrite (style_of_insert _ _ _ _ _ Hstyles).
  case_decide as Heq; [by subst|]. by apply Huntouched.
Qed.

(** Waiting and snapping: the nodes that were fading have the opacity
    they were fading to, the others their style, and nothing is
    tracked. *)
Lemma faded targets opacity times origin this :
  Fading targets opacity this →
  same_page origin this →
  untouched targets origin this →
  let this' := snap (frames times this) in
  Inv this' ∧ transitions this' = [] ∧ same_page origin this'
  ∧ untouched targets origin this'
  ∧ ∀ element, element ∈ targets →
      getOpacity (style_of this' element) == opacity.
Proof.
  intros Hfading Hpage Huntouched.
  set (P := λ this, Fading targets opacity this ∧ same_page origin this
                    ∧ untouched targets origin this).
  assert (HP : ∀ id this this',
    Inv this → P this → id ∈ transitions this → touched id this this' →
    P this').
  { intros id cur cur' _ (Hf & Hp & Hu) Hid Htouched. split; [|split].
    - by eapply touched_Fading.
    - eapply same_page_trans; [done|]. by eapply touched_same_page.
    - by eapply touched_untouched. }
  destruct (frames_preserves P HP times this) as [Hinv1 HP1];
    [apply Hfading|done|].
  destruct (snap_preserves P HP (frames times this) Hinv1 HP1)
    as (Hinv2 & (Hf2 & Hp2 & Hu2) & Hrest).
  cbn. split; [done|]. split; [done|]. split; [done|]. split; [done|].
  intros e He.
  destruct (fading_targets _ _ _ Hf2 e He) as [(id & _ & Hid & _)|?]; [|done].
  rewrite Hrest in Hid. by apply elem_of_nil in Hid.
Qed.

Lemma transitionElements_Fading opacity elements :
  ∀ started origin this,
    Fading started opacity this →
    same_page origin this →
    untouched started origin this →
    ∃ this',
      forEach (λ element,
                 transitionElement element opacity LAYOUT_TRANSITION_DURATION)
              elements this = Ok this'
      ∧ Fading (started ++ elements) opacity this'
      ∧ same_page origin this'
      ∧ untouched (started ++ elements) origin this'.
Proof.
  induction elements as [|element elements IH];
    intros started origin this Hfading Hpage Huntouched; cbn [forEach].
  { exists this. by rewrite app_nil_r. }
  destruct Hfading as [Hinv Htracked Htargets].
  destruct (transitionElement_spec element opacity this Hinv)
    as (this1 & written & -> & Hpage1 & Hinv1 & Htransitions & Hnew & Hold
        & Hstyles).
  cbn [mbind result_bind].
  destruct (IH (started ++ [element]) origin this1) as (this' & -> & H).
  - split; [done| |].
    + intros id. rewrite Htransitions, elem_of_app, list_elem_of_singleton.
      intros [Hid| ->].
      * rewrite Hold by (by apply tracked_allocated).
        destruct (Htracked id Hid) as (e & o & ? & ? & ?).
        exists e, o. rewrite elem_of_app. tauto.
      * exists element, opacity. rewrite elem_of_app, list_elem_of_singleton.
        split; [done|]. split; [by right|done].
    + intros e He. rewrite (style_of_insert _ _ _ _ _ Hstyles).
      case_decide as Heq.
      * subst e. left. exists (length (allocated this)), opacity.
        rewrite Htransitions, elem_of_app, list_elem_of_singleton.
        split; [by right|done].
      * apply elem_of_app in He as [He|He%list_elem_of_singleton]; [|done].
        destruct (Htargets e He) as [(id & o & Hid & Hh)|?]; [|by right].
        left. exists id, o. rewrite Htransitions, elem_of_app.
        split; [by left|]. rewrite Hold by (by apply tracked_allocated). done.
  - by eapply same_page_trans.
  - intros e He. rewrite (style_of_insert _ _ _ _ _ Hstyles).
    rewrite elem_of_app, list_elem_of_singleton in He.
    case_decide as Heq; [tauto|]. apply Huntouched. tauto.
  - exists this'. rewrite <- app_assoc in H. done.
Qed.

(** *** Exiting and entering nodes *)

Lemma exitEnterElements_spec oldLayoutName newLayoutName elementLayouts
    exitElements enterElements :
  exitEnterElements oldLayoutName newLayoutName elementLayouts
  = (exitElements, enterElements) →
  ∀ element,
    (element ∈ exitElements
     ↔ ∃ layoutNames, (element, layoutNames) ∈ elementLayouts
                      ∧ oldLayoutName ∈ layoutNames
                      ∧ newLayoutName ∉ layoutNames)
    ∧ (element ∈ enterElements
       ↔ ∃ layoutNames, (element, layoutNames) ∈ elementLayouts
                        ∧ (oldLayoutName ∉ layoutNames)
                        ∧ newLayoutName ∈ layoutNames).
Proof.
  revert exitElements enterElements.
  induction elementLayouts as [|[node names] elementLayouts IH];
    intros exits enters; cbn [exitEnterElements].
  { intros [= <- <-] e. rewrite !elem_of_nil.
    split; (split; [done|]); by intros (? & ?%elem_of_nil & _). }
  destruct (exitEnterElements _ _ elementLayouts) as [exits0 enters0].
  specialize (IH _ _ eq_refl). unfold includes.
  intros Heq e. destruct (IH e) as [IHexit IHenter].
  assert (Hcons : ∀ (Q : list string → Prop),
    (∃ l, (e, l) ∈ (node, names) :: elementLayouts ∧ Q l)
    ↔ (e = node ∧ Q names) ∨ ∃ l, (e, l) ∈ elementLayouts ∧ Q l).
  { intros Q. split.
    - intros (l & Hin & HQ); apply elem_of_cons in Hin as [[= -> ->]|Hin]; [by left|].
      right. by exists l.
    - intros [[-> HQ]|(l & Hin & HQ)].
      + exists names. split; [by left|done].
      + exists l. split; [by right|done]. }
  rewrite (Hcons (λ l, oldLayoutName ∈ l ∧ newLayoutName ∉ l)).
  rewrite (Hcons (λ l, (oldLayoutName ∉ l) ∧ newLayoutName ∈ l)).
  rewrite <- IHexit, <- IHenter.
  destruct (bool_decide (oldLayoutName ∈ names)) eqn:Hold;
    destruct (bool_decide (newLayoutName ∈ names)) eqn:Hnew;
    cbn in Heq; injection Heq as <- <-;
    try apply bool_decide_eq_true in Hold;
    try apply bool_decide_eq_false in Hold;
    try apply bool_decide_eq_true in Hnew;
    try apply bool_decide_eq_false in Hnew;
    rewrite ?elem_of_cons; split; split; tauto.
Qed.

Lemma elementLayouts_unique (layouts : list (Node * list string))
    element names names' :
  NoDup (fst <$> layouts) →
  (element, names) ∈ layouts → (element, names') ∈ layouts → names = names'.
Proof.
  induction layouts as [|[node l] layouts IH]; cbn.
  { by intros _ ?%elem_of_nil. }
  intros [Hnode Hnodup]%NoDup_cons.
  assert (Hkey : ∀ l', (node, l') ∈ layouts → False).
  { intros l' Hin. apply Hnode, list_elem_of_fmap. by exists (node, l'). }
  intros H1 H2. apply elem_of_cons in H1 as [[= -> ->]|H1];
    apply elem_of_cons in H2 as [[= ?]|H2].
  - done.
  - by destruct (Hkey names').
  - subst. by destruct (Hkey names).
  - by apply IH.
Qed.

(** *** A complete switch *)

Lemma rest_Fading opacity this :
  Inv this → transitions this = [] → Fading [] opacity this.
Proof.
  intros Hinv Hrest. split; [done| |].
  - intros id. rewrite Hrest. by intros ?%elem_of_nil.
  - by intros e ?%elem_of_nil.
Qed.

Lemma set_layoutName_Inv newLayoutName this :
  Inv this → Inv (set_layoutName newLayoutName this).
Proof. intros [? ? ? ? ?]. by split. Qed.

Lemma transition_Fading newLayoutName this this2 exits suspended :
  Inv this → transitions this = [] →
  transition newLayoutName this = Ok (this2, exits, suspended) →
  ∃ exitElements enterElements,
    exitEnterElements (layoutName this) newLayoutName (elementLayouts this)
    = (exitElements, enterElements)
    ∧ Fading exitElements 0 this2
    ∧ same_page (set_layoutName newLayoutName this) this2
    ∧ untouched exitElements this this2
    ∧ (suspended = Enter enterElements
       ∨ (suspended = Finished ∧ enterElements = [])).
Proof.
  intros Hinv Hrest. unfold transition.
  destruct (includes (layoutNames this) newLayoutName); [|discriminate].
  cbn [negb].
  destruct (exitEnterElements (layoutName this) newLayoutName
              (elementLayouts this)) as [exitElements enterElements] eqn:Hsplit.
  set (this1 := set_layoutName newLayoutName this).
  assert (Hinv1 : Inv this1) by (by apply set_layoutName_Inv).
  destruct (String.eqb_spec (layoutName this) newLayoutName) as [Heq|Hne].
  - intros [= <- <- <-]. exists exitElements, enterElements. split; [done|].
    assert (exitElements = [] ∧ enterElements = []) as [-> ->].
    { pose proof (exitEnterElements_spec _ _ _ _ _ Hsplit) as Hspec.
      rewrite Heq in Hspec. split.
      - destruct exitElements as [|e l]; [done|]. exfalso.
        destruct (Hspec e) as [[(? & _ & ? & ?) _] _]; [by left|done].
      - destruct enterElements as [|e l]; [done|]. exfalso.
        destruct (Hspec e) as [_ [(? & _ & ? & ?) _]]; [by left|done]. }
    split; [by apply rest_Fading|]. split; [done|]. split; [done|].
    by right.
  - change (elementLayouts this1) with (elementLayouts this).
    rewrite Hsplit.
    destruct (transitionElements_Fading 0 exitElements [] this1 this1)
      as (this' & Hforeach & Hfading & Hpage & Huntouched);
      [by apply rest_Fading|done|done|].
    fold this1. rewrite Hforeach. cbn [mbind result_bind].
    intros [= <- <- <-]. exists exitElements, enterElements.
    split; [done|]. split; [done|]. split; [done|]. split; [done|].
    by left.
Qed.

Lemma switch_faded newLayoutName times1 times2 this this' exits :
  Inv this → transitions this = [] →
  switch newLayoutName times1 times2 this = Ok (this', exits) →
  ∃ exitElements enterElements,
    exitEnterElements (layoutName this) newLayoutName (elementLayouts this)
    = (exitElements, enterElements)
    ∧ Inv this' ∧ transitions this' = []
    ∧ layoutName this' = newLayoutName
    ∧ elementLayouts this' = elementLayouts this
    ∧ (∀ element, element ∈ exitElements → element ∉ enterElements →
         getOpacity (style_of this' element) == 0)
    ∧ (∀ element, element ∈ enterElements →
         getOpacity (style_of this' element) == 1)
    ∧ (∀ element, element ∉ exitElements → element ∉ enterElements →
         style_of this' element = style_of this element).
Proof.
  intros Hinv Hrest Hswitch. unfold switch in Hswitch.
  destruct (transition newLayoutName this)
    as [[[this2 exits2] suspended]|e] eqn:Hfirst; [|discriminate].
  cbn [mbind result_bind] in Hswitch. cbv zeta in Hswitch.
  destruct (transition_Fading _ _ _ _ _ Hinv Hrest Hfirst)
    as (exitElements & enterElements & Hsplit & Hfading2 & Hpage2
        & Huntouched2 & Hsuspended).
  exists exitElements, enterElements. split; [done|].
  set (this1 := set_layoutName newLayoutName this) in *.
  assert (Huntouched2' : untouched exitElements this1 this2) by done.
  destruct (faded exitElements 0 times1 this1 this2 Hfading2 Hpage2
              Huntouched2')
    as (Hinv3 & Hrest3 & Hpage3 & Huntouched3 & Hexit3).
  set (this3 := snap (frames times1 this2)) in *.
  assert (Hsecond : ∃ this4,
    transition_next suspended this3 = Ok this4
    ∧ Fading enterElements 1 this4 ∧ same_page this3 this4
    ∧ untouched enterElements this3 this4).
  { destruct Hsuspended as [->|[-> ->]]; cbn [transition_next].
    - destruct (transitionElements_Fading 1 enterElements [] this3 this3)
        as (this4 & -> & ? & ? & ?);
        [by apply rest_Fading|done|done|].
      by exists this4.
    - exists this3. split; [done|]. split; [by apply rest_Fading|done]. }
  destruct Hsecond as (this4 & Hnext & Hfading4 & Hpage4 & Huntouched4).
  rewrite Hnext in Hswitch. cbn [mbind result_bind] in Hswitch.
  destruct (faded enterElements 1 times2 this3 this4 Hfading4 Hpage4
              Huntouched4)
    as (Hinv5 & Hrest5 & Hpage5 & Huntouched5 & Henter5).
  injection Hswitch as <- <-.
  pose proof (same_page_trans _ _ _ Hpage3 Hpage5) as (_ & Hlayouts & _ & _
                                                       & Hname).
  split; [done|]. split; [done|]. split; [done|]. split; [done|].
  split; [|split; [done|]].
  - intros e Hexit Hnot. rewrite (Huntouched5 e Hnot). by apply Hexit3.
  - intros e Hexit Henter.
    by rewrite (Huntouched5 e Henter), (Huntouched3 e Hexit).
Qed.

(** X11: a complete switch of the layout at rest: the nodes that are in the
    old layout and not in the new one end hidden, those in the new
    layout and not in the old one end fully opaque, every other node,
    decorated or not, keeps its style; the new layout is the active
    one, and the layout is at rest again: it tracks no transition and
    holds no frame callback, whatever frames the clock ran while the
    view waited. *)
Theorem switch_visibility newLayoutName times1 times2 this this' exits :
  Inv this → transitions this = [] →
  switch newLayoutName times1 times2 this = Ok (this', exits) →
  layoutName this' = newLayoutName
  ∧ Inv this' ∧ transitions this' = [] ∧ frameCallbacks this' = []
  ∧ (∀ element layoutNames,
       (element, layoutNames) ∈ elementLayouts this →
       (layoutName this ∈ layoutNames → newLayoutName ∉ layoutNames →
          getOpacity (style_of this' element) == 0)
       ∧ (layoutName this ∉ layoutNames → newLayoutName ∈ layoutNames →
          getOpacity (style_of this' element) == 1)
       ∧ ((layoutName this ∈ layoutNames ↔ newLayoutName ∈ layoutNames) →
          style_of this' element = style_of this element))
  ∧ (∀ element, element ∉ fst <$> elementLayouts this →
       style_of this' element = style_of this element).
Proof.
  intros Hinv Hrest Hswitch.
  destruct (switch_faded _ _ _ _ _ _ Hinv Hrest Hswitch)
    as (exitElements & enterElements & Hsplit & Hinv' & Hrest' & Hname
        & Hlayouts & Hexit & Henter & Hother).
  pose proof (exitEnterElements_spec _ _ _ _ _ Hsplit) as Hspec.
  split; [done|]. split; [done|]. split; [done|].
  split; [by rewrite (inv_frame _ Hinv')|]. split.
  - intros e names Hin.
    assert (Hunique : ∀ names', (e, names') ∈ elementLayouts this →
                                names' = names).
    { intros names' Hin'.
      by apply (elementLayouts_unique _ e names' names (inv_nodes _ Hinv)). }
    destruct (Hspec e) as [Hexits Henters].
    assert (Hnotenter : (layoutName this ∈ names ∨ newLayoutName ∉ names) →
                        e ∉ enterElements).
    { intros Hor [names' (Hin' & ? & ?)]%Henters.
      apply Hunique in Hin'. subst names'. tauto. }
    assert (Hnotexit : (layoutName this ∉ names ∨ newLayoutName ∈ names) →
                       e ∉ exitElements).
    { intros Hor [names' (Hin' & ? & ?)]%Hexits.
      apply Hunique in Hin'. subst names'. tauto. }
    split; [|split].
    + intros Hold Hnew. apply Hexit; [|by apply Hnotenter; left].
      apply Hexits. by exists names.
    + intros Hold Hnew. apply Henter, Henters. by exists names.
    + intros Hiff.
      destruct (decide (layoutName this ∈ names)) as [Hold|Hold].
      * apply Hother; [apply Hnotexit; right; tauto|by apply Hnotenter; left].
      * apply Hother; [by apply Hnotexit; left|apply Hnotenter; right; tauto].
  - intros e Hkey. apply Hother.
    + destruct (Hspec e) as [Hexits _].
      intros [names (Hin & _)]%Hexits. apply Hkey, list_elem_of_fmap.
      by exists (e, names).
    + destruct (Hspec e) as [_ Henters].
      intros [names (Hin & _)]%Henters. apply Hkey, list_elem_of_fmap.
      by exists (e, names).
Qed.

Lemma switch_total newLayoutName times1 times2 this :
  Inv this → transitions this = [] →
  (newLayoutName ∈ layoutNames this →
   ∃ this' exits, switch newLayoutName times1 times2 this = Ok (this', exits))
  ∧ (newLayoutName ∉ layoutNames this →
     ∃ e, switch newLayoutName times1 times2 this = Err e).
Proof.
  intros Hinv Hrest. split.
  - intros Hknown. unfold switch.
    assert (Hfirst : ∃ this2 exits suspended,
      transition newLayoutName this = Ok (this2, exits, suspended)).
    { unfold transition, includes.
      rewrite bool_decide_eq_true_2 by done. cbn [negb].
      destruct (String.eqb _ _); [by eexists _, _, _|].
      destruct (exitEnterElements _ _ _) as [exitElements enterElements].
      destruct (transitionElements_Fading 0 exitElements []
                  (set_layoutName newLayoutName this)
                  (set_layoutName newLayoutName this))
        as (this' & -> & _);
        [by apply rest_Fading; [apply set_layoutName_Inv|]|done|done|].
      cbn [mbind result_bind]. by eexists _, _, _. }
    destruct Hfirst as (this2 & exits & suspended & Hfirst).
    rewrite Hfirst. cbn [mbind result_bind]. cbv zeta.
    destruct (transition_Fading _ _ _ _ _ Hinv Hrest Hfirst)
      as (exitElements & enterElements & _ & Hfading2 & Hpage2 & Huntouched2
          & _).
    destruct (faded exitElements 0 times1 _ this2 Hfading2 Hpage2)
      as (Hinv3 & Hrest3 & _); [done|].
    destruct suspended as [|enterElements']; cbn [transition_next].
    + by eexists _, _.
    + destruct (transitionElements_Fading 1 enterElements' []
                  (snap (frames times1 this2)) (snap (frames times1 this2)))
        as (this4 & -> & _); [by apply rest_Fading|done|done|].
      cbn [mbind result_bind]. by eexists _, _.
  - intros Hunknown. unfold switch, transition, includes.
    rewrite bool_decide_eq_false_2 by done. cbn. by eexists.
Qed.

(** *** The constructor *)

Lemma create_styles (elementLayouts : list (Node * list string)) :
  ∀ (styles : gmap Node Style) element,
    (styles !! element = Some (setOpacity 0)
     ∨ ∃ layoutNames, (element, layoutNames) ∈ elementLayouts
                      ∧ "none"%string ∉ layoutNames) →
    foldl (λ styles entry,
             if includes (snd entry) "none" then styles
             else <[fst entry := setOpacity 0]> styles)
          styles elementLayouts !! element
    = Some (setOpacity 0).
Proof.
  induction elementLayouts as [|[node names] elementLayouts IH];
    intros styles e; cbn [foldl fst snd].
  { intros [?|(? & ?%elem_of_nil & _)]; done. }
  intros Hcases. apply IH. unfold includes.
  destruct Hcases as [Hset|(l & Hin & Hnone)].
  - left. case_bool_decide; [done|].
    destruct (decide (e = node)) as [->|Hne].
    + by rewrite lookup_insert_eq.
    + by rewrite lookup_insert_ne.
  - apply elem_of_cons in Hin as [[= -> ->]|Hin].
    + left. rewrite bool_decide_eq_false_2 by done.
      by rewrite lookup_insert_eq.
    + right. by exists l.
Qed.

Lemma create_Settled elementLayouts containers templates styles :
  NoDup (fst <$> elementLayouts) →
  Settled (create elementLayouts containers templates styles).
Proof.
  intros Hnodup. split.
  - split; cbn; try done; try constructor.
    + by intros id ?%elem_of_nil.
    + by intros id ?%elem_of_nil.
  - done.
  - intros e names Hin Hnone. cbn in Hnone.
    unfold style_of. cbn [Layout.styles create].
    rewrite (create_styles elementLayouts styles e).
    + cbn. apply getOpacity_setOpacity.
    + right. by exists names.
Qed.

(** X12: at rest, no decorated node outside the active layout is visible.
    The constructor leaves the layout so (the keys of [elementLayouts]
    are distinct, as the keys of a [Map] are), and every complete
    switch from a layout at rest leaves it so.  A switch to a known
    layout never throws, and a switch to an unknown one always does. *)
Theorem inactive_layouts_hidden :
  (∀ elementLayouts containers templates styles,
     NoDup (fst <$> elementLayouts) →
     Settled (create elementLayouts containers templates styles))
  ∧ (∀ newLayoutName times1 times2 this this' exits,
       Settled this →
       switch newLayoutName times1 times2 this = Ok (this', exits) →
       Settled this')
  ∧ (∀ newLayoutName times1 times2 this,
       Settled this →
       (newLayoutName ∈ layoutNames this →
        ∃ this' exits,
          switch newLayoutName times1 times2 this = Ok (this', exits))
       ∧ (newLayoutName ∉ layoutNames this →
          ∃ e, switch newLayoutName times1 times2 this = Err e)).
Proof.
  split; [apply create_Settled|]. split.
  - intros new times1 times2 this this' exits [Hinv Hrest Hhidden] Hswitch.
    destruct (switch_faded _ _ _ _ _ _ Hinv Hrest Hswitch)
      as (exitElements & enterElements & Hsplit & Hinv' & Hrest' & Hname
          & Hlayouts & Hexit & Henter & Hother).
    pose proof (exitEnterElements_spec _ _ _ _ _ Hsplit) as Hspec.
    split; [done|done|].
    intros e names Hin Hnew. rewrite Hlayouts in Hin. rewrite Hname in Hnew.
    assert (Hunique : ∀ names', (e, names') ∈ elementLayouts this →
                                names' = names).
    { intros names' Hin'.
      by apply (elementLayouts_unique _ e names' names (inv_nodes _ Hinv)). }
    destruct (Hspec e) as [Hexits Henters].
    assert (Hnotenter : e ∉ enterElements).
    { intros [names' (Hin' & ? & ?)]%Henters.
      apply Hunique in Hin'. by subst names'. }
    destruct (decide (layoutName this ∈ names)) as [Hold|Hold].
    + apply Hexit; [|done]. apply Hexits. by exists names.
    + rewrite Hother; [by apply (Hhidden e names)| |done].
      intros [names' (Hin' & ? & ?)]%Hexits.
      apply Hunique in Hin'. by subst names'.
  - intros new times1 times2 this [Hinv Hrest _].
    by apply switch_total.
Qed.

(** *** The registry of a layout *)

Lemma forEach_transitionElement_Inv opacity elements :
  ∀ this this',
    Inv this →
    forEach (λ element,
               transitionElement element opacity LAYOUT_TRANSITION_DURATION)
            elements this = Ok this' →
    Inv this'.
Proof.
  induction elements as [|element elements IH]; intros this this' Hinv;
    cbn [forEach].
  { by intros [= <-]. }
  destruct (transitionElement_spec element opacity this Hinv)
    as (this1 & written & -> & _ & Hinv1 & _).
  cbn [mbind result_bind]. by apply IH.
Qed.

(** X13: the transitions a layout tracks: each is tracked once, is running
    and has its frame callback with the clock, and the clock holds no
    other callback of the layout.  The constructor establishes this,
    both steps of a layout transition, every frame and [snap()] keep
    it, and after [snap()] the layout tracks no transition and the
    clock holds none of its callbacks. *)
Theorem layout_registry :
  (∀ elementLayouts containers templates styles,
     NoDup (fst <$> elementLayouts) →
     Inv (create elementLayouts containers templates styles))
  ∧ (∀ newLayoutName this this' exits suspended,
       Inv this →
       transition newLayoutName this = Ok (this', exits, suspended) →
       Inv this')
  ∧ (∀ suspended this this',
       Inv this → transition_next suspended this = Ok this' → Inv this')
  ∧ (∀ time this, Inv this → Inv (nextFrame time this))
  ∧ (∀ this,
       Inv this →
       Inv (snap this) ∧ transitions (snap this) = []
       ∧ frameCallbacks (snap this) = []).
Proof.
  split; [intros; by apply create_Settled|]. split; [|split; [|split]].
  - intros new this this' exits suspended Hinv. unfold transition.
    destruct (includes _ _); [|discriminate]. cbn [negb].
    destruct (String.eqb _ _).
    { intros [= <- <- <-]. by apply set_layoutName_Inv. }
    destruct (exitEnterElements _ _ _) as [exitElements enterElements].
    destruct (forEach _ exitElements _) as [this1|e] eqn:Hexit;
      [|discriminate].
    cbn [mbind result_bind]. intros [= <- <- <-].
    eapply forEach_transitionElement_Inv; [|exact Hexit].
    by apply set_layoutName_Inv.
  - intros [|enterElements] this this' Hinv; cbn [transition_next].
    + by intros [= <-].
    + by apply forEach_transitionElement_Inv.
  - intros time this Hinv.
    by destruct (nextFrame_preserves (λ _, True) (λ _ _ _ _ _ _ _, I)
                   time this Hinv I).
  - intros this Hinv.
    destruct (snap_preserves (λ _, True) (λ _ _ _ _ _ _ _, I) this Hinv I)
      as (Hinv' & _ & Hrest).
    split; [done|]. split; [done|]. by rewrite (inv_frame _ Hinv').
Qed.

(** *** Scenarios *)

Import LayoutScenarios LayoutClockScenarios.

Lemma example_layout_Settled : Settled example_layout.
Proof.
  apply create_Settled. cbn.
  apply NoDup_cons. split; [by intros ?%list_elem_of_singleton|].
  apply NoDup_singleton.
Qed.

Lemma example_switched_eq :
  switch "dialogue" [0; 250; 600] [700; 900] example_layout
  = Ok (example_switched, []).
Proof. vm_compute. reflexivity. Qed.

Lemma example_layout_none : ∀ name : string, name ≠ "none"%string →
                  layoutName example_layout ∉ [name].
Proof.
  intros name Hne Hin. apply list_elem_of_singleton in Hin.
    apply Hne. symmetry. exact Hin.
Qed.

Lemma example_title_kept :
  layoutName example_layout ∈ ["title"%string]
  ↔ "dialogue"%string ∈ ["title"%string].
Proof.
  split.
  - intros Hin. by apply example_layout_none in Hin.
  - intros Hin%list_elem_of_singleton. discriminate.
Qed.

Lemma switch_visibility_witness :
  switch "dialogue" [0; 250; 600] [700; 900] example_layout
  = Ok (example_switched, [])
  ∧ transitions example_switched = []
  ∧ getOpacity (style_of example_switched 2) == 1
  ∧ style_of example_switched 1 = style_of example_layout 1.
Proof.
  assert (H : ∀ this',
    switch "dialogue" [0; 250; 600] [700; 900] example_layout
    = Ok (this', []) →
    transitions this' = []
    ∧ getOpacity (style_of this' 2) == 1
    ∧ style_of this' 1 = style_of example_layout 1).
  { intros this' Hswitch.
    destruct (switch_visibility _ _ _ _ _ _
                (settled_inv _ example_layout_Settled)
                (settled_rest _ example_layout_Settled) Hswitch)
      as (_ & _ & Hrest & _ & Hnodes & _).
    split; [exact Hrest|].
    destruct (Hnodes 2%nat ["dialogue"%string]) as (_ & Henter & _).
    { change (elementLayouts example_layout)
        with [(1%nat, ["title"%string]); (2%nat, ["dialogue"%string])].
      apply elem_of_cons. right. apply elem_of_cons. by left. }
    destruct (Hnodes 1%nat ["title"%string]) as (_ & _ & Hsame).
    { change (elementLayouts example_layout)
        with [(1%nat, ["title"%string]); (2%nat, ["dialogue"%string])].
      apply elem_of_cons. by left. }
    split.
    - apply Henter; [by apply example_layout_none|by apply list_elem_of_singleton].
    - apply Hsame. exact example_title_kept. }
  exact (conj example_switched_eq (H _ example_switched_eq)).
Defined.

End LayoutInvariantFacts.

(** ** Element: [snap] and [destroy] *)

Module ElementControlFacts.
Import ElementResolvedProperties Element ElementInvariant ElementFacts.
Import ElementControl.

#[local] Open Scope Q_scope.

Lemma trackedb_spec store : trackedb store = true → tracked store.
Proof.
  unfold trackedb, tracked. rewrite forallb_forall.
  intros Hall id Hrun.
  pose proof (running_allocated _ _ Hrun) as Hlt.
  specialize (Hall id). rewrite Hrun in Hall. cbn in Hall.
  unfold registered. eapply bool_decide_eq_true_1. apply Hall.
  apply in_seq. lia.
Qed.

Lemma cancel_running_end {V : Type} (tween : Transition.t V) :
  Transition.endValue (fst (Transition.cancel true tween))
  = Transition.endValue tween.
Proof.
  unfold Transition.cancel. by destruct (Transition.isRunning tween).
Qed.

(** *** Stores with the same registry, values and end values *)

Lemma settles_refl store : settles store store.
Proof.
  split; [done|]. split; [|done].
  intros id object name value [Hreg _] Hnot. by destruct Hnot.
Qed.

Lemma settles_same before after :
  (∀ id, registered after id ↔ registered before id) →
  (∀ id, end_of after id = end_of before id) →
  (∀ object name, value_of after object name = value_of before object name) →
  settles before after.
Proof.
  intros Hreg Hend Hvalue. split; [done|]. split; [|done].
  intros id object name value [Hid _] Hnot. destruct Hnot. by apply Hreg.
Qed.

Lemma settles_trans s1 s2 s3 :
  Inv s1 → shrinks s1 s2 → shrinks s2 s3 →
  settles s1 s2 → settles s2 s3 → settles s1 s3.
Proof.
  intros Hinv (Hsub12 & _ & Hmeta12 & _) (Hsub23 & _ & Hmeta23 & _)
         (Hend12 & Hleft12 & Hkept12) (Hend23 & Hleft23 & Hkept23).
  assert (Hdrives : ∀ id object name,
            drives s2 id object name → drives s1 id object name).
  { intros id object name (Hreg & Howner & Hnamed).
    destruct (Hmeta12 id) as (Ho & Hn & _).
    split; [by apply Hsub12|]. by rewrite <- Ho, <- Hn. }
  split; [intros id; by rewrite Hend23|]. split.
  - intros id object name value Hid Hnot Hvalue.
    destruct (decide (id ∈ frameCallbacks s2)) as [Hreg2|Hreg2].
    + apply (Hleft23 id); [|done|by rewrite Hend12].
      destruct Hid as (_ & Howner & Hnamed).
      destruct (Hmeta12 id) as (Ho & Hn & _).
      split; [done|]. by rewrite Ho, Hn.
    + rewrite Hkept23; [by apply (Hleft12 id)|].
      intros id' Hid'. exfalso. apply Hreg2.
      pose proof (Hdrives _ _ _ Hid') as (Hreg1' & Howner1' & Hnamed1').
      destruct Hid as (Hreg1 & Howner1 & Hnamed1).
      assert (id' = id) as ->; [|by destruct Hid'].
      apply (inv_unique _ Hinv); [done|done|congruence|congruence].
  - intros object name Hkept.
    rewrite Hkept23, Hkept12; [done| |].
    + intros id Hid. apply Hsub23. by apply Hkept.
    + intros id Hid. apply Hkept. by apply Hdrives.
Qed.

(** *** One cancellation *)

Lemma value_of_setPropertyValue object name value store store' :
  setPropertyValue object name value store = Ok store' →
  value_of store' object name = Some value
  ∧ ∀ object' name', (object', name') ≠ (object, name) →
      value_of store' object' name' = value_of store object' name'.
Proof.
  unfold setPropertyValue, value_of.
  destruct (objects store !! object) as [rendered|] eqn:Hobject;
    [|discriminate].
  destruct (values rendered !! name) as [old|] eqn:Hold; [|discriminate].
  intros [= <-]. cbn. split.
  - rewrite list_lookup_insert_eq by (by eapply lookup_lt_Some).
    cbn. by rewrite lookup_insert_eq.
  - intros object' name' Hne.
    destruct (decide (object' = object)) as [->|Hobj].
    + rewrite list_lookup_insert_eq by (by eapply lookup_lt_Some).
      rewrite Hobject. cbn. rewrite lookup_insert_ne; [done|congruence].
    + by rewrite list_lookup_insert_ne.
Qed.

Lemma value_of_detachObject object store store' :
  detachObject object store = Ok store' →
  ∀ object' name, value_of store' object' name = value_of store object' name.
Proof.
  unfold detachObject, value_of.
  destruct (objects store !! object) as [rendered|] eqn:Hobject;
    [|discriminate].
  intros [= <-] object' name. cbn.
  destruct (decide (object' = object)) as [->|Hobj].
  - rewrite list_lookup_insert_eq by (by eapply lookup_lt_Some).
    by rewrite Hobject.
  - by rewrite list_lookup_insert_ne.
Qed.

Lemma value_of_destroyObject object store store' :
  destroyObject object store = Ok store' →
  ∀ object' name, value_of store' object' name = value_of store object' name.
Proof.
  unfold destroyObject, value_of.
  destruct (objects store !! object) as [rendered|] eqn:Hobject;
    [|discriminate].
  intros [= <-] object' name. cbn.
  destruct (decide (object' = object)) as [->|Hobj].
  - rewrite list_lookup_insert_eq by (by eapply lookup_lt_Some).
    by rewrite Hobject.
  - by rewrite list_lookup_insert_ne.
Qed.

Lemma same_registry_end_of before after id :
  same_registry before after → end_of after id = end_of before id.
Proof. intros (_ & _ & _ & Halloc). unfold end_of. by rewrite Halloc. Qed.

Lemma same_registry_registered before after id :
  same_registry before after → registered after id ↔ registered before id.
Proof. intros (_ & _ & Hframe & _). unfold registered. by rewrite Hframe. Qed.

Lemma same_registry_tracked before after :
  same_registry before after → tracked before → tracked after.
Proof.
  intros Hsame Htracked id Hrun.
  apply (same_registry_registered _ _ _ Hsame). apply Htracked.
  by rewrite <- (same_registry_running _ _ _ Hsame).
Qed.

Lemma registered_unregister id it store id' :
  registered (unregister id it store) id' ↔ registered store id' ∧ id' ≠ id.
Proof. unfold registered, unregister. cbn. apply removeFrameCallback_elem_of. Qed.

Lemma end_of_unregister id it store id' :
  end_of (unregister id it store) id' = end_of store id'.
Proof. done. Qed.

Lemma value_of_unregister id it store object name :
  value_of (unregister id it store) object name = value_of store object name.
Proof. done. Qed.

Lemma forEach_settling cancel ids store store' :
  cancels cancel → settling cancel →
  Inv store → tracked store →
  forEach cancel ids store = Ok store' →
  tracked store' ∧ settles store store'.
Proof.
  intros Hcancels Hsettling. revert store.
  induction ids as [|id ids IH]; intros store Hinv Htracked; cbn [forEach].
  - intros [= <-]. split; [done|apply settles_refl].
  - destruct (cancel id store) as [store1|e] eqn:Hfirst; [|discriminate].
    cbn. intros Hrest.
    destruct (Hcancels _ _ _ Hinv Hfirst) as (Hinv1 & Hshrinks1 & _).
    destruct (Hsettling _ _ _ Hinv Htracked Hfirst) as [Htracked1 Hsettles1].
    destruct (IH _ Hinv1 Htracked1 Hrest) as [Htracked' Hsettles'].
    destruct (forEach_cancels _ _ _ _ Hcancels Hinv1 Hrest)
      as (_ & Hshrinks' & _).
    split; [done|]. by eapply settles_trans.
Qed.

Lemma cancel_settling fuel : settling (cancel fuel).
Proof.
  induction fuel as [|fuel IH]; intros id store store' Hinv Htracked;
    [discriminate|].
  cbn [cancel].
  destruct (allocated store !! id) as [it|] eqn:Hit; [|discriminate].
  destruct (Transition.isRunning (tween it)) eqn:Hrun; cycle 1.
  { rewrite (cancel_not_running _ Hrun). cbn [forEach].
    rewrite (set_tween_same _ _ _ Hit). intros [= <-].
    split; [done|apply settles_refl]. }
  pose proof (cancel_running_end (tween it)) as Hend.
  destruct (cancel_running _ Hrun) as (tween' & Hcancel & Hstopped & Hdelay).
  rewrite Hcancel in Hend |- *. cbn [fst] in Hend.
  cbn [forEach notified].
  destruct (onUpdate id _ _) as [store2|e] eqn:Hupdate; [|discriminate].
  cbn. destruct (onEnd (cancel fuel) id store2) as [store3|e] eqn:Hfinish;
    [|discriminate].
  cbn. intros [= <-].
  assert (Hreg : registered store id).
  { apply Htracked. unfold running. by rewrite Hit. }
  pose proof (set_tween_lookup _ tween' _ _ Hit) as Hit1.
  destruct (set_tween_fields id tween' store)
    as (Hobj1 & Hprop1 & Hframe1 & Hobjects1 & _).
  pose proof (onUpdate_registry _ _ _ _ Hupdate) as Hsame2.
  pose proof Hsame2 as (Hobj2 & Hprop2 & Hframe2 & Halloc2).
  assert (∃ it2, allocated store2 !! id = Some it2
                 ∧ object it2 = object it
                 ∧ propertyName it2 = propertyName it
                 ∧ Transition.isRunning (tween it2) = false)
    as (it2 & Hit2 & Hobject2 & Hname2 & Hstopped2).
  { rewrite Halloc2, Hit1. eexists. by split. }
  assert (Hinv2 : Inv (unregister id it2 store2)).
  { apply (Inv_unregister_ended store); try done; try congruence.
    - intros id'. by rewrite (same_registry_owner _ _ _ Hsame2),
        set_tween_owner.
    - intros id'. by rewrite (same_registry_named _ _ _ Hsame2),
        set_tween_named.
    - intros id' Hne. by rewrite (same_registry_running _ _ _ Hsame2),
        set_tween_running_ne. }
  assert (Hends : ∀ id', end_of store2 id' = end_of store id').
  { intros id'. rewrite (same_registry_end_of _ _ _ Hsame2). unfold end_of.
    destruct (decide (id' = id)) as [->|Hne].
    - rewrite Hit1, Hit. cbn. by rewrite Hend.
    - by rewrite set_tween_lookup_ne. }
  assert (Hregs : ∀ id', registered store2 id' ↔ registered store id').
  { intros id'. unfold registered. by rewrite Hframe2, Hframe1. }
  assert (Hruns : ∀ id', id' ≠ id → running store2 id' = running store id').
  { intros id' Hne. by rewrite (same_registry_running _ _ _ Hsame2),
      set_tween_running_ne. }
  assert (Hrun2 : running store2 id = false).
  { unfold running. by rewrite Hit2. }
  unfold onUpdate in Hupdate. rewrite Hit1 in Hupdate. cbn in Hupdate.
  destruct (value_of_setPropertyValue _ _ _ _ _ Hupdate)
    as [Hwritten Hothers].
  assert (Hvalues1 : ∀ object name,
            value_of (set_tween id tween' store) object name
            = value_of store object name).
  { intros object name. unfold value_of. by rewrite Hobjects1. }
  assert (Htracked2 : tracked (unregister id it2 store2)).
  { intros id' Hrun'.
    destruct (unregister_meta id it2 store2 id') as (_ & _ & Hr & _).
    rewrite Hr in Hrun'.
    assert (Hne : id' ≠ id) by (intros ->; congruence).
    apply registered_unregister. split; [|done].
    apply Hregs. apply Htracked. by rewrite <- Hruns. }
  assert (Hsettles2 : settles store (unregister id it2 store2)).
  { split; [intros id'; by rewrite end_of_unregister|]. split.
    - intros id' object name value (Hreg' & Howner & Hnamed) Hnot Hvalue.
      rewrite value_of_unregister.
      destruct (decide (id' = id)) as [->|Hne]; cycle 1.
      { destruct Hnot. apply registered_unregister. split; [|done].
        by apply Hregs. }
      unfold owner in Howner. unfold named in Hnamed. unfold end_of in Hvalue.
      rewrite Hit in Howner, Hnamed, Hvalue. cbn in Howner, Hnamed, Hvalue.
      injection Howner as <-. injection Hnamed as <-. injection Hvalue as <-.
      done.
    - intros object name Hkept. rewrite value_of_unregister.
      rewrite Hothers, Hvalues1; [done|].
      intros [= -> ->].
      eapply unregister_unregistered. apply Hkept.
      split; [done|]. unfold owner, named. by rewrite Hit. }
  pose proof (unregister_shrinks id it2 store2) as Hshrinks2.
  assert (Hshrinks : shrinks store (unregister id it2 store2)).
  { eapply shrinks_trans; [by apply (set_tween_shrinks _ tween' _ _ Hit)|].
    eapply shrinks_trans; [by apply same_registry_shrinks|done]. }
  rewrite (onEnd_unfold _ _ _ _ Hit2) in Hfinish.
  destruct (tears_down it2); cycle 1.
  { injection Hfinish as <-. done. }
  destruct (forEach (cancel fuel) _ _) as [store4|e] eqn:Hcascade;
    [|discriminate].
  cbn in Hfinish.
  destruct (detachObject _ store4) as [store5|e] eqn:Hdetach; [|discriminate].
  cbn in Hfinish.
  destruct (forEach_cancels _ _ _ _ (cancel_cancels fuel) Hinv2 Hcascade)
    as (Hinv4 & Hshrinks4 & _).
  destruct (forEach_settling _ _ _ _ (cancel_cancels fuel) IH Hinv2 Htracked2
              Hcascade) as [Htracked4 Hsettles4].
  pose proof (detachObject_registry _ _ _ Hdetach) as Hsame5.
  pose proof (destroyObject_registry _ _ _ Hfinish) as Hsame6.
  pose proof (same_registry_trans _ _ _ Hsame5 Hsame6) as Hsame.
  split; [by eapply same_registry_tracked|].
  eapply settles_trans; [done|done| |done|].
  - eapply shrinks_trans; [done|]. by apply same_registry_shrinks.
  - eapply settles_trans; [done|done|by apply same_registry_shrinks|done|].
    apply settles_same.
    + intros id'. by apply same_registry_registered.
    + intros id'. by apply same_registry_end_of.
    + intros object name.
      by rewrite (value_of_destroyObject _ _ _ Hfinish),
        (value_of_detachObject _ _ _ Hdetach).
Qed.

Lemma cancelTransition_settling : settling cancelTransition.
Proof. intros id store. apply cancel_settling. Qed.

(** *** Canceling creates and drops no Object *)

Lemma setPropertyValue_objects object name value store store' :
  setPropertyValue object name value store = Ok store' →
  length (objects store') = length (objects store).
Proof.
  unfold setPropertyValue.
  destruct (objects store !! object) as [rendered|]; [|discriminate].
  destruct (values rendered !! name); [|discriminate].
  intros [= <-]. cbn. by rewrite length_insert.
Qed.

Lemma detachObject_objects object store store' :
  detachObject object store = Ok store' →
  length (objects store') = length (objects store).
Proof.
  unfold detachObject.
  destruct (objects store !! object) as [rendered|]; [|discriminate].
  intros [= <-]. cbn. by rewrite length_insert.
Qed.

Lemma destroyObject_objects object store store' :
  destroyObject object store = Ok store' →
  length (objects store') = length (objects store).
Proof.
  unfold destroyObject.
  destruct (objects store !! object) as [rendered|]; [|discriminate].
  intros [= <-]. cbn. by rewrite length_insert.
Qed.

Lemma forEach_objects {A : Type} (f : A → Store → result Store)
    (array : list A) :
  (∀ it store store', f it store = Ok store' →
     length (objects store') = length (objects store)) →
  ∀ store store', forEach f array store = Ok store' →
    length (objects store') = length (objects store).
Proof.
  intros Hf store store' Hall.
  apply (forEach_preserves
           (λ state, length (objects state) = length (objects store))
           f array) with (state := store); [|done|done].
  intros it state state' Hstate Hstep. rewrite <- Hstate.
  by apply (Hf it).
Qed.

Lemma onEnd_objects cancel id store store' :
  (∀ id store store', cancel id store = Ok store' →
     length (objects store') = length (objects store)) →
  onEnd cancel id store = Ok store' →
  length (objects store') = length (objects store).
Proof.
  intros Hcancel.
  destruct (allocated store !! id) as [it|] eqn:Hit; cycle 1.
  { unfold onEnd. by rewrite Hit. }
  rewrite (onEnd_unfold _ _ _ _ Hit).
  destruct (tears_down it); [|by intros [= <-]].
  destruct (forEach cancel _ _) as [store1|e] eqn:Hcascade; [|discriminate].
  cbn. destruct (detachObject _ store1) as [store2|e] eqn:Hdetach;
    [|discriminate].
  cbn. intros Hdestroy.
  rewrite (destroyObject_objects _ _ _ Hdestroy),
    (detachObject_objects _ _ _ Hdetach),
    (forEach_objects _ _ Hcancel _ _ Hcascade).
  done.
Qed.

Lemma cancel_objects fuel :
  ∀ id store store',
    cancel fuel id store = Ok store' →
    length (objects store') = length (objects store).
Proof.
  induction fuel as [|fuel IH]; intros id store store'; [discriminate|].
  cbn [cancel].
  destruct (allocated store !! id) as [it|] eqn:Hit; [|discriminate].
  destruct (Transition.cancel true (tween it)) as [tween' notifications].
  destruct (set_tween_fields id tween' store) as (_ & _ & _ & Hobjects1 & _).
  intros Hall. rewrite <- Hobjects1.
  revert Hall. apply forEach_objects.
  intros [callbacks value] state state'.
  destruct callbacks; cbn [notified]; try (by intros [= <-]).
  - apply onEnd_objects. intros id'. apply IH.
  - unfold onUpdate.
    destruct (allocated state !! id) as [it'|]; [|discriminate].
    apply setPropertyValue_objects.
Qed.

(** *** Sequences of cancellations *)

Lemma shrinks_allocated before after id :
  shrinks before after →
  is_Some (allocated before !! id) → is_Some (allocated after !! id).
Proof.
  intros (_ & Hlength & _) Hid. apply lookup_lt_is_Some.
  apply lookup_lt_is_Some in Hid. lia.
Qed.

Lemma cancelAll_spec ids store :
  Inv store → tracked store → well_formed store →
  (∀ id, id ∈ ids → is_Some (allocated store !! id)) →
  ∃ store',
    forEach cancelTransition ids store = Ok store'
    ∧ Inv store' ∧ tracked store' ∧ well_formed store'
    ∧ shrinks store store' ∧ settles store store'
    ∧ ∀ id, id ∈ ids → ¬ registered store' id.
Proof.
  intros Hinv Htracked Hwf Hids.
  assert (∃ store', forEach cancelTransition ids store = Ok store'
                    ∧ well_formed store') as (store' & Hall & Hwf').
  { clear Hinv Htracked. revert store Hwf Hids.
    induction ids as [|id ids IH]; intros store Hwf Hids; cbn [forEach].
    - by exists store.
    - destruct (cancelTransition_total id store Hwf) as (store1 & -> & Hpres).
      { apply Hids. by left. }
      cbn. apply IH; [by eapply preserved_well_formed|].
      intros id' Hin. eapply preserved_allocated; [done|].
      apply Hids. by right. }
  exists store'. split; [done|].
  destruct (forEach_cancels _ _ _ _ cancelTransition_cancels Hinv Hall)
    as (Hinv' & Hshrinks & Hgone).
  destruct (forEach_settling _ _ _ _ cancelTransition_cancels
              cancelTransition_settling Hinv Htracked Hall)
    as [Htracked' Hsettles].
  repeat (split; [done|]). intros id Hin. by apply Hgone.
Qed.

Lemma snap_forEach entries propertyMatcher store :
  snap entries propertyMatcher store
  = forEach cancelTransition
      (snd <$> List.filter (λ entry, propertyMatcher (fst entry)) entries)
      store.
Proof.
  unfold snap. revert store.
  induction entries as [|entry entries IH]; intros store; [done|].
  cbn [forEach List.filter]. destruct (propertyMatcher (fst entry)).
  - cbn [fmap list_fmap forEach].
    destruct (cancelTransition _ store) as [store1|e]; [|done].
    cbn. apply IH.
  - cbn. apply IH.
Qed.

Lemma hasTransition_false propertyMatcher store :
  hasTransition propertyMatcher store = false
  ↔ ∀ name id, (name, id) ∈ propertyTransitions store →
               propertyMatcher name = false.
Proof.
  unfold hasTransition. rewrite <- not_true_iff_false, existsb_exists. split.
  - intros Hnone name id Hin.
    destruct (propertyMatcher name) eqn:Hmatch; [|done].
    destruct Hnone. exists (name, id). split; [|done].
    by apply list_elem_of_In.
  - intros Hall ([name id] & Hin & Hmatch). apply list_elem_of_In in Hin.
    cbn in Hmatch. by rewrite (Hall _ _ Hin) in Hmatch.
Qed.

Lemma shrinks_property before after name id :
  Inv before → Inv after → shrinks before after →
  (name, id) ∈ propertyTransitions after →
  (name, id) ∈ propertyTransitions before.
Proof.
  intros Hinv Hinv' (Hsub & _ & Hmeta & _) Hin.
  apply (inv_property _ Hinv') in Hin as [Hreg Hnamed].
  apply (inv_property _ Hinv). split; [by apply Hsub|].
  destruct (Hmeta id) as (_ & Hn & _). by rewrite <- Hn.
Qed.

Lemma shrinks_object before after object id :
  Inv before → Inv after → shrinks before after →
  (object, id) ∈ objectTransitions after →
  (object, id) ∈ objectTransitions before.
Proof.
  intros Hinv Hinv' (Hsub & _ & Hmeta & _) Hin.
  apply (inv_object _ Hinv') in Hin as [Hreg Howner].
  apply (inv_object _ Hinv). split; [by apply Hsub|].
  destruct (Hmeta id) as (Ho & _). by rewrite <- Ho.
Qed.

(** X14: in a store that satisfies the registry invariant, in which
    every running transition is registered with the clock ([tracked])
    and every transition is for a property its Object has
    ([well_formed]), and with [entries] the entries of the multimap of
    properties in any order: [snap] returns; afterwards the three
    conditions still hold, no transition of a matched property is left,
    every property whose transition has left the clock holds the end
    value of that transition, and every property whose transition is
    still registered holds what it held.  A new element satisfies the
    three conditions, and [transition], the frames of the clock and the
    cancellations keep them. *)
Theorem snap_settles (entries : list (string * TransitionId))
    (propertyMatcher : string → bool) (store : Store) :
  Inv store → tracked store → well_formed store →
  entries ≡ₚ propertyTransitions store →
  ∃ store',
    snap entries propertyMatcher store = Ok store'
    ∧ Inv store' ∧ tracked store' ∧ well_formed store'
    ∧ hasTransition propertyMatcher store' = false
    ∧ propertyTransitions store' ⊆ propertyTransitions store
    ∧ settles store store'.
Proof.
  intros Hinv Htracked Hwf Hentries. rewrite snap_forEach.
  destruct (cancelAll_spec
              (snd <$> List.filter (λ entry, propertyMatcher (fst entry))
                                   entries)
              store Hinv Htracked Hwf)
    as (store' & Hall & Hinv' & Htracked' & Hwf' & Hshrinks & Hsettles
        & Hgone).
  { intros id ([name id'] & -> & Hin)%list_elem_of_fmap.
    apply list_elem_of_In, filter_In in Hin as [Hin _].
    apply list_elem_of_In in Hin. rewrite Hentries in Hin.
    apply (inv_property _ Hinv) in Hin as [Hreg _].
    apply lookup_lt_is_Some. by apply Inv_registered_allocated. }
  exists store'. repeat (split; [done|]). split; [|split; [|done]].
  - apply hasTransition_false. intros name id Hin.
    destruct (propertyMatcher name) eqn:Hmatch; [|done].
    exfalso. apply (Hgone id).
    + apply list_elem_of_fmap. exists (name, id). split; [done|].
      apply list_elem_of_In, filter_In. split; [|done].
      apply list_elem_of_In. rewrite Hentries.
      by eapply shrinks_property.
    + by apply (inv_property _ Hinv') in Hin as [Hreg _].
  - intros [name id] Hin. by eapply shrinks_property.
Qed.

Lemma lifecycle_detach_destroy object store :
  is_Some (objects store !! object) →
  ∃ store1 store2 state,
    detachObject object store = Ok store1
    ∧ destroyObject object store1 = Ok store2
    ∧ lifecycle store object = Some state
    ∧ lifecycle store2 object = Some (torn_down state)
    ∧ same_registry store store2
    ∧ (∀ object' name,
         value_of store2 object' name = value_of store object' name).
Proof.
  intros [rendered Hobject].
  destruct (detachObject object store) as [store1|e] eqn:Hdetach; cycle 1.
  { unfold detachObject in Hdetach. by rewrite Hobject in Hdetach. }
  destruct (destroyObject object store1) as [store2|e] eqn:Hdestroy; cycle 1.
  { unfold detachObject in Hdetach. rewrite Hobject in Hdetach.
    injection Hdetach as <-. unfold destroyObject in Hdestroy.
    cbn in Hdestroy.
    rewrite list_lookup_insert_eq in Hdestroy by (by eapply lookup_lt_Some).
    done. }
  destruct (detachObject_lifecycle _ _ _ Hdetach)
    as [(a & d & k & Hbefore & Hafter) _].
  destruct (destroyObject_lifecycle _ _ _ Hdestroy)
    as [(a' & d' & k' & Hbefore' & Hafter') _].
  exists store1, store2, (a, d, k). repeat (split; [done|]). split.
  - rewrite Hafter'. rewrite Hafter in Hbefore'. by injection Hbefore' as <- <- <-.
  - split.
    + eapply same_registry_trans;
        [by eapply detachObject_registry|by eapply destroyObject_registry].
    + intros object' name.
      by rewrite (value_of_destroyObject _ _ _ Hdestroy),
        (value_of_detachObject _ _ _ Hdetach).
Qed.

(** X15: in a store that satisfies the registry invariant, in which
    every running transition is registered with the clock ([tracked])
    and every transition is for a property its Object has
    ([well_formed]), with [transitions] the transitions of the multimap
    of Objects in any order, and for an element whose current Object
    exists: [destroy] returns and leaves no transition behind: the
    clock and both multimaps are empty and no transition runs; every
    property that had a transition holds its end value; and the current
    Object is detached and destroyed once more.  A new element
    satisfies the three conditions, and [transition], the frames of the
    clock and the cancellations keep them. *)
Theorem destroy_clears {Options : Type} (transitions : list TransitionId)
    (this : t Options) :
  Inv (store this) → tracked (store this) → well_formed (store this) →
  transitions ≡ₚ (snd <$> objectTransitions (store this)) →
  (∀ object, current this = Some object →
             is_Some (objects (store this) !! object)) →
  ∃ this' middle,
    destroy transitions this = Ok this'
    ∧ frameCallbacks (store this') = []
    ∧ objectTransitions (store this') = []
    ∧ propertyTransitions (store this') = []
    ∧ (∀ id, running (store this') id = false)
    ∧ (∀ id object name value,
         drives (store this) id object name →
         end_of (store this) id = Some value →
         value_of (store this') object name = Some (RNumber value))
    ∧ forEach cancelTransition transitions (store this) = Ok middle
    ∧ ∀ object, current this = Some object →
        ∃ state, lifecycle middle object = Some state
                 ∧ lifecycle (store this') object = Some (torn_down state).
Proof.
  intros Hinv Htracked Hwf Htransitions Hcurrent. unfold destroy.
  destruct (cancelAll_spec transitions (store this) Hinv Htracked Hwf)
    as (store1 & Hall & Hinv1 & Htracked1 & Hwf1 & Hshrinks & Hsettles
        & Hgone).
  { intros id Hin. rewrite Htransitions in Hin.
    apply list_elem_of_fmap in Hin as ([object id'] & -> & Hin).
    by apply (proj2 Hwf) in Hin. }
  rewrite Hall. cbn [mbind result_bind].
  assert (Hnone : frameCallbacks store1 = []).
  { apply elem_of_nil_inv. intros id Hin. apply (Hgone id); [|done].
    rewrite Htransitions.
    pose proof (proj1 Hshrinks _ Hin) as Hreg.
    destruct (lookup_lt_is_Some_2 _ _
                (Inv_registered_allocated _ _ Hinv Hreg)) as [it Hit].
    apply list_elem_of_fmap. exists (object it, id). split; [done|].
    apply (inv_object _ Hinv). split; [done|].
    unfold owner. by rewrite Hit. }
  assert (Hobjects1 : objectTransitions store1 = []).
  { apply elem_of_nil_inv. intros [object id] Hin.
    apply (inv_object _ Hinv1) in Hin as [Hreg _].
    unfold registered in Hreg. rewrite Hnone in Hreg.
    by apply elem_of_nil in Hreg. }
  assert (Hproperties1 : propertyTransitions store1 = []).
  { apply elem_of_nil_inv. intros [name id] Hin.
    apply (inv_property _ Hinv1) in Hin as [Hreg _].
    unfold registered in Hreg. rewrite Hnone in Hreg.
    by apply elem_of_nil in Hreg. }
  assert (Hstopped1 : ∀ id, running store1 id = false).
  { intros id. destruct (running store1 id) eqn:Hrun; [|done].
    apply Htracked1 in Hrun. unfold registered in Hrun.
    rewrite Hnone in Hrun. by apply elem_of_nil in Hrun. }
  assert (Hvalues1 : ∀ id object name value,
            drives (store this) id object name →
            end_of (store this) id = Some value →
            value_of store1 object name = Some (RNumber value)).
  { intros id object name value Hid Hvalue.
    destruct Hsettles as (_ & Hleft & _). apply (Hleft id); [done| |done].
    unfold registered. rewrite Hnone. apply not_elem_of_nil. }
  destruct (current this) as [object|] eqn:Hobject; cycle 1.
  { eexists _, store1. split; [done|]. cbn. by repeat (split; [done|]). }
  destruct (lifecycle_detach_destroy object store1)
    as (store2 & store3 & state & -> & Hdestroy & Hbefore & Hafter
        & (Hobj3 & Hprop3 & Hframe3 & Halloc3) & Hvalues3).
  { apply lookup_lt_is_Some.
    destruct (Hcurrent object eq_refl) as [rendered Hrendered].
    apply lookup_lt_Some in Hrendered.
    assert (length (objects store1) = length (objects (store this)))
      as ->; [|done].
    revert Hall. apply forEach_objects.
    intros id state state'. apply cancel_objects. }
  cbn [mbind result_bind]. rewrite Hdestroy. cbn [mbind result_bind].
  eexists _, store1. split; [done|]. cbn.
  split; [congruence|]. split; [congruence|]. split; [congruence|].
  split.
  { intros id. unfold running. rewrite Halloc3. apply Hstopped1. }
  split.
  { intros id object' name value Hid Hvalue. rewrite Hvalues3. eauto. }
  split; [done|]. intros object' [= <-]. eauto.
Qed.

(** *** Examples *)

Import Scenarios.

Lemma background_changed_tracked : tracked (store background_changed).
Proof. apply trackedb_spec. vm_compute. reflexivity. Qed.

Lemma background_changed_well_formed : well_formed (store background_changed).
Proof. apply well_formedb_spec. vm_compute. reflexivity. Qed.

Lemma snap_settles_witness :
  ∃ store',
    snap (propertyTransitions (store background_changed))
         (String.eqb "alpha") (store background_changed) = Ok store'
    ∧ Inv store' ∧ tracked store' ∧ well_formed store'
    ∧ hasTransition (String.eqb "alpha") store' = false
    ∧ propertyTransitions store'
      ⊆ propertyTransitions (store background_changed)
    ∧ settles (store background_changed) store'.
Proof.
  apply (snap_settles _ _ _ background_changed_Inv
           background_changed_tracked background_changed_well_formed).
  reflexivity.
Defined.

Lemma destroy_clears_witness :
  ∃ this' middle,
    destroy (snd <$> objectTransitions (store background_changed))
            background_changed = Ok this'
    ∧ frameCallbacks (store this') = []
    ∧ objectTransitions (store this') = []
    ∧ propertyTransitions (store this') = []
    ∧ (∀ id, running (store this') id = false)
    ∧ (∀ id object name value,
         drives (store background_changed) id object name →
         end_of (store background_changed) id = Some value →
         value_of (store this') object name = Some (RNumber value))
    ∧ forEach cancelTransition
        (snd <$> objectTransitions (store background_changed))
        (store background_changed) = Ok middle
    ∧ ∀ object, current background_changed = Some object →
        ∃ state, lifecycle middle object = Some state
                 ∧ lifecycle (store this') object = Some (torn_down state).
Proof.
  apply (destroy_clears _ _ background_changed_Inv
           background_changed_tracked background_changed_well_formed).
  - reflexivity.
  - intros object H. vm_compute in H. injection H as <-.
    vm_compute. eexists. reflexivity.
Defined.

End ElementControlFacts.

(** ** The clock and the running transitions *)

Module ClockTrackingFacts.
Import ElementResolvedProperties Element ElementInvariant ElementFacts.
Import ElementControl ElementControlFacts.

#[local] Open Scope Q_scope.

Lemma tracked_empty : tracked empty.
Proof. by intros id Hrun. Qed.

(** The end callback of a transition that has been dropped from the
    clock leaves no running transition behind. *)
Lemma onEnd_tracked cancel id it store store' :
  cancels cancel → settling cancel →
  allocated store !! id = Some it →
  Inv (unregister id it store) → tracked (unregister id it store) →
  onEnd cancel id store = Ok store' →
  tracked store'.
Proof.
  intros Hcancels Hsettling Hit Hinv Htracked.
  rewrite (onEnd_unfold _ _ _ _ Hit).
  destruct (tears_down it); [|by intros [= <-]].
  destruct (forEach cancel _ _) as [store1|e] eqn:Hcascade; [|discriminate].
  cbn. destruct (detachObject _ store1) as [store2|e] eqn:Hdetach;
    [|discriminate].
  cbn. intros Hdestroy.
  destruct (forEach_settling _ _ _ _ Hcancels Hsettling Hinv Htracked
              Hcascade) as [Htracked1 _].
  eapply same_registry_tracked; [by eapply destroyObject_registry|].
  eapply same_registry_tracked; [by eapply detachObject_registry|done].
Qed.

(** Dropping a transition that has stopped from the clock. *)
Lemma unregister_tracked id it store :
  running store id = false →
  (∀ id', id' ≠ id → running store id' = true → registered store id') →
  tracked (unregister id it store).
Proof.
  intros Hstopped Hothers id' Hrun.
  destruct (unregister_meta id it store id') as (_ & _ & Hr & _).
  rewrite Hr in Hrun.
  assert (Hne : id' ≠ id) by (intros ->; congruence).
  apply registered_unregister. split; [by apply Hothers|done].
Qed.

Lemma transitionPropertyValue_tracked object name value delay duration easing
    store store' :
  Inv store → tracked store →
  transitionPropertyValue object name value delay duration easing store
  = Ok store' →
  tracked store'.
Proof.
  intros Hinv Htracked. unfold transitionPropertyValue.
  destruct value as [number| |]; cycle 1.
  { intros Hset%setPropertyValue_registry. by eapply same_registry_tracked. }
  { intros Hset%setPropertyValue_registry. by eapply same_registry_tracked. }
  destruct (getPropertyValue object name store) as [[current| |]|e];
    try discriminate.
  cbn [mbind result_bind].
  destruct (start_fresh current number duration delay easing)
    as (tween' & value & -> & Hdelay).
  cbn [mbind result_bind].
  set (it := {| object := object; propertyName := name;
                propertyValue := number;
                tween := Transition.setEasing easing
                           (Transition.setDelay delay
                              (Transition.new current number duration
                                 Transition.IdentityConverter)) |}).
  change (set_frameCallbacks _ _) with (enroll it store).
  set (id := length (allocated store)).
  cbn [forEach notified mbind result_bind].
  destruct (onUpdate id value _) as [store2|e] eqn:Hupdate; [|discriminate].
  apply onUpdate_registry in Hupdate.
  cbn [mbind result_bind].
  destruct (started_registry it tween' store store2 Hupdate)
    as (_ & _ & Hframe).
  assert (Hothers : ∀ id', id' ≠ id → running store2 id' = true →
                           registered store2 id').
  { intros id' Hne Hrun.
    destruct (started_other it tween' store store2 Hupdate id' Hne)
      as (_ & _ & Hrun' & _).
    rewrite Hrun' in Hrun. apply Htracked in Hrun.
    unfold registered. rewrite Hframe. unfold Layout.addFrameCallback.
    case_bool_decide; [done|]. apply elem_of_app. by left. }
  destruct (Transition.isRunning tween') eqn:Hrunning; cbn [forEach].
  - intros [= <-]. intros id' Hrun.
    destruct (decide (id' = id)) as [->|Hne]; [|by apply Hothers].
    unfold registered. rewrite Hframe. unfold Layout.addFrameCallback.
    case_bool_decide; [done|]. apply elem_of_app. right.
    by apply list_elem_of_singleton.
  - cbn [notified].
    destruct (onEnd cancelTransition id store2) as [store3|e] eqn:Hend;
      [|discriminate].
    cbn [mbind result_bind forEach]. intros [= <-].
    pose proof (started_lookup it tween' store store2 Hupdate) as Hit2.
    destruct (started_ended_Inv it tween' store store2 Hupdate _ Hinv Hit2)
      as [Hinv2 _].
    eapply (onEnd_tracked cancelTransition id _ store2);
      [apply cancelTransition_cancels|apply cancelTransition_settling
      |exact Hit2|exact Hinv2| |exact Hend].
    apply unregister_tracked; [|done].
    unfold running. subst id. by rewrite Hit2.
Qed.

Section Commit.
Context {Options : Type}.
Variable crossFade : bool.
Variable resolveProperties :
  ElementProperties → ObjectId → bool → option Options
  → result ResolvedProperties.
Variable getTransitionElementCount : ObjectId → bool → Q.
Variable Ease : Q → Q.

Lemma transitionProperty_tracked (suspended : Suspended Options) newObject
    oldOld oldNew newOld newNew oldDuration newDelay newDuration
    name store store' :
  Inv store → tracked store →
  (∀ object, oldObject suspended = Some object →
             newObject ≠ Some object) →
  transitionProperty Ease suspended newObject oldOld oldNew newOld newNew
                     oldDuration newDelay newDuration name store
  = Ok store' →
  tracked store'.
Proof.
  intros Hinv Htracked Hdistinct. unfold transitionProperty.
  set (oldChanged := differs (property oldOld name) (property oldNew name)).
  set (newChanged := differs (property newOld name) (property newNew name)).
  destruct (oldChanged || newChanged) eqn:Hchanged; cycle 1.
  { apply orb_false_iff in Hchanged as [-> ->].
    cbn [mbind result_bind].
    destruct (resolveElementPropertyTransitionEasing _ _) as [easing|e];
      [|discriminate].
    cbn [mbind result_bind].
    destruct (getElementTransitionEasing Ease easing); [|discriminate].
    cbn [mbind result_bind]. by intros [= <-]. }
  destruct (forEach cancelTransition _ store) as [store1|e] eqn:Hcancel;
    [|discriminate].
  cbn [mbind result_bind].
  destruct (forEach_settling _ _ _ _ cancelTransition_cancels
              cancelTransition_settling Hinv Htracked Hcancel)
    as [Htracked1 _].
  destruct (cancel_property_transitions _ _ _ Hinv Hcancel)
    as (Hinv1 & Hshrinks1 & Hnone1).
  destruct (resolveElementPropertyTransitionEasing _ _) as [easingName|e];
    [|discriminate].
  cbn [mbind result_bind].
  destruct (getElementTransitionEasing Ease easingName) as [easing|e];
    [|discriminate].
  cbn [mbind result_bind].
  bind_case as store2 eqn:Hold.
  assert (Inv store2 ∧ tracked store2
          ∧ ∀ id, registered store2 id → named store2 id = Some name →
                  owner store2 id = oldObject suspended)
    as (Hinv2 & Htracked2 & Hnamed2).
  { destruct oldChanged; cycle 1.
    { injection Hold as <-. split; [done|]. split; [done|].
      intros id Hreg Hnamed. by destruct (Hnone1 id Hreg). }
    destruct (oldObject suspended) as [old|]; [|discriminate].
    cbn [defined mbind result_bind] in Hold.
    destruct (property oldNew name) as [value|]; [|discriminate].
    cbn [defined mbind result_bind] in Hold.
    assert (Hfree : ∀ id, registered store1 id →
              ¬ (owner store1 id = Some old ∧ named store1 id = Some name)).
    { intros id Hreg [_ Hnamed]. by destruct (Hnone1 id Hreg). }
    destruct (transitionPropertyValue_Inv _ _ _ _ _ _ _ _ Hinv1 Hfree Hold)
      as (Hinv2 & Hext & Hregs & Hnew).
    split; [done|].
    split; [exact (transitionPropertyValue_tracked _ _ _ _ _ _ _ _ Hinv1 Htracked1 Hold)|].
    intros id Hreg Hnamed.
    destruct (Hregs id Hreg) as [Hreg1|Hbetween].
    - pose proof (Inv_registered_allocated _ _ Hinv1 Hreg1) as Hlt.
      destruct Hext as [_ Hmeta].
      destruct (Hmeta id Hlt) as (_ & Hnamed' & _).
      rewrite Hnamed' in Hnamed. by destruct (Hnone1 id Hreg1).
    - by destruct (Hnew id Hbetween) as (-> & _). }
  destruct newChanged; [|by intros [= <-]].
  destruct newObject as [new|]; [|discriminate].
  cbn [defined mbind result_bind].
  destruct (property newNew name) as [value|]; [|discriminate].
  cbn [defined mbind result_bind].
  by apply (transitionPropertyValue_tracked _ _ _ _ _ _ store2).
Qed.

Lemma forEach_transitionProperty_tracked (suspended : Suspended Options)
    newObject oldOld oldNew newOld newNew oldDuration newDelay newDuration
    names store store' :
  Inv store → tracked store →
  (∀ object, oldObject suspended = Some object →
             newObject ≠ Some object) →
  forEach
    (transitionProperty Ease suspended newObject oldOld oldNew newOld newNew
                        oldDuration newDelay newDuration)
    names store = Ok store' →
  tracked store'.
Proof.
  intros Hinv Htracked Hdistinct. revert store Hinv Htracked.
  induction names as [|name names IH]; intros store Hinv Htracked;
    cbn [forEach].
  - by intros [= <-].
  - destruct (transitionProperty _ _ _ _ _ _ _ _ _ _ name store)
      as [store1|e] eqn:Hfirst; [|discriminate].
    cbn [mbind result_bind]. intros Hrest.
    destruct (transitionProperty_Inv _ _ _ _ _ _ _ _ _ _ _ _ _ Hinv Hdistinct
                Hfirst) as (Hinv1 & _).
    apply (IH store1); [done| |done].
    exact (transitionProperty_tracked _ _ _ _ _ _ _ _ _ _ _ _ Hinv Htracked
             Hdistinct Hfirst).
Qed.

Lemma transition_commit_tracked (suspended : Suspended Options) newObject
    (this this' : t Options) :
  Inv (store this) → tracked (store this) →
  (∀ object, oldObject suspended = Some object →
             newObject ≠ Some object) →
  transition_commit crossFade resolveProperties getTransitionElementCount
                    Ease suspended newObject this = Ok this' →
  tracked (store this').
Proof.
  intros Hinv Htracked Hdistinct. unfold transition_commit.
  bind_case as [oldOld oldNew] eqn:Hold.
  bind_case as [newOld newNew] eqn:Hnew.
  bind_case as store1 eqn:Hattach.
  assert (Hsame1 : same_registry (store this) store1).
  { destruct newObject as [object|], newOld as [entries|];
      try (by injection Hattach as <-).
    destruct (forEach _ entries (store this)) as [store0|e] eqn:Hset;
      [|discriminate].
    cbn [mbind result_bind] in Hattach.
    eapply same_registry_trans;
      [by eapply forEach_setPropertyValue_registry
      |by eapply attachObject_registry]. }
  bind_case as oldDuration eqn:HoldDuration.
  bind_case as newDuration eqn:HnewDuration.
  bind_case as keyed eqn:Hkeyed.
  bind_case as store2 eqn:Hloop.
  apply forEach_transitionProperty_tracked in Hloop;
    [|by eapply Inv_same_registry|by eapply same_registry_tracked|done].
  by destruct (truthy (newValue suspended)); intros [= <-].
Qed.

Lemma update_tracked initialValues properties
    (options : option Options) (this this' : t Options) :
  Inv (store this) → tracked (store this) →
  (∀ object, current this = Some object →
             (object < length (objects (store this)))%nat) →
  update crossFade resolveProperties getTransitionElementCount Ease
         initialValues properties options this = Ok this' →
  tracked (store this').
Proof.
  intros Hinv Htracked Hcurrent. unfold update.
  bind_case as [yielded suspended] eqn:Hbegin.
  destruct suspended as [suspended|]; [|by intros [= <-]].
  assert (Hold : oldObject suspended = current this).
  { unfold transition_begin in Hbegin.
    destruct (match Element.properties this with
              | Some _ => _ | None => _ end); [|discriminate].
    cbn [mbind result_bind] in Hbegin.
    destruct (resolveElementValue properties); [|discriminate].
    cbn [mbind result_bind] in Hbegin.
    repeat (destruct (_ && _) in Hbegin); by simplify_eq. }
  destruct yielded.
  - intros Hcommit.
    eapply transition_commit_tracked; [exact Hinv|exact Htracked| |exact Hcommit].
    done.
  - cbn. intros Hcommit.
    eapply transition_commit_tracked; [| | |exact Hcommit].
    + by apply (Inv_same_registry (store this)).
    + by apply (same_registry_tracked (store this)).
    + intros object Hobject [= Heq]. rewrite Hold in Hobject.
      apply Hcurrent in Hobject. lia.
Qed.

End Commit.

(** A frame callback: the transition goes on running and stays with the
    clock, or it ends and leaves it. *)
Lemma updateTransition_tracked time id store store' :
  Inv store → tracked store →
  updateTransition time id store = Ok store' → tracked store'.
Proof.
  intros Hinv Htracked. unfold updateTransition.
  destruct (allocated store !! id) as [it|] eqn:Hit; [|discriminate].
  destruct (update_cases time (tween it))
    as (tween' & notifications & -> & Hdelay & Hcases).
  destruct (set_tween_fields id tween' store)
    as (Hobj1 & Hprop1 & Hframe1 & _ & _).
  assert (Hothers : ∀ id', id' ≠ id →
            running (set_tween id tween' store) id' = true →
            registered (set_tween id tween' store) id').
  { intros id' Hne Hrun. rewrite set_tween_running_ne in Hrun by done.
    unfold registered. rewrite Hframe1. by apply Htracked. }
  assert (Hkept : Transition.isRunning (tween it) = true →
                  tracked (set_tween id tween' store)).
  { intros Hrun id' Hrun'.
    destruct (decide (id' = id)) as [->|Hne]; [|by apply Hothers].
    unfold registered. rewrite Hframe1. apply Htracked.
    unfold running. by rewrite Hit. }
  destruct Hcases as [[-> Hrun]|(value & Hrun & ->)].
  { cbn [forEach]. intros [= <-]. intros id' Hrun'.
    destruct (decide (id' = id)) as [->|Hne]; [|by apply Hothers].
    rewrite (set_tween_running _ _ _ _ Hit), Hrun in Hrun'.
    unfold registered. rewrite Hframe1. apply Htracked.
    unfold running. by rewrite Hit. }
  cbn [forEach notified].
  destruct (onUpdate id value _) as [store2|e] eqn:Hupdate; [|discriminate].
  cbn [mbind result_bind].
  apply onUpdate_registry in Hupdate.
  destruct (Transition.isRunning tween') eqn:Hrun'; cbn [forEach].
  - intros [= <-]. eapply same_registry_tracked; [done|]. by apply Hkept.
  - cbn [notified].
    destruct (onEnd cancelTransition id store2) as [store3|e] eqn:Hend;
      [|discriminate].
    cbn [mbind result_bind forEach]. intros [= <-].
    pose proof Hupdate as (Hobj2 & Hprop2 & Hframe2 & Halloc2).
    assert (∃ it2, allocated store2 !! id = Some it2
                   ∧ Transition.isRunning (tween it2) = false)
      as (it2 & Hit2 & Hstopped2).
    { rewrite Halloc2, (set_tween_lookup _ _ _ _ Hit). eauto. }
    assert (Hinv2 : Inv (unregister id it2 store2)).
    { apply (Inv_unregister_ended store); try done; try congruence.
      - intros id'. by rewrite (same_registry_owner _ _ _ Hupdate),
          set_tween_owner.
      - intros id'. by rewrite (same_registry_named _ _ _ Hupdate),
          set_tween_named.
      - intros id' Hne. by rewrite (same_registry_running _ _ _ Hupdate),
          set_tween_running_ne. }
    eapply (onEnd_tracked cancelTransition id it2 store2);
      [apply cancelTransition_cancels|apply cancelTransition_settling
      |exact Hit2|exact Hinv2| |exact Hend].
    apply unregister_tracked.
    + unfold running. by rewrite Hit2.
    + intros id' Hne Hrun2.
      rewrite (same_registry_running _ _ _ Hupdate) in Hrun2.
      apply (same_registry_registered _ _ _ Hupdate). by apply Hothers.
Qed.

Lemma nextFrame_tracked time store store' :
  Inv store → tracked store →
  nextFrame time store = Ok store' → Inv store' ∧ tracked store'.
Proof.
  intros Hinv Htracked. unfold nextFrame.
  apply (forEach_preserves (λ store, Inv store ∧ tracked store));
    [|done].
  intros id state state' [Hinv1 Htracked1].
  case_bool_decide; [|by intros [= <-]].
  intros Hstep. split; [by eapply updateTransition_Inv|].
  by eapply updateTransition_tracked.
Qed.

(** X25: the clock holds the frame callback of exactly the running
    transitions of an element: together with the registry invariant,
    [tracked] holds of the empty store and both are kept by the commit
    phase of [transition], by a whole [update], by a frame of the clock
    and by any sequence of cancellations; where they hold, a transition
    is running if and only if it is registered, so that no frame is
    delivered to a transition that has ended and no running transition
    misses one. *)
Theorem clock_holds_running :
  (Inv empty ∧ tracked empty)
  ∧ (∀ store id,
       Inv store → tracked store →
       (running store id = true ↔ registered store id))
  ∧ (∀ (Options : Type) crossFade resolveProperties
       getTransitionElementCount Ease (suspended : Suspended Options)
       newObject this this',
       Inv (store this) → tracked (store this) →
       (∀ object, oldObject suspended = Some object →
                  newObject ≠ Some object) →
       transition_commit crossFade resolveProperties
                         getTransitionElementCount Ease suspended newObject
                         this = Ok this' →
       Inv (store this') ∧ tracked (store this'))
  ∧ (∀ (Options : Type) crossFade resolveProperties
       getTransitionElementCount Ease initialValues properties
       (options : option Options) this this',
       Inv (store this) → tracked (store this) →
       (∀ object, current this = Some object →
                  (object < length (objects (store this)))%nat) →
       update crossFade resolveProperties getTransitionElementCount Ease
              initialValues properties options this = Ok this' →
       Inv (store this') ∧ tracked (store this'))
  ∧ (∀ time store store',
       Inv store → tracked store → nextFrame time store = Ok store' →
       Inv store' ∧ tracked store')
  ∧ (∀ ids store store',
       Inv store → tracked store →
       forEach cancelTransition ids store = Ok store' →
       Inv store' ∧ tracked store').
Proof.
  split; [split; [apply Inv_empty|apply tracked_empty]|].
  split.
  { intros store id Hinv Htracked. split; [apply Htracked|apply Hinv]. }
  split.
  { intros Options crossFade resolveProperties count Ease suspended newObject
           this this' Hinv Htracked Hdistinct Hcommit.
    split.
    - by destruct (transition_commit_Inv _ _ _ _ _ _ _ _ Hinv Hdistinct
                     Hcommit).
    - exact (transition_commit_tracked _ _ _ _ _ _ _ _ Hinv Htracked
               Hdistinct Hcommit). }
  split.
  { intros Options crossFade resolveProperties count Ease initialValues
           properties options this this' Hinv Htracked Hcurrent Hupdate.
    split.
    - exact (update_Inv _ _ _ _ _ _ _ _ _ Hinv Hcurrent Hupdate).
    - exact (update_tracked _ _ _ _ _ _ _ _ _ Hinv Htracked Hcurrent
               Hupdate). }
  split; [apply nextFrame_tracked|].
  intros ids store store' Hinv Htracked Hcancel.
  split; [by eapply forEach_cancelTransition_Inv|].
  by destruct (forEach_settling _ _ _ _ cancelTransition_cancels
                 cancelTransition_settling Hinv Htracked Hcancel).
Qed.

(** *** Examples *)

Import Scenarios.

Lemma clock_holds_running_witness :
  (Inv (store choice_changed) ∧ tracked (store choice_changed))
  ∧ running (store choice_changed) <$> [0; 1; 2]%nat = [false; true; true]
  ∧ frameCallbacks (store choice_changed) = [1; 2]%nat.
Proof.
  destruct clock_holds_running
    as ([Hinv Htracked] & _ & Hcommit & Hupdate & _).
  split; [|by vm_compute].
  assert (Hshown : Inv (store choice_shown) ∧ tracked (store choice_shown)).
  { eapply (Hupdate unit _ _ _ _ _ _ _ choice_new);
      [exact Hinv|exact Htracked| |exact choice_shown_eq].
    intros object. discriminate. }
  destruct Hshown as [Hinv1 Htracked1].
  refine (Hcommit unit _ _ _ _ choice_suspended (Some 1%nat) choice_loaded
                  choice_changed _ _ _ choice_changed_eq).
  - apply (Inv_same_registry (store choice_shown)); [|exact Hinv1].
    exact (createObject_registry ChoiceObject_initialValues
             (store choice_shown)).
  - apply (same_registry_tracked (store choice_shown)); [|exact Htracked1].
    exact (createObject_registry ChoiceObject_initialValues
             (store choice_shown)).
  - intros object Hobject [= <-]. by vm_compute in Hobject.
Defined.

End ClockTrackingFacts.

(** ** Well-formed stores *)

Module WellFormedFacts.
Import ElementResolvedProperties Element ElementInvariant ElementFacts.
Import ElementControl ElementControlFacts.

#[local] Open Scope Q_scope.

Lemma well_formed_empty : well_formed empty.
Proof.
  split.
  - intros id it Hit. done.
  - intros object id Hin. by apply elem_of_nil in Hin.
Qed.

(** Replacing an Object by one with the same properties. *)
Lemma set_object_preserved store object rendered rendered' :
  objects store !! object = Some rendered →
  (∀ name, is_Some (values rendered !! name) →
           is_Some (values rendered' !! name)) →
  preserved store
    (set_objects (<[object := rendered']> (objects store)) store).
Proof.
  intros Hobject Hvalues. apply same_registry_preserved; [done|].
  intros object' name' (found & Hfound & Hname). unfold has_property. cbn.
  destruct (decide (object' = object)) as [->|Hne].
  - rewrite list_lookup_insert_eq by (by eapply lookup_lt_Some).
    eexists. split; [reflexivity|]. apply Hvalues. by simplify_eq.
  - rewrite list_lookup_insert_ne by done. eauto.
Qed.

Lemma setPropertyValue_preserved object name value store store' :
  setPropertyValue object name value store = Ok store' →
  preserved store store'.
Proof.
  unfold setPropertyValue.
  destruct (objects store !! object) as [rendered|] eqn:Hobject;
    [|discriminate].
  destruct (values rendered !! name) as [old|] eqn:Hold; [|discriminate].
  intros [= <-]. apply (set_object_preserved _ _ rendered); [done|].
  intros name' Hname'. cbn.
  destruct (decide (name' = name)) as [->|Hne].
  - by rewrite lookup_insert_eq.
  - by rewrite lookup_insert_ne.
Qed.

Lemma attachObject_preserved object store store' :
  attachObject object store = Ok store' → preserved store store'.
Proof.
  unfold attachObject.
  destruct (objects store !! object) as [rendered|] eqn:Hobject;
    [|discriminate].
  intros [= <-]. by apply (set_object_preserved _ _ rendered).
Qed.

Lemma detachObject_preserved object store store' :
  detachObject object store = Ok store' → preserved store store'.
Proof.
  unfold detachObject.
  destruct (objects store !! object) as [rendered|] eqn:Hobject;
    [|discriminate].
  intros [= <-]. by apply (set_object_preserved _ _ rendered).
Qed.

Lemma destroyObject_preserved object store store' :
  destroyObject object store = Ok store' → preserved store store'.
Proof.
  unfold destroyObject.
  destruct (objects store !! object) as [rendered|] eqn:Hobject;
    [|discriminate].
  intros [= <-]. by apply (set_object_preserved _ _ rendered).
Qed.

Lemma createObject_preserved initialValues store :
  preserved store (fst (createObject initialValues store)).
Proof.
  apply same_registry_preserved; [done|].
  intros object name (rendered & Hobject & Hname). exists rendered.
  split; [|done]. cbn. apply lookup_app_l_Some. done.
Qed.

Lemma onUpdate_preserved id value store store' :
  onUpdate id value store = Ok store' → preserved store store'.
Proof.
  unfold onUpdate. destruct (allocated store !! id); [|discriminate].
  apply setPropertyValue_preserved.
Qed.

Lemma cancelTransition_preserved id store store' :
  well_formed store → cancelTransition id store = Ok store' →
  preserved store store'.
Proof.
  intros Hwf Hcancel.
  assert (Hid : is_Some (allocated store !! id)).
  { unfold cancelTransition in Hcancel. cbn [cancel] in Hcancel.
    by destruct (allocated store !! id). }
  destruct (cancelTransition_total id store Hwf Hid) as (other & Heq & Hpres).
  rewrite Hcancel in Heq. by injection Heq as <-.
Qed.

Lemma forEach_cancelTransition_preserved ids store store' :
  well_formed store → forEach cancelTransition ids store = Ok store' →
  preserved store store'.
Proof.
  revert store. induction ids as [|id ids IH]; intros store Hwf;
    cbn [forEach].
  - intros [= <-]. apply preserved_refl.
  - destruct (cancelTransition id store) as [store1|e] eqn:Hfirst;
      [|discriminate].
    cbn [mbind result_bind]. intros Hrest.
    pose proof (cancelTransition_preserved _ _ _ Hwf Hfirst) as Hpres1.
    eapply preserved_trans; [exact Hpres1|].
    apply IH; [|done]. by apply (preserved_well_formed store).
Qed.

Lemma onEnd_preserved id store store' :
  well_formed store → onEnd cancelTransition id store = Ok store' →
  preserved store store'.
Proof.
  intros Hwf. unfold onEnd.
  destruct (allocated store !! id) as [it|] eqn:Hit; [|discriminate].
  change (set_frameCallbacks _ _) with (unregister id it store).
  pose proof (unregister_preserved id it store) as Hpres.
  destruct (_ && _); [|by intros [= <-]].
  destruct (forEach cancelTransition _ _) as [store1|e] eqn:Hcascade;
    [|discriminate].
  cbn [mbind result_bind].
  destruct (detachObject _ store1) as [store2|e] eqn:Hdetach;
    [|discriminate].
  cbn [mbind result_bind]. intros Hdestroy.
  eapply preserved_trans; [exact Hpres|].
  eapply preserved_trans.
  { eapply forEach_cancelTransition_preserved; [|exact Hcascade].
    by apply (preserved_well_formed store). }
  eapply preserved_trans.
  - by eapply detachObject_preserved.
  - by eapply destroyObject_preserved.
Qed.

Lemma enroll_well_formed it store :
  well_formed store →
  has_property store (object it) (propertyName it) →
  well_formed (enroll it store).
Proof.
  intros [Hprop Hlisted] Hhas. split.
  - intros id it' Hit'. change (has_property store (object it')
                                             (propertyName it')).
    destruct (decide (id = length (allocated store))) as [->|Hne].
    + rewrite enroll_lookup in Hit'. by injection Hit' as <-.
    + rewrite enroll_lookup_ne in Hit' by done. by apply (Hprop id).
  - intros object id Hin. cbn in Hin. unfold multimap_set in Hin.
    apply elem_of_app in Hin as [Hin|Hin].
    + apply lookup_lt_is_Some. rewrite enroll_length.
      apply Hlisted, lookup_lt_is_Some in Hin. lia.
    + apply list_elem_of_singleton in Hin. injection Hin as -> ->.
      rewrite enroll_lookup. eauto.
Qed.

Lemma transitionPropertyValue_well_formed object name value delay duration
    easing store store' :
  well_formed store →
  transitionPropertyValue object name value delay duration easing store
  = Ok store' →
  well_formed store'.
Proof.
  intros Hwf. unfold transitionPropertyValue.
  destruct value as [number| |]; cycle 1.
  { intros Hset%setPropertyValue_preserved.
    by apply (preserved_well_formed store). }
  { intros Hset%setPropertyValue_preserved.
    by apply (preserved_well_formed store). }
  destruct (getPropertyValue object name store) as [[current| |]|e] eqn:Hget;
    try discriminate.
  assert (Hhas : has_property store object name).
  { unfold getPropertyValue in Hget.
    destruct (objects store !! object) as [rendered|] eqn:Hobject;
      [|discriminate].
    destruct (values rendered !! name) eqn:Hname; [|discriminate].
    exists rendered. split; [done|]. eauto. }
  cbn [mbind result_bind].
  destruct (start_fresh current number duration delay easing)
    as (tween' & value & -> & Hdelay).
  cbn [mbind result_bind].
  set (it := {| object := object; propertyName := name;
                propertyValue := number;
                tween := Transition.setEasing easing
                           (Transition.setDelay delay
                              (Transition.new current number duration
                                 Transition.IdentityConverter)) |}).
  change (set_frameCallbacks _ _) with (enroll it store).
  set (id := length (allocated store)).
  cbn [forEach notified mbind result_bind].
  destruct (onUpdate id value _) as [store2|e] eqn:Hupdate; [|discriminate].
  cbn [mbind result_bind].
  assert (Hwf2 : well_formed store2).
  { eapply preserved_well_formed; [by eapply onUpdate_preserved|].
    eapply preserved_well_formed; [apply set_tween_preserved|].
    by apply enroll_well_formed. }
  destruct (Transition.isRunning tween'); cbn [forEach].
  - by intros [= <-].
  - cbn [notified].
    destruct (onEnd cancelTransition id store2) as [store3|e] eqn:Hend;
      [|discriminate].
    cbn [mbind result_bind forEach]. intros [= <-].
    eapply preserved_well_formed; [by eapply onEnd_preserved|done].
Qed.

Section Commit.
Context {Options : Type}.
Variable crossFade : bool.
Variable resolveProperties :
  ElementProperties → ObjectId → bool → option Options
  → result ResolvedProperties.
Variable getTransitionElementCount : ObjectId → bool → Q.
Variable Ease : Q → Q.

Lemma transitionProperty_well_formed (suspended : Suspended Options)
    newObject oldOld oldNew newOld newNew oldDuration newDelay newDuration
    name store store' :
  well_formed store →
  transitionProperty Ease suspended newObject oldOld oldNew newOld newNew
                     oldDuration newDelay newDuration name store
  = Ok store' →
  well_formed store'.
Proof.
  intros Hwf. unfold transitionProperty.
  bind_case as store1 eqn:Hcancel.
  assert (Hwf1 : well_formed store1).
  { destruct (_ || _); [|by injection Hcancel as <-].
    eapply preserved_well_formed; [|exact Hwf].
    by eapply forEach_cancelTransition_preserved. }
  destruct (resolveElementPropertyTransitionEasing _ _) as [easingName|e];
    [|discriminate].
  cbn [mbind result_bind].
  destruct (getElementTransitionEasing Ease easingName) as [easing|e];
    [|discriminate].
  cbn [mbind result_bind].
  bind_case as store2 eqn:Hold.
  assert (Hwf2 : well_formed store2).
  { destruct (differs (property oldOld name) (property oldNew name));
      [|by injection Hold as <-].
    destruct (defined (oldObject suspended)); [|discriminate].
    cbn [mbind result_bind] in Hold.
    destruct (defined (property oldNew name)); [|discriminate].
    cbn [mbind result_bind] in Hold.
    by eapply transitionPropertyValue_well_formed. }
  destruct (differs (property newOld name) (property newNew name));
    [|by intros [= <-]].
  destruct (defined newObject); [|discriminate].
  cbn [mbind result_bind].
  destruct (defined (property newNew name)); [|discriminate].
  cbn [mbind result_bind].
  by apply transitionPropertyValue_well_formed.
Qed.

Lemma forEach_setPropertyValue_preserved object
    (entries : ResolvedProperties) store store' :
  forEach (λ entry, setPropertyValue object (fst entry) (snd entry))
          entries store = Ok store' →
  preserved store store'.
Proof.
  revert store. induction entries as [|entry entries IH]; intros store;
    cbn [forEach].
  - intros [= <-]. apply preserved_refl.
  - destruct (setPropertyValue object (fst entry) (snd entry) store)
      as [store1|e] eqn:Hfirst; [|discriminate].
    cbn [mbind result_bind]. intros Hrest.
    eapply preserved_trans;
      [by eapply setPropertyValue_preserved|by apply IH].
Qed.

Lemma transition_commit_well_formed (suspended : Suspended Options)
    newObject (this this' : t Options) :
  well_formed (store this) →
  transition_commit crossFade resolveProperties getTransitionElementCount
                    Ease suspended newObject this = Ok this' →
  well_formed (store this').
Proof.
  intros Hwf. unfold transition_commit.
  bind_case as [oldOld oldNew] eqn:Hold.
  bind_case as [newOld newNew] eqn:Hnew.
  bind_case as store1 eqn:Hattach.
  assert (Hwf1 : well_formed store1).
  { destruct newObject as [object|], newOld as [entries|];
      try (by injection Hattach as <-).
    destruct (forEach _ entries (store this)) as [store0|e] eqn:Hset;
      [|discriminate].
    cbn [mbind result_bind] in Hattach.
    eapply preserved_well_formed; [by eapply attachObject_preserved|].
    eapply preserved_well_formed;
      [by eapply forEach_setPropertyValue_preserved|done]. }
  bind_case as oldDuration eqn:HoldDuration.
  bind_case as newDuration eqn:HnewDuration.
  bind_case as keyed eqn:Hkeyed.
  bind_case as store2 eqn:Hloop.
  assert (Hwf2 : well_formed store2).
  { revert Hloop. apply forEach_preserves; [|done].
    intros name state state'. apply transitionProperty_well_formed. }
  by destruct (truthy (newValue suspended)); intros [= <-].
Qed.

Lemma update_well_formed initialValues properties
    (options : option Options) (this this' : t Options) :
  well_formed (store this) →
  update crossFade resolveProperties getTransitionElementCount Ease
         initialValues properties options this = Ok this' →
  well_formed (store this').
Proof.
  intros Hwf. unfold update.
  bind_case as [yielded suspended] eqn:Hbegin.
  destruct suspended as [suspended|]; [|by intros [= <-]].
  destruct yielded.
  - by apply transition_commit_well_formed.
  - cbn. apply transition_commit_well_formed. cbn.
    eapply preserved_well_formed; [apply createObject_preserved|done].
Qed.

End Commit.

Lemma updateTransition_well_formed time id store store' :
  well_formed store →
  updateTransition time id store = Ok store' → well_formed store'.
Proof.
  intros Hwf. unfold updateTransition.
  destruct (allocated store !! id) as [it|] eqn:Hit; [|discriminate].
  destruct (Transition.update time (tween it)) as [tween' notifications].
  pose proof (preserved_well_formed _ _ (set_tween_preserved id tween' store)
                Hwf) as Hwf1.
  revert Hwf1. generalize (set_tween id tween' store).
  induction notifications as [|[callbacks value] notifications IH];
    intros state Hstate; cbn [forEach].
  - by intros [= <-].
  - destruct (notified cancelTransition id (callbacks, value) state)
      as [state1|e] eqn:Hfirst; [|discriminate].
    cbn [mbind result_bind]. apply IH.
    destruct callbacks; cbn [notified] in Hfirst;
      try (by injection Hfirst as <-).
    + eapply preserved_well_formed; [by eapply onEnd_preserved|done].
    + eapply preserved_well_formed; [by eapply onUpdate_preserved|done].
Qed.

Lemma nextFrame_well_formed time store store' :
  well_formed store → nextFrame time store = Ok store' → well_formed store'.
Proof.
  unfold nextFrame. apply forEach_preserves.
  intros id state state' Hwf.
  case_bool_decide; [by apply updateTransition_well_formed|by intros [= <-]].
Qed.

(** X26: every transition an element has made is for an Object that exists
    and for a property that Object has, and the multimap of Objects
    lists only transitions that exist.  This holds of a new element and
    is kept by the commit phase of [transition], by a whole [update], by
    a frame of the clock and by any sequence of cancellations; and
    where it holds, canceling a transition of the element returns:
    neither its update callback nor its end callback throws. *)
Theorem transitions_stay_well_formed :
  well_formed empty
  ∧ (∀ (Options : Type) crossFade resolveProperties
       getTransitionElementCount Ease (suspended : Suspended Options)
       newObject this this',
       well_formed (store this) →
       transition_commit crossFade resolveProperties
                         getTransitionElementCount Ease suspended newObject
                         this = Ok this' →
       well_formed (store this'))
  ∧ (∀ (Options : Type) crossFade resolveProperties
       getTransitionElementCount Ease initialValues properties
       (options : option Options) this this',
       well_formed (store this) →
       update crossFade resolveProperties getTransitionElementCount Ease
              initialValues properties options this = Ok this' →
       well_formed (store this'))
  ∧ (∀ time store store',
       well_formed store → nextFrame time store = Ok store' →
       well_formed store')
  ∧ (∀ ids store store',
       well_formed store → forEach cancelTransition ids store = Ok store' →
       well_formed store')
  ∧ (∀ id store,
       well_formed store → is_Some (allocated store !! id) →
       ∃ store', cancelTransition id store = Ok store'
                 ∧ well_formed store').
Proof.
  split; [apply well_formed_empty|].
  split; [intros Options; apply transition_commit_well_formed|].
  split; [intros Options; apply update_well_formed|].
  split; [apply nextFrame_well_formed|].
  split.
  { intros ids store store' Hwf Hcancel.
    eapply preserved_well_formed; [|exact Hwf].
    by eapply forEach_cancelTransition_preserved. }
  intros id store Hwf Hid.
  destruct (cancelTransition_total id store Hwf Hid) as (store' & Heq & Hpres).
  exists store'. split; [done|]. by apply (preserved_well_formed store).
Qed.

(** *** Examples *)

Import Scenarios.

Lemma transitions_stay_well_formed_witness :
  well_formed (store choice_changed)
  ∧ length (allocated (store choice_changed)) = 3%nat
  ∧ ∃ store', cancelTransition 1%nat (store choice_changed) = Ok store'
              ∧ well_formed store'.
Proof.
  destruct transitions_stay_well_formed
    as (Hempty & Hcommit & Hupdate & _ & _ & Hcancel).
  assert (Hshown : well_formed (store choice_shown)).
  { exact (Hupdate unit _ _ _ _ _ _ _ choice_new choice_shown Hempty
             choice_shown_eq). }
  assert (Hchanged : well_formed (store choice_changed)).
  { refine (Hcommit unit _ _ _ _ choice_suspended (Some 1%nat) choice_loaded
                    choice_changed _ choice_changed_eq).
    eapply preserved_well_formed; [|exact Hshown].
    exact (createObject_preserved ChoiceObject_initialValues
             (store choice_shown)). }
  split; [exact Hchanged|]. split; [by vm_compute|].
  apply Hcancel; [exact Hchanged|]. vm_compute. eauto.
Defined.

End WellFormedFacts.

(** ** Inserting with an order *)

Module HTMLElementsFacts.
Import HTMLElements.

#[local] Open Scope Z_scope.

Lemma StronglySorted_cons_iff {A : Type} (R : A → A → Prop) x l :
  StronglySorted R (x :: l) ↔ Forall (R x) l ∧ StronglySorted R l.
Proof.
  split.
  - intros H. apply StronglySorted_inv in H as [H1 H2]. done.
  - intros [H1 H2]. by constructor.
Qed.

Lemma StronglySorted_app_iff {A : Type} (R : A → A → Prop) l1 l2 :
  StronglySorted R (l1 ++ l2)
  ↔ (∀ x1 x2, x1 ∈ l1 → x2 ∈ l2 → R x1 x2)
    ∧ StronglySorted R l1 ∧ StronglySorted R l2.
Proof.
  induction l1 as [|x l1 IH]; cbn [app].
  - split.
    + intros H. split; [|split; [constructor|done]].
      intros x1 x2 Hx1. by apply elem_of_nil in Hx1.
    + by intros (_ & _ & H).
  - rewrite !StronglySorted_cons_iff, IH, Forall_app, !Forall_forall. split.
    + intros ((Hx1 & Hx2) & Hcross & H1 & H2).
      split; [|done].
      intros x1 x2 [->|Hin]%elem_of_cons Hin2; [by apply Hx2|by apply Hcross].
    + intros (Hcross & (Hx & H1) & H2). split; [split; [done|]|].
      * intros x2 Hin2. apply Hcross; [by left|done].
      * split; [|done]. intros x1 x2 Hin1 Hin2.
        apply Hcross; [by right|done].
Qed.

Lemma findInsertBefore_spec order children position insertBeforeElement :
  (Forall (λ child, larger order child = false) children
   ∧ findInsertBefore order children position insertBeforeElement
     = insertBeforeElement)
  ∨ ∃ before child after,
      children = before ++ child :: after
      ∧ larger order child = true
      ∧ Forall (λ child, larger order child = false) after
      ∧ findInsertBefore order children position insertBeforeElement
        = Some (position + length before)%nat.
Proof.
  revert position insertBeforeElement.
  induction children as [|child children IH];
    intros position insertBeforeElement; cbn [findInsertBefore].
  { left. by split. }
  assert (Hpick :
    (if negb (isHTMLElement child) then insertBeforeElement
     else match dataset_order child with
          | Some childOrder =>
              if order <? childOrder then Some position
              else insertBeforeElement
          | None => insertBeforeElement
          end)
    = if larger order child then Some position else insertBeforeElement).
  { unfold larger. destruct (isHTMLElement child); [|done].
    by destruct (dataset_order child). }
  rewrite Hpick. clear Hpick.
  destruct (IH (S position)
              (if larger order child then Some position
               else insertBeforeElement))
    as [[Hnone ->]|(before & child' & after & -> & Hlarger & Hnone & ->)].
  - destruct (larger order child) eqn:Hchild.
    + right. exists [], child, children. cbn.
      by rewrite Nat.add_0_r.
    + left. split; [by constructor|done].
  - right. exists (child :: before), child', after. cbn.
    repeat (split; [done|]). f_equal. lia.
Qed.

Lemma orders_not_larger order children :
  Forall (λ child, larger order child = false) children →
  Forall (λ childOrder, childOrder ≤ order) (orders children).
Proof.
  intros Hnone. apply Forall_forall. intros childOrder Hin.
  apply list_elem_of_omap in Hin as (child & Hin & Hchild).
  rewrite Forall_forall in Hnone. specialize (Hnone _ Hin).
  unfold larger in Hnone. destruct (isHTMLElement child); [|done].
  rewrite Hchild in Hnone. cbn in Hnone. lia.
Qed.

Lemma filter_none order (l : list Z) :
  Forall (λ childOrder, childOrder ≤ order) l →
  List.filter (λ childOrder, order <? childOrder) l = [].
Proof.
  induction 1 as [|childOrder l Hle _ IH]; [done|]. cbn.
  destruct (Z.ltb_spec order childOrder); [lia|done].
Qed.

Lemma filter_length_zero order (l : list Z) :
  length (List.filter (λ childOrder, order <? childOrder) l) = 0%nat →
  Forall (λ childOrder, childOrder ≤ order) l.
Proof.
  induction l as [|childOrder l IH]; [by constructor|]. cbn.
  destruct (Z.ltb_spec order childOrder); [done|].
  intros Hl. constructor; [done|by apply IH].
Qed.

(** X16: [insertWithOrder] keeps children that are sorted by their
    order sorted exactly when at most one of them has a larger order
    than the new element: the element goes before the last child with
    a larger order, not before the first. *)
Theorem insertWithOrder_sorted (children : list Child) (order : Z)
    (element : nat) :
  StronglySorted Z.le (orders children) →
  StronglySorted Z.le (orders (insertWithOrder children order element))
  ↔ (length (List.filter (λ childOrder, (order <? childOrder)%Z)
                         (orders children)) ≤ 1)%nat.
Proof.
  intros Hsorted. unfold insertWithOrder.
  destruct (findInsertBefore_spec order children 0 None)
    as [[Hnone ->]|(before & child & after & -> & Hlarger & Hnone & ->)].
  - apply orders_not_larger in Hnone.
    rewrite (filter_none _ _ Hnone). cbn [length].
    split; [lia|]. intros _. unfold orders. rewrite omap_app. cbn.
    apply StronglySorted_app_iff. split; [|split; [done|]].
    + intros x1 x2 Hx1 ->%list_elem_of_singleton.
      rewrite Forall_forall in Hnone. by apply Hnone.
    + repeat constructor.
  - cbn [Nat.add]. rewrite take_app_length, drop_app_length.
    unfold larger in Hlarger.
    destruct (isHTMLElement child) eqn:Hhtml; [|done].
    destruct (dataset_order child) as [childOrder|] eqn:Hchild; [|done].
    cbn in Hlarger. apply Z.ltb_lt in Hlarger.
    apply orders_not_larger in Hnone.
    unfold orders in *. rewrite !omap_app in *. cbn [omap list_omap] in *.
    rewrite Hhtml, Hchild in *. cbn [omap list_omap] in *.
    apply StronglySorted_app_iff in Hsorted
      as (Hcross & Hbefore & Hafter).
    apply StronglySorted_cons_iff in Hafter as [Hfirst Hafter].
    assert (Hempty : omap (λ child, if isHTMLElement child
                                    then dataset_order child else None)
                          after = []).
    { destruct (omap _ after) as [|next rest]; [done|].
      apply Forall_cons in Hfirst as [Hfirst _].
      apply Forall_cons in Hnone as [Hnone _]. lia. }
    rewrite Hempty in *.
    rewrite List.filter_app, length_app. cbn [List.filter].
    destruct (Z.ltb_spec order childOrder); [|lia]. cbn [length].
    split.
    + intros Hresult.
      apply StronglySorted_app_iff in Hresult as (Hcross' & _ & _).
      rewrite filter_none; [cbn; lia|].
      apply Forall_forall. intros x Hx. apply Hcross'; [done|]. by left.
    + intros Hcount. apply StronglySorted_app_iff.
      assert (Hle : Forall (λ childOrder, childOrder ≤ order)
                           (omap (λ child, if isHTMLElement child
                                           then dataset_order child else None)
                                 before)).
      { apply filter_length_zero. lia. }
      split; [|split; [done|]].
      * intros x1 x2 Hx1 Hx2. rewrite Forall_forall in Hle.
        specialize (Hle _ Hx1).
        apply elem_of_cons in Hx2 as [->|Hx2]; [done|].
        apply list_elem_of_singleton in Hx2 as ->. lia.
      * apply StronglySorted_cons_iff. split; [|repeat constructor].
        constructor; [lia|constructor].
Qed.

Lemma insertWithOrder_sorted_witness :
  StronglySorted Z.le (orders (insertWithOrder example_children 2 2%nat))
  ↔ (length (List.filter (λ childOrder, (2 <? childOrder)%Z)
                         (orders example_children)) ≤ 1)%nat.
Proof.
  apply insertWithOrder_sorted. cbn.
  repeat constructor. lia.
Defined.

End HTMLElementsFacts.

(** ** The typewriter of a text *)

Module TextObjectFacts.
Import Layout TextObject.

#[local] Open Scope Q_scope.

Lemma window_revealed (count value center : Q) :
  1 - Qmax 0 (Qmin (center + 1 / 2 - (value * (count + 5 - 1) - 5 + 1 / 2)) 5)
      / 5
  == Qmin (Qmax 0 ((value * (count + 4) - center) / 5)) 1.
Proof.
  set (x := value * (count + 4) - center).
  assert (Hx : center + 1 / 2 - (value * (count + 5 - 1) - 5 + 1 / 2)
               == 5 - x) by (unfold x; ring).
  rewrite Hx. clear Hx.
  assert (Hdiv : x / 5 == x * (1 # 5)) by (field).
  rewrite Hdiv.
  destruct (Qlt_le_dec x 0) as [Hlow|Hlow];
    [|destruct (Qlt_le_dec x 5) as [Hhigh|Hhigh]].
  - rewrite (Q.min_r (5 - x) 5) by lra. rewrite (Q.max_r 0 5) by lra.
    rewrite (Q.max_l 0 (x * (1 # 5))) by lra. rewrite (Q.min_l 0 1) by lra.
    field.
  - rewrite (Q.min_l (5 - x) 5) by lra. rewrite (Q.max_r 0 (5 - x)) by lra.
    rewrite (Q.max_r 0 (x * (1 # 5))) by lra.
    rewrite (Q.min_l (x * (1 # 5)) 1) by lra.
    field.
  - rewrite (Q.min_l (5 - x) 5) by lra. rewrite (Q.max_l 0 (5 - x)) by lra.
    rewrite (Q.max_r 0 (x * (1 # 5))) by lra.
    rewrite (Q.min_r (x * (1 # 5)) 1) by lra.
    field.
Qed.

Lemma revealed_bounds (progress : Q) (index : nat) :
  0 <= revealed progress index <= 1.
Proof.
  unfold revealed. split.
  - apply Q.min_glb; [apply Q.le_max_l|lra].
  - apply Q.le_min_r.
Qed.

Lemma revealed_monotone (progress progress' : Q) (index index' : nat) :
  progress <= progress' → (index <= index')%nat →
  revealed progress index' <= revealed progress' index.
Proof.
  intros Hprogress Hindex. unfold revealed.
  assert (Hle : inject_Z (Z.of_nat index) <= inject_Z (Z.of_nat index')).
  { rewrite <- Zle_Qle. lia. }
  apply Q.min_le_compat_r. apply Q.max_le_compat_l.
  apply Qmult_le_compat_r; [lra|]. by vm_compute.
Qed.

Lemma set_value_enter (this : t) (value : Q) :
  enterByGraphemeCluster this = true →
  isEnter this = true ∨ value == 0 →
  ¬ value == 1 →
  isEnter (set_value value this) = true
  ∧ getOpacity (element (set_value value this)) == 1
  ∧ length (spans (set_value value this)) = length (spans this)
  ∧ ∀ index, (index < length (spans this))%nat →
      spanOpacity (set_value value this) index
      == revealed (progress this value) index.
Proof.
  intros Hcluster Henter Hnot. unfold set_value.
  assert (Hstate :
    (if Qeq_bool value 0 then true
     else if isEnter this && Qeq_bool value 1 then false else isEnter this)
    = true).
  { destruct (Qeq_bool value 0) eqn:Hzero; [done|].
    destruct Henter as [->|Hvalue]; cycle 1.
    { apply Qeq_bool_iff in Hvalue. congruence. }
    cbn. destruct (Qeq_bool value 1) eqn:Hone; [|done].
    apply Qeq_bool_iff in Hone. done. }
  rewrite Hstate, Hcluster. cbn.
  split; [done|]. split; [done|]. split; [apply length_imap|].
  intros index Hindex. unfold spanOpacity. cbn.
  rewrite list_lookup_imap.
  destruct (lookup_lt_is_Some_2 _ _ Hindex) as [span ->]. cbn.
  rewrite LayoutInvariantFacts.getOpacity_setOpacity. unfold ENTER_TRANSITION_WINDOW_SIZE.
  apply window_revealed.
Qed.

Lemma set_value_shown (this : t) (value : Q) :
  enterByGraphemeCluster this = true →
  value == 1 →
  isEnter (set_value value this) = false
  ∧ getOpacity (element (set_value value this)) == 1
  ∧ length (spans (set_value value this)) = length (spans this)
  ∧ ∀ index, spanOpacity (set_value value this) index == 1.
Proof.
  intros Hcluster Hone. unfold set_value.
  assert (Hzero : Qeq_bool value 0 = false).
  { apply not_true_iff_false. intros Hzero%Qeq_bool_iff. lra. }
  assert (Hone' : Qeq_bool value 1 = true) by by apply Qeq_bool_iff.
  rewrite Hzero, Hone'.
  assert (Hstate : (if isEnter this && true then false else isEnter this)
                   = false) by by destruct (isEnter this).
  rewrite Hstate, Hcluster. cbn.
  split; [done|]. split; [by rewrite LayoutInvariantFacts.getOpacity_setOpacity|].
  split; [apply length_fmap|].
  intros index. unfold spanOpacity. cbn. rewrite list_lookup_fmap.
  destruct (spans this !! index); [|done]. cbn.
  apply LayoutInvariantFacts.getOpacity_setOpacity.
Qed.

(** X17: while a text enters by grapheme cluster, its element is fully
    visible and the span of grapheme cluster [index] has the opacity
    [(progress - index) / 5] clamped to [0, 1], where the progress is
    the value times the transition element count: a span is hidden
    until the progress reaches its index and fully visible five
    clusters later. *)
Theorem typewriter_window (this : t) (value : Q) (index : nat) :
  enterByGraphemeCluster this = true →
  isEnter this = true ∨ value == 0 →
  ¬ value == 1 →
  (index < length (spans this))%nat →
  transitionElementCount this
  = Ok (inject_Z (Z.of_nat (length (spans this))) + 5 - 1)
  ∧ isEnter (set_value value this) = true
  ∧ getOpacity (element (set_value value this)) == 1
  ∧ spanOpacity (set_value value this) index
    == revealed (progress this value) index
  ∧ (progress this value <= inject_Z (Z.of_nat index) →
     spanOpacity (set_value value this) index == 0)
  ∧ (inject_Z (Z.of_nat index) + 5 <= progress this value →
     spanOpacity (set_value value this) index == 1).
Proof.
  intros Hcluster Henter Hnot Hindex.
  destruct (set_value_enter this value Hcluster Henter Hnot)
    as (Hstate & Helement & _ & Hspans).
  specialize (Hspans index Hindex).
  split; [unfold transitionElementCount; by rewrite Hcluster|].
  repeat (split; [done|]). split.
  - intros Hlow. rewrite Hspans. unfold revealed.
    rewrite Q.max_l, Q.min_l; [done|lra|].
    apply Qle_shift_div_r; lra.
  - intros Hhigh. rewrite Hspans. unfold revealed.
    rewrite Q.min_r; [done|].
    apply Q.max_le_iff. right. apply Qle_shift_div_l; lra.
Qed.

(** X18: the text only ever appears while it enters: when the value
    grows, no span gets less visible, an earlier span is at least as
    visible as a later one, and every opacity stays within [0, 1]. *)
Theorem typewriter_monotone (this : t) (value value' : Q)
    (index index' : nat) :
  enterByGraphemeCluster this = true →
  isEnter this = true ∨ value == 0 →
  0 <= value → value <= value' → value' <= 1 →
  (index <= index')%nat → (index' < length (spans this))%nat →
  0 <= spanOpacity (set_value value this) index'
  ∧ spanOpacity (set_value value this) index'
    <= spanOpacity (set_value value' (set_value value this)) index
  ∧ spanOpacity (set_value value' (set_value value this)) index <= 1.
Proof.
  intros Hcluster Henter Hlow Hle Hhigh Hindex Hindex'.
  assert (Hcluster1 : enterByGraphemeCluster (set_value value this) = true).
  { unfold set_value. by destruct (_ && _). }
  destruct (Qeq_dec value 1) as [Hone|Hnot].
  { assert (Hone' : value' == 1) by lra.
    destruct (set_value_shown this value Hcluster Hone) as (_ & _ & _ & H1).
    destruct (set_value_shown (set_value value this) value' Hcluster1 Hone')
      as (_ & _ & _ & H2).
    rewrite H1, H2. lra. }
  destruct (set_value_enter this value Hcluster Henter Hnot)
    as (Hstate & _ & Hlength & Hspans).
  rewrite (Hspans index' Hindex').
  pose proof (revealed_bounds (progress this value) index') as [Hb1 Hb2].
  split; [done|].
  destruct (Qeq_dec value' 1) as [Hone'|Hnot'].
  { destruct (set_value_shown (set_value value this) value' Hcluster1 Hone')
      as (_ & _ & _ & H2).
    rewrite H2. lra. }
  destruct (set_value_enter (set_value value this) value' Hcluster1
              (or_introl Hstate) Hnot') as (_ & _ & _ & Hspans').
  rewrite (Hspans' index) by lia.
  split; [|apply revealed_bounds].
  apply revealed_monotone; [|done].
  unfold progress. rewrite Hlength.
  apply Qmult_le_compat_r; [done|].
  assert (0 <= inject_Z (Z.of_nat (length (spans this)))).
  { change 0 with (inject_Z 0). rewrite <- Zle_Qle. lia. }
  lra.
Qed.

Lemma typewriter_window_witness :
  transitionElementCount example_text = Ok (inject_Z 3 + 5 - 1)
  ∧ isEnter (set_value (1 # 2) example_text) = true
  ∧ getOpacity (element (set_value (1 # 2) example_text)) == 1
  ∧ spanOpacity (set_value (1 # 2) example_text) 1
    == revealed (progress example_text (1 # 2)) 1
  ∧ (progress example_text (1 # 2) <= inject_Z 1 →
     spanOpacity (set_value (1 # 2) example_text) 1 == 0)
  ∧ (inject_Z 1 + 5 <= progress example_text (1 # 2) →
     spanOpacity (set_value (1 # 2) example_text) 1 == 1).
Proof.
  apply (typewriter_window example_text (1 # 2) 1).
  - reflexivity.
  - left. reflexivity.
  - intros H. vm_compute in H. discriminate.
  - vm_compute. lia.
Defined.

Lemma typewriter_monotone_witness :
  0 <= spanOpacity (set_value (1 # 4) example_text) 2
  ∧ spanOpacity (set_value (1 # 4) example_text) 2
    <= spanOpacity (set_value (1 # 2) (set_value (1 # 4) example_text)) 1
  ∧ spanOpacity (set_value (1 # 2) (set_value (1 # 4) example_text)) 1 <= 1.
Proof.
  apply (typewriter_monotone example_text (1 # 4) (1 # 2) 1 2).
  - reflexivity.
  - left. reflexivity.
  - vm_compute. discriminate.
  - vm_compute. discriminate.
  - vm_compute. discriminate.
  - lia.
  - vm_compute. lia.
Defined.

End TextObjectFacts.

(** ** Parsing properties *)

Module PropertyValueParseFacts.
Import PropertyValueParse.

#[local] Open Scope string_scope.

Lemma chars_app (left right : string) :
  chars (left ++ right) = (chars left ++ chars right)%list.
Proof.
  unfold chars. induction left as [|char left IH]; [done|].
  change (String char left ++ right) with (String char (left ++ right)).
  cbn. by rewrite IH.
Qed.

Lemma string_of_chars (source : string) :
  string_of_list_ascii (chars source) = source.
Proof. apply string_of_list_ascii_of_string. Qed.

Lemma endsWith_app (source suffix : string) :
  endsWith (source ++ suffix) suffix = true.
Proof.
  unfold endsWith. apply bool_decide_eq_true. rewrite chars_app.
  by apply suffix_app_r.
Qed.

Lemma dropEnd_app (source suffix : string) :
  dropEnd (source ++ suffix) (String.length suffix) = source.
Proof.
  unfold dropEnd. rewrite chars_app, length_app.
  assert (Hlength : String.length suffix = length (chars suffix)).
  { unfold chars. induction suffix as [|char suffix IH]; [done|].
    cbn. by rewrite IH. }
  rewrite Hlength.
  replace (length (chars source) + length (chars suffix)
           - length (chars suffix))%nat
    with (length (chars source)) by lia.
  rewrite take_app_length. apply string_of_chars.
Qed.

(** When the last characters of two suffixes differ, a source does not
    end with both. *)
Lemma endsWith_other (source tail suffix : string) (c c' : ascii)
    (left right : string) :
  tail = left ++ String c "" → suffix = right ++ String c' "" → c ≠ c' →
  endsWith (source ++ tail) suffix = false.
Proof.
  intros -> -> Hne. unfold endsWith. apply bool_decide_eq_false.
  rewrite !chars_app. cbn. rewrite !app_assoc.
  intros [prefix Heq].
  rewrite app_assoc in Heq. apply app_inj_tail in Heq as [_ Heq]. done.
Qed.

Lemma endsWith_cancel (source suffix tail whole : string) :
  whole = suffix ++ tail →
  endsWith (source ++ tail) whole = endsWith source suffix.
Proof.
  intros ->. unfold endsWith. apply bool_decide_ext. rewrite !chars_app. split.
  - apply suffix_app_inv.
  - apply suffix_app.
Qed.

Section Units.
Variable Number : string → option Q.
Variables (numeral : string) (value : Q).
Hypothesis Number_numeral : Number numeral = Some value.

Lemma TimeValue_parse_ms :
  TimeValue_parse Number (numeral ++ "ms") = Some (TimeValue value UnitMs).
Proof using Number_numeral.
  unfold TimeValue_parse. rewrite endsWith_app. cbn [mbind option_bind].
  change (String.length (TimeUnit_name UnitMs)) with (String.length "ms").
  by rewrite dropEnd_app, Number_numeral.
Qed.

Lemma TimeValue_parse_mspe :
  TimeValue_parse Number (numeral ++ "mspe")
  = Some (TimeValue value UnitMspe).
Proof using Number_numeral.
  unfold TimeValue_parse.
  rewrite (endsWith_other numeral "mspe" "ms" "e" "s" "msp" "m") by done.
  rewrite (endsWith_other numeral "mspe" "s" "e" "s" "msp" "") by done.
  rewrite endsWith_app. cbn [mbind option_bind].
  change (String.length (TimeUnit_name UnitMspe))
    with (String.length "mspe").
  by rewrite dropEnd_app, Number_numeral.
Qed.

Lemma TimeValue_parse_s :
  endsWith numeral "m" = false →
  TimeValue_parse Number (numeral ++ "s") = Some (TimeValue value UnitS).
Proof using Number_numeral.
  intros Hm. unfold TimeValue_parse.
  rewrite (endsWith_cancel numeral "m" "s" "ms") by done.
  rewrite Hm.
  rewrite endsWith_app. cbn [mbind option_bind].
  change (String.length (TimeUnit_name UnitS)) with (String.length "s").
  by rewrite dropEnd_app, Number_numeral.
Qed.

Lemma TimeValue_parse_spe :
  endsWith numeral "m" = false →
  TimeValue_parse Number (numeral ++ "spe") = Some (TimeValue value UnitSpe).
Proof using Number_numeral.
  intros Hm. unfold TimeValue_parse.
  rewrite (endsWith_other numeral "spe" "ms" "e" "s" "sp" "m") by done.
  rewrite (endsWith_other numeral "spe" "s" "e" "s" "sp" "") by done.
  rewrite (endsWith_cancel numeral "m" "spe" "mspe") by done.
  rewrite Hm.
  rewrite endsWith_app. cbn [mbind option_bind].
  change (String.length (TimeUnit_name UnitSpe)) with (String.length "spe").
  by rewrite dropEnd_app, Number_numeral.
Qed.

Lemma AngleValue_parse_deg :
  AngleValue_parse Number (numeral ++ "deg") = Some (AngleValue value UnitDeg).
Proof using Number_numeral.
  unfold AngleValue_parse. rewrite endsWith_app. cbn [mbind option_bind].
  change (String.length (AngleUnit_name UnitDeg)) with (String.length "deg").
  by rewrite dropEnd_app, Number_numeral.
Qed.

Lemma AngleValue_parse_grad :
  AngleValue_parse Number (numeral ++ "grad")
  = Some (AngleValue value UnitGrad).
Proof using Number_numeral.
  unfold AngleValue_parse.
  rewrite (endsWith_other numeral "grad" "deg" "d" "g" "gra" "de") by done.
  rewrite endsWith_app. cbn [mbind option_bind].
  change (String.length (AngleUnit_name UnitGrad))
    with (String.length "grad").
  by rewrite dropEnd_app, Number_numeral.
Qed.

Lemma AngleValue_parse_turn :
  AngleValue_parse Number (numeral ++ "turn")
  = Some (AngleValue value UnitTurn).
Proof using Number_numeral.
  unfold AngleValue_parse.
  rewrite (endsWith_other numeral "turn" "deg" "n" "g" "tur" "de") by done.
  rewrite (endsWith_other numeral "turn" "grad" "n" "d" "tur" "gra") by done.
  rewrite (endsWith_other numeral "turn" "rad" "n" "d" "tur" "ra") by done.
  rewrite endsWith_app. cbn [mbind option_bind].
  change (String.length (AngleUnit_name UnitTurn))
    with (String.length "turn").
  by rewrite dropEnd_app, Number_numeral.
Qed.

Lemma AngleValue_parse_rad :
  endsWith numeral "g" = false →
  AngleValue_parse Number (numeral ++ "rad") = Some (AngleValue value UnitRad).
Proof using Number_numeral.
  intros Hg. unfold AngleValue_parse.
  rewrite (endsWith_other numeral "rad" "deg" "d" "g" "ra" "de") by done.
  rewrite (endsWith_cancel numeral "g" "rad" "grad") by done.
  rewrite Hg.
  rewrite endsWith_app. cbn [mbind option_bind].
  change (String.length (AngleUnit_name UnitRad)) with (String.length "rad").
  by rewrite dropEnd_app, Number_numeral.
Qed.

End Units.

(** X7: a numeral followed by a unit parses to the number of the
    numeral with that unit, and resolves accordingly: [ms] and [mspe]
    are recognised though they end like [s] and [spe] do, and [grad]
    though it ends like [rad].  A time in [s] resolves to a thousand
    times its number and one in [spe] to that times the element
    count; an angle in [turn] resolves to [2 * PI] times its number. *)
Theorem units_parse_resolve (Number : string → option Q) (numeral : string)
    (value PI elementCount : Q) :
  Number numeral = Some value →
  endsWith numeral "m" = false →
  endsWith numeral "g" = false →
  let time := λ unit,
    it ← TimeValue_parse Number (numeral ++ unit);
    Resolve.TimeValue_resolve it elementCount in
  let angle := λ unit,
    it ← AngleValue_parse Number (numeral ++ unit);
    Resolve.AngleValue_resolve PI it in
  time "ms" = Some value
  ∧ time "s" = Some (value * 1000)%Q
  ∧ time "mspe" = Some (value * elementCount)%Q
  ∧ time "spe" = Some (value * 1000 * elementCount)%Q
  ∧ angle "rad" = Some value
  ∧ angle "deg" = Some (value * PI / 180)%Q
  ∧ angle "grad" = Some (value * PI / 200)%Q
  ∧ angle "turn" = Some (value * 2 * PI)%Q.
Proof.
  intros Hnumber Hm Hg time angle. subst time angle. cbv beta.
  rewrite (TimeValue_parse_ms _ _ _ Hnumber),
    (TimeValue_parse_s _ _ _ Hnumber Hm),
    (TimeValue_parse_mspe _ _ _ Hnumber),
    (TimeValue_parse_spe _ _ _ Hnumber Hm),
    (AngleValue_parse_rad _ _ _ Hnumber Hg),
    (AngleValue_parse_deg _ _ _ Hnumber),
    (AngleValue_parse_grad _ _ _ Hnumber),
    (AngleValue_parse_turn _ _ _ Hnumber).
  done.
Qed.

Lemma units_parse_resolve_witness :
  let time := λ unit,
    it ← TimeValue_parse example_Number ("1.5" ++ unit);
    Resolve.TimeValue_resolve it 3 in
  let angle := λ unit,
    it ← AngleValue_parse example_Number ("1.5" ++ unit);
    Resolve.AngleValue_resolve 3 it in
  time "ms" = Some (3 # 2)%Q
  ∧ time "s" = Some ((3 # 2) * 1000)%Q
  ∧ time "mspe" = Some ((3 # 2) * 3)%Q
  ∧ time "spe" = Some ((3 # 2) * 1000 * 3)%Q
  ∧ angle "rad" = Some (3 # 2)%Q
  ∧ angle "deg" = Some ((3 # 2) * 3 / 180)%Q
  ∧ angle "grad" = Some ((3 # 2) * 3 / 200)%Q
  ∧ angle "turn" = Some ((3 # 2) * 2 * 3)%Q.
Proof.
  apply (units_parse_resolve example_Number "1.5" (3 # 2) 3 3).
  - reflexivity.
  - vm_compute. reflexivity.
  - vm_compute. reflexivity.
Defined.

End PropertyValueParseFacts.

Module PropertyFacts.
Import PropertyValueParse PropertyValueParseFacts Property.

#[local] Open Scope string_scope.

(** *** Decimal numerals *)

Lemma uint_of_digit (char : ascii) (digits : Decimal.uint) :
  ElementPropertyMatcher.is_digit char = true →
  ∃ digits',
    DecimalString.uint_of_char char (Some digits) = Some digits'
    ∧ (Ascii.eqb char "0" = false →
       Decimal.unorm digits' = digits' ∧ digits' ≠ Decimal.zero).
Proof.
  destruct char as [[] [] [] [] [] [] [] []]; try discriminate; intros _;
    (eexists; split; [reflexivity|]); try discriminate;
    intros _; split; (reflexivity || discriminate).
Qed.

Lemma uint_of_digits (numeral : list ascii) :
  Forall (λ char, ElementPropertyMatcher.is_digit char = true) numeral →
  ∃ digits,
    DecimalString.NilEmpty.uint_of_string (string_of_list_ascii numeral)
    = Some digits
    ∧ ∀ first rest, numeral = first :: rest → Ascii.eqb first "0" = false →
        Decimal.unorm digits = digits ∧ digits ≠ Decimal.zero.
Proof.
  induction 1 as [|char numeral Hchar _ (digits & Hdigits & _)].
  { exists Decimal.Nil. split; [done|]. by intros first rest. }
  cbn [string_of_list_ascii DecimalString.NilEmpty.uint_of_string].
  rewrite Hdigits.
  destruct (uint_of_digit char digits Hchar) as (digits' & -> & Hnorm).
  exists digits'. split; [done|].
  intros first rest [= <- <-]. apply Hnorm.
Qed.

Lemma printed_denoted (first : ascii) (rest : list ascii) :
  Forall (λ char, ElementPropertyMatcher.is_digit char = true)
         (first :: rest) →
  Ascii.eqb first "0" = false →
  printed (denoted (string_of_list_ascii (first :: rest)))
  = string_of_list_ascii (first :: rest)
  ∧ (1 ≤ denoted (string_of_list_ascii (first :: rest)))%Z.
Proof.
  intros Hdigits Hfirst.
  destruct (uint_of_digits _ Hdigits) as (digits & Hread & Hnorm).
  destruct (Hnorm first rest eq_refl Hfirst) as [Hunorm Hnonzero].
  unfold printed, denoted. rewrite Hread. rewrite N2Z.id.
  rewrite DecimalN.Unsigned.to_of, Hunorm. split.
  - by apply DecimalString.NilEmpty.sus.
  - assert (N.of_uint digits ≠ 0%N); [|lia].
    intros Hzero.
    pose proof (DecimalN.Unsigned.to_of digits) as Hback.
    rewrite Hzero, Hunorm in Hback. by destruct Hnonzero.
Qed.

(** *** Doubles *)

Lemma Infinity_large : (2 ^ 53 ≤ Infinity)%Z.
Proof. by vm_compute. Qed.

(** A natural number below [2 ^ 53] is a double. *)
Lemma nearestDouble_small (number : Z) :
  (number < 2 ^ 53)%Z → nearestDouble number = number.
Proof.
  intros Hsmall. unfold nearestDouble.
  assert (Hlog : (Z.log2 number < 53)%Z).
  { destruct (decide (0 < number)%Z) as [Hpos|Hneg].
    - by apply Z.log2_lt_pow2.
    - rewrite Z.log2_nonpos by lia. lia. }
  destruct (Z.leb_spec (Z.log2 number - 52) 0); [done|lia].
Qed.

(** And the others are rounded to doubles that are no smaller. *)
Lemma nearestDouble_large (number : Z) :
  (2 ^ 53 ≤ number)%Z → (2 ^ 53 ≤ nearestDouble number)%Z.
Proof.
  intros Hlarge. unfold nearestDouble.
  assert (Hpos : (0 < number)%Z).
  { pose proof (Z.pow_pos_nonneg 2 53). lia. }
  assert (Hlog : (53 ≤ Z.log2 number)%Z) by (by apply Z.log2_le_pow2).
  set (shift := (Z.log2 number - 52)%Z).
  assert (Hshift : (1 ≤ shift)%Z) by (subst shift; lia).
  destruct (Z.leb_spec shift 0); [lia|].
  apply Z.min_glb; [|apply Infinity_large].
  set (quotient := Z.shiftr number shift).
  assert (Hquotient : (2 ^ 52 ≤ quotient)%Z).
  { subst quotient. rewrite Z.shiftr_div_pow2 by lia.
    apply Z.div_le_lower_bound; [by apply Z.pow_pos_nonneg; lia|].
    rewrite <- Z.pow_add_r by lia.
    replace (shift + 52)%Z with (Z.log2 number) by (subst shift; lia).
    by apply Z.log2_spec. }
  match goal with
  | |- (_ ≤ Z.shiftl ?rounded shift)%Z =>
      assert (Hrounded : (2 ^ 52 ≤ rounded)%Z)
        by (destruct (_ || _); lia);
      generalize dependent rounded
  end.
  intros rounded Hrounded. rewrite Z.shiftl_mul_pow2 by lia.
  assert (Hpower : (2 ^ 1 ≤ 2 ^ shift)%Z)
    by (apply Z.pow_le_mono_r; lia).
  change (2 ^ 53)%Z with (2 ^ 52 * 2 ^ 1)%Z.
  apply Z.mul_le_mono_nonneg; [by vm_compute|done|by vm_compute|done].
Qed.

Lemma nearestDouble_safe (number : Z) :
  (nearestDouble number < 2 ^ 53)%Z → nearestDouble number = number.
Proof.
  intros Hsafe. apply nearestDouble_small.
  destruct (decide (number < 2 ^ 53)%Z) as [Hsmall|Hlarge]; [done|].
  pose proof (nearestDouble_large number). lia.
Qed.

Lemma nearestDouble_positive (number : Z) :
  (1 ≤ number)%Z → (1 ≤ nearestDouble number)%Z.
Proof.
  intros Hpositive.
  destruct (decide (number < 2 ^ 53)%Z) as [Hsmall|Hlarge].
  - by rewrite nearestDouble_small.
  - pose proof (nearestDouble_large number).
    assert (1 ≤ 2 ^ 53)%Z by (by vm_compute). lia.
Qed.

(** Below [2 ^ 53] the shortest decimal that reads as an index is the
    index, printed in full. *)
Lemma closest_elem_of (index power : Z) (found : list Z) (candidate : Z) :
  closest index power found = Some candidate → candidate ∈ found.
Proof.
  destruct found as [|low [|high found]]; cbn [closest]; [done| |].
  - intros [= <-]. by left.
  - repeat case_match; intros [= <-]; set_solver.
Qed.

Lemma shortestAmong_safe (index : Z) (powers : list Z) :
  (index < 2 ^ 53)%Z → shortestAmong index powers = index.
Proof.
  intros Hsafe. induction powers as [|power powers IH]; [done|].
  cbn [shortestAmong].
  destruct (closest index power (candidates index power)) as [candidate|]
    eqn:Hclosest; [|done].
  apply closest_elem_of in Hclosest. unfold candidates in Hclosest.
  apply list_elem_of_In, filter_In in Hclosest as [_ Hreads].
  apply andb_true_iff in Hreads as [_ Hreads].
  apply Z.eqb_eq in Hreads. rewrite <- Hreads.
  symmetry. apply nearestDouble_safe. by rewrite Hreads.
Qed.

Lemma toString_safe (index : Z) :
  (index < 2 ^ 53)%Z → toString index = printed index.
Proof.
  intros Hsafe. unfold toString, shortest.
  rewrite shortestAmong_safe by done.
  pose proof Infinity_large.
  destruct (Z.eqb_spec index Infinity); [lia|].
  assert (2 ^ 53 ≤ 10 ^ 21)%Z by (by vm_compute).
  destruct (Z.ltb_spec index (10 ^ 21)); [done|lia].
Qed.

Lemma toString_decimal (first : ascii) (rest : list ascii) :
  Forall (λ char, ElementPropertyMatcher.is_digit char = true)
         (first :: rest) →
  Ascii.eqb first "0" = false →
  (1 ≤ decimal (string_of_list_ascii (first :: rest)))%Z
  ∧ ((decimal (string_of_list_ascii (first :: rest)) < 2 ^ 53)%Z →
     toString (decimal (string_of_list_ascii (first :: rest)))
     = string_of_list_ascii (first :: rest)).
Proof.
  intros Hdigits Hfirst.
  destruct (printed_denoted first rest Hdigits Hfirst) as [Hprinted Hpositive].
  unfold decimal. split; [by apply nearestDouble_positive|].
  intros Hsafe. rewrite toString_safe by done.
  by rewrite nearestDouble_safe.
Qed.

(** *** Element names *)

Lemma string_of_list_ascii_app (left right : list ascii) :
  string_of_list_ascii (left ++ right)
  = string_of_list_ascii left ++ string_of_list_ascii right.
Proof.
  induction left as [|char left IH]; [done|].
  cbn [app string_of_list_ascii]. rewrite IH.
  by change (String char (string_of_list_ascii left)
             ++ string_of_list_ascii right)
    with (String char (string_of_list_ascii left
                       ++ string_of_list_ascii right)).
Qed.

Lemma append_empty (source : string) : source ++ "" = source.
Proof.
  induction source as [|char source IH]; [done|].
  change (String char source ++ "") with (String char (source ++ "")).
  by rewrite IH.
Qed.

Lemma leadingDigits_spec (input digits others : list ascii) :
  leadingDigits input = (digits, others) →
  input = (digits ++ others)%list
  ∧ Forall (λ char, ElementPropertyMatcher.is_digit char = true) digits.
Proof.
  revert digits others.
  induction input as [|char input IH]; intros digits others;
    cbn [leadingDigits].
  { intros [= <- <-]. by split. }
  destruct (ElementPropertyMatcher.is_digit char) eqn:Hchar; cycle 1.
  { intros [= <- <-]. by split. }
  destruct (leadingDigits input) as [digits' others'].
  intros [= <- <-]. destruct (IH _ _ eq_refl) as [-> Hdigits].
  split; [done|]. by constructor.
Qed.

(** A name that matches is its first group followed by its second. *)
Lemma matchElementName_Some (elementName typeString : string)
    (indexString : option string) :
  matchElementName elementName = Some (typeString, indexString) →
  elementName = typeString ++ default "" indexString
  ∧ ∀ numeral, indexString = Some numeral →
      (1 ≤ decimal numeral)%Z
      ∧ ((decimal numeral < 2 ^ 53)%Z → toString (decimal numeral) = numeral).
Proof.
  unfold matchElementName.
  destruct (leadingDigits (reverse (chars elementName)))
    as [digits others] eqn:Hsplit.
  apply leadingDigits_spec in Hsplit as [Hsplit Hdigits].
  assert (Hname : elementName
                  = string_of_list_ascii (reverse others)
                    ++ string_of_list_ascii (reverse digits)).
  { rewrite <- string_of_list_ascii_app, <- reverse_app, <- Hsplit.
    rewrite reverse_involutive. symmetry. apply string_of_chars. }
  destruct others as [|last before]; [discriminate|].
  destruct (existsb isLineTerminator before); [discriminate|].
  destruct (reverse digits) as [|first rest] eqn:Hreverse.
  - intros [= <- <-]. split; [done|]. by intros numeral.
  - destruct (Ascii.eqb first "0") eqn:Hfirst; [discriminate|].
    intros [= <- <-]. split; [done|].
    intros numeral [= <-]. apply toString_decimal; [|done].
    rewrite <- Hreverse. by apply Forall_reverse.
Qed.

Lemma includes_Some (typeString : string) (type : ElementType) :
  includes typeString = Some type → typeString = ElementType_name type.
Proof.
  unfold includes. intros Hfind. apply find_some in Hfind as [_ Heq].
  symmetry. by apply String.eqb_eq.
Qed.

Lemma matchElementName_type (type : ElementType) :
  matchElementName (ElementType_name type)
  = Some (ElementType_name type, None)
  ∧ matchElementName (ElementType_name type ++ "1")
    = Some (ElementType_name type, Some "1")
  ∧ includes (ElementType_name type) = Some type.
Proof. by destruct type. Qed.

(** X19: an element name that [Property.parse] accepts is the name of a
    kind, alone or followed by a decimal index from [1] on without
    leading zeros; the name of the kind alone stands for the index [1].
    The index is a double: where it is below [2 ^ 53] it is the number
    the digits denote, and then the key the state files the element
    under is the element name, or the element name followed by [1],
    and parses to the same property; and the matcher of element names
    maps the key of an element with index [1] to the name of its kind.
    Larger indices are rounded, and from [10 ^ 21] on the key is printed
    with an exponent and [Property.parse] rejects it: the twenty-two
    digits of [10 ^ 21] after [figure] are accepted, and the key of that
    element, [figure1e+21], is not. *)
Theorem element_name_canonical :
  (∀ (Number : string → option Q)
     (elementName propertyName propertyValue : string) (property : t),
     parse Number elementName propertyName propertyValue = Ok property →
     (1 ≤ index property)%Z
     ∧ ((index property < 2 ^ 53)%Z →
        (elementName = canonicalElementName (type property) (index property)
         ∨ elementName = ElementType_name (type property)
           ∧ index property = 1%Z)
        ∧ parse Number
                (canonicalElementName (type property) (index property))
                propertyName propertyValue
          = Ok property)
     ∧ (index property = 1%Z →
        ElementPropertyMatcher.replace_trailing_one
          (canonicalElementName (type property) (index property))
        = ElementType_name (type property)))
  ∧ (∀ Number : string → option Q,
       parse Number "figure1000000000000000000000" "value" "initial"
       = Ok {| type := figure; index := 10 ^ 21; name := Key_value;
               value := InitialValue |}
       ∧ canonicalElementName figure (10 ^ 21) = "figure1e+21"
       ∧ parse Number "figure1e+21" "value" "initial"
         = Err (EngineError "Unsupported element type")).
Proof.
  split; cycle 1.
  { intros Number. split; [by vm_compute|]. split; by vm_compute. }
  intros Number elementName propertyName propertyValue property.
  unfold parse at 1.
  destruct (matchElementName elementName) as [[typeString indexString]|]
    eqn:Hmatch; [|discriminate].
  destruct (includes typeString) as [kind|] eqn:Hkind; [|discriminate].
  apply includes_Some in Hkind as ->.
  intros Hparsed.
  assert (Hfields : type property = kind
            ∧ index property = match indexString with
                               | Some numeral => decimal numeral
                               | None => 1%Z
                               end).
  { unfold parseProperty in Hparsed.
    destruct (parseBase _ _ _) as [[found|]|]; try discriminate;
      cbn in Hparsed.
    - destruct found. by injection Hparsed as <-.
    - destruct (parseOfType _ _ _ _) as [[[]|]|]; try discriminate.
      cbn in Hparsed. by injection Hparsed as <-. }
  destruct Hfields as [Htype Hindex]. rewrite Htype, Hindex.
  pose proof (matchElementName_Some _ _ _ Hmatch) as [Hname Hnumeral].
  assert (Hone : toString 1 = "1") by (by vm_compute).
  unfold canonicalElementName.
  destruct indexString as [numeral|].
  - destruct (Hnumeral numeral eq_refl) as [Hpositive Hprinted].
    change (default "" (Some numeral)) with numeral in Hname.
    split; [done|]. split.
    + intros Hsafe. rewrite (Hprinted Hsafe), <- Hname.
      split; [by left|].
      unfold parse. rewrite Hmatch.
      by destruct (matchElementName_type kind) as (_ & _ & ->).
    + intros Hindex1.
      assert (numeral = "1") as ->.
      { rewrite <- Hprinted by (rewrite Hindex1; by vm_compute).
        by rewrite Hindex1. }
      rewrite Hindex1, Hone. by destruct kind.
  - change (default "" None) with "" in Hname.
    rewrite append_empty in Hname. subst elementName.
    split; [done|]. rewrite Hone. split.
    + intros _. split; [by right|]. unfold parse.
      destruct (matchElementName_type kind) as (_ & -> & ->).
      change (decimal "1") with 1%Z. done.
    + intros _. by destruct kind.
Qed.

Lemma example_property_eq :
  parse example_Number "figure2" "alpha" "5" = Ok example_property.
Proof. vm_compute. reflexivity. Qed.

Lemma element_name_canonical_witness :
  (1 ≤ index example_property)%Z
  ∧ ("figure2" = canonicalElementName (type example_property)
                                      (index example_property)
     ∨ "figure2" = ElementType_name (type example_property)
       ∧ index example_property = 1%Z)
  ∧ parse example_Number
          (canonicalElementName (type example_property)
                                (index example_property))
          "alpha" "5"
    = Ok example_property.
Proof.
  destruct element_name_canonical as [Hcanonical _].
  destruct (Hcanonical example_Number "figure2" "alpha" "5" example_property
              example_property_eq) as (Hpositive & Hsafe & _).
  split; [exact Hpositive|]. apply Hsafe. by vm_compute.
Defined.

(** *** Property names *)

Lemma found_Ok key propertyName propertyValue parser parsed :
  found key propertyName propertyValue parser = Ok parsed →
  (∃ value, parsed = Some (key, value))
  ∧ found key propertyName "initial" parser
    = Ok (Some (key, InitialValue)).
Proof.
  unfold found, parsePropertyValue.
  destruct (InitialValue_parse propertyValue ?? parser propertyValue)
    as [value|]; [|discriminate].
  cbn. intros [= <-]. split; [by exists value|done].
Qed.

Ltac found_cases :=
  repeat match goal with
  | |- context [String.eqb ?propertyName ?literal] =>
      destruct (String.eqb_spec propertyName literal) as [->|?]
  end.

Ltac listed := by repeat constructor.

Ltac unlisted :=
  rewrite ?not_elem_of_cons; repeat split; try done; apply not_elem_of_nil.

Lemma parseBase_Ok Number propertyName propertyValue parsed :
  parseBase Number propertyName propertyValue = Ok parsed →
  match parsed with
  | Some (key, value) =>
      key ∈ [Key_value; Key_transitionDuration; Key_transitionEasing]
      ∧ propertyName
        ∈ ["value"; "transition_duration"; "transition_easing"]
      ∧ parseBase Number propertyName "initial"
        = Ok (Some (key, InitialValue))
  | None =>
      (propertyName ∉ ["value"; "transition_duration"; "transition_easing"])
      ∧ parseBase Number propertyName "initial" = Ok None
  end.
Proof.
  unfold parseBase. found_cases.
  - intros ((value & ->) & Hinitial)%found_Ok.
    split; [listed|]. split; [listed|done].
  - intros ((value & ->) & Hinitial)%found_Ok.
    split; [listed|]. split; [listed|done].
  - intros ((value & ->) & Hinitial)%found_Ok.
    split; [listed|]. split; [listed|done].
  - intros [= <-]. split; [unlisted|done].
Qed.

Lemma parseOfType_Ok Number kind propertyName propertyValue parsed :
  parseOfType Number kind propertyName propertyValue = Ok parsed →
  match parsed with
  | Some (key, value) =>
      (ElementType_name kind ∉ ["name"; "text"; "video"; "effect"])
      ∧ parseOfType Number kind propertyName "initial"
        = Ok (Some (key, InitialValue))
  | None => parseOfType Number kind propertyName "initial" = Ok None
  end.
Proof.
  unfold parseOfType.
  destruct kind; found_cases;
    try (intros [= <-]; done);
    (intros ((value & ->) & Hinitial)%found_Ok; split; [unlisted|done]).
Qed.

Lemma parseProperty_Ok Number kind position propertyName propertyValue
    property :
  parseProperty Number kind position propertyName propertyValue
  = Ok property →
  type property = kind ∧ index property = position
  ∧ (ElementType_name kind ∈ ["name"; "text"; "video"; "effect"] →
     propertyName ∈ ["value"; "transition_duration"; "transition_easing"]
     ∧ name property
       ∈ [Key_value; Key_transitionDuration; Key_transitionEasing])
  ∧ parseProperty Number kind position propertyName "initial"
    = Ok (reset property).
Proof.
  unfold parseProperty.
  destruct (parseBase Number propertyName propertyValue) as [parsed|e]
    eqn:Hbase; [|discriminate].
  apply parseBase_Ok in Hbase. cbn [mbind result_bind].
  destruct parsed as [[key value]|].
  - destruct Hbase as (Hkey & Hname & ->). cbn. intros [= <-]. cbn.
    by repeat (split; [done|]).
  - destruct Hbase as [Hname ->]. cbn [mbind result_bind].
    destruct (parseOfType Number kind propertyName propertyValue)
      as [parsed|e] eqn:Hkind; [|discriminate].
    apply parseOfType_Ok in Hkind. cbn [mbind result_bind].
    destruct parsed as [[key value]|]; [|discriminate].
    destruct Hkind as [Hkind ->]. cbn. intros [= <-]. cbn.
    by repeat (split; [done|]).
Qed.

Lemma parse_Ok Number elementName propertyName propertyValue property :
  parse Number elementName propertyName propertyValue = Ok property →
  ∃ kind position,
    (∀ propertyName propertyValue,
       parse Number elementName propertyName propertyValue
       = parseProperty Number kind position propertyName propertyValue)
    ∧ parseProperty Number kind position propertyName propertyValue
      = Ok property.
Proof.
  unfold parse.
  destruct (matchElementName elementName) as [[typeString indexString]|];
    [|discriminate].
  destruct (includes typeString) as [kind|]; [|discriminate].
  intros Hparsed. by eexists _, _.
Qed.

(** X20: the kinds [name], [text], [video] and [effect] have no
    property of their own: [Property.parse] accepts for them the
    property names [value], [transition_duration] and
    [transition_easing] only, so that the [alpha], the [volume] and the
    [loop] of a video cannot be set. *)
Theorem kinds_without_properties (Number : string → option Q)
    (elementName propertyName propertyValue : string) (property : t) :
  parse Number elementName propertyName propertyValue = Ok property →
  ElementType_name (type property) ∈ ["name"; "text"; "video"; "effect"] →
  propertyName ∈ ["value"; "transition_duration"; "transition_easing"]
  ∧ Property.name property
    ∈ [Key_value; Key_transitionDuration; Key_transitionEasing].
Proof.
  intros (kind & position & _ & Hparsed)%parse_Ok Hkind.
  apply parseProperty_Ok in Hparsed as (Htype & _ & Hbase & _).
  apply Hbase. by rewrite <- Htype.
Qed.

Lemma example_video_eq :
  parse example_Number "video" "value" "a.mp4" = Ok example_video.
Proof. vm_compute. reflexivity. Qed.

Lemma kinds_without_properties_witness :
  "value" ∈ ["value"; "transition_duration"; "transition_easing"]
  ∧ Property.name example_video
    ∈ [Key_value; Key_transitionDuration; Key_transitionEasing].
Proof.
  apply (kinds_without_properties example_Number "video" "value" "a.mp4").
  - exact example_video_eq.
  - vm_compute. by repeat constructor.
Defined.

(** X21: every property that can be set can be reset: where
    [Property.parse] accepts a value for a property of an element, it
    accepts [initial] for it, as the same property of the same
    element. *)
Theorem initial_is_accepted (Number : string → option Q)
    (elementName propertyName propertyValue : string) (property : t) :
  parse Number elementName propertyName propertyValue = Ok property →
  parse Number elementName propertyName "initial" = Ok (reset property).
Proof.
  intros (kind & position & -> & Hparsed)%parse_Ok.
  by apply parseProperty_Ok in Hparsed as (_ & _ & _ & ->).
Qed.

Lemma initial_is_accepted_witness :
  parse example_Number "figure2" "alpha" "initial"
  = Ok (reset example_property).
Proof.
  apply (initial_is_accepted example_Number "figure2" "alpha" "5").
  exact example_property_eq.
Defined.

End PropertyFacts.

(** ** Setting properties *)

Module SetPropertyFacts.
Import PropertyFacts SetProperty.

#[local] Open Scope string_scope.

(** *** The elements of the state *)

Lemma get_cons elementName entry (elements : View.ElementPropertiesMap) :
  View.get (entry :: elements) elementName
  = if String.eqb (fst entry) elementName then Some (snd entry)
    else View.get elements elementName.
Proof.
  unfold View.get. cbn [List.find].
  by destruct (String.eqb (fst entry) elementName).
Qed.

Lemma get_app_absent elementName (elements more : View.ElementPropertiesMap) :
  View.get elements elementName = None →
  View.get (elements ++ more)%list elementName = View.get more elementName.
Proof.
  induction elements as [|entry elements IH]; [done|].
  cbn [app]. rewrite !get_cons.
  destruct (String.eqb (fst entry) elementName); [discriminate|]. apply IH.
Qed.

Lemma get_app_other elementName (elements more : View.ElementPropertiesMap) :
  View.get more elementName = None →
  View.get (elements ++ more)%list elementName = View.get elements elementName.
Proof.
  intros Hmore. induction elements as [|entry elements IH]; [done|].
  cbn [app]. rewrite !get_cons.
  by destruct (String.eqb (fst entry) elementName).
Qed.

Lemma get_replace elementName element (elements : View.ElementPropertiesMap)
    other :
  View.get ((λ entry, if String.eqb (fst entry) elementName
                      then (elementName, element) else entry) <$> elements)
           other
  = if String.eqb elementName other
    then (λ _, element) <$> View.get elements elementName
    else View.get elements other.
Proof.
  induction elements as [|entry elements IH].
  { by destruct (String.eqb elementName other). }
  cbn [fmap list_fmap]. rewrite !get_cons, IH.
  destruct (String.eqb_spec (fst entry) elementName) as [Hentry|Hentry].
  - cbn [fst snd]. rewrite Hentry.
    by destruct (String.eqb elementName other).
  - destruct (String.eqb_spec elementName other) as [Heq|Hother].
    + subst other. by destruct (String.eqb_spec (fst entry) elementName).
    + done.
Qed.

Lemma get_setElement elementName element elements other :
  View.get (setElement elementName element elements) other
  = if String.eqb elementName other then Some element
    else View.get elements other.
Proof.
  unfold setElement. case_bool_decide as Hpresent.
  - rewrite get_replace. destruct Hpresent as [old ->]. done.
  - assert (Habsent : View.get elements elementName = None).
    { destruct (View.get elements elementName) eqn:Hget; [|done].
      destruct Hpresent. eauto. }
    destruct (String.eqb_spec elementName other) as [Heq|Hother].
    + subst other. rewrite get_app_absent by done.
      rewrite get_cons. cbn. by rewrite String.eqb_refl.
    + apply get_app_other. rewrite get_cons. cbn.
      by destruct (String.eqb_spec elementName other).
Qed.

Lemma get_delete_element elementName elements other :
  View.get (Engine.delete_element elementName elements) other
  = if String.eqb elementName other then None else View.get elements other.
Proof.
  unfold Engine.delete_element.
  induction elements as [|entry elements IH]; cbn [List.filter].
  { by destruct (String.eqb elementName other). }
  destruct (String.eqb_spec (fst entry) elementName) as [Hentry|Hentry];
    cbn [negb]; rewrite ?get_cons, IH.
  - destruct (String.eqb_spec elementName other) as [Heq|Hother]; [done|].
    destruct (String.eqb_spec (fst entry) other); [congruence|done].
  - destruct (String.eqb_spec elementName other) as [Heq|Hother]; [|done].
    subst other. by destruct (String.eqb_spec (fst entry) elementName).
Qed.

(** *** The properties of an element *)

Lemma getProperty_withProperties kind position properties key :
  getProperty key (withProperties kind position properties) = properties key.
Proof. by destruct key. Qed.

Lemma withProperties_ext kind position properties properties' :
  (∀ key, properties key = properties' key) →
  withProperties kind position properties
  = withProperties kind position properties'.
Proof. intros Hext. unfold withProperties. by rewrite !Hext. Qed.

Lemma withProperties_getProperty element :
  withProperties (type element) (index element)
                 (λ key, getProperty key element)
  = element.
Proof. by destruct element. Qed.

Lemma setProperty_getProperty key propertyValue element other :
  getProperty other (setProperty key propertyValue element)
  = if decide (other = key) then propertyValue else getProperty other element.
Proof. unfold setProperty. by rewrite getProperty_withProperties. Qed.

Lemma setProperty_undo key propertyValue element :
  getProperty key element = None →
  setProperty key None (setProperty key (Some propertyValue) element)
  = element.
Proof.
  intros Hnone. rewrite <- (withProperties_getProperty element) at 2.
  unfold setProperty at 1.
  assert (Hmeta : type (setProperty key (Some propertyValue) element)
                  = type element
                  ∧ index (setProperty key (Some propertyValue) element)
                    = index element) by done.
  destruct Hmeta as [-> ->]. apply withProperties_ext. intros other.
  rewrite setProperty_getProperty. by case_decide; subst.
Qed.

Lemma keysLength_empty element :
  (∀ key, getProperty key element = None) → keysLength element = 2%nat.
Proof.
  intros Hnone. unfold keysLength.
  assert (List.filter (λ key, bool_decide (is_Some (getProperty key element)))
                      PROPERTY_KEYS = []) as ->; [|done].
  induction PROPERTY_KEYS as [|key keys IH]; [done|].
  cbn [List.filter]. rewrite Hnone.
  rewrite bool_decide_eq_false_2; [done|]. by intros [? ?].
Qed.

Section Number.
Variable Number : string → option Q.

Lemma setElementProperty_set propertyName propertyValue elementName
    elements property :
  Property.parse Number elementName propertyName propertyValue
  = Ok property →
  Property.value property ≠ InitialValue →
  setElementProperty Number propertyName propertyValue elementName elements
  = Ok (setElement
          (Property.canonicalElementName (Property.type property)
                                         (Property.index property))
          (match View.get elements
                   (Property.canonicalElementName (Property.type property)
                                                  (Property.index property))
           with
           | Some element =>
               setProperty (Property.name property)
                           (Some (Property.value property)) element
           | None =>
               newElement (Property.type property) (Property.index property)
                          (Property.name property) (Property.value property)
           end)
          elements).
Proof.
  intros Hparsed Hvalue. unfold setElementProperty. rewrite Hparsed.
  cbn [mbind result_bind].
  destruct (Property.value property) eqn:Hcase; try done;
    by destruct (View.get elements _).
Qed.

(** X22: [set_property] with a value and then with [initial] is a round
    trip.  Setting a property of an element that the state does not
    hold, or that lacks the property and has another one, files the
    value under the key of the element and leaves every other element
    alone; resetting the property afterwards gives back the elements
    the state held, and an element made by the first update is gone
    again. *)
Theorem set_property_round_trip
    (elementName propertyName propertyValue : string)
    (property : Property.t) (elements : View.ElementPropertiesMap) :
  Property.parse Number elementName propertyName propertyValue
  = Ok property →
  Property.value property ≠ InitialValue →
  settable elements
    (Property.canonicalElementName (Property.type property)
                                   (Property.index property))
    (Property.name property) →
  ∃ elements1 elements2 element,
    setElementProperty Number propertyName propertyValue elementName elements
    = Ok elements1
    ∧ View.get elements1
        (Property.canonicalElementName (Property.type property)
                                       (Property.index property))
      = Some element
    ∧ getProperty (Property.name property) element
      = Some (Property.value property)
    ∧ (∀ other,
         other ≠ Property.canonicalElementName (Property.type property)
                                               (Property.index property) →
         View.get elements1 other = View.get elements other)
    ∧ setElementProperty Number propertyName "initial" elementName elements1
      = Ok elements2
    ∧ ∀ other, View.get elements2 other = View.get elements other.
Proof.
  intros Hparsed Hvalue Hsettable.
  set (key := Property.canonicalElementName (Property.type property)
                                            (Property.index property)) in *.
  rewrite (setElementProperty_set _ _ _ _ _ Hparsed Hvalue). fold key.
  set (element := match View.get elements key with
                  | Some element =>
                      setProperty (Property.name property)
                                  (Some (Property.value property)) element
                  | None =>
                      newElement (Property.type property)
                                 (Property.index property)
                                 (Property.name property)
                                 (Property.value property)
                  end).
  exists (setElement key element elements).
  assert (Hreset : Property.parse Number elementName propertyName "initial"
                   = Ok (Property.reset property)).
  { apply parse_Ok in Hparsed as (kind & position & -> & Hparsed).
    by apply parseProperty_Ok in Hparsed as (_ & _ & _ & ->). }
  assert (Hget : View.get (setElement key element elements) key
                 = Some element).
  { rewrite get_setElement. by rewrite String.eqb_refl. }
  assert (Hproperty : getProperty (Property.name property) element
                      = Some (Property.value property)).
  { unfold element. destruct (View.get elements key).
    - rewrite setProperty_getProperty. by case_decide.
    - unfold newElement. rewrite getProperty_withProperties.
      by case_decide. }
  unfold setElementProperty at 1. rewrite Hreset.
  cbn [mbind result_bind Property.reset Property.value Property.type
       Property.index Property.name].
  fold key. rewrite Hget, Hproperty.
  rewrite bool_decide_eq_true_2 by eauto.
  unfold settable in Hsettable. fold key in Hsettable.
  destruct (View.get elements key) as [old|] eqn:Hold.
  - destruct Hsettable as [Hnone Hkeys].
    assert (Hundone : setProperty (Property.name property) None element
                      = old).
    { unfold element. by apply setProperty_undo. }
    rewrite Hundone.
    destruct (Nat.eqb_spec (keysLength old) 2) as [?|_]; [done|].
    eexists _, element. split; [done|]. split; [done|]. split; [done|].
    split.
    { intros other Hother. rewrite get_setElement.
      by destruct (String.eqb_spec key other). }
    split; [done|].
    intros other. rewrite !get_setElement.
    destruct (String.eqb_spec key other) as [<-|Hother]; [|done].
    by rewrite Hold.
  - assert (Hempty : keysLength (setProperty (Property.name property) None
                                             element) = 2%nat).
    { apply keysLength_empty. intros other.
      rewrite setProperty_getProperty. case_decide; [done|].
      unfold element, newElement. rewrite getProperty_withProperties.
      by case_decide. }
    rewrite Hempty. cbn [Nat.eqb].
    eexists _, element. split; [done|]. split; [done|]. split; [done|].
    split.
    { intros other Hother. rewrite get_setElement.
      by destruct (String.eqb_spec key other). }
    split; [done|].
    intros other. rewrite get_delete_element, get_setElement.
    destruct (String.eqb_spec key other) as [<-|Hother]; [|done].
    by rewrite Hold.
Qed.

End Number.

Lemma set_property_round_trip_witness :
  ∃ elements1 elements2 element,
    setElementProperty PropertyValueParse.example_Number "alpha" "5" "figure2" example_elements
    = Ok elements1
    ∧ View.get elements1
        (Property.canonicalElementName (Property.type Property.example_property)
                                       (Property.index Property.example_property))
      = Some element
    ∧ getProperty (Property.name Property.example_property) element
      = Some (Property.value Property.example_property)
    ∧ (∀ other,
         other ≠ Property.canonicalElementName
                   (Property.type Property.example_property)
                   (Property.index Property.example_property) →
         View.get elements1 other = View.get example_elements other)
    ∧ setElementProperty PropertyValueParse.example_Number "alpha" "initial" "figure2" elements1
      = Ok elements2
    ∧ ∀ other, View.get elements2 other = View.get example_elements other.
Proof.
  apply (set_property_round_trip PropertyValueParse.example_Number "figure2" "alpha" "5"
           Property.example_property example_elements).
  - exact example_property_eq.
  - discriminate.
  - vm_compute. exact I.
Defined.

End SetPropertyFacts.

(** ** Documents *)

Module DocumentFacts.
Import Document.

#[local] Open Scope string_scope.

(** *** Labels *)

(** What one round of the loop does to the labels. *)
Lemma labels_unfold line commandLines index labelIndices result :
  labels (line :: commandLines) index labelIndices = Ok result →
  ∃ labelIndices',
    labels commandLines (S index) labelIndices' = Ok result
    ∧ ((labelIndices' = labelIndices ∧ ∀ labelName, ¬ isLabel labelName line)
       ∨ ∃ labelName,
           labelIndices' = <[labelName := index]> labelIndices
           ∧ ∀ labelName', isLabel labelName' line ↔ labelName' = labelName).
Proof.
  cbn [labels].
  destruct line as [| |arguments|elementName properties|commandName arguments];
    cbn [mbind result_bind];
    try (intros Hrest; exists labelIndices; split; [done|]; left;
         split; [done|]; by intros labelName (? & ? & ? & _)).
  case_bool_decide as Hcommand; cbn [mbind result_bind]; cycle 1.
  { intros Hrest. exists labelIndices. split; [done|]. left.
    split; [done|]. intros labelName (? & ? & [= -> ->] & ? & _). done. }
  destruct arguments as [|argument arguments]; cbn [map_result];
    [discriminate|].
  destruct (getValue argument) as [labelName|] eqn:Hargument;
    [|discriminate].
  cbn [mbind result_bind].
  destruct arguments as [|argument' arguments]; cbn [map_result]; cycle 1.
  { destruct (getValue argument'); [|discriminate]. cbn [mbind result_bind].
    destruct (map_result _ arguments); discriminate. }
  cbn [mbind result_bind]. intros Hrest.
  exists (<[labelName := index]> labelIndices). split; [done|]. right.
  exists labelName. split; [done|]. intros labelName'. split.
  - intros (? & ? & [= -> ->] & _ & Hname). congruence.
  - intros ->. by exists commandName, argument.
Qed.

Lemma labels_spec commandLines :
  ∀ index labelIndices result,
    labels commandLines index labelIndices = Ok result →
    ∀ labelName position,
      result !! labelName = Some position
      ↔ (∃ offset line,
           position = (index + offset)%nat
           ∧ commandLines !! offset = Some line
           ∧ isLabel labelName line
           ∧ ∀ later line',
               (offset < later)%nat → commandLines !! later = Some line' →
               ¬ isLabel labelName line')
        ∨ (labelIndices !! labelName = Some position
           ∧ ∀ offset line,
               commandLines !! offset = Some line → ¬ isLabel labelName line).
Proof.
  induction commandLines as [|line commandLines IH];
    intros index labelIndices result.
  { cbn. intros [= <-] labelName position. split.
    - intros Hfound. right. split; [done|]. by intros offset line.
    - intros [(offset & line & _ & Hline & _)|[Hfound _]]; [done|done]. }
  intros (labelIndices' & Hrest & Hstep)%labels_unfold labelName position.
  rewrite (IH _ _ _ Hrest labelName position). clear IH Hrest. split.
  - intros [(offset & line' & -> & Hline & Hlabel & Hlast)
           |[Hfound Hnone]].
    + left. exists (S offset), line'. split; [lia|]. split; [done|].
      split; [done|]. intros [|later] line'' Hlater; [lia|].
      cbn. apply Hlast. lia.
    + destruct Hstep as [[-> Hplain]|(labelName' & -> & Hsame)].
      * right. split; [done|]. intros [|offset] line'; cbn.
        -- intros [= <-]. apply Hplain.
        -- apply Hnone.
      * destruct (decide (labelName = labelName')) as [<-|Hne].
        -- rewrite lookup_insert_eq in Hfound. injection Hfound as <-.
           left. exists 0%nat, line. split; [lia|]. split; [done|].
           split; [by apply Hsame|].
           intros [|later] line' Hlater; [lia|]. cbn. apply Hnone.
        -- rewrite lookup_insert_ne in Hfound by done.
           right. split; [done|]. intros [|offset] line'; cbn.
           ++ intros [= <-] Hlabel%Hsame. done.
           ++ apply Hnone.
  - intros [(offset & line' & -> & Hline & Hlabel & Hlast)
           |[Hfound Hnone]].
    + destruct offset as [|offset]; cbn in Hline.
      * injection Hline as <-. right.
        destruct Hstep as [[-> Hplain]|(labelName' & -> & Hsame)].
        { by destruct (Hplain labelName). }
        apply Hsame in Hlabel as ->. split.
        -- rewrite lookup_insert_eq. f_equal. lia.
        -- intros offset line' Hline'. apply (Hlast (S offset)); [lia|done].
      * left. exists offset, line'. split; [lia|]. split; [done|].
        split; [done|]. intros later line'' Hlater Hline''.
        apply (Hlast (S later)); [lia|done].
    + right. split.
      * destruct Hstep as [[-> _]|(labelName' & -> & Hsame)]; [done|].
        rewrite lookup_insert_ne; [done|].
        intros <-. apply (Hnone 0%nat line); [done|]. by apply Hsame.
      * intros offset line' Hline'. by apply (Hnone (S offset)).
Qed.

Section Parser.
Variable parseLine : string → result Line.
Variable replace : list string → string → string.

Lemma parse_labels frontMatter body document :
  parse parseLine replace frontMatter body = Ok document →
  labels (commandLines document) 0 ∅ = Ok (labelIndices document).
Proof.
  unfold parse.
  destruct (flatMap_result _ _) as [lines|e]; [|discriminate].
  cbn [mbind result_bind].
  destruct (map_result parseLine _) as [blankLineLines|e]; [|discriminate].
  cbn [mbind result_bind].
  destruct (labels _ 0 ∅) as [labelIndices|e] eqn:Hlabels; [|discriminate].
  cbn [mbind result_bind]. by intros [= <-].
Qed.

(** X23: the label index of a document maps a label name to the
    position of the last [label] command with that name among the
    command lines, and holds no other name: of two commands that
    declare the same label, the later one wins. *)
Theorem label_is_last_declaration (frontMatter : gmap string (list string))
    (body : option (list Line)) (document : t) :
  parse parseLine replace frontMatter body = Ok document →
  ∀ labelName position,
    labelIndices document !! labelName = Some position
    ↔ ∃ line,
        commandLines document !! position = Some line
        ∧ isLabel labelName line
        ∧ ∀ later line',
            (position < later)%nat →
            commandLines document !! later = Some line' →
            ¬ isLabel labelName line'.
Proof.
  intros Hlabels%parse_labels labelName position.
  rewrite (labels_spec _ _ _ _ Hlabels labelName position). split.
  - intros [(offset & line & -> & Hline & Hlabel & Hlast)|[Hnone _]];
      [|by rewrite lookup_empty in Hnone].
    by exists line.
  - intros (line & Hline & Hlabel & Hlast). left. by exists position, line.
Qed.

(** *** The defaults of the metadata *)

Lemma stringArray_metadata frontMatter key :
  key ≠ "METADATA_DEFAULTS" →
  stringArray (metadata frontMatter) key = default [] (frontMatter !! key).
Proof.
  intros Hkey. unfold stringArray, metadata.
  rewrite lookup_insert_ne by done. rewrite lookup_fmap.
  by destruct (frontMatter !! key).
Qed.

Lemma map_result_Ok {A B : Type} (f : A → result B) (g : A → B)
    (array : list A) :
  Forall (λ it, f it = Ok (g it)) array →
  map_result f array = Ok (g <$> array).
Proof.
  induction 1 as [|it array Hit _ IH]; [done|].
  cbn [map_result]. by rewrite Hit, IH.
Qed.

(** X24: the defaults of the metadata never apply.  In a document whose
    front matter declares neither [macro_line] nor [blank_line], every
    blank line and every macro line is dropped: the command lines are
    those of the element lines and the command lines of the body,
    whatever the parser makes of a line. *)
Theorem metadata_defaults_unused (frontMatter : gmap string (list string))
    (body : list Line) :
  frontMatter !! "macro_line" = None →
  frontMatter !! "blank_line" = None →
  macrosWellFormed body →
  parse parseLine replace frontMatter (Some body)
  = (labelIndices ← labels (plainCommandLines body) 0 ∅;
     Ok {| commandLines := plainCommandLines body;
           labelIndices := labelIndices |}).
Proof.
  intros Hmacro Hblank Hbody. unfold parse.
  rewrite !stringArray_metadata by done. rewrite Hmacro, Hblank.
  cbn [default fmap option_fmap option_map map_result].
  unfold flatMap_result.
  rewrite (map_result_Ok _ (λ line, match line with
                                    | MacroLine _ => []
                                    | _ => [line]
                                    end)); cycle 1.
  { apply Forall_forall. intros line Hin.
    apply list_elem_of_In, filter_In in Hin as [Hin _].
    apply list_elem_of_In in Hin.
    unfold macrosWellFormed in Hbody. rewrite Forall_forall in Hbody.
    specialize (Hbody line Hin). destruct line; try done.
    destruct (Nat.leb_spec (length arguments) 1); [lia|done]. }
  cbn [mbind result_bind].
  assert (Hlines :
    concat ((λ line, match line with
                     | ElementLine elementName properties =>
                         elementCommandLines elementName properties
                     | _ => [line]
                     end)
            <$> concat ((λ line, match line with
                                 | BlankLine => []
                                 | _ => [line]
                                 end)
                        <$> concat ((λ line, match line with
                                             | MacroLine _ => []
                                             | _ => [line]
                                             end)
                                    <$> List.filter
                                          (λ it, negb (isCommentLine it))
                                          body)))
    = plainCommandLines body).
  { unfold plainCommandLines. clear Hbody.
    induction body as [|line body IH]; [done|].
    destruct line; cbn [List.filter isCommentLine negb fmap list_fmap concat];
      rewrite ?fmap_app, ?concat_app; cbn [fmap list_fmap concat app];
      rewrite ?fmap_app, ?concat_app; cbn [fmap list_fmap concat app];
      rewrite ?app_nil_r; by rewrite IH. }
  unfold id. by rewrite Hlines.
Qed.

End Parser.

Lemma example_document_eq :
  parse (λ _, Ok BlankLine) (λ _ it, it) ∅ (Some example_body)
  = Ok example_document.
Proof. vm_compute. reflexivity. Qed.

Lemma label_is_last_declaration_witness :
  labelIndices example_document !! "start" = Some 2%nat
  ↔ ∃ line,
      commandLines example_document !! 2%nat = Some line
      ∧ isLabel "start" line
      ∧ ∀ later line',
          (2 < later)%nat →
          commandLines example_document !! later = Some line' →
          ¬ isLabel "start" line'.
Proof.
  exact (label_is_last_declaration (λ _, Ok BlankLine) (λ _ it, it) ∅
           (Some example_body) example_document example_document_eq
           "start" 2%nat).
Defined.

Lemma metadata_defaults_unused_witness :
  parse (λ _, Ok BlankLine) (λ _ it, it) ∅ (Some example_body)
  = (labelIndices ← labels (plainCommandLines example_body) 0 ∅;
     Ok {| commandLines := plainCommandLines example_body;
           labelIndices := labelIndices |}).
Proof.
  apply (metadata_defaults_unused (λ _, Ok BlankLine) (λ _ it, it) ∅
           example_body).
  - reflexivity.
  - reflexivity.
  - unfold macrosWellFormed, example_body. repeat constructor.
Defined.

End DocumentFacts.
